(** * A shallow embedding of the AssemblyScript core compiler (src/compiler.ts)

    The development follows the layout of the source file: types and the IR
    builder first, then the compiler state, the numeric bridge, the memory
    layout, declarations, statements with their flow frames, and calls. *)

From Stdlib Require Import ZArith List String Bool Lia Floats DecimalString Sorted.
From stdpp Require Import gmap strings list.

Local Open Scope string_scope.
Local Open Scope list_scope.
Local Open Scope Z_scope.

#[local] Set Warnings "-register-all".

(** ** Types (types.ts) *)

Module TypeKind.
Inductive t :=
  | I8 | I16 | I32 | I64 | ISIZE
  | U8 | U16 | U32 | U64 | USIZE | BOOL
  | F32 | F64 | VOID.

Definition eqb (a b : t) : bool :=
    match a, b with
    | I8, I8 | I16, I16 | I32, I32 | I64, I64 | ISIZE, ISIZE
    | U8, U8 | U16, U16 | U32, U32 | U64, U64 | USIZE, USIZE | BOOL, BOOL
    | F32, F32 | F64, F64 | VOID, VOID => true
    | _, _ => false
    end.
End TypeKind.

(** Modelled from the spec: the [TypeFlags] enumeration is declared in
    types.ts, which is not part of the sources; the spec (section 3) lists the
    flags signed/float/small/long/integer.  Each flag is one bit of a mask and
    the flags are combined with bitwise or, as compiler.ts does
    ([TypeFlags.SMALL | TypeFlags.INTEGER]). *)
Module TypeFlags.
Definition NONE : Z := 0.
Definition SIGNED : Z := 1.
Definition UNSIGNED : Z := 2.
Definition INTEGER : Z := 4.
Definition FLOAT : Z := 8.
Definition SMALL : Z := 16.
Definition LONG : Z := 32.
Definition VALUE : Z := 64.
Definition REFERENCE : Z := 128.
Definition NULLABLE : Z := 256.
End TypeFlags.

Module NativeType.
Inductive t := None | I32 | I64 | F32 | F64 | Unreachable | Auto.
#[global] Instance eq_dec : EqDecision t.
Proof. solve_decision. Defined.
End NativeType.

(** A semantic type.  Named [Type_] because [Type] is reserved. *)
Record Type_ := mkType {
  kind : TypeKind.t;
  flags : Z;
  size : Z;
  (** internal name of the class a reference type points to, if any *)
  classType : option string
}.

(** Modelled from the spec: [Type.is] lives in types.ts; a type has all the
    flags of [f] when masking with [f] gives [f] back. *)
Definition Type_is (t : Type_) (f : Z) : bool := Z.land (flags t) f =? f.

(** Modelled from the spec: [byteSize] is the size in bits rounded up to
    whole bytes. *)
Definition byteSize (t : Type_) : Z := Z.shiftr (size t + 7) 3.

(** Modelled from the spec (section 3 and 4.4): the type constants of
    types.ts with their kind, flags and size in bits. *)
Module Ty.
Import TypeFlags.
Definition i8 := mkType TypeKind.I8 (Z.lor SIGNED (Z.lor SMALL (Z.lor INTEGER VALUE))) 8 None.
Definition i16 := mkType TypeKind.I16 (Z.lor SIGNED (Z.lor SMALL (Z.lor INTEGER VALUE))) 16 None.
Definition i32 := mkType TypeKind.I32 (Z.lor SIGNED (Z.lor INTEGER VALUE)) 32 None.
Definition i64 := mkType TypeKind.I64 (Z.lor SIGNED (Z.lor LONG (Z.lor INTEGER VALUE))) 64 None.
Definition isize32 := mkType TypeKind.ISIZE (Z.lor SIGNED (Z.lor INTEGER VALUE)) 32 None.
Definition isize64 := mkType TypeKind.ISIZE (Z.lor SIGNED (Z.lor LONG (Z.lor INTEGER VALUE))) 64 None.
Definition u8 := mkType TypeKind.U8 (Z.lor UNSIGNED (Z.lor SMALL (Z.lor INTEGER VALUE))) 8 None.
Definition u16 := mkType TypeKind.U16 (Z.lor UNSIGNED (Z.lor SMALL (Z.lor INTEGER VALUE))) 16 None.
Definition u32 := mkType TypeKind.U32 (Z.lor UNSIGNED (Z.lor INTEGER VALUE)) 32 None.
Definition u64 := mkType TypeKind.U64 (Z.lor UNSIGNED (Z.lor LONG (Z.lor INTEGER VALUE))) 64 None.
Definition usize32 := mkType TypeKind.USIZE (Z.lor UNSIGNED (Z.lor INTEGER VALUE)) 32 None.
Definition usize64 := mkType TypeKind.USIZE (Z.lor UNSIGNED (Z.lor LONG (Z.lor INTEGER VALUE))) 64 None.
Definition bool := mkType TypeKind.BOOL (Z.lor UNSIGNED (Z.lor SMALL (Z.lor INTEGER VALUE))) 1 None.
Definition f32 := mkType TypeKind.F32 (Z.lor SIGNED (Z.lor FLOAT VALUE)) 32 None.
Definition f64 := mkType TypeKind.F64 (Z.lor SIGNED (Z.lor FLOAT VALUE)) 64 None.
Definition void := mkType TypeKind.VOID NONE 0 None.

  (** The integer types of the language. *)
Definition integers : list Type_ :=
    [i8; i16; i32; i64; isize32; isize64; u8; u16; u32; u64; usize32; usize64; bool].
End Ty.

Definition Type_eqb (a b : Type_) : bool :=
  TypeKind.eqb (kind a) (kind b) && (flags a =? flags b) && (size a =? size b)
  && bool_decide (classType a = classType b).

(** Modelled from the spec (section 4.4): every concrete type projects to a
    native type; small integers project to i32 and the size types to i32 or
    i64 by their width. *)
Definition toNativeType (t : Type_) : NativeType.t :=
  match kind t with
  | TypeKind.I64 | TypeKind.U64 => NativeType.I64
  | TypeKind.ISIZE | TypeKind.USIZE =>
      if size t =? 64 then NativeType.I64 else NativeType.I32
  | TypeKind.F32 => NativeType.F32
  | TypeKind.F64 => NativeType.F64
  | TypeKind.VOID => NativeType.None
  | _ => NativeType.I32
  end.

(** ** The IR builder (module.ts) *)

Module UnaryOp.
Inductive t :=
  | EqzI32 | EqzI64
  | PromoteF32 | DemoteF64
  | TruncF32ToI32 | TruncF32ToI64 | TruncF32ToU32 | TruncF32ToU64
  | TruncF64ToI32 | TruncF64ToI64 | TruncF64ToU32 | TruncF64ToU64
  | ConvertI32ToF32 | ConvertU32ToF32 | ConvertI64ToF32 | ConvertU64ToF32
  | ConvertI32ToF64 | ConvertU32ToF64 | ConvertI64ToF64 | ConvertU64ToF64
  | WrapI64 | ExtendI32 | ExtendU32.
End UnaryOp.

Module BinaryOp.
Inductive t :=
  | AddI32 | SubI32 | MulI32 | AndI32 | OrI32 | XorI32 | ShlI32 | ShrI32 | ShrU32
  | EqI32 | NeI32
  | AddI64 | SubI64 | NeI64
  | AddF32 | SubF32 | EqF32 | NeF32
  | AddF64 | SubF64 | EqF64 | NeF64.
End BinaryOp.

(** An IR expression, one constructor per builder call of [Module]; the
    reference [0] that compiler.ts uses for "no expression" is [noExpression]. *)
Inductive ExpressionRef :=
| noExpression
| createI32 (value : Z)
| createI64 (lo hi : Z)
| createF32 (value : float)
| createF64 (value : float)
| createUnary (op : UnaryOp.t) (expr : ExpressionRef)
| createBinary (op : BinaryOp.t) (left right : ExpressionRef)
| createBlock (label : option string) (children : list ExpressionRef) (type : NativeType.t)
| createLoop (label : string) (body : ExpressionRef)
| createIf (condition ifTrue ifFalse : ExpressionRef)
| createBreak (label : string) (condition : ExpressionRef)
| createSwitch (names : list string) (defaultName : string) (condition : ExpressionRef)
| createReturn (expr : ExpressionRef)
| createUnreachable
| createNop
| createDrop (expr : ExpressionRef)
| createGetLocal (index : Z) (type : NativeType.t)
| createSetLocal (index : Z) (value : ExpressionRef)
| createTeeLocal (index : Z) (value : ExpressionRef)
| createGetGlobal (name : string) (type : NativeType.t)
| createSetGlobal (name : string) (value : ExpressionRef)
| createCall (target : string) (operands : list ExpressionRef) (type : NativeType.t)
| createCallImport (target : string) (operands : list ExpressionRef) (type : NativeType.t)
| createStore (bytes : Z) (ptr value : ExpressionRef) (type : NativeType.t) (offset : Z).

(** [_BinaryenExpressionGetId(e) == ExpressionId.Const] *)
Definition isConst (e : ExpressionRef) : bool :=
  match e with
  | createI32 _ | createI64 _ _ | createF32 _ | createF64 _ => true
  | _ => false
  end.

(** 32-bit wrap-around of a JavaScript [|0] integer, as a signed value. *)
Definition i32_wrap (v : Z) : Z := (v + 2 ^ 31) mod 2 ^ 32 - 2 ^ 31.

(** JavaScript [a << n], [a >> n] and [a & b] on 32-bit integers. *)
Definition js_shl (a n : Z) : Z := i32_wrap (Z.shiftl (i32_wrap a) (n mod 32)).
Definition js_shr (a n : Z) : Z := Z.shiftr (i32_wrap a) (n mod 32).
Definition js_and (a b : Z) : Z := i32_wrap (Z.land (i32_wrap a) (i32_wrap b)).

(** ** Small-integer wrap (compiler.ts, helpers) *)

(** Errors thrown by the compiler ([throw new Error] and failed [assert]). *)
Inductive Result (A : Type) :=
| Ok (a : A)
| Throw (message : string).
Arguments Ok {A} a.
Arguments Throw {A} message.

(** Wraps a 32-bit integer expression so it evaluates to a valid value of
    the specified type. *)
Definition makeSmallIntegerWrap (expr : ExpressionRef) (type : Type_) : Result ExpressionRef :=
  match kind type with
  | TypeKind.I8 =>
      Ok (createBinary BinaryOp.ShrI32
            (createBinary BinaryOp.ShlI32 expr (createI32 24))
            (createI32 24))
  | TypeKind.I16 =>
      Ok (createBinary BinaryOp.ShrI32
            (createBinary BinaryOp.ShlI32 expr (createI32 16))
            (createI32 16))
  | TypeKind.U8 => Ok (createBinary BinaryOp.AndI32 expr (createI32 255))
  | TypeKind.U16 => Ok (createBinary BinaryOp.AndI32 expr (createI32 65535))
  | TypeKind.BOOL => Ok (createBinary BinaryOp.AndI32 expr (createI32 1))
  | _ => Throw "small integer type expected"
  end.

(** ** Diagnostics (diagnostics.ts) *)

Record Range := mkRange {
  source : string;  (** normalized path of the source *)
  start : Z;
  end_ : Z
}.

(** [Range.atEnd] *)
Definition atEnd (r : Range) : Range := mkRange (source r) (end_ r) (end_ r).

Module DiagnosticCode.
Inductive t :=
  | Operation_not_supported
  | Type_expected
  | Type_0_is_not_assignable_to_type_1
  | Conversion_from_type_0_to_1_requires_an_explicit_cast
  | A_function_whose_declared_type_is_not_void_must_return_a_value
  | Cannot_assign_to_0_because_it_is_a_constant_or_a_read_only_property
  | An_implementation_cannot_be_declared_in_ambient_contexts
  | Function_implementation_is_missing_or_not_immediately_following_the_declaration
  | A_break_statement_can_only_be_used_within_an_enclosing_iteration_or_switch_statement
  | A_continue_statement_can_only_be_used_within_an_enclosing_iteration_statement
  | Compiling_constant_with_non_constant_initializer_as_mutable
  | _const_declarations_must_be_initialized
  | Duplicate_identifier_0
  | Index_signature_in_type_0_only_permits_reading
  | _this_cannot_be_referenced_in_current_location
  | _super_can_only_be_referenced_in_a_derived_class
  | A_member_initializer_in_a_enum_declaration_cannot_reference_members_declared_after_it.
End DiagnosticCode.

Inductive DiagnosticCategory := INFO | WARNING | ERROR.

(** A reported diagnostic: its code, severity and site.  The formatted
    message arguments are not part of the model. *)
Record DiagnosticMessage := mkDiagnostic {
  code : DiagnosticCode.t;
  category : DiagnosticCategory;
  range : Range
}.

(** ** Syntax tree (ast.ts), as far as the compiler inspects it *)

Module NodeKind.
Inductive t :=
  | IDENTIFIER | NULL | TRUE | FALSE | THIS | SUPER
| ELEMENTACCESS | PROPERTYACCESS | LITERAL | OTHER.
End NodeKind.

(** An expression node.  Expressions are lowered by [compileExpression],
    which the statement and call lowering below use as a collaborator; of the
    node itself only the kind, the range and an identity are read. *)
Record Expression := mkExpression {
  expressionKind : NodeKind.t;
  expressionRange : Range;
  expressionId : Z
}.

Record TypeNode := mkTypeNode {
  typeNodeRange : Range;
  typeNodeName : string
}.

(** An identifier is an expression with a name. *)
Record IdentifierExpression := mkIdentifier {
  text : string;
  asExpression : Expression
}.

Definition identifierRange (i : IdentifierExpression) : Range :=
  expressionRange (asExpression i).

Record VariableDeclaration := mkVariableDeclaration {
  variableName : IdentifierExpression;
  variableType : option TypeNode;
  variableInitializer : option Expression;
  isConstDeclaration : bool;   (** [hasModifier(ModifierKind.CONST, modifiers)] *)
  isLetDeclaration : bool;     (** [hasModifier(ModifierKind.LET, modifiers)] *)
  variableRange : Range;
  variableIsTopLevel : bool;
  variableIsTopLevelExport : bool;
  variableSourceIsEntry : bool; (** [range.source.isEntry] *)
  fileLevelInternalName : string;
  programLevelInternalName : string
}.

Inductive Statement :=
| BlockStatement (r : Range) (statements : list Statement)
| BreakStatement (r : Range) (label : option IdentifierExpression)
| ContinueStatement (r : Range) (label : option IdentifierExpression)
| DoStatement (r : Range) (statement : Statement) (condition : Expression)
| EmptyStatement (r : Range)
| ExpressionStatement (r : Range) (expression : Expression)
| ForStatement (r : Range) (initializer : option Statement) (condition : option Expression)
    (incrementor : option Expression) (statement : Statement)
| IfStatement (r : Range) (condition : Expression) (ifTrue : Statement) (ifFalse : option Statement)
| ReturnStatement (r : Range) (value : option Expression)
| SwitchStatement (r : Range) (condition : Expression)
    (cases : list (option Expression * list Statement))
| ThrowStatement (r : Range) (value : Expression)
| TryStatement (r : Range)
| VariableStatement (r : Range) (declarations : list VariableDeclaration) (parentIsSource : bool)
| VoidStatement (r : Range) (expression : Expression)
| WhileStatement (r : Range) (condition : Expression) (statement : Statement)
| TypeDeclaration (r : Range)
| OtherStatement (r : Range).

Definition statementRange (s : Statement) : Range :=
  match s with
  | BlockStatement r _ | BreakStatement r _ | ContinueStatement r _ | DoStatement r _ _
  | EmptyStatement r | ExpressionStatement r _ | ForStatement r _ _ _ _
  | IfStatement r _ _ _ | ReturnStatement r _ | SwitchStatement r _ _
  | ThrowStatement r _ | TryStatement r | VariableStatement r _ _ | VoidStatement r _
  | WhileStatement r _ _ | TypeDeclaration r | OtherStatement r => r
  end.

Record ParameterNode := mkParameterNode {
  parameterName : string;
  parameterInitializer : option Expression
}.

Record FunctionDeclaration := mkFunctionDeclaration {
  functionName : IdentifierExpression;
  body : option Statement;
  (** [declaration.signature.parameterTypes] *)
  declaredParameters : list ParameterNode;
  (** [declaration.signature.returnType] *)
  declaredReturnType : option TypeNode;
  functionRange : Range;
  functionIsTopLevelExport : bool;
  functionSourceIsEntry : bool
}.

(** ** Program elements (program.ts) *)

(** Modelled from the spec: the [ElementFlags] enumeration of program.ts
    (section 3: "flags set", COMPILED, INLINED, ...), one bit per flag. *)
Module ElementFlags.
Definition NONE : Z := 0.
Definition COMPILED : Z := 1.
Definition IMPORTED : Z := 2.
Definition EXPORTED : Z := 4.
Definition BUILTIN : Z := 8.
Definition DECLARED : Z := 16.
Definition GENERIC : Z := 32.
Definition CONSTANT : Z := 64.
Definition INLINED : Z := 128.
Definition INSTANCE : Z := 256.
Definition START : Z := 512.
End ElementFlags.

(** Modelled from the spec: [Element.is] and [Element.set] of program.ts on
    a flag mask. *)
Definition flags_is (flags flag : Z) : bool := Z.land flags flag =? flag.
Definition flags_set (flags flag : Z) : Z := Z.lor flags flag.

Inductive ConstantValueKind := NONE | INTEGER | FLOAT.

(** A local or a global ([VariableLikeElement]); [index] is used by locals
    (-1 for a virtual local), [declaration] and [namespace] by globals. *)
Record VariableLikeElement := mkVariable {
  internalName : string;
  simpleName : string;
  elementFlags : Z;
  type : Type_;
  constantValueKind : ConstantValueKind;
  constantIntegerValue : Z;   (** an [I64] *)
  constantFloatValue : float;
  index : Z;
  declaration : option VariableDeclaration;
  (** simple name of the enclosing namespace *)
  namespace : option string
}.

Abbreviation Local := VariableLikeElement.
Abbreviation Global := VariableLikeElement.

Definition Element_is (e : VariableLikeElement) (flag : Z) : bool :=
  flags_is (elementFlags e) flag.

Definition withFlags (e : VariableLikeElement) (f : Z) : VariableLikeElement :=
  mkVariable (internalName e) (simpleName e) f (type e) (constantValueKind e)
    (constantIntegerValue e) (constantFloatValue e) (index e) (declaration e) (namespace e).

Definition Element_set (e : VariableLikeElement) (flag : Z) : VariableLikeElement :=
  withFlags e (flags_set (elementFlags e) flag).

Definition withType (e : VariableLikeElement) (t : Type_) : VariableLikeElement :=
  mkVariable (internalName e) (simpleName e) (elementFlags e) t (constantValueKind e)
    (constantIntegerValue e) (constantFloatValue e) (index e) (declaration e) (namespace e).

Definition withIntegerValue (e : VariableLikeElement) (v : Z) : VariableLikeElement :=
  mkVariable (internalName e) (simpleName e) (elementFlags e) (type e) INTEGER
    v (constantFloatValue e) (index e) (declaration e) (namespace e).

Definition withFloatValue (e : VariableLikeElement) (v : float) : VariableLikeElement :=
  mkVariable (internalName e) (simpleName e) (elementFlags e) (type e) FLOAT
    (constantIntegerValue e) v (index e) (declaration e) (namespace e).

(** Modelled from the spec: the [FlowFlags] enumeration of program.ts
    (section 4.3: RETURNS, POSSIBLY_BREAKS, POSSIBLY_CONTINUES,
    POSSIBLY_THROWS), one bit per flag. *)
Module FlowFlags.
Definition NONE : Z := 0.
Definition RETURNS : Z := 1.
Definition POSSIBLY_THROWS : Z := 2.
Definition POSSIBLY_BREAKS : Z := 4.
Definition POSSIBLY_CONTINUES : Z := 8.
End FlowFlags.

(** Modelled from the spec: the [Flow] class of program.ts (section 3 and
    4.3): a frame per lexical construct with its flags, the current break and
    continue labels, the scoped folded locals, and the frame it was pushed
    on. *)
Inductive Flow := mkFlow {
  parent : option Flow;
  flowFlags : Z;
  continueLabel : option string;
  breakLabel : option string;
  (** a [Map], in insertion order *)
  scopedLocals : option (list (string * Local))
}.

Definition Flow_is (f : Flow) (flag : Z) : bool := flags_is (flowFlags f) flag.

Definition Flow_set (f : Flow) (flag : Z) : Flow :=
  mkFlow (parent f) (flags_set (flowFlags f) flag) (continueLabel f) (breakLabel f)
    (scopedLocals f).

Definition withBreakLabel (f : Flow) (l : option string) : Flow :=
  mkFlow (parent f) (flowFlags f) (continueLabel f) l (scopedLocals f).

Definition withContinueLabel (f : Flow) (l : option string) : Flow :=
  mkFlow (parent f) (flowFlags f) l (breakLabel f) (scopedLocals f).

Definition withScopedLocals (f : Flow) (m : option (list (string * Local))) : Flow :=
  mkFlow (parent f) (flowFlags f) (continueLabel f) (breakLabel f) m.

(** [Flow.create]: the topmost frame of a function. *)
Definition Flow_create : Flow := mkFlow None FlowFlags.NONE None None None.

Record Signature := mkSignature {
  parameterTypes : list Type_;
  returnType : Type_;
  thisType : option Type_;
  requiredParameters : Z;
  hasRest : bool
}.

Record FunctionPrototype := mkFunctionPrototype {
  functionDeclaration : FunctionDeclaration;
  (** simple name of the enclosing namespace *)
  prototypeNamespace : option string
}.

(** A resolved class, as far as the compiler reads it: its type, the type of
    its base class, the names of its indexed-access operators
    ([prototype.fnIndexedGet], [prototype.fnIndexedSet]) and its members, a
    member being a function prototype or an element of another kind. *)
Record Class := mkClass {
  classInternalName : string;
  classTypeOf : Type_;
  base : option Type_;
  fnIndexedGet : option string;
  fnIndexedSet : option string;
  members : option (gmap string (option FunctionPrototype))
}.

(** A function type of the module: result and parameter types. *)
Abbreviation FunctionTypeRef := (NativeType.t * list NativeType.t)%type (only parsing).
(** A function of the module is referred to by its name. *)
Abbreviation FunctionRef := string (only parsing).

(** A concrete function instance.  [flow] is the frame statement lowering
    currently works in; [nextBreakId] and [breakStack] are the per-function
    break context counter and stack. *)
Inductive Function := mkFunction {
  prototype : FunctionPrototype;
  functionInternalName : string;
  functionSimpleName : string;
  signature : Signature;
  functionFlags : Z;
  instanceMethodOf : option Class;
  trampoline : option Function;
  additionalLocals : list Type_;
  flow : Flow;
  nextBreakId : Z;
  breakStack : list Z;
  debugLocations : list (Range * ExpressionRef);
  ref : option FunctionRef
}.

Definition Function_is (f : Function) (flag : Z) : bool := flags_is (functionFlags f) flag.

Definition Function_withFlags (f : Function) (x : Z) : Function :=
  mkFunction (prototype f) (functionInternalName f) (functionSimpleName f) (signature f)
    x (instanceMethodOf f) (trampoline f) (additionalLocals f) (flow f)
    (nextBreakId f) (breakStack f) (debugLocations f) (ref f).

Definition Function_set (f : Function) (flag : Z) : Function :=
  Function_withFlags f (flags_set (functionFlags f) flag).

Definition withTrampoline (f : Function) (t : option Function) : Function :=
  mkFunction (prototype f) (functionInternalName f) (functionSimpleName f) (signature f)
    (functionFlags f) (instanceMethodOf f) t (additionalLocals f) (flow f)
    (nextBreakId f) (breakStack f) (debugLocations f) (ref f).

Definition withFlow (f : Function) (x : Flow) : Function :=
  mkFunction (prototype f) (functionInternalName f) (functionSimpleName f) (signature f)
    (functionFlags f) (instanceMethodOf f) (trampoline f) (additionalLocals f) x
    (nextBreakId f) (breakStack f) (debugLocations f) (ref f).

Definition withBreakContext (f : Function) (next : Z) (stack : list Z) : Function :=
  mkFunction (prototype f) (functionInternalName f) (functionSimpleName f) (signature f)
    (functionFlags f) (instanceMethodOf f) (trampoline f) (additionalLocals f) (flow f)
    next stack (debugLocations f) (ref f).

Definition withDebugLocations (f : Function) (l : list (Range * ExpressionRef)) : Function :=
  mkFunction (prototype f) (functionInternalName f) (functionSimpleName f) (signature f)
    (functionFlags f) (instanceMethodOf f) (trampoline f) (additionalLocals f) (flow f)
    (nextBreakId f) (breakStack f) l (ref f).

(** Modelled from the spec: [Function.finalize] of program.ts records the
    module function the instance was emitted as. *)
Definition Function_finalize (f : Function) (r : FunctionRef) : Function :=
  mkFunction (prototype f) (functionInternalName f) (functionSimpleName f) (signature f)
    (functionFlags f) (instanceMethodOf f) (trampoline f) (additionalLocals f) (flow f)
    (nextBreakId f) (breakStack f) (debugLocations f) (Some r).

(** Modelled from the spec: [new Function(prototype, internalName,
    signature, instanceMethodOf)] of program.ts: a fresh instance with its
    own topmost flow frame. *)
Definition Function_new (p : FunctionPrototype) (name : string) (s : Signature)
    (methodOf : option Class) : Function :=
  mkFunction p name (text (functionName (functionDeclaration p))) s ElementFlags.NONE
    methodOf None [] Flow_create 0 [] [] None.

Record EnumValue := mkEnumValue {
  enumValueInternalName : string;
  enumValueFlags : Z;
  constantValue : Z
}.

Record Field := mkField {
  fieldInternalName : string;
  fieldType : Type_;
  fieldMemoryOffset : Z;
  isReadonly : bool   (** [prototype.isReadonly] *)
}.

Record Property := mkProperty {
  propertyInternalName : string;
  getterPrototype : option FunctionPrototype;
  setterPrototype : option FunctionPrototype
}.

(** A resolved element, tagged by its [ElementKind]. *)
Inductive Element :=
| LOCAL (e : Local)
| GLOBAL (e : Global)
| ENUMVALUE (e : EnumValue)
| FIELD (e : Field)
| PROPERTY (e : Property)
| FUNCTION_PROTOTYPE (e : FunctionPrototype) (simpleName : string)
| OTHER_ELEMENT.

(** What [Program.resolveExpression] and [resolveIdentifier] return. *)
Record ResolvedElement := mkResolved {
  element : Element;
  resolvedTarget : option Class;
  targetExpression : option Expression;
  isInstanceTarget : bool
}.

(** ** The module under construction (module.ts) *)

Record FunctionEntry := mkFunctionEntry {
  entryName : string;
  entryType : FunctionTypeRef;
  entryLocals : list NativeType.t;
  entryBody : ExpressionRef
}.

Record MemorySegment := mkMemorySegment {
  buffer : list Z;   (** the bytes of a [Uint8Array] *)
  offset : Z         (** an [I64] *)
}.

Record Module := mkModule {
  functionTypes : list FunctionTypeRef;
  functions : list FunctionEntry;
  (** internal name, module, base name, type *)
  functionImports : list (string * string * string * FunctionTypeRef);
  (** internal name, external name *)
  functionExports : list (string * string);
  (** name, type, mutable, initializer *)
  globals : list (string * NativeType.t * bool * ExpressionRef);
  globalImports : list (string * string * string * NativeType.t);
  globalExports : list (string * string);
  (** the files registered with [addDebugInfoFile] *)
  debugInfoFiles : list string
}.

Definition Module_create : Module := mkModule [] [] [] [] [] [] [] [].

Definition withFunctionTypes (m : Module) (x : list FunctionTypeRef) : Module :=
  mkModule x (functions m) (functionImports m) (functionExports m) (globals m)
    (globalImports m) (globalExports m) (debugInfoFiles m).

Definition withFunctions (m : Module) (x : list FunctionEntry) : Module :=
  mkModule (functionTypes m) x (functionImports m) (functionExports m) (globals m)
    (globalImports m) (globalExports m) (debugInfoFiles m).

Definition withFunctionImports (m : Module) (x : list (string * string * string * FunctionTypeRef))
    : Module :=
  mkModule (functionTypes m) (functions m) x (functionExports m) (globals m)
    (globalImports m) (globalExports m) (debugInfoFiles m).

Definition withFunctionExports (m : Module) (x : list (string * string)) : Module :=
  mkModule (functionTypes m) (functions m) (functionImports m) x (globals m)
    (globalImports m) (globalExports m) (debugInfoFiles m).

Definition withGlobals (m : Module) (x : list (string * NativeType.t * bool * ExpressionRef))
    : Module :=
  mkModule (functionTypes m) (functions m) (functionImports m) (functionExports m) x
    (globalImports m) (globalExports m) (debugInfoFiles m).

Definition withGlobalImports (m : Module) (x : list (string * string * string * NativeType.t))
    : Module :=
  mkModule (functionTypes m) (functions m) (functionImports m) (functionExports m) (globals m)
    x (globalExports m) (debugInfoFiles m).

Definition withGlobalExports (m : Module) (x : list (string * string)) : Module :=
  mkModule (functionTypes m) (functions m) (functionImports m) (functionExports m) (globals m)
    (globalImports m) x (debugInfoFiles m).

Definition withDebugInfoFiles (m : Module) (x : list string) : Module :=
  mkModule (functionTypes m) (functions m) (functionImports m) (functionExports m) (globals m)
    (globalImports m) (globalExports m) x.

Inductive Target := WASM32 | WASM64.

Record Options := mkOptions {
  target : Target;
  noTreeShaking : bool;
  noAssert : bool;
  noMemory : bool;
  importMemory : bool;
  memoryBase : Z;   (** a [u32] *)
  sourceMap : bool
}.

Definition isWasm64 (o : Options) : bool :=
  match target o with WASM64 => true | WASM32 => false end.

Definition usizeType (o : Options) : Type_ :=
  match target o with WASM64 => Ty.usize64 | WASM32 => Ty.usize32 end.

Definition nativeSizeType (o : Options) : NativeType.t :=
  match target o with WASM64 => NativeType.I64 | WASM32 => NativeType.I32 end.

(** ** The compiler state and its monad *)

Inductive ConversionKind := ConversionNONE | IMPLICIT | EXPLICIT.

Section Compiler.

(** The state of the [Program] and of the collaborators the compiler calls
    into (resolver, builtins, local slots). *)
Context {ProgramState : Type}.

Record Compiler := mkCompiler {
  program : ProgramState;
  options : Options;
  module : Module;
  diagnostics : list DiagnosticMessage;
  startFunctionBody : list ExpressionRef;
  currentFunction : Function;
  currentType : Type_;
  memoryOffset : Z;   (** an [I64] *)
  memorySegments : list MemorySegment;
  stringSegments : gmap (list Z) MemorySegment
}.

Definition withModule (c : Compiler) (m : Module) : Compiler :=
  mkCompiler (program c) (options c) m (diagnostics c) (startFunctionBody c)
    (currentFunction c) (currentType c) (memoryOffset c) (memorySegments c) (stringSegments c).

Definition withDiagnostics (c : Compiler) (d : list DiagnosticMessage) : Compiler :=
  mkCompiler (program c) (options c) (module c) d (startFunctionBody c)
    (currentFunction c) (currentType c) (memoryOffset c) (memorySegments c) (stringSegments c).

Definition withStartFunctionBody (c : Compiler) (b : list ExpressionRef) : Compiler :=
  mkCompiler (program c) (options c) (module c) (diagnostics c) b
    (currentFunction c) (currentType c) (memoryOffset c) (memorySegments c) (stringSegments c).

Definition withCurrentFunction (c : Compiler) (f : Function) : Compiler :=
  mkCompiler (program c) (options c) (module c) (diagnostics c) (startFunctionBody c)
    f (currentType c) (memoryOffset c) (memorySegments c) (stringSegments c).

Definition withCurrentType (c : Compiler) (t : Type_) : Compiler :=
  mkCompiler (program c) (options c) (module c) (diagnostics c) (startFunctionBody c)
    (currentFunction c) t (memoryOffset c) (memorySegments c) (stringSegments c).

Definition withMemory (c : Compiler) (o : Z) (segs : list MemorySegment)
    (strs : gmap (list Z) MemorySegment) : Compiler :=
  mkCompiler (program c) (options c) (module c) (diagnostics c) (startFunctionBody c)
    (currentFunction c) (currentType c) o segs strs.

(** A compiler method: it reads and updates the compiler and either returns
    or throws. *)
Definition M (A : Type) : Type := Compiler -> Result (A * Compiler).

Definition ret {A} (a : A) : M A := fun c => Ok (a, c).

Definition bind {A B} (m : M A) (k : A -> M B) : M B :=
  fun c => match m c with
           | Ok (a, c') => k a c'
           | Throw e => Throw e
           end.

Definition throw {A} (message : string) : M A := fun _ => Throw message.
Definition get : M Compiler := fun c => Ok (c, c).
Definition gets {A} (f : Compiler -> A) : M A := fun c => Ok (f c, c).
Definition modify (f : Compiler -> Compiler) : M unit := fun c => Ok (tt, f c).

(** [assert(condition, message)] *)
Definition assert (condition : bool) (message : string) : M unit :=
  if condition then ret tt else throw message.

End Compiler.

Arguments Compiler ProgramState : clear implicits.
Arguments M ProgramState A : clear implicits.

Notation "x <- m ;; k" := (bind m (fun x => k))
  (at level 100, m at next level, right associativity).
Notation "m ;;; k" := (bind m (fun _ => k))
  (at level 100, right associativity).
Section Lowering.

Context {ProgramState : Type}.

Abbreviation Compiler := (Compiler ProgramState).
Abbreviation M := (M ProgramState).

(** *** Collaborators

    The parts of the compiler and of the program model that the functions
    below call but that are lowered elsewhere. *)

(** [Compiler.compileExpression(expression, contextualType, conversionKind,
    wrapSmallIntegers)] *)
Variable compileExpressionImpl : Expression -> Type_ -> ConversionKind -> bool -> M ExpressionRef.
(** [Type.isAssignableTo] (types.ts) *)
Variable isAssignableTo : Type_ -> Type_ -> bool.
(** [Program.resolveType], which reports *)
Variable resolveTypeImpl : TypeNode -> M (option Type_).
(** The Binaryen "precompute" pass on a function body *)
Variable runPrecompute : ExpressionRef -> ExpressionRef.

(** [DiagnosticEmitter.error] and [warning] *)
Definition error (code : DiagnosticCode.t) (r : Range) : M unit :=
  modify (fun c => withDiagnostics c (diagnostics c ++ [mkDiagnostic code ERROR r])).

Definition warning (code : DiagnosticCode.t) (r : Range) : M unit :=
  modify (fun c => withDiagnostics c (diagnostics c ++ [mkDiagnostic code WARNING r])).

Definition setCurrentType (t : Type_) : M unit :=
  modify (fun c => withCurrentType c t).

(** Statement lowering is the only writer of [currentFunction.flow] in
    compiler.ts (together with [compileFunction]), and nothing that runs
    while a function is lowered gives that function another name, prototype,
    signature or owner or changes its flags: whatever is called finds the
    current function to be the same object when it returns.  A collaborator
    is run with these left as they are; what it may change of the current
    function is its trampoline, its locals, its break contexts, its debug
    locations and its reference. *)
Definition external {A} (m : M A) : M A :=
  fun c => match m c with
           | Ok (a, c') =>
               let before := currentFunction c in
               let after := currentFunction c' in
               Ok (a, withCurrentFunction c'
                        (mkFunction (prototype before) (functionInternalName before)
                           (functionSimpleName before) (signature before)
                           (functionFlags before) (instanceMethodOf before)
                           (trampoline after) (additionalLocals after) (flow before)
                           (nextBreakId after) (breakStack after) (debugLocations after)
                           (ref after)))
           | Throw e => Throw e
           end.

Definition compileExpression (expression : Expression) (contextualType : Type_)
    (conversionKind : ConversionKind) (wrapSmallIntegers : bool) : M ExpressionRef :=
  external (compileExpressionImpl expression contextualType conversionKind wrapSmallIntegers).

Definition resolveType (node : TypeNode) : M (option Type_) :=
  external (resolveTypeImpl node).

(** *** Numeric bridge *)

(** The epilogue of [compileBinaryExpression] and of
    [compileUnaryPrefixExpression]: once the operator switch has produced
    [expr], set [currentType] and decided [possiblyOverflows], the result is
    wrapped if the consumer asked for it. *)
Definition wrapIfOverflows (expr : ExpressionRef) (possiblyOverflows wrapSmallIntegers : bool)
    : M ExpressionRef :=
  if possiblyOverflows && wrapSmallIntegers then
    t <- gets currentType ;;
    assert (Type_is t (Z.lor TypeFlags.SMALL TypeFlags.INTEGER)) "small integer type expected" ;;;
    match makeSmallIntegerWrap expr t with
    | Ok e => ret e
    | Throw msg => throw msg
    end
  else ret expr.

Definition liftResult {A} (r : Result A) : M A :=
  match r with
  | Ok a => ret a
  | Throw msg => throw msg
  end.

Definition convertExpression (expr : ExpressionRef) (fromType toType : Type_)
    (conversionKind : ConversionKind) (reportNode : Expression) : M ExpressionRef :=
  match conversionKind with
  | ConversionNONE => throw "concrete type expected"
  | _ =>
  (* void to any *)
  if TypeKind.eqb (kind fromType) TypeKind.VOID then
    error DiagnosticCode.Type_0_is_not_assignable_to_type_1 (expressionRange reportNode) ;;;
    ret createUnreachable
  (* any to void *)
  else if TypeKind.eqb (kind toType) TypeKind.VOID then
    ret (createDrop expr)
  else
    (match conversionKind with
     | IMPLICIT =>
         if negb (isAssignableTo fromType toType) then
           error DiagnosticCode.Conversion_from_type_0_to_1_requires_an_explicit_cast
             (expressionRange reportNode)
         else ret tt
     | _ => ret tt
     end) ;;;
    expr' <-
      (if Type_is fromType TypeFlags.FLOAT then
         (* float to float *)
         if Type_is toType TypeFlags.FLOAT then
           if TypeKind.eqb (kind fromType) TypeKind.F32 then
             if TypeKind.eqb (kind toType) TypeKind.F64
             then ret (createUnary UnaryOp.PromoteF32 expr)
             else ret expr
           else if TypeKind.eqb (kind toType) TypeKind.F32
             then ret (createUnary UnaryOp.DemoteF64 expr)
             else ret expr
         (* float to int *)
         else if Type_is toType TypeFlags.INTEGER then
           let f32 := TypeKind.eqb (kind fromType) TypeKind.F32 in
           if Type_is toType TypeFlags.SIGNED then
             if Type_is toType TypeFlags.LONG then
               ret (createUnary (if f32 then UnaryOp.TruncF32ToI64 else UnaryOp.TruncF64ToI64) expr)
             else
               let e := createUnary (if f32 then UnaryOp.TruncF32ToI32 else UnaryOp.TruncF64ToI32) expr in
               if Type_is toType TypeFlags.SMALL
               then liftResult (makeSmallIntegerWrap e toType) else ret e
           else
             if Type_is toType TypeFlags.LONG then
               ret (createUnary (if f32 then UnaryOp.TruncF32ToU64 else UnaryOp.TruncF64ToU64) expr)
             else
               let e := createUnary (if f32 then UnaryOp.TruncF32ToU32 else UnaryOp.TruncF64ToU32) expr in
               if Type_is toType TypeFlags.SMALL
               then liftResult (makeSmallIntegerWrap e toType) else ret e
         (* float to void *)
         else
           assert (flags toType =? TypeFlags.NONE) "void type expected" ;;;
           ret (createDrop expr)
       (* int to float *)
       else if Type_is fromType TypeFlags.INTEGER && Type_is toType TypeFlags.FLOAT then
         if TypeKind.eqb (kind toType) TypeKind.F32 then
           if Type_is fromType TypeFlags.LONG then
             ret (createUnary (if Type_is fromType TypeFlags.SIGNED
                               then UnaryOp.ConvertI64ToF32 else UnaryOp.ConvertU64ToF32) expr)
           else
             ret (createUnary (if Type_is fromType TypeFlags.SIGNED
                               then UnaryOp.ConvertI32ToF32 else UnaryOp.ConvertU32ToF32) expr)
         else
           if Type_is fromType TypeFlags.LONG then
             ret (createUnary (if Type_is fromType TypeFlags.SIGNED
                               then UnaryOp.ConvertI64ToF64 else UnaryOp.ConvertU64ToF64) expr)
           else
             ret (createUnary (if Type_is fromType TypeFlags.SIGNED
                               then UnaryOp.ConvertI32ToF64 else UnaryOp.ConvertU32ToF64) expr)
       (* int to int *)
       else
         if Type_is fromType TypeFlags.LONG then
           (* i64 to i32 *)
           if negb (Type_is toType TypeFlags.LONG) then
             let e := createUnary UnaryOp.WrapI64 expr in
             if Type_is toType TypeFlags.SMALL
             then liftResult (makeSmallIntegerWrap e toType) else ret e
           else ret expr
         (* i32 to i64 *)
         else if Type_is toType TypeFlags.LONG then
           ret (createUnary (if Type_is toType TypeFlags.SIGNED
                             then UnaryOp.ExtendI32 else UnaryOp.ExtendU32) expr)
         (* i32 or smaller to even smaller or same size int with change of sign *)
         else if Type_is toType TypeFlags.SMALL &&
                 ((size fromType >? size toType) ||
                  ((size fromType =? size toType) &&
                   negb (Bool.eqb (Type_is fromType TypeFlags.SIGNED)
                                  (Type_is toType TypeFlags.SIGNED)))) then
           liftResult (makeSmallIntegerWrap expr toType)
         else ret expr) ;;
    setCurrentType toType ;;;
    ret expr'
  end.

(** *** Memory layout *)

(** Modelled from the spec: the 64-bit integer helpers ([i64_new],
    [i64_low], [i64_high], [i64_add], [i64_align], [i64_is_i32]) belong to the
    glue code, which is not part of the sources.  An [I64] is kept as its
    unsigned value below 2^64; [i64_align] rounds up to a multiple of the
    alignment, a power of two, with the usual mask arithmetic (section 4.8:
    "hands out aligned offsets"). *)
Definition i64_new (lo hi : Z) : Z := lo mod 2 ^ 32 + (hi mod 2 ^ 32) * 2 ^ 32.
Definition i64_low (v : Z) : Z := i32_wrap v.
Definition i64_high (v : Z) : Z := i32_wrap (Z.shiftr v 32).
Definition i64_add (a b : Z) : Z := (a + b) mod 2 ^ 64.
Definition i64_align (value alignment : Z) : Z :=
  Z.land (i64_add value (alignment - 1)) (Z.lnot (alignment - 1)) mod 2 ^ 64.
Definition i64_is_i32 (v : Z) : bool := (v <? 2 ^ 31) || (2 ^ 64 - 2 ^ 31 <=? v).

(** The compiler a constructor call yields; [startFunction] stands for the
    function instance [compile] installs as the current function before any
    lowering. *)
Definition Compiler_new (p : ProgramState) (o : Options) (startFunction : Function) : Compiler :=
  mkCompiler p o Module_create [] [] startFunction Ty.void
    (i64_new (Z.max (memoryBase o) (byteSize (usizeType o))) 0) (* leave space for `null` *)
    [] ∅.

(** Adds a static memory segment with the specified data. *)
Definition addMemorySegment (buffer : list Z) (alignment : Z) : M MemorySegment :=
  c <- get ;;
  let memoryOffset' := i64_align (memoryOffset c) alignment in
  let segment := mkMemorySegment buffer memoryOffset' in
  modify (fun c => withMemory c
            (i64_add memoryOffset' (i64_new (Z.of_nat (length buffer)) 0))
            (memorySegments c ++ [segment])
            (stringSegments c)) ;;;
  ret segment.

(** JavaScript [x >>> n] and [x & y] on numbers. *)
Definition js_ushr (x n : Z) : Z := Z.shiftr (x mod 2 ^ 32) (n mod 32).

(** The buffer [compileStaticString] fills: the length, then the code
    units, low byte first.  A string is the list of its UTF-16 code units. *)
Definition stringBuffer (stringValue : list Z) : list Z :=
  let stringLength := Z.of_nat (length stringValue) in
  [ js_and stringLength 255;
    js_and (js_ushr stringLength 8) 255;
    js_and (js_ushr stringLength 16) 255;
    js_and (js_ushr stringLength 24) 255 ]
  ++ flat_map (fun charCode => [ js_and charCode 255; js_and (js_ushr charCode 8) 255 ])
       stringValue.

(** [Program.types.get("string")] *)
Variable stringType : ProgramState -> option Type_.

Definition compileStaticString (stringValue : list Z) : M ExpressionRef :=
  c <- get ;;
  stringSegment <-
    match stringSegments c !! stringValue with
    | Some segment => ret segment
    | None =>
        segment <- addMemorySegment (stringBuffer stringValue) (byteSize (usizeType (options c))) ;;
        modify (fun c => withMemory c (memoryOffset c) (memorySegments c)
                           (<[stringValue := segment]> (stringSegments c))) ;;;
        ret segment
    end ;;
  let stringOffset := offset stringSegment in
  setCurrentType (match stringType (program c) with
                  | Some t => t
                  | None => usizeType (options c)
                  end) ;;;
  if isWasm64 (options c) then
    ret (createI64 (i64_low stringOffset) (i64_high stringOffset))
  else
    assert (i64_is_i32 stringOffset) "assertion failed" ;;;
    ret (createI32 (i64_low stringOffset)).

(** *** Inlined constants and globals *)

(** Modelled from the spec: [Type.computeSmallIntegerShift] and
    [Type.computeSmallIntegerMask] of types.ts (section 4.4: i8/i16 are
    normalized by a shift of 24/16, u8/u16/bool by the masks 0xff/0xffff/0x1):
    the shift is the number of bits the target type has more, the mask keeps
    the bits of this type. *)
Definition computeSmallIntegerShift (this targetType : Type_) : Z :=
  size targetType - size this.
Definition computeSmallIntegerMask (this targetType : Type_) : Z :=
  js_ushr (-1) (size targetType - size this).

(** Modelled from the spec: [Type.toNativeZero] of types.ts, the zero
    constant of the native type a type projects to. *)
Definition toNativeZero (t : Type_) : ExpressionRef :=
  match toNativeType t with
  | NativeType.I64 => createI64 0 0
  | NativeType.F32 => createF32 0%float
  | NativeType.F64 => createF64 0%float
  | _ => createI32 0
  end.

(** Compiles the value of an inlined constant element. *)
Definition compileInlineConstant (element : VariableLikeElement) (contextualType : Type_)
    (retainType : bool) : M ExpressionRef :=
  assert (Element_is element ElementFlags.INLINED) "assertion failed" ;;;
  c <- get ;;
  let t :=
    if negb retainType &&
       Type_is (type element) TypeFlags.INTEGER &&
       Type_is contextualType TypeFlags.INTEGER &&
       (size (type element) <? size contextualType)
    then contextualType   (* essentially precomputes a (sign-)extension *)
    else type element in
  setCurrentType t ;;;
  let isInteger := match constantValueKind element with INTEGER => true | _ => false end in
  let i32const :=
    createI32 (if isInteger then i64_low (constantIntegerValue element) else 0) in
  let i64const :=
    if isInteger
    then createI64 (i64_low (constantIntegerValue element)) (i64_high (constantIntegerValue element))
    else createI64 0 0 in
  match kind t with
  | TypeKind.I8 | TypeKind.I16 =>
      let shift := computeSmallIntegerShift (type element) Ty.i32 in
      ret (createI32 (if isInteger
                      then js_shr (js_shl (i64_low (constantIntegerValue element)) shift) shift
                      else 0))
  | TypeKind.U8 | TypeKind.U16 | TypeKind.BOOL =>
      let mask := computeSmallIntegerMask (type element) Ty.i32 in
      ret (createI32 (if isInteger
                      then js_and (i64_low (constantIntegerValue element)) mask
                      else 0))
  | TypeKind.I32 | TypeKind.U32 => ret i32const
  | TypeKind.ISIZE | TypeKind.USIZE =>
      if negb (isWasm64 (options c)) then ret i32const else ret i64const
  | TypeKind.I64 | TypeKind.U64 => ret i64const
  | TypeKind.F32 => ret (createF32 (constantFloatValue element))
  | TypeKind.F64 => ret (createF64 (constantFloatValue element))
  | TypeKind.VOID => throw "concrete type expected"
  end.

(** [Module.getFunctionTypeBySignature] followed by [addFunctionType] when
    the type is not there yet. *)
Definition ensureFunctionTypeRef (t : FunctionTypeRef) : M FunctionTypeRef :=
  modify (fun c =>
    let m := module c in
    if bool_decide (t ∈ functionTypes m) then c
    else withModule c (withFunctionTypes m (functionTypes m ++ [t]))) ;;;
  ret t.

(** The precompute bridge: the expression becomes the body of the private
    function [__precompute], the pass runs on it, the body is read back and
    the function removed again; the function type stays. *)
Definition precomputeExpressionRef (expr : ExpressionRef) : M ExpressionRef :=
  c <- get ;;
  let nativeType := toNativeType (currentType c) in
  ensureFunctionTypeRef (nativeType, []) ;;;
  ret (runPrecompute expr).

Definition addGlobal (name : string) (t : NativeType.t) (mutable : bool) (init : ExpressionRef)
    : M unit :=
  modify (fun c =>
    let m := module c in
    withModule c (withGlobals m (globals m ++ [(name, t, mutable, init)]))).

Definition addGlobalImport (internal moduleName baseName : string) (t : NativeType.t) : M unit :=
  modify (fun c =>
    let m := module c in
    withModule c (withGlobalImports m (globalImports m ++ [(internal, moduleName, baseName, t)]))).

Definition addGlobalExport (internal external_ : string) : M unit :=
  modify (fun c =>
    let m := module c in
    withModule c (withGlobalExports m (globalExports m ++ [(internal, external_)]))).

(** [_BinaryenExpressionGetType] *)
Definition expressionType (e : ExpressionRef) : NativeType.t :=
  match e with
  | createI32 _ => NativeType.I32
  | createI64 _ _ => NativeType.I64
  | createF32 _ => NativeType.F32
  | createF64 _ => NativeType.F64
  | createBlock _ _ t | createGetLocal _ t | createGetGlobal _ t
  | createCall _ _ t | createCallImport _ _ t => t
  | createUnreachable => NativeType.Unreachable
  | _ => NativeType.None
  end.

(** The value of a constant expression as an [I64]. *)
Definition constantI64 (e : ExpressionRef) : Z :=
  match e with
  | createI32 v => i64_new v 0
  | createI64 lo hi => i64_new lo hi
  | _ => 0
  end.

Definition constantFloat (e : ExpressionRef) : float :=
  match e with
  | createF32 v | createF64 v => v
  | _ => 0%float
  end.

Definition isNoExpression (e : ExpressionRef) : bool :=
  match e with noExpression => true | _ => false end.

(** Compiles a global; the updated element is returned with the result. *)
Definition compileGlobal (global : Global) : M (bool * Global) :=
  if Element_is global ElementFlags.COMPILED || Element_is global ElementFlags.BUILTIN
  then ret (true, global)
  else
  let global := Element_set global ElementFlags.COMPILED in (* built-ins are compiled on use *)
  match declaration global with
  | None => throw "declaration expected"
  | Some declaration =>
  (* type is void if not yet resolved or not annotated *)
  resolved <-
    (if Type_eqb (type global) Ty.void then
       match variableType declaration, variableInitializer declaration with
       (* resolve now if annotated *)
       | Some typeNode, _ =>
           resolvedType <- resolveType typeNode ;;
           match resolvedType with
           | None => ret (None, noExpression)
           | Some resolvedType =>
               if Type_eqb resolvedType Ty.void then
                 error DiagnosticCode.Type_expected (typeNodeRange typeNode) ;;;
                 ret (None, noExpression)
               else ret (Some (withType global resolvedType), noExpression)
           end
       (* infer from initializer if not annotated *)
       | None, Some initializer =>
           initExpr <- compileExpression initializer Ty.void ConversionNONE true ;;
           c <- get ;;
           if Type_eqb (currentType c) Ty.void then
             error DiagnosticCode.Type_0_is_not_assignable_to_type_1 (expressionRange initializer) ;;;
             ret (None, noExpression)
           else ret (Some (withType global (currentType c)), initExpr)
       (* must either be annotated or have an initializer *)
       | None, None =>
           error DiagnosticCode.Type_expected (atEnd (identifierRange (variableName declaration))) ;;;
           ret (None, noExpression)
       end
     else ret (Some global, noExpression)) ;;
  match resolved with
  | (None, _) => ret (false, global)
  | (Some global, initExpr) =>
  let nativeType := toNativeType (type global) in
  (* handle imports *)
  if Element_is global ElementFlags.DECLARED then
    (* constant global *)
    if Element_is global ElementFlags.CONSTANT then
      addGlobalImport (internalName global)
        (match namespace global with Some n => n | None => "env" end)
        (simpleName global) nativeType ;;;
      ret (true, Element_set global ElementFlags.COMPILED)
    (* importing mutable globals is not supported in the MVP *)
    else
      error DiagnosticCode.Operation_not_supported (variableRange declaration) ;;;
      ret (false, global)
  else
  init <-
    (* inlined constant can be compiled as-is *)
    (if Element_is global ElementFlags.INLINED then
       e <- compileInlineConstant global (type global) true ;;
       ret (e, false)
     else
       match variableInitializer declaration with
       (* evaluate initializer if present *)
       | Some initializer =>
           initExpr <-
             (if isNoExpression initExpr
              then compileExpression initializer (type global) IMPLICIT true
              else ret initExpr) ;;
           (* check if the initializer is constant *)
           if negb (isConst initExpr) then
             (* if a constant global, check if the initializer becomes constant after precompute *)
             if Element_is global ElementFlags.CONSTANT then
               initExpr <- precomputeExpressionRef initExpr ;;
               if negb (isConst initExpr) then
                 warning DiagnosticCode.Compiling_constant_with_non_constant_initializer_as_mutable
                   (variableRange declaration) ;;;
                 ret (initExpr, true)
               else ret (initExpr, false)
             else ret (initExpr, true)
           else ret (initExpr, false)
       (* initialize to zero if there's no initializer *)
       | None => ret (toNativeZero (type global), false)
       end) ;;
  let (initExpr, initializeInStart) := init in
  let internalName := internalName global in
  if initializeInStart then
    (* initialize to mutable zero and set the actual value in start *)
    addGlobal internalName nativeType true (toNativeZero (type global)) ;;;
    modify (fun c => withStartFunctionBody c
              (startFunctionBody c ++ [createSetGlobal internalName initExpr])) ;;;
    ret (true, global)
  else if Element_is global ElementFlags.CONSTANT then
    global <-
      match expressionType initExpr with
      | NativeType.I32 | NativeType.I64 => ret (withIntegerValue global (constantI64 initExpr))
      | NativeType.F32 | NativeType.F64 => ret (withFloatValue global (constantFloat initExpr))
      | _ => throw "concrete type expected"
      end ;;
    let global := Element_set global ElementFlags.INLINED in (* inline the value from now on *)
    (if variableIsTopLevel declaration      (* but keep the element if it might be re-exported *)
     then addGlobal internalName nativeType false initExpr else ret tt) ;;;
    (if variableSourceIsEntry declaration && variableIsTopLevelExport declaration
     then addGlobalExport internalName (programLevelInternalName declaration) else ret tt) ;;;
    ret (true, global)
  else (* mutable *)
    addGlobal internalName nativeType (negb (Element_is global ElementFlags.CONSTANT)) initExpr ;;;
    ret (true, global)
  end
  end.

(** *** Identifiers *)

(** [Program.resolveIdentifier(expression, currentFunction, currentEnum)],
    which reports *)
Variable resolveIdentifierImpl : Expression -> M (option ResolvedElement).
(** [compileGetConstant] of builtins.ts *)
Variable compileBuiltinGetConstantImpl : Global -> Expression -> M ExpressionRef.

Definition resolveIdentifier (expression : Expression) : M (option ResolvedElement) :=
  external (resolveIdentifierImpl expression).

Definition compileBuiltinGetConstant (global : Global) (expression : Expression) : M ExpressionRef :=
  external (compileBuiltinGetConstantImpl global expression).

(** The [GLOBAL] case of [compileIdentifierExpression]. *)
Definition compileGlobalRead (global : Global) (expression : Expression)
    (contextualType : Type_) (retainConstantType : bool) : M ExpressionRef :=
  if Element_is global ElementFlags.BUILTIN then
    compileBuiltinGetConstant global expression
  else
    r <- compileGlobal global ;;   (* reports; not yet compiled if a static field *)
    let (compiled, global) := r in
    if negb compiled then ret createUnreachable
    else
      assert (negb (Type_eqb (type global) Ty.void)) "assertion failed" ;;;
      if Element_is global ElementFlags.INLINED then
        compileInlineConstant global contextualType retainConstantType
      else
        setCurrentType (type global) ;;;
        ret (createGetGlobal (internalName global) (toNativeType (type global))).

Definition compileIdentifierExpression (expression : Expression) (contextualType : Type_)
    (retainConstantType : bool) : M ExpressionRef :=
  c <- get ;;
  let unresolved :=
    (* otherwise resolve *)
    resolved <- resolveIdentifier expression ;;
    match resolved with
    | None => ret createUnreachable
    | Some resolved =>
        match element resolved with
        | LOCAL local =>
            if Element_is local ElementFlags.INLINED then
              compileInlineConstant local contextualType retainConstantType
            else
              assert (0 <=? index local) "assertion failed" ;;;
              setCurrentType (type local) ;;;
              ret (createGetLocal (index local) (toNativeType (type local)))
        | GLOBAL global =>
            compileGlobalRead global expression contextualType retainConstantType
        | ENUMVALUE value => (* here: if referenced from within the same enum *)
            if negb (flags_is (enumValueFlags value) ElementFlags.COMPILED) then
              error DiagnosticCode.A_member_initializer_in_a_enum_declaration_cannot_reference_members_declared_after_it
                (expressionRange expression) ;;;
              setCurrentType Ty.i32 ;;;
              ret createUnreachable
            else
              setCurrentType Ty.i32 ;;;
              if flags_is (enumValueFlags value) ElementFlags.INLINED then
                ret (createI32 (constantValue value))
              else
                ret (createGetGlobal (enumValueInternalName value) NativeType.I32)
        | _ =>
            error DiagnosticCode.Operation_not_supported (expressionRange expression) ;;;
            ret createUnreachable
        end
    end in
  (* check special keywords first *)
  match expressionKind expression with
  | NodeKind.NULL =>
      (match classType contextualType with
       | None => setCurrentType (usizeType (options c))
       | Some _ => ret tt
       end) ;;;
      ret (if isWasm64 (options c) then createI64 0 0 else createI32 0)
  | NodeKind.TRUE => setCurrentType Ty.bool ;;; ret (createI32 1)
  | NodeKind.FALSE => setCurrentType Ty.bool ;;; ret (createI32 0)
  | NodeKind.THIS =>
      if Function_is (currentFunction c) ElementFlags.INSTANCE then
        match instanceMethodOf (currentFunction c) with
        | None => throw "assertion failed"
        | Some cls =>
            setCurrentType (classTypeOf cls) ;;;
            ret (createGetLocal 0 (toNativeType (classTypeOf cls)))
        end
      else
        error DiagnosticCode._this_cannot_be_referenced_in_current_location
          (expressionRange expression) ;;;
        setCurrentType (usizeType (options c)) ;;;
        ret createUnreachable
  | NodeKind.SUPER =>
      let fail :=
        error DiagnosticCode._super_can_only_be_referenced_in_a_derived_class
          (expressionRange expression) ;;;
        setCurrentType (usizeType (options c)) ;;;
        ret createUnreachable in
      if Function_is (currentFunction c) ElementFlags.INSTANCE then
        match instanceMethodOf (currentFunction c) with
        | None => throw "assertion failed"
        | Some cls =>
            match base cls with
            | Some superType =>
                setCurrentType superType ;;;
                ret (createGetLocal 0 (toNativeType superType))
            | None => fail
            end
        end
      else fail
  | _ => unresolved
  end.

(** *** Calls and trampolines *)

(** [Program.resolveExpression(expression, currentFunction)], which reports *)
Variable resolveExpressionImpl : Expression -> M (option ResolvedElement).
(** [FunctionPrototype.resolve()], which reports *)
Variable resolvePrototypeImpl : FunctionPrototype -> M (option Function).
(** The local slots of the current function (program.ts): [getTempLocal],
    [getAndFreeTempLocal], [freeTempLocal] and [addLocal]. *)
Variable getTempLocalImpl : Type_ -> M Local.
Variable getAndFreeTempLocalImpl : Type_ -> M Local.
(** releasing a slot always succeeds *)
Variable freeTempLocalImpl : Local -> Compiler -> Compiler.
Variable addLocalImpl : Type_ -> string -> M unit.
(** [ElementAccessExpression.elementExpression] *)
Variable elementExpression : Expression -> Expression.

Definition resolveExpression (e : Expression) : M (option ResolvedElement) :=
  external (resolveExpressionImpl e).
Definition resolvePrototype (p : FunctionPrototype) : M (option Function) :=
  external (resolvePrototypeImpl p).
Definition getTempLocal (t : Type_) : M Local := external (getTempLocalImpl t).
Definition getAndFreeTempLocal (t : Type_) : M Local := external (getAndFreeTempLocalImpl t).
Definition freeTempLocal (l : Local) : M unit :=
  external (modify (freeTempLocalImpl l)).
Definition addLocal (t : Type_) (name : string) : M unit := external (addLocalImpl t name).

Definition typesToNativeTypes (types : list Type_) : list NativeType.t :=
  map toNativeType types.

(** Either reuses or creates the function type matching the specified signature. *)
Definition ensureFunctionType (signature : Signature) : M FunctionTypeRef :=
  let paramTypes :=
    match thisType signature with
    | Some thisType => [toNativeType thisType]
    | None => []
    end ++ map toNativeType (parameterTypes signature) in
  ensureFunctionTypeRef (toNativeType (returnType signature), paramTypes).

Definition addFunction (name : string) (typeRef : FunctionTypeRef)
    (locals : list NativeType.t) (body : ExpressionRef) : M FunctionRef :=
  modify (fun c =>
    let m := module c in
    withModule c (withFunctions m (functions m ++ [mkFunctionEntry name typeRef locals body]))) ;;;
  ret name.

Definition addFunctionImport (internal moduleName baseName : string) (typeRef : FunctionTypeRef)
    : M FunctionRef :=
  modify (fun c =>
    let m := module c in
    withModule c (withFunctionImports m
                    (functionImports m ++ [(internal, moduleName, baseName, typeRef)]))) ;;;
  ret internal.

Definition addFunctionExport (internal external_ : string) : M unit :=
  modify (fun c =>
    let m := module c in
    withModule c (withFunctionExports m (functionExports m ++ [(internal, external_)]))).

(** [i.toString(10)] *)
Definition toString (i : Z) : string := NilZero.string_of_int (Z.to_int i).

(** [array[i]], a [TypeError] when the element is read out of range and then
    used. *)
Definition at_ {A} (l : list A) (i : Z) : M A :=
  if i <? 0 then throw "TypeError"
  else match nth_error l (Z.to_nat i) with
       | Some a => ret a
       | None => throw "TypeError"
       end.

(** The forwarding of the required arguments of a trampoline:
    [forwardedOperands[operandIndex] = createGetLocal(operandIndex, ...)] for
    the arguments [i .. minArguments - 1], as a loop on the number of
    arguments still to forward. *)
Fixpoint forwardRequired (count : nat) (i operandIndex : Z) (types : list Type_)
    : M (list ExpressionRef) :=
  match count with
  | O => ret []
  | S count =>
      parameterType <- at_ types i ;;
      rest <- forwardRequired count (i + 1) (operandIndex + 1) types ;;
      ret (createGetLocal operandIndex (toNativeType parameterType) :: rest)
  end.

(** The loop of [ensureTrampoline] over the optional parameters
    [i .. numOptional - 1]: each one wraps the body built so far in a block
    that runs the initializer of the parameter, and forwards the parameter. *)
Fixpoint initializeOptional (count : nat) (i operandIndex minArguments : Z)
    (types : list Type_) (parameters : list ParameterNode)
    (body : ExpressionRef) (forwarded : list ExpressionRef)
    : M (ExpressionRef * list ExpressionRef) :=
  match count with
  | O => ret (body, forwarded)
  | S count =>
      type <- at_ types (minArguments + i) ;;
      parameter <- at_ parameters (minArguments + i) ;;
      match parameterInitializer parameter with
      | None => throw "assertion failed"
      | Some initializer =>
          init <- compileExpression initializer type IMPLICIT true ;;
          let body :=
            createBlock (Some ("N=" +:+ toString (i + 1)))
              [body; createSetLocal operandIndex init] NativeType.Auto in
          initializeOptional count (i + 1) (operandIndex + 1) minArguments types parameters body
            (forwarded ++ [createGetLocal operandIndex (toNativeType type)])
      end
  end.

(** Gets the trampoline for the specified function.  Returns the trampoline
    and the original, which remembers it. *)
Definition ensureTrampoline (original : Function) : M (Function * Function) :=
  match trampoline original with
  | Some trampoline => ret (trampoline, original)
  | None =>
      let originalSignature := signature original in
      let originalName := functionInternalName original in
      let originalParameterTypes := parameterTypes originalSignature in
      let originalParameterDeclarations :=
        declaredParameters (functionDeclaration (prototype original)) in
      let commonReturnType := returnType originalSignature in
      let commonThisType := thisType originalSignature in
      let isInstance := Function_is original ElementFlags.INSTANCE in
      (* arguments excl. `this`, operands incl. `this` *)
      let minArguments := requiredParameters originalSignature in
      let maxArguments := Z.of_nat (length originalParameterTypes) in
      let minOperands := if isInstance then minArguments + 1 else minArguments in
      let maxOperands := if isInstance then maxArguments + 1 else maxArguments in
      let numOptional := maxOperands - minOperands in
      assert (negb (numOptional =? 0)) "assertion failed" ;;;
      c <- get ;;
      (* forward `this` if applicable *)
      let forwardedThis :=
        if isInstance then [createGetLocal 0 (nativeSizeType (options c))] else [] in
      (* forward required arguments *)
      forwardedRequired <-
        forwardRequired (Z.to_nat minArguments) 0 (if isInstance then 1 else 0)
          originalParameterTypes ;;
      (* append an additional parameter taking the number of optional arguments provided *)
      let trampolineParameterTypes := originalParameterTypes ++ [Ty.i32] in
      (* create the trampoline element *)
      let trampolineSignature :=
        mkSignature trampolineParameterTypes commonReturnType commonThisType
          (maxArguments + 1) false in
      let trampolineName := originalName +:+ "|trampoline" in
      let trampoline :=
        Function_withFlags
          (Function_new (prototype original) trampolineName trampolineSignature
             (instanceMethodOf original))
          (Z.lor (functionFlags original) ElementFlags.COMPILED) in
      (* compile initializers of omitted arguments in scope of the trampoline function *)
      let previousFunction := currentFunction c in
      modify (fun c => withCurrentFunction c trampoline) ;;;
      (* create a br_table switching over the number of optional parameters provided *)
      let names := map (fun i => "N=" +:+ toString i) (seqZ 0 (numOptional + 1)) in
      let body :=
        createBlock (Some "N=0")
          [ createBlock (Some "N=invalid")
              [ createSwitch names "N=invalid" (createGetLocal maxOperands NativeType.I32) ]
              NativeType.Auto;
            createUnreachable ] NativeType.Auto in
      r <- initializeOptional (Z.to_nat numOptional) 0 minOperands minArguments
             originalParameterTypes originalParameterDeclarations body
             (forwardedThis ++ forwardedRequired) ;;
      let (body, forwardedOperands) := r in
      trampoline <- gets currentFunction ;;
      modify (fun c => withCurrentFunction c previousFunction) ;;;
      typeRef <- ensureFunctionType trampolineSignature ;;
      funcRef <- addFunction trampolineName typeRef
                   (typesToNativeTypes (additionalLocals trampoline))
                   (createBlock None
                      [ body;
                        createCall originalName forwardedOperands (toNativeType commonReturnType) ]
                      (toNativeType commonReturnType)) ;;
      let trampoline := Function_finalize trampoline funcRef in
      ret (trampoline, withTrampoline original (Some trampoline))
  end.

(** The zero constants [makeCallDirect] pushes for the omitted arguments
    [i .. maxArguments - 1]. *)
Fixpoint omittedOperands (count : nat) (i : Z) (types : list Type_) : M (list ExpressionRef) :=
  match count with
  | O => ret []
  | S count =>
      type <- at_ types i ;;
      rest <- omittedOperands count (i + 1) types ;;
      ret (toNativeZero type :: rest)
  end.

(** Which flags a fresh flow frame starts with, given the frame it is pushed
    on, and which flags the parent frame has after a frame is left, given the
    frame and its parent.  Both are decided in program.ts and the spec leaves
    them open. *)
Variable branchFlags : Flow -> Z.
Variable leaveFlags : Flow -> Flow -> Z.
(** [Program.elements.get(name)] for a global *)
Variable lookupGlobal : string -> ProgramState -> option Global.

Section Knot.

(** [Compiler.compileFunction], as called while a function is being lowered;
    it is tied to [compileFunction] below. *)
Variable compileFunctionRec : Function -> M (bool * Function).

(** Creates a direct call to the specified function.  Returns the call and
    the instance as the call leaves it. *)
Definition makeCallDirect (instance : Function) (operands : option (list ExpressionRef))
    : M (ExpressionRef * Function) :=
  let numOperands := match operands with Some l => Z.of_nat (length l) | None => 0 end in
  let isInstance := Function_is instance ElementFlags.INSTANCE in
  let minArguments := requiredParameters (signature instance) in
  let maxArguments := Z.of_nat (length (parameterTypes (signature instance))) in
  let minOperands := if isInstance then minArguments + 1 else minArguments in
  let maxOperands := if isInstance then maxArguments + 1 else maxArguments in
  let numArguments := if isInstance then numOperands - 1 else numOperands in
  assert (minOperands <=? numOperands) "assertion failed" ;;;
  r <- compileFunctionRec instance ;;
  let (compiled, instance) := r in
  if negb compiled then ret (createUnreachable, instance)
  else
    let emit (callee : Function) (operands : list ExpressionRef) : M ExpressionRef :=
      let returnType := returnType (signature callee) in
      setCurrentType returnType ;;;
      if Function_is callee ElementFlags.IMPORTED
      then ret (createCallImport (functionInternalName callee) operands (toNativeType returnType))
      else ret (createCall (functionInternalName callee) operands (toNativeType returnType)) in
    if numOperands <? maxOperands then
      r <- ensureTrampoline instance ;;
      let (trampoline, original) := r in
      r <- compileFunctionRec trampoline ;;
      let (compiled, trampoline) := r in
      if negb compiled then ret (createUnreachable, original)
      else
        omitted <- omittedOperands (Z.to_nat (maxArguments - numArguments)) numArguments
                     (parameterTypes (signature trampoline)) ;;
        let operands :=
          match operands with Some l => l | None => [] end
          ++ omitted ++ [createI32 (numOperands - minOperands)] in
        e <- emit trampoline operands ;;
        ret (e, original)
    else
      e <- emit instance (match operands with Some l => l | None => [] end) ;;
      ret (e, instance).

(** *** Assignment *)

Definition unsupported (expression : Expression) : M ExpressionRef :=
  error DiagnosticCode.Operation_not_supported (expressionRange expression) ;;;
  ret createUnreachable.

Definition cannotAssign (expression : Expression) : M ExpressionRef :=
  error DiagnosticCode.Cannot_assign_to_0_because_it_is_a_constant_or_a_read_only_property
    (expressionRange expression) ;;;
  ret createUnreachable.

(** [makeCallDirect] where only the call is used. *)
Definition callDirect (instance : Function) (operands : option (list ExpressionRef))
    : M ExpressionRef :=
  r <- makeCallDirect instance operands ;;
  ret (fst r).

(** [this.compileExpression(resolved.targetExpression, resolved.target.type)] *)
Definition compileTarget (resolved : ResolvedElement) : M (ExpressionRef * Type_) :=
  match resolvedTarget resolved, targetExpression resolved with
  | Some cls, Some e =>
      expr <- compileExpression e (classTypeOf cls) IMPLICIT true ;;
      ret (expr, classTypeOf cls)
  | _, _ => throw "TypeError"
  end.

Definition compileAssignmentWithValue (expression : Expression)
    (valueWithCorrectType : ExpressionRef) (tee : bool) : M ExpressionRef :=
  resolved <- resolveExpression expression ;;   (* reports *)
  match resolved with
  | None => ret createUnreachable
  | Some resolved =>
      match element resolved with
      | LOCAL local =>
          setCurrentType (if tee then type local else Ty.void) ;;;
          if Element_is local ElementFlags.CONSTANT then cannotAssign expression
          else
            ret (if tee
                 then createTeeLocal (index local) valueWithCorrectType
                 else createSetLocal (index local) valueWithCorrectType)
      | GLOBAL global =>
          r <- compileGlobal global ;;
          let (compiled, global) := r in
          if negb compiled then ret createUnreachable
          else
            assert (negb (Type_eqb (type global) Ty.void)) "concrete type expected" ;;;
            setCurrentType (if tee then type global else Ty.void) ;;;
            if Element_is global ElementFlags.CONSTANT then cannotAssign expression
            else if tee then
              let nativeType := toNativeType (type global) in
              ret (createBlock None   (* emulated teeGlobal *)
                     [ createSetGlobal (internalName global) valueWithCorrectType;
                       createGetGlobal (internalName global) nativeType ] nativeType)
            else ret (createSetGlobal (internalName global) valueWithCorrectType)
      | FIELD field =>
          if isReadonly field then cannotAssign expression
          else
            assert (isInstanceTarget resolved) "assertion failed" ;;;
            t <- compileTarget resolved ;;
            let targetExpr := fst t in
            setCurrentType (if tee then fieldType field else Ty.void) ;;;
            let nativeType := toNativeType (fieldType field) in
            if tee then
              tempLocal <- getAndFreeTempLocal (fieldType field) ;;
              ret (createBlock None
                     [ createSetLocal (index tempLocal) valueWithCorrectType;
                       createStore (Z.shiftr (size (fieldType field)) 3) targetExpr
                         (createGetLocal (index tempLocal) nativeType) nativeType
                         (fieldMemoryOffset field);
                       createGetLocal (index tempLocal) nativeType ] nativeType)
            else
              ret (createStore (Z.shiftr (size (fieldType field)) 3) targetExpr
                     valueWithCorrectType nativeType (fieldMemoryOffset field))
      | PROPERTY property =>
          match setterPrototype property with
          | None => cannotAssign expression
          | Some setterPrototype =>
              setterInstance <- resolvePrototype setterPrototype ;;   (* reports *)
              match setterInstance with
              | None => ret createUnreachable
              | Some setterInstance =>
                  (* call just the setter if the return value isn't of interest *)
                  if negb tee then
                    if Function_is setterInstance ElementFlags.INSTANCE then
                      assert (isInstanceTarget resolved) "assertion failed" ;;;
                      t <- compileTarget resolved ;;
                      callDirect setterInstance (Some [fst t; valueWithCorrectType])
                    else callDirect setterInstance (Some [valueWithCorrectType])
                  else
                    (* otherwise call the setter first, then the getter *)
                    match getterPrototype property with
                    | None => throw "assertion failed"   (* must have one if there is a setter *)
                    | Some getterPrototype =>
                        getterInstance <- resolvePrototype getterPrototype ;;   (* reports *)
                        match getterInstance with
                        | None => ret createUnreachable
                        | Some getterInstance =>
                            let returnType := returnType (signature getterInstance) in
                            if Function_is setterInstance ElementFlags.INSTANCE then
                              assert (isInstanceTarget resolved) "assertion failed" ;;;
                              t <- compileTarget resolved ;;
                              tempLocal <- getAndFreeTempLocal returnType ;;
                              (* set and remember the target *)
                              set <- callDirect setterInstance
                                       (Some [ createTeeLocal (index tempLocal) (fst t);
                                               valueWithCorrectType ]) ;;
                              (* get from remembered target *)
                              get_ <- callDirect getterInstance
                                        (Some [ createGetLocal (index tempLocal)
                                                  (toNativeType returnType) ]) ;;
                              ret (createBlock None [set; get_] (toNativeType returnType))
                            else
                              set <- callDirect setterInstance (Some [valueWithCorrectType]) ;;
                              get_ <- callDirect getterInstance None ;;
                              ret (createBlock None [set; get_] (toNativeType returnType))
                        end
                    end
              end
          end
      | FUNCTION_PROTOTYPE prototype _ =>   (* @operator("[]") ? *)
          match expressionKind expression with
          | NodeKind.ELEMENTACCESS =>
              assert (isInstanceTarget resolved) "assertion failed" ;;;
              getterInstance <- resolvePrototype prototype ;;   (* reports *)
              match getterInstance, resolvedTarget resolved with
              | None, _ => ret createUnreachable
              | Some _, None => throw "TypeError"
              | Some getterInstance, Some cls =>
                  (* obtain @operator("[]=") *)
                  let setElement :=
                    match fnIndexedSet cls, members cls with
                    | Some setElementName, Some members =>
                        match members !! setElementName with
                        | Some (Some setElement) => Some setElement
                        | _ => None
                        end
                    | _, _ => None
                    end in
                  match setElement with
                  | Some setElement =>
                      setterInstance <- resolvePrototype setElement ;;   (* reports *)
                      match setterInstance with
                      | None => ret createUnreachable
                      | Some setterInstance =>
                          t <- compileTarget resolved ;;
                          let (targetExpr, targetType) := t in
                          elementExpr <- compileExpression (elementExpression expression)
                                           Ty.i32 IMPLICIT true ;;
                          if tee then
                            tempLocalTarget <- getTempLocal targetType ;;
                            c <- get ;;
                            tempLocalElement <- getAndFreeTempLocal (currentType c) ;;
                            let returnType := returnType (signature getterInstance) in
                            freeTempLocal tempLocalTarget ;;;
                            set <- callDirect setterInstance
                                     (Some [ createTeeLocal (index tempLocalTarget) targetExpr;
                                             createTeeLocal (index tempLocalElement) elementExpr;
                                             valueWithCorrectType ]) ;;
                            get_ <- callDirect getterInstance
                                      (Some [ createGetLocal (index tempLocalTarget)
                                                (toNativeType (type tempLocalTarget));
                                              createGetLocal (index tempLocalElement)
                                                (toNativeType (type tempLocalElement)) ]) ;;
                            ret (createBlock None [set; get_] (toNativeType returnType))
                          else
                            callDirect setterInstance
                              (Some [targetExpr; elementExpr; valueWithCorrectType])
                      end
                  | None =>
                      error DiagnosticCode.Index_signature_in_type_0_only_permits_reading
                        (expressionRange expression) ;;;
                      ret createUnreachable
                  end
              end
          | _ => unsupported expression
          end
      | _ => unsupported expression
      end
  end.

(** *** Flow frames and break contexts *)

(** Modelled from the spec: [Flow.enterBranchOrScope] and
    [Flow.leaveBranchOrScope] of program.ts (section 4.3: a new frame is
    pushed by blocks, arms, loop bodies and case bodies; leaving restores the
    parent frame), with [branchFlags] and [leaveFlags] for the flags. *)
Definition getFlow : M Flow := gets (fun c => flow (currentFunction c)).

Definition setFlow (f : Flow) : M unit :=
  modify (fun c => withCurrentFunction c (withFlow (currentFunction c) f)).

(** [this.currentFunction.flow.set(flag)] and [.is(flag)] *)
Definition flowSet (flag : Z) : M unit :=
  f <- getFlow ;; setFlow (Flow_set f flag).

Definition flowIs (flag : Z) : M bool :=
  f <- getFlow ;; ret (Flow_is f flag).

(** [this.currentFunction.flow = this.currentFunction.flow.enterBranchOrScope()] *)
Definition enterBranchOrScope : M unit :=
  f <- getFlow ;;
  setFlow (mkFlow (Some f) (branchFlags f) (continueLabel f) (breakLabel f) None).

Fixpoint freeScopedLocals (locals : list (string * Local)) : M unit :=
  match locals with
  | [] => ret tt
  | (_, local) :: rest => freeTempLocal local ;;; freeScopedLocals rest
  end.

(** [this.currentFunction.flow = this.currentFunction.flow.leaveBranchOrScope()] *)
Definition leaveBranchOrScope : M unit :=
  f <- getFlow ;;
  match parent f with
  | None => throw "assertion failed"
  | Some p =>
      (* free block-scoped locals *)
      match scopedLocals f with
      | Some locals => freeScopedLocals locals
      | None => ret tt
      end ;;;
      (* propagate flags to parent *)
      setFlow (mkFlow (parent p) (leaveFlags f p) (continueLabel p) (breakLabel p)
                 (scopedLocals p))
  end.

(** Modelled from the spec: [Flow.finalize] of program.ts (section 4.2:
    "the Flow is finalized: ... not all exit paths are proved to return"): the
    labels are dropped and the answer is the RETURNS flag. *)
Definition finalizeFlow : M bool :=
  f <- getFlow ;;
  setFlow (withContinueLabel (withBreakLabel f None) None) ;;;
  ret (Flow_is f FlowFlags.RETURNS).

(** Modelled from the spec: [Function.enterBreakContext] and
    [leaveBreakContext] of program.ts (section 4.3: "the context counter is
    per-function and monotonically increasing"). *)
Definition enterBreakContext : M string :=
  c <- get ;;
  let f := currentFunction c in
  let id := nextBreakId f in
  modify (fun c => withCurrentFunction c
            (withBreakContext (currentFunction c) (id + 1) (breakStack f ++ [id]))) ;;;
  ret (toString id).

Definition leaveBreakContext : M unit :=
  modify (fun c =>
    let f := currentFunction c in
    withCurrentFunction c (withBreakContext f (nextBreakId f) (removelast (breakStack f)))).

Definition setBreakLabel (l : option string) : M unit :=
  f <- getFlow ;; setFlow (withBreakLabel f l).

Definition setContinueLabel (l : option string) : M unit :=
  f <- getFlow ;; setFlow (withContinueLabel f l).

(** Modelled from the spec: [Flow.addScopedLocal] of program.ts (section
    4.3: "let introduces a new scoped slot; duplicate scoped names are
    rejected"). *)
Definition addScopedLocal (name : string) (t : Type_) (reportNode : IdentifierExpression)
    : M unit :=
  local <- getTempLocal t ;;
  f <- getFlow ;;
  let locals := match scopedLocals f with Some l => l | None => [] end in
  if existsb (fun entry => String.eqb (fst entry) name) locals then
    error DiagnosticCode.Duplicate_identifier_0 (identifierRange reportNode)
  else setFlow (withScopedLocals f (Some (locals ++ [(name, local)]))).

(** *** Statements *)

(** Creates a comparison whether an expression is 'true' in a broader sense. *)
Definition makeIsTrueish (expr : ExpressionRef) (t : Type_) : M ExpressionRef :=
  match kind t with
  | TypeKind.I64 | TypeKind.U64 =>
      ret (createBinary BinaryOp.NeI64 expr (createI64 0 0))
  | TypeKind.USIZE | TypeKind.ISIZE =>
      if size t =? 64
      then ret (createBinary BinaryOp.NeI64 expr (createI64 0 0))
      else ret expr
  | TypeKind.F32 => ret (createBinary BinaryOp.NeF32 expr (createF32 0%float))
  | TypeKind.F64 => ret (createBinary BinaryOp.NeF64 expr (createF64 0%float))
  | TypeKind.VOID => throw "concrete type expected"
  | _ => ret expr
  end.

Definition addDebugLocation (expr : ExpressionRef) (r : Range) : M unit :=
  c <- get ;;
  if negb (sourceMap (options c)) then ret tt
  else
    modify (fun c =>
      let m := module c in
      let c :=
        if bool_decide (source r ∈ debugInfoFiles m) then c
        else withModule c (withDebugInfoFiles m (debugInfoFiles m ++ [source r])) in
      withCurrentFunction c
        (withDebugLocations (currentFunction c)
           (debugLocations (currentFunction c) ++ [(r, expr)]))).

Definition compileGlobalDeclaration (declaration : VariableDeclaration) : M (option Global) :=
  c <- get ;;
  (* look up the initialized program element *)
  match lookupGlobal (fileLevelInternalName declaration) (program c) with
  | None => throw "assertion failed"
  | Some element =>
      r <- compileGlobal element ;;   (* reports *)
      let (compiled, element) := r in
      ret (if compiled then Some element else None)
  end.

(** Modelled from the spec: [new Local(program, name, -1, type)] followed by
    [withConstantIntegerValue] or [withConstantFloatValue] of program.ts
    (section 4.3: a virtual local has no slot, only a type and its cached
    literal, and later reads are expanded inline). *)
Definition virtualLocal (name : string) (t : Type_) (init : ExpressionRef) : M Local :=
  let local := mkVariable name name (Z.lor ElementFlags.CONSTANT ElementFlags.INLINED) t
                 NONE 0 0%float (-1) None None in
  match expressionType init with
  | NativeType.I32 | NativeType.I64 => ret (withIntegerValue local (constantI64 init))
  | NativeType.F32 | NativeType.F64 => ret (withFloatValue local (constantFloat init))
  | _ => throw "concrete type expected"
  end.

(** The loop of [compileVariableStatement] over the declarations that become
    locals; [initializers] collects the assignments so far. *)
Fixpoint compileLocalDeclarations (declarations : list VariableDeclaration)
    (initializers : list ExpressionRef) : M ExpressionRef :=
  match declarations with
  | [] =>
      (* we can unwrap these here because the source didn't tell us exactly what to do *)
      match initializers with
      | [] => ret noExpression
      | [initializer] => ret initializer
      | _ => ret (createBlock None initializers NativeType.None)
      end
  | declaration :: rest =>
      let name := text (variableName declaration) in
      let skip := compileLocalDeclarations rest initializers in
      typed <-
        match variableType declaration, variableInitializer declaration with
        | Some typeNode, initializer =>
            t <- resolveType typeNode ;;   (* reports *)
            match t, initializer with
            | None, _ => ret None
            | Some t, Some initializer =>
                init <- compileExpression initializer t IMPLICIT true ;;   (* reports *)
                ret (Some (t, init))
            | Some t, None => ret (Some (t, noExpression))
            end
        | None, Some initializer =>
            (* infer type using void/NONE for proper literal inference *)
            init <- compileExpression initializer Ty.void ConversionNONE true ;;   (* reports *)
            c <- get ;;
            if Type_eqb (currentType c) Ty.void then
              error DiagnosticCode.Type_0_is_not_assignable_to_type_1
                (variableRange declaration) ;;;
              ret None
            else ret (Some (currentType c, init))
        | None, None =>
            error DiagnosticCode.Type_expected
              (atEnd (identifierRange (variableName declaration))) ;;;
            ret None
        end ;;
      match typed with
      | None => skip
      | Some (t, init) =>
          let declare (init : ExpressionRef) : M ExpressionRef :=
            (if isLetDeclaration declaration   (* here: not top-level *)
             then addScopedLocal name t (variableName declaration)   (* reports *)
             else addLocal t name) ;;;   (* reports *)
            if negb (isNoExpression init) then
              assignment <- compileAssignmentWithValue (asExpression (variableName declaration))
                              init false ;;
              compileLocalDeclarations rest (initializers ++ [assignment])
            else skip in
          if isConstDeclaration declaration then
            if negb (isNoExpression init) then
              init <- precomputeExpressionRef init ;;
              if isConst init then
                local <- virtualLocal name t init ;;
                (* Create a virtual local that doesn't actually exist in WebAssembly *)
                f <- getFlow ;;
                match scopedLocals f with
                | Some locals =>
                    if existsb (fun entry => String.eqb (fst entry) name) locals then
                      error DiagnosticCode.Duplicate_identifier_0
                        (identifierRange (variableName declaration)) ;;;
                      ret noExpression
                    else
                      setFlow (withScopedLocals f (Some (locals ++ [(name, local)]))) ;;;
                      ret noExpression
                | None =>
                    setFlow (withScopedLocals f (Some [(name, local)])) ;;;
                    ret noExpression
                end
              else
                warning DiagnosticCode.Compiling_constant_with_non_constant_initializer_as_mutable
                  (variableRange declaration) ;;;
                declare init
            else
              error DiagnosticCode._const_declarations_must_be_initialized
                (variableRange declaration) ;;;
              declare init
          else declare init
      end
  end.

Fixpoint compileGlobalDeclarations (declarations : list VariableDeclaration) : M unit :=
  match declarations with
  | [] => ret tt
  | declaration :: rest =>
      compileGlobalDeclaration declaration ;;; compileGlobalDeclarations rest
  end.

(** Compiles a variable statement. Returns [noExpression] if an initializer
    is not necessary. *)
Definition compileVariableStatement (declarations : list VariableDeclaration)
    (parentIsSource isKnownGlobal : bool) : M ExpressionRef :=
  c <- get ;;
  (* top-level variables and constants become globals *)
  if isKnownGlobal || (Function_is (currentFunction c) ElementFlags.START && parentIsSource) then
    compileGlobalDeclarations declarations ;;;
    ret noExpression
  (* other variables become locals *)
  else compileLocalDeclarations declarations [].

(** The [br_if] per labelled case of a switch, for the cases from [i] on;
    returns the breaks and the index of the last default case (-1 if none). *)
Fixpoint compileCaseLabels (cases : list (option Expression * list Statement)) (i : Z)
    (context : string) (tempLocal : Local) (defaultIndex : Z)
    : M (list ExpressionRef * Z) :=
  match cases with
  | [] => ret ([], defaultIndex)
  | (Some label, _) :: rest =>
      labelExpr <- compileExpression label Ty.i32 IMPLICIT true ;;
      let break_ :=
        createBreak ("case" +:+ toString i +:+ "|" +:+ context)
          (createBinary BinaryOp.EqI32
             (createGetLocal (index tempLocal) NativeType.I32) labelExpr) in
      r <- compileCaseLabels rest (i + 1) context tempLocal defaultIndex ;;
      ret (break_ :: fst r, snd r)
  | (None, _) :: rest => compileCaseLabels rest (i + 1) context tempLocal i
  end.

(** [compileStatements], over the function that compiles one statement. *)
Definition compileStatementsWith (compileStatement : Statement -> M ExpressionRef)
    : list Statement -> M (list ExpressionRef) :=
  fix compileStatements (statements : list Statement) : M (list ExpressionRef) :=
    match statements with
    | [] => ret []
    | s :: rest =>
        stmt <- compileStatement s ;;
        stmts <- compileStatements rest ;;
        ret (stmt :: stmts)
    end.

(** The first half of [compileSwitchStatement]: the break context, the
    temporary local holding the condition and the block of breaks.  Returns
    the context, the breaks and the index of the default case. *)
Definition compileSwitchBreaks (condition : Expression)
    (cases : list (option Expression * list Statement)) : M (string * list ExpressionRef * Z) :=
  (* Everything within a switch uses the same break context *)
  context <- enterBreakContext ;;
  (* introduce a local for evaluating the condition (exactly once) *)
  tempLocal <- getTempLocal Ty.u32 ;;
  let numCases := Z.of_nat (length cases) in
  (* Prepend initializer to inner block. Does not initiate a new branch, yet. *)
  conditionExpr <- compileExpression condition Ty.u32 IMPLICIT true ;;
  let initializer := createSetLocal (index tempLocal) conditionExpr in
  (* make one br_if per (possibly dynamic) labeled case *)
  r <- compileCaseLabels cases 0 context tempLocal (-1) ;;
  let (caseBreaks, defaultIndex) := r in
  freeTempLocal tempLocal ;;;
  (* otherwise br to default respectively out of the switch if there is no default case *)
  let breaks :=
    initializer :: caseBreaks ++
    [ createBreak ((if 0 <=? defaultIndex
                    then "case" +:+ toString defaultIndex
                    else "break") +:+ "|" +:+ context) noExpression ] in
  (* the array was created with 1 + numCases slots *)
  let breaks :=
    breaks ++ repeat noExpression (Z.to_nat (1 + numCases) - length breaks)%nat in
  ret (context, breaks, defaultIndex).

(** The second half of [compileSwitchStatement]: the loop that nests the
    case bodies, from case [i] on.  Returns the outermost block and
    [alwaysReturns]. *)
Definition compileSwitchCases (compileStatement : Statement -> M ExpressionRef)
    (context : string) (numCases : Z)
    : list (option Expression * list Statement) -> Z -> ExpressionRef -> bool ->
      M (ExpressionRef * bool) :=
  fix compileCases (cases : list (option Expression * list Statement)) (i : Z)
      (currentBlock : ExpressionRef) (alwaysReturns : bool) : M (ExpressionRef * bool) :=
    match cases with
    | [] => ret (currentBlock, alwaysReturns)
    | (_, statements) :: rest =>
        (* Each switch case initiates a new branch *)
        enterBranchOrScope ;;;
        let breakLabel := "break|" +:+ context in
        setBreakLabel (Some breakLabel) ;;;
        let fallsThrough := negb (i =? numCases - 1) in
        let nextLabel :=
          if negb fallsThrough then breakLabel
          else "case" +:+ toString (i + 1) +:+ "|" +:+ context in
        stmts <- compileStatementsWith compileStatement statements ;;
        returns <- flowIs FlowFlags.RETURNS ;;
        let alwaysReturns :=
          if negb (fallsThrough || returns)
          then false   (* ignore fall-throughs *)
          else alwaysReturns in
        (* Switch back to the parent flow *)
        leaveBranchOrScope ;;;
        compileCases rest (i + 1)
          (createBlock (Some nextLabel) (currentBlock :: stmts) NativeType.None)
          alwaysReturns
    end.

Fixpoint compileStatement (statement : Statement) {struct statement} : M ExpressionRef :=
  let compileStatements := compileStatementsWith compileStatement in
  let located (m : M ExpressionRef) : M ExpressionRef :=
    expr <- m ;;
    addDebugLocation expr (statementRange statement) ;;;
    ret expr in
  match statement with
  | BlockStatement _ statements =>
      located (
        (* Not actually a branch, but can contain its own scoped variables. *)
        enterBranchOrScope ;;;
        stmts <- compileStatements statements ;;
        let stmt := createBlock None stmts NativeType.None in
        stmtReturns <- flowIs FlowFlags.RETURNS ;;
        (* Switch back to the parent flow *)
        leaveBranchOrScope ;;;
        (if stmtReturns then flowSet FlowFlags.RETURNS else ret tt) ;;;
        ret stmt)
  | BreakStatement r label =>
      located (
        match label with
        | Some label =>
            error DiagnosticCode.Operation_not_supported (identifierRange label) ;;;
            ret createUnreachable
        | None =>
            f <- getFlow ;;
            match breakLabel f with
            | None =>
                error DiagnosticCode.A_break_statement_can_only_be_used_within_an_enclosing_iteration_or_switch_statement r ;;;
                ret createUnreachable
            | Some breakLabel =>
                flowSet FlowFlags.POSSIBLY_BREAKS ;;;
                ret (createBreak breakLabel noExpression)
            end
        end)
  | ContinueStatement r label =>
      located (
        match label with
        | Some label =>
            error DiagnosticCode.Operation_not_supported (identifierRange label) ;;;
            ret createUnreachable
        | None =>
            (* Check if 'continue' is allowed here *)
            f <- getFlow ;;
            match continueLabel f with
            | None =>
                error DiagnosticCode.A_continue_statement_can_only_be_used_within_an_enclosing_iteration_statement r ;;;
                ret createUnreachable
            | Some continueLabel =>
                flowSet FlowFlags.POSSIBLY_CONTINUES ;;;
                ret (createBreak continueLabel noExpression)
            end
        end)
  | DoStatement _ body condition =>
      located (
        (* A do statement does not initiate a new branch because it is executed at
           least once, but has its own break and continue labels. *)
        label <- enterBreakContext ;;
        f <- getFlow ;;
        let previousBreakLabel := breakLabel f in
        let previousContinueLabel := continueLabel f in
        let breakLabel := "break|" +:+ label in
        let continueLabel := "continue|" +:+ label in
        setBreakLabel (Some breakLabel) ;;;
        setContinueLabel (Some continueLabel) ;;;
        body <- compileStatement body ;;
        (* Reset to the previous break and continue labels, if any. *)
        setBreakLabel previousBreakLabel ;;;
        setContinueLabel previousContinueLabel ;;;
        condition <- compileExpression condition Ty.i32 ConversionNONE true ;;
        c <- get ;;
        condition <- makeIsTrueish condition (currentType c) ;;
        leaveBreakContext ;;;
        ret (createBlock (Some breakLabel)
               [ createLoop continueLabel
                   (createBlock None
                      [ body; createBreak continueLabel condition ] NativeType.None) ]
               NativeType.None))
  | EmptyStatement _ => located (ret createNop)
  | ExpressionStatement _ expression =>
      located (
        expr <- compileExpression expression Ty.void ConversionNONE true ;;
        c <- get ;;
        if negb (Type_eqb (currentType c) Ty.void) then
          setCurrentType Ty.void ;;;
          ret (createDrop expr)
        else ret expr)
  | ForStatement _ initializer condition incrementor body =>
      located (
        (* A for statement initiates a new branch with its own scoped variables
           possibly declared in its initializer, and break context. *)
        context <- enterBreakContext ;;
        enterBranchOrScope ;;;
        let breakLabel := "break|" +:+ context in
        let continueLabel := "continue|" +:+ context in
        setBreakLabel (Some breakLabel) ;;;
        setContinueLabel (Some continueLabel) ;;;
        (* Compile in correct order *)
        initializer <-
          match initializer with
          | Some initializer => compileStatement initializer
          | None => ret createNop
          end ;;
        conditionExpr <-
          match condition with
          | Some condition => compileExpression condition Ty.i32 IMPLICIT true
          | None => ret (createI32 1)
          end ;;
        incrementor <-
          match incrementor with
          | Some incrementor => compileExpression incrementor Ty.void IMPLICIT true
          | None => ret createNop
          end ;;
        body <- compileStatement body ;;
        returns <- flowIs FlowFlags.RETURNS ;;
        let alwaysReturns :=
          match condition with Some _ => false | None => returns end in
        (* Switch back to the parent flow *)
        leaveBranchOrScope ;;;
        leaveBreakContext ;;;
        let expr :=
          createBlock (Some breakLabel)
            [ initializer;
              createLoop continueLabel
                (createBlock None
                   [ createIf conditionExpr
                       (createBlock None
                          [ body; incrementor; createBreak continueLabel noExpression ]
                          NativeType.None)
                       noExpression ]
                   NativeType.None) ]
            NativeType.None in
        (* If the loop is guaranteed to run and return, propagate that and append a hint *)
        if alwaysReturns then
          flowSet FlowFlags.RETURNS ;;;
          ret (createBlock None [ expr; createUnreachable ] NativeType.Auto)
        else ret expr)
  | IfStatement _ condition ifTrue ifFalse =>
      located (
        (* The condition doesn't initiate a branch yet *)
        condition <- compileExpression condition Ty.i32 ConversionNONE true ;;
        c <- get ;;
        condition <- makeIsTrueish condition (currentType c) ;;
        (* Each arm initiates a branch *)
        enterBranchOrScope ;;;
        ifTrue <- compileStatement ifTrue ;;
        ifTrueReturns <- flowIs FlowFlags.RETURNS ;;
        leaveBranchOrScope ;;;
        r <-
          match ifFalse with
          | Some ifFalse =>
              enterBranchOrScope ;;;
              ifFalse <- compileStatement ifFalse ;;
              ifFalseReturns <- flowIs FlowFlags.RETURNS ;;
              leaveBranchOrScope ;;;
              ret (ifFalse, ifFalseReturns)
          | None => ret (noExpression, false)
          end ;;
        let (ifFalse, ifFalseReturns) := r in
        (if ifTrueReturns && ifFalseReturns   (* not necessary to append a hint *)
         then flowSet FlowFlags.RETURNS else ret tt) ;;;
        ret (createIf condition ifTrue ifFalse))
  | ReturnStatement _ value =>
      located (
        expression <-
          match value with
          | Some value =>
              c <- get ;;
              compileExpression value (returnType (signature (currentFunction c))) IMPLICIT true
          | None => ret noExpression
          end ;;
        (* Remember that this flow returns *)
        flowSet FlowFlags.RETURNS ;;;
        ret (createReturn expression))
  | SwitchStatement _ condition cases =>
      located (
        r <- compileSwitchBreaks condition cases ;;
        let '(context, breaks, defaultIndex) := r in
        (* nest blocks in order *)
        r <- compileSwitchCases compileStatement context (Z.of_nat (length cases)) cases 0
               (createBlock (Some ("case0|" +:+ context)) breaks NativeType.None) true ;;
        let (currentBlock, alwaysReturns) := r in
        leaveBreakContext ;;;
        (* If the switch has a default and always returns, propagate that *)
        (if (0 <=? defaultIndex) && alwaysReturns
         then flowSet FlowFlags.RETURNS else ret tt) ;;;
        ret currentBlock)
  | ThrowStatement _ _ =>
      located (
        (* Remember that this branch possibly throws *)
        flowSet FlowFlags.POSSIBLY_THROWS ;;;
        (* FIXME: without try-catch it is safe to assume RETURNS as well for now *)
        flowSet FlowFlags.RETURNS ;;;
        ret createUnreachable)
  | TryStatement _ => throw "not implemented"
  | VariableStatement _ declarations parentIsSource =>
      located (
        expr <- compileVariableStatement declarations parentIsSource false ;;
        ret (if isNoExpression expr then createNop else expr))
  | VoidStatement _ expression =>
      located (compileExpression expression Ty.void EXPLICIT false)
  | WhileStatement _ condition body =>
      located (
        (* The condition does not yet initialize a branch *)
        condition <- compileExpression condition Ty.i32 ConversionNONE true ;;
        c <- get ;;
        condition <- makeIsTrueish condition (currentType c) ;;
        (* Statements initiate a new branch with its own break context *)
        label <- enterBreakContext ;;
        enterBranchOrScope ;;;
        let breakLabel := "break|" +:+ label in
        let continueLabel := "continue|" +:+ label in
        setBreakLabel (Some breakLabel) ;;;
        setContinueLabel (Some continueLabel) ;;;
        body <- compileStatement body ;;
        returns <- flowIs FlowFlags.RETURNS ;;
        let alwaysReturns := false && returns in
        (* Switch back to the parent flow *)
        leaveBranchOrScope ;;;
        leaveBreakContext ;;;
        let expr :=
          createBlock (Some breakLabel)
            [ createLoop continueLabel
                (createIf condition
                   (createBlock None
                      [ body; createBreak continueLabel noExpression ] NativeType.None)
                   noExpression) ]
            NativeType.None in
        (* If the loop is guaranteed to run and return, propagate that and append a hint *)
        if alwaysReturns
        then ret (createBlock None [ expr; createUnreachable ] NativeType.Auto)
        else ret expr)
  | TypeDeclaration _ =>
      (* type declarations must be top-level because function bodies are evaluated when
         reachable only. *)
      c <- get ;;
      if Function_is (currentFunction c) ElementFlags.START then ret createNop
      else throw "statement expected"
  | OtherStatement _ => throw "statement expected"
  end.

(** The check of [compileFunction] that modifiers are matching; the function
    is still compiled as-is. *)
Definition checkModifiers (instance : Function) : M unit :=
  let declaration := functionDeclaration (prototype instance) in
  match body declaration with
  | Some _ =>
      if Function_is instance ElementFlags.DECLARED then
        error DiagnosticCode.An_implementation_cannot_be_declared_in_ambient_contexts
          (identifierRange (functionName declaration))
      else ret tt
  | None =>
      if negb (Function_is instance ElementFlags.DECLARED) then
        error DiagnosticCode.Function_implementation_is_missing_or_not_immediately_following_the_declaration
          (identifierRange (functionName declaration))
      else ret tt
  end.

(** One unfolding of [compileFunction]: compiles a readily resolved function
    instance.  Returns the instance as compilation leaves it. *)
Definition compileFunctionStep (instance : Function) : M (bool * Function) :=
  if Function_is instance ElementFlags.COMPILED then ret (true, instance)
  else
    assert (negb (Function_is instance ElementFlags.BUILTIN) ||
            String.eqb (functionSimpleName instance) "abort") "assertion failed" ;;;
    let instance := Function_set instance ElementFlags.COMPILED in
    let declaration := functionDeclaration (prototype instance) in
    checkModifiers instance ;;;
    typeRef <- ensureFunctionType (signature instance) ;;
    r <-
      match body declaration with
      | Some body =>
          (* compile body *)
          previousFunction <- gets currentFunction ;;
          modify (fun c => withCurrentFunction c instance) ;;;
          stmt <- compileStatement body ;;
          (* make sure all branches return *)
          allBranchesReturn <- finalizeFlow ;;
          let returnType := returnType (signature instance) in
          (if negb (Type_eqb returnType Ty.void) && negb allBranchesReturn then
             match declaredReturnType declaration with
             | None => throw "return type expected"
             | Some node =>
                 error DiagnosticCode.A_function_whose_declared_type_is_not_void_must_return_a_value
                   (typeNodeRange node)
             end
           else ret tt) ;;;
          instance <- gets currentFunction ;;
          modify (fun c => withCurrentFunction c previousFunction) ;;;
          (* create the function *)
          ref <- addFunction (functionInternalName instance) typeRef
                   (typesToNativeTypes (additionalLocals instance)) stmt ;;
          ret (ref, instance)
      | None =>
          let instance := Function_set instance ElementFlags.IMPORTED in
          (* create the function import *)
          ref <- addFunctionImport (functionInternalName instance)
                   (match prototypeNamespace (prototype instance) with
                    | Some namespace => namespace
                    | None => "env"
                    end)
                   (functionSimpleName instance) typeRef ;;
          ret (ref, instance)
      end ;;
    let (ref, instance) := r in
    (* check module-level export *)
    (if functionSourceIsEntry declaration && functionIsTopLevelExport declaration
     then addFunctionExport (functionInternalName instance) (text (functionName declaration))
     else ret tt) ;;;
    ret (true, Function_finalize instance ref).

End Knot.

(** [Compiler.compileFunction]; [depth] bounds how deep the compilation of
    one function may trigger the compilation of the functions it calls. *)
Fixpoint compileFunction (depth : nat) (instance : Function) : M (bool * Function) :=
  match depth with
  | O => throw "call stack exhausted"
  | S depth => compileFunctionStep (compileFunction depth) instance
  end.

(** *** Sequences of allocations *)

(** [addMemorySegment] for each request, a buffer and its alignment, in
    order; returns the segments handed out. *)
Fixpoint addMemorySegments (requests : list (list Z * Z)) : M (list MemorySegment) :=
  match requests with
  | [] => ret []
  | (buffer, alignment) :: rest =>
      segment <- addMemorySegment buffer alignment ;;
      segments <- addMemorySegments rest ;;
      ret (segment :: segments)
  end.

(** [compileStaticString] for each string literal of a program, in order;
    returns what the literals evaluate to. *)
Fixpoint compileStaticStrings (literals : list (list Z)) : M (list ExpressionRef) :=
  match literals with
  | [] => ret []
  | stringValue :: rest =>
      expr <- compileStaticString stringValue ;;
      exprs <- compileStaticStrings rest ;;
      ret (expr :: exprs)
  end.

(** *** The integer conversions, as the specification words them *)

(** Section 4.4, int to int: "if source is long and target is not, wrap
    (discard upper 32 bits) and then small-wrap if small target; if source is
    not long and target is long, sign- or zero-extend per target signedness;
    if same width or narrowing within 32 bits, emit a small-wrap only if the
    target is small and either width shrinks or signedness flips." *)
Definition integerConversion (expr : ExpressionRef) (fromType toType : Type_)
    : Result ExpressionRef :=
  let long t := Type_is t TypeFlags.LONG in
  let small t := Type_is t TypeFlags.SMALL in
  let signed t := Type_is t TypeFlags.SIGNED in
  if long fromType && negb (long toType) then
    if small toType
    then makeSmallIntegerWrap (createUnary UnaryOp.WrapI64 expr) toType
    else Ok (createUnary UnaryOp.WrapI64 expr)
  else if negb (long fromType) && long toType then
    if signed toType
    then Ok (createUnary UnaryOp.ExtendI32 expr)
    else Ok (createUnary UnaryOp.ExtendU32 expr)
  else if small toType &&
          ((size toType <? size fromType) ||
           ((size fromType =? size toType) && xorb (signed fromType) (signed toType)))
  then makeSmallIntegerWrap expr toType
  else Ok expr.

(** An integer type: it has the INTEGER flag, is neither a float nor void,
    and is not both long and small. *)
Definition isIntegerType (t : Type_) : bool :=
  Type_is t TypeFlags.INTEGER && negb (Type_is t TypeFlags.FLOAT) &&
  negb (TypeKind.eqb (kind t) TypeKind.VOID) &&
  negb (Type_is t TypeFlags.LONG && Type_is t TypeFlags.SMALL).

(** *** Enums *)

(** An enum value declaration (ast.ts), as far as [compileEnum] inspects
    it. *)
Record EnumValueDeclaration := mkEnumValueDeclaration {
  enumValueInitializer : option Expression;   (** [value] *)
  enumValueRange : Range
}.

Record EnumDeclaration := mkEnumDeclaration {
  enumIsTopLevelExport : bool;
  enumSourceIsEntry : bool   (** [range.source.isEntry] *)
}.

(** A member of an enum: an enum value with its declaration, or an element
    of another kind, which happens if an enum is also a namespace. *)
Inductive EnumMember :=
| MEMBER_VALUE (val : EnumValue) (valueDeclaration : EnumValueDeclaration)
| MEMBER_OTHER.

(** An enum element (program.ts); its members in the order of the map. *)
Record Enum := mkEnum {
  enumFlags : Z;
  enumMembers : option (list EnumMember);
  enumDeclaration : EnumDeclaration
}.

Definition Enum_is (e : Enum) (flag : Z) : bool := flags_is (enumFlags e) flag.

Definition Enum_set (e : Enum) (flag : Z) : Enum :=
  mkEnum (flags_set (enumFlags e) flag) (enumMembers e) (enumDeclaration e).

Definition withMembers (e : Enum) (m : option (list EnumMember)) : Enum :=
  mkEnum (enumFlags e) m (enumDeclaration e).

Definition EnumValue_is (v : EnumValue) (flag : Z) : bool := flags_is (enumValueFlags v) flag.

Definition EnumValue_set (v : EnumValue) (flag : Z) : EnumValue :=
  mkEnumValue (enumValueInternalName v) (flags_set (enumValueFlags v) flag) (constantValue v).

Definition withConstantValue (v : EnumValue) (x : Z) : EnumValue :=
  mkEnumValue (enumValueInternalName v) (enumValueFlags v) x.

(** [_BinaryenConstGetValueI32]: the constant, as the 32-bit integer that
    the module holds. *)
Definition constantI32 (e : ExpressionRef) : Z :=
  match e with
  | createI32 v => i32_wrap v
  | _ => 0
  end.

(** [this.currentEnum = element]: the field is read by the lookup of
    identifiers only, which belongs to the lowering of expressions; it is
    kept with the state of the collaborators. *)
Variable setCurrentEnum : option Enum -> ProgramState -> ProgramState.
(** [DiagnosticCode.Cannot_export_a_mutable_global] (diagnostics.ts) *)
Variable Cannot_export_a_mutable_global : DiagnosticCode.t.

Definition withCurrentEnum (e : option Enum) : M unit :=
  modify (fun c =>
    mkCompiler (setCurrentEnum e (program c)) (options c) (module c) (diagnostics c)
      (startFunctionBody c) (currentFunction c) (currentType c) (memoryOffset c)
      (memorySegments c) (stringSegments c)).

(** The body of the loop of [compileEnum] for a member that is an enum
    value; [previousValue] is the value compiled before it.  Returns the
    value as the loop leaves it. *)
Definition compileEnumValue (element : Enum) (previousValue : option EnumValue)
    (val : EnumValue) (valueDeclaration : EnumValueDeclaration) : M EnumValue :=
  let val := EnumValue_set val ElementFlags.COMPILED in
  let mutableWarning :=
    if Enum_is element ElementFlags.CONSTANT then
      warning DiagnosticCode.Compiling_constant_with_non_constant_initializer_as_mutable
        (enumValueRange valueDeclaration)
    else ret tt in
  val <-
    (if EnumValue_is val ElementFlags.INLINED then
       (if enumIsTopLevelExport (enumDeclaration element) then
          addGlobal (enumValueInternalName val) NativeType.I32 false (* constant *)
            (createI32 (constantValue val))
        else ret tt) ;;;
       ret val
     else
       init <-
         match enumValueInitializer valueDeclaration with
         | Some value =>
             initExpr <- compileExpression value Ty.i32 IMPLICIT true ;;
             if negb (isConst initExpr) then
               initExpr <- precomputeExpressionRef initExpr ;;
               if negb (isConst initExpr) then
                 mutableWarning ;;;
                 ret (initExpr, true)
               else ret (initExpr, false)
             else ret (initExpr, false)
         | None =>
             match previousValue with
             | None => ret (createI32 0, false)
             | Some previousValue =>
                 if EnumValue_is previousValue ElementFlags.INLINED then
                   ret (createI32 (constantValue previousValue + 1), false)
                 else
                   (* in TypeScript this errors with TS1061, but actually we can do: *)
                   mutableWarning ;;;
                   ret (createBinary BinaryOp.AddI32
                          (createGetGlobal (enumValueInternalName previousValue) NativeType.I32)
                          (createI32 1),
                        true)
             end
         end ;;
       let (initExpr, initInStart) := init in
       if initInStart then
         addGlobal (enumValueInternalName val) NativeType.I32 true (* mutable *)
           (createI32 0) ;;;
         modify (fun c => withStartFunctionBody c
                   (startFunctionBody c ++
                    [createSetGlobal (enumValueInternalName val) initExpr])) ;;;
         ret val
       else
         addGlobal (enumValueInternalName val) NativeType.I32 false initExpr ;;;
         match expressionType initExpr with
         | NativeType.I32 =>
             ret (EnumValue_set (withConstantValue val (constantI32 initExpr))
                    ElementFlags.INLINED)
         | _ => throw "i32 expected"
         end) ;;
  (* export values if the enum is exported *)
  (if enumSourceIsEntry (enumDeclaration element) &&
      enumIsTopLevelExport (enumDeclaration element) then
     if EnumValue_is val ElementFlags.INLINED then
       addGlobalExport (enumValueInternalName val) (enumValueInternalName val)
     else
       warning Cannot_export_a_mutable_global (enumValueRange valueDeclaration)
   else ret tt) ;;;
  ret val.

(** The loop of [compileEnum] over the members from some member on. *)
Fixpoint compileEnumMembers (element : Enum) (previousValue : option EnumValue)
    (remaining : list EnumMember) : M (list EnumMember) :=
  match remaining with
  | [] => ret []
  | MEMBER_OTHER :: rest =>
      rest <- compileEnumMembers element previousValue rest ;;
      ret (MEMBER_OTHER :: rest)
  | MEMBER_VALUE val valueDeclaration :: rest =>
      val <- compileEnumValue element previousValue val valueDeclaration ;;
      rest <- compileEnumMembers element (Some val) rest ;;
      ret (MEMBER_VALUE val valueDeclaration :: rest)
  end.

(** Compiles an enum; the updated element is returned with the result. *)
Definition compileEnum (element : Enum) : M (bool * Enum) :=
  if Enum_is element ElementFlags.COMPILED then ret (true, element)
  else
    let element := Enum_set element ElementFlags.COMPILED in
    withCurrentEnum (Some element) ;;;
    compiled <-
      match enumMembers element with
      | Some values =>
          values <- compileEnumMembers element None values ;;
          ret (Some values)
      | None => ret None
      end ;;
    withCurrentEnum None ;;;
    ret (true, withMembers element compiled).

(** *** Direct calls from the source *)

(** [DiagnosticCode.Expected_0_arguments_but_got_1] and
    [Expected_at_least_0_arguments_but_got_1] (diagnostics.ts) *)
Variable Expected_0_arguments_but_got_1 : DiagnosticCode.t.
Variable Expected_at_least_0_arguments_but_got_1 : DiagnosticCode.t.

(** Checks that a call with the given number of arguments matches the
    signature; reports otherwise. *)
Definition checkCallSignature (signature : Signature) (numArguments : Z) (hasThis : bool)
    (reportNode : Expression) : M bool :=
  (* cannot call an instance method without a `this` argument *)
  let thisType := thisType signature in
  if negb (Bool.eqb hasThis (match thisType with Some _ => true | None => false end)) then
    error DiagnosticCode.Operation_not_supported (expressionRange reportNode) ;;;
    ret false
  else
  (* not yet implemented *)
  let hasRest := hasRest signature in
  if hasRest then
    error DiagnosticCode.Operation_not_supported (expressionRange reportNode) ;;;
    ret false
  else
  let minimum := requiredParameters signature in
  let maximum := Z.of_nat (length (parameterTypes signature)) in
  (* must at least be called with required arguments *)
  if numArguments <? minimum then
    error (if minimum <? maximum
           then Expected_at_least_0_arguments_but_got_1
           else Expected_0_arguments_but_got_1)
      (expressionRange reportNode) ;;;
    ret false
  (* must not be called with more than the maximum arguments *)
  else if (numArguments >? maximum) && negb hasRest then
    error Expected_0_arguments_but_got_1 (expressionRange reportNode) ;;;
    ret false
  else ret true.

(** The loop of [compileCallDirect] over the arguments from the [i]th on:
    each is compiled to the type of its parameter. *)
Fixpoint compileArguments (argumentExpressions : list Expression) (parameterTypes : list Type_)
    (i : Z) : M (list ExpressionRef) :=
  match argumentExpressions with
  | [] => ret []
  | argumentExpression :: rest =>
      parameterType <- at_ parameterTypes i ;;
      operand <- compileExpression argumentExpression parameterType IMPLICIT true ;;
      operands <- compileArguments rest parameterTypes (i + 1) ;;
      ret (operand :: operands)
  end.

(** Compiles a direct call to a concrete function; [thisArg] is
    [noExpression] when there is none.  Returns the call and the instance as
    the call leaves it. *)
Definition compileCallDirect (compileFunctionRec : Function -> M (bool * Function))
    (instance : Function) (argumentExpressions : list Expression) (reportNode : Expression)
    (thisArg : ExpressionRef) : M (ExpressionRef * Function) :=
  let numArguments := Z.of_nat (length argumentExpressions) in
  let signature := signature instance in
  checked <- checkCallSignature (* reports *)
               signature numArguments (negb (isNoExpression thisArg)) reportNode ;;
  if negb checked then ret (createUnreachable, instance)
  else
    let numArgumentsInclThis :=
      if negb (isNoExpression thisArg) then numArguments + 1 else numArguments in
    let this := if negb (isNoExpression thisArg) then [thisArg] else [] in
    operands <- compileArguments argumentExpressions (parameterTypes signature) 0 ;;
    let operands := this ++ operands in
    assert (Z.of_nat (length operands) =? numArgumentsInclThis) "assertion failed" ;;;
    makeCallDirect compileFunctionRec instance (Some operands).

(** *** The end of [compile] *)

(** Modelled from the spec: [i64_shr_u] of the glue code, on an [I64] kept
    as its unsigned value. *)
Definition i64_shr_u (value shift : Z) : Z := Z.shiftr value (shift mod 64).

(** [Module.MAX_MEMORY_WASM32] (module.ts) *)
Variable MAX_MEMORY_WASM32 : Z.

(** The arguments of [Module.setMemory]. *)
Record MemorySetup := mkMemorySetup {
  initialPages : Z;
  maximumPages : Z;
  staticSegments : list MemorySegment;
  memoryTarget : Target;
  memoryExportName : string
}.

(** What the end of [compile] sets on the module, next to the functions and
    globals it adds. *)
Record ModuleSetup := mkModuleSetup {
  startFunctionRef : option FunctionRef;                     (** [setStart] *)
  memorySetup : option MemorySetup;                          (** [setMemory] *)
  memoryImport : option (string * string * string);          (** [addMemoryImport] *)
  functionTableEntries : option (list (option FunctionRef))  (** [setFunctionTable] *)
}.

(** The part of [compile] that follows the compilation of the sources.  The
    start function is the current function then; [functionTable] is the
    function table of the compiler, which this model does not keep in the
    compiler state. *)
Definition finishCompile (functionTable : list Function) : M ModuleSetup :=
  c <- get ;;
  let options := options c in
  let startFunctionInstance := currentFunction c in
  (* compile the start function if not empty *)
  started <-
    match startFunctionBody c with
    | [] => ret None
    | startFunctionBody =>
        typeRef <- ensureFunctionType (signature startFunctionInstance) ;;
        funcRef <- addFunction (functionInternalName startFunctionInstance) typeRef
                     (typesToNativeTypes (additionalLocals startFunctionInstance))
                     (createBlock None startFunctionBody NativeType.Auto) ;;
        modify (fun c =>
          withCurrentFunction c (Function_finalize (currentFunction c) funcRef)) ;;;
        ret (Some funcRef)
    end ;;
  (* set up static memory segments and the heap base pointer *)
  memory <-
    (if negb (noMemory options) then
       c <- get ;;
       let memoryOffset := i64_align (memoryOffset c) (byteSize (usizeType options)) in
       modify (fun c => withMemory c memoryOffset (memorySegments c) (stringSegments c)) ;;;
       (if isWasm64 options then
          addGlobal "HEAP_BASE" NativeType.I64 false
            (createI64 (i64_low memoryOffset) (i64_high memoryOffset))
        else
          addGlobal "HEAP_BASE" NativeType.I32 false (createI32 (i64_low memoryOffset))) ;;;
       (* determine initial page size *)
       let pages := i64_shr_u (i64_align memoryOffset 65536) (i64_new 16 0) in
       ret (Some (mkMemorySetup (i64_low pages) MAX_MEMORY_WASM32 (memorySegments c)
                    (target options) "memory"))
     else ret None) ;;
  (* import memory if requested *)
  let imported := if importMemory options then Some ("0", "env", "memory") else None in
  (* set up function table *)
  let entries :=
    match functionTable with
    | [] => None
    | _ => Some (map ref functionTable)
    end in
  ret (mkModuleSetup started memory imported entries).

(** ** Properties *)

(** *** Flag masks *)

Lemma flags_is_set (f flag : Z) : flags_is (flags_set f flag) flag = true.
Proof.
  unfold flags_is, flags_set. apply Z.eqb_eq. apply Z.bits_inj'. intros n _.
  rewrite Z.land_spec, Z.lor_spec. destruct (Z.testbit f n), (Z.testbit flag n); reflexivity.
Qed.

Lemma flags_is_set_other (f flag other : Z) :
  flags_is f other = true -> flags_is (flags_set f flag) other = true.
Proof.
  unfold flags_is, flags_set. rewrite !Z.eqb_eq. intros H. apply Z.bits_inj'. intros n _.
  apply (f_equal (fun x => Z.testbit x n)) in H. rewrite Z.land_spec in H.
  rewrite Z.land_spec, Z.lor_spec.
  destruct (Z.testbit f n), (Z.testbit flag n), (Z.testbit other n); simpl in *; congruence.
Qed.

(** *** The monad *)

Lemma bind_Ok {A B} (m : M A) (k : A -> M B) c b c' :
  bind m k c = Ok (b, c') <-> exists a c1, m c = Ok (a, c1) /\ k a c1 = Ok (b, c').
Proof.
  unfold bind. split.
  - destruct (m c) as [[a c1]|]; [eauto | discriminate].
  - intros (a & c1 & -> & H). exact H.
Qed.

Lemma bind_eq {A B} (m : M A) (k : A -> M B) c a c1 :
  m c = Ok (a, c1) -> bind m k c = k a c1.
Proof. unfold bind. intros ->. reflexivity. Qed.

(** *** C1: the small-integer wrap *)

(** C1.  When an operator's result may have dirty high bits
    ([possiblyOverflows]) and the wrap flag is set, the result of a small
    integer type is normalized exactly as: i8 by shift-left 24 then arithmetic
    shift-right 24, i16 by shift-left 16 then arithmetic shift-right 16, u8 by
    and 0xff, u16 by and 0xffff, bool by and 0x1; these five are the integer
    types with the SMALL flag, and without the flag nothing is added. *)
Theorem small_integer_wrap (expr : ExpressionRef) (c : Compiler) :
  let shifted n :=
    createBinary BinaryOp.ShrI32 (createBinary BinaryOp.ShlI32 expr (createI32 n)) (createI32 n) in
  let masked m := createBinary BinaryOp.AndI32 expr (createI32 m) in
  wrapIfOverflows expr true true (withCurrentType c Ty.i8)
    = Ok (shifted 24, withCurrentType c Ty.i8) /\
  wrapIfOverflows expr true true (withCurrentType c Ty.i16)
    = Ok (shifted 16, withCurrentType c Ty.i16) /\
  wrapIfOverflows expr true true (withCurrentType c Ty.u8)
    = Ok (masked 255, withCurrentType c Ty.u8) /\
  wrapIfOverflows expr true true (withCurrentType c Ty.u16)
    = Ok (masked 65535, withCurrentType c Ty.u16) /\
  wrapIfOverflows expr true true (withCurrentType c Ty.bool)
    = Ok (masked 1, withCurrentType c Ty.bool) /\
  filter (fun t => Type_is t TypeFlags.SMALL) Ty.integers
    = [Ty.i8; Ty.i16; Ty.u8; Ty.u16; Ty.bool] /\
  wrapIfOverflows expr true false c = Ok (expr, c) /\
  wrapIfOverflows expr false true c = Ok (expr, c).
Proof.
  cbv zeta. repeat split; reflexivity.
Qed.

(** *** C4: conversions between integer types *)

Lemma integer_types_are_integers :
  forallb isIntegerType Ty.integers = true.
Proof. reflexivity. Qed.


(** *** C7: the memory cursor *)

Lemma i64_align_spec (value alignment k : Z) :
  0 <= k -> alignment = 2 ^ k -> 0 <= value -> value + alignment <= 2 ^ 64 ->
  i64_align value alignment mod alignment = 0 /\
  value <= i64_align value alignment < value + alignment.
Proof.
  intros Hk -> Hv Hfit.
  assert (Hpos : 0 < 2 ^ k) by (apply Z.pow_pos_nonneg; lia).
  unfold i64_align, i64_add.
  rewrite (Z.mod_small (value + (2 ^ k - 1)) (2 ^ 64)) by lia.
  replace (2 ^ k - 1) with (Z.ones k) by (rewrite Z.ones_equiv; lia).
  rewrite <- Z.ldiff_land, Z.ldiff_ones_r by lia.
  rewrite Z.shiftl_mul_pow2, Z.shiftr_div_pow2 by lia.
  rewrite Z.ones_equiv.
  pose proof (Z.mul_div_le (value + Z.pred (2 ^ k)) (2 ^ k) Hpos) as Hle.
  pose proof (Z.mul_succ_div_gt (value + Z.pred (2 ^ k)) (2 ^ k) Hpos) as Hgt.
  set (q := (value + Z.pred (2 ^ k)) / 2 ^ k) in *.
  assert (Hq : 0 <= q) by (apply Z.div_pos; lia).
  rewrite (Z.mod_small (q * 2 ^ k) (2 ^ 64)) by nia.
  split; [apply Z.mod_mul; lia | nia].
Qed.

Lemma addMemorySegment_eq (buffer : list Z) (alignment : Z) (c : Compiler) :
  addMemorySegment buffer alignment c =
    let segment := mkMemorySegment buffer (i64_align (memoryOffset c) alignment) in
    Ok (segment,
        withMemory c
          (i64_add (offset segment) (i64_new (Z.of_nat (length buffer)) 0))
          (memorySegments c ++ [segment]) (stringSegments c)).
Proof. reflexivity. Qed.

(** The room a sequence of requests may take: every buffer and, before it,
    less than its alignment. *)
Definition footprint (requests : list (list Z * Z)) : Z :=
  fold_right (fun request total => snd request + Z.of_nat (length (fst request)) + total)
    0 requests.

Definition wellFormedRequest (request : list Z * Z) : Prop :=
  (exists k, 0 <= k /\ snd request = 2 ^ k) /\ Z.of_nat (length (fst request)) < 2 ^ 32.

Lemma footprint_nonneg (requests : list (list Z * Z)) :
  Forall wellFormedRequest requests -> 0 <= footprint requests.
Proof.
  induction 1 as [|request rest [(k & Hk & Hal) _] _ IH]; simpl; [lia|].
  assert (0 < 2 ^ k) by (apply Z.pow_pos_nonneg; lia). lia.
Qed.

Lemma addMemorySegments_spec (requests : list (list Z * Z)) :
  forall c : Compiler,
  Forall wellFormedRequest requests ->
  0 <= memoryOffset c ->
  memoryOffset c + footprint requests <= 2 ^ 64 ->
  exists segments c',
    addMemorySegments requests c = Ok (segments, c') /\
    memorySegments c' = memorySegments c ++ segments /\
    map buffer segments = map fst requests /\
    Forall2 (fun request segment => offset segment mod snd request = 0) requests segments /\
    Forall (fun segment => memoryOffset c <= offset segment) segments /\
    StronglySorted Z.le (map offset segments) /\
    memoryOffset c <= memoryOffset c' <= memoryOffset c + footprint requests.
Proof.
  induction requests as [|[bytes alignment] rest IH]; intros c Hwf Hpos Hfit.
  - exists [], c. simpl in *. rewrite app_nil_r.
    repeat split; try constructor; lia.
  - inversion Hwf as [|? ? [(k & Hk & Hal) Hlen] Hrest]; subst. simpl in Hal, Hlen.
    pose proof (footprint_nonneg rest Hrest) as Hfoot.
    simpl in Hfit.
    destruct (i64_align_spec (memoryOffset c) alignment k Hk Hal Hpos) as [Hmod Hrange];
      [lia|].
    set (aligned := i64_align (memoryOffset c) alignment) in *.
    set (segment := mkMemorySegment bytes aligned).
    set (next := i64_add aligned (i64_new (Z.of_nat (length bytes)) 0)).
    assert (Hnext : next = aligned + Z.of_nat (length bytes)).
    { unfold next, i64_add, i64_new. change (0 mod 2 ^ 32) with 0.
      rewrite (Z.mod_small (Z.of_nat (length bytes))) by lia.
      rewrite Z.mod_small; lia. }
    destruct (IH (withMemory c next (memorySegments c ++ [segment]) (stringSegments c)))
      as (segments & c' & Hrun & Hsegs & Hbuf & Haligned & Hlow & Hsorted & Hcursor);
      [assumption | simpl; lia | simpl; lia |].
    simpl in *.
    exists (segment :: segments), c'.
    split.
    { rewrite (bind_eq _ _ _ _ _ (addMemorySegment_eq bytes alignment c)).
      cbv zeta. fold aligned. fold segment. simpl offset. fold next.
      rewrite (bind_eq _ _ _ _ _ Hrun). reflexivity. }
    split; [rewrite Hsegs, <- app_assoc; reflexivity|].
    split; [simpl; f_equal; exact Hbuf|].
    split; [constructor; [exact Hmod | exact Haligned]|].
    split.
    { constructor; [simpl; lia|].
      eapply Forall_impl; [exact Hlow|]. simpl. intros s Hs. lia. }
    split.
    { simpl. constructor; [exact Hsorted|].
      apply Forall_map. eapply Forall_impl; [exact Hlow|]. simpl. intros s Hs. lia. }
    lia.
Qed.

(** C7.  The cursor of a fresh compiler is max(memoryBase, pointer byte
    size), which is at least the pointer size.  For every sequence of
    [addMemorySegment] calls on it (alignments powers of two, buffers shorter
    than 2^32 bytes, all of it within the 64-bit address range), the offsets
    handed out are at least the pointer size, so never address 0, they are
    non-decreasing in call order, and each is a multiple of the alignment
    requested for it. *)
Theorem memory_cursor (p : ProgramState) (o : Options) (startFunction : Function)
    (requests : list (list Z * Z)) :
  0 <= memoryBase o < 2 ^ 32 ->
  Forall wellFormedRequest requests ->
  Z.max (memoryBase o) (byteSize (usizeType o)) + footprint requests <= 2 ^ 64 ->
  let c := Compiler_new p o startFunction in
  memoryOffset c = Z.max (memoryBase o) (byteSize (usizeType o)) /\
  0 < byteSize (usizeType o) <= memoryOffset c /\
  exists segments c',
    addMemorySegments requests c = Ok (segments, c') /\
    memorySegments c' = segments /\
    Forall (fun segment => byteSize (usizeType o) <= offset segment) segments /\
    StronglySorted Z.le (map offset segments) /\
    Forall2 (fun request segment => offset segment mod snd request = 0) requests segments.
Proof.
  intros Hbase Hwf Hfit c.
  assert (Hsize : byteSize (usizeType o) = 4 \/ byteSize (usizeType o) = 8)
    by (unfold usizeType; destruct (target o); [left | right]; reflexivity).
  assert (Hstart : memoryOffset c = Z.max (memoryBase o) (byteSize (usizeType o))).
  { change (memoryOffset c)
      with (i64_new (Z.max (memoryBase o) (byteSize (usizeType o))) 0).
    unfold i64_new. change (0 mod 2 ^ 32) with 0.
    rewrite Z.mod_small; lia. }
  split; [exact Hstart|]. split; [lia|].
  destruct (addMemorySegments_spec requests c Hwf) as
    (segments & c' & Hrun & Hsegs & _ & Haligned & Hlow & Hsorted & _); [lia | lia |].
  exists segments, c'. repeat split; try assumption.
  eapply Forall_impl; [exact Hlow|]. cbv beta. intros s Hs. lia.
Qed.

(** *** C5: string literals *)

(** What a string literal evaluates to: the offset of its segment, an i64
    constant on a 64-bit target and an i32 constant otherwise. *)
Definition offsetConstant (o : Options) (segmentOffset : Z) : ExpressionRef :=
  if isWasm64 o
  then createI64 (i64_low segmentOffset) (i64_high segmentOffset)
  else createI32 (i64_low segmentOffset).

(** The type a string literal has. *)
Definition currentStringType (c : Compiler) : Type_ :=
  match stringType (program c) with
  | Some t => t
  | None => usizeType (options c)
  end.

(** The bytes of a number, low byte first. *)
Definition littleEndian32 (n : Z) : list Z :=
  [n mod 256; n / 2 ^ 8 mod 256; n / 2 ^ 16 mod 256; n / 2 ^ 24 mod 256].
Definition littleEndian16 (n : Z) : list Z := [n mod 256; n / 2 ^ 8 mod 256].

(** The room the segments of a list of literals may take. *)
Definition stringsFootprint (literals : list (list Z)) : Z :=
  fold_right (fun s total => 12 + 2 * Z.of_nat (length s) + total) 0 literals.

(** Every interned string has its segment among the segments, holding its
    encoding at an offset below 2^31. *)
Definition internedWell (c : Compiler) : Prop :=
  forall s segment,
    stringSegments c !! s = Some segment ->
    segment ∈ memorySegments c /\ buffer segment = stringBuffer s /\
    0 <= offset segment < 2 ^ 31.

Lemma js_and_255 (x : Z) : 0 <= x < 2 ^ 32 -> js_and x 255 = x mod 256.
Proof.
  intros Hx. unfold js_and, i32_wrap.
  change ((255 + 2 ^ 31) mod 2 ^ 32 - 2 ^ 31) with (Z.ones 8).
  rewrite Z.land_ones by lia.
  change (2 ^ 8) with 256. change (2 ^ 31) with 2147483648. change (2 ^ 32) with 4294967296.
  Z.div_mod_to_equations. lia.
Qed.

Lemma js_ushr_small (x n : Z) : 0 <= x < 2 ^ 32 -> 0 <= n < 32 -> js_ushr x n = x / 2 ^ n.
Proof.
  intros Hx Hn. unfold js_ushr.
  rewrite (Z.mod_small x) by lia. rewrite (Z.mod_small n) by lia.
  apply Z.shiftr_div_pow2. lia.
Qed.

Lemma js_ushr_bound (x n : Z) : 0 <= x < 2 ^ 32 -> 0 <= n < 32 -> 0 <= js_ushr x n < 2 ^ 32.
Proof.
  intros Hx Hn. rewrite js_ushr_small by assumption.
  assert (0 < 2 ^ n) by (apply Z.pow_pos_nonneg; lia).
  split; [apply Z.div_pos; lia|].
  apply Z.div_lt_upper_bound; nia.
Qed.

Lemma length_stringBuffer (s : list Z) :
  length (stringBuffer s) = (4 + 2 * length s)%nat.
Proof.
  unfold stringBuffer. simpl. do 4 f_equal.
  induction s as [|x s IH]; simpl; [reflexivity | rewrite IH; lia].
Qed.

Lemma stringBuffer_format (s : list Z) :
  Z.of_nat (length s) < 2 ^ 32 ->
  Forall (fun codeUnit => 0 <= codeUnit < 2 ^ 16) s ->
  stringBuffer s = littleEndian32 (Z.of_nat (length s)) ++ flat_map littleEndian16 s.
Proof.
  intros Hlen Hunits. unfold stringBuffer, littleEndian32.
  assert (Hn : 0 <= Z.of_nat (length s) < 2 ^ 32) by lia.
  rewrite !js_and_255 by (try apply js_ushr_bound; lia).
  rewrite !js_ushr_small by lia.
  simpl app. do 4 f_equal. clear Hlen Hn.
  induction Hunits as [|x rest Hx _ IH]; [reflexivity|].
  simpl. unfold littleEndian16 at 1. simpl app.
  rewrite !js_and_255 by (try apply js_ushr_bound; lia).
  rewrite js_ushr_small by lia. rewrite IH. reflexivity.
Qed.

Lemma compileStaticString_known (s : list Z) (c : Compiler) (segment : MemorySegment) :
  stringSegments c !! s = Some segment ->
  0 <= offset segment < 2 ^ 31 ->
  compileStaticString s c =
    Ok (offsetConstant (options c) (offset segment), withCurrentType c (currentStringType c)).
Proof.
  intros Hs Hfit.
  assert (Hi : i64_is_i32 (offset segment) = true)
    by (unfold i64_is_i32; apply orb_true_iff; left; apply Z.ltb_lt; lia).
  unfold compileStaticString, offsetConstant, currentStringType.
  cbv [bind get]. rewrite Hs. cbv [ret setCurrentType modify assert].
  destruct (isWasm64 (options c)); [reflexivity|].
  rewrite Hi. reflexivity.
Qed.

Lemma compileStaticString_new (s : list Z) (c : Compiler) :
  stringSegments c !! s = None ->
  let segment :=
    mkMemorySegment (stringBuffer s)
      (i64_align (memoryOffset c) (byteSize (usizeType (options c)))) in
  0 <= offset segment < 2 ^ 31 ->
  compileStaticString s c =
    Ok (offsetConstant (options c) (offset segment),
        withCurrentType
          (withMemory c
             (i64_add (offset segment) (i64_new (Z.of_nat (length (stringBuffer s))) 0))
             (memorySegments c ++ [segment])
             (<[s := segment]> (stringSegments c)))
          (currentStringType c)).
Proof.
  intros Hs segment Hfit.
  assert (Hi : i64_is_i32 (offset segment) = true)
    by (unfold i64_is_i32; apply orb_true_iff; left; apply Z.ltb_lt; lia).
  unfold compileStaticString, offsetConstant, currentStringType.
  cbv [bind get]. rewrite Hs.
  cbv [addMemorySegment bind get ret setCurrentType modify assert]. fold segment.
  destruct (isWasm64 (options c)); [reflexivity|].
  rewrite Hi. reflexivity.
Qed.

Lemma stringsFootprint_nonneg (literals : list (list Z)) : 0 <= stringsFootprint literals.
Proof. induction literals as [|s rest IH]; simpl; lia. Qed.

Lemma union_known (X L : gset (list Z)) (s : list Z) :
  s ∈ X -> X ∪ L = X ∪ ({[s]} ∪ L).
Proof.
  intros Hs. apply set_eq. intros x. rewrite !elem_of_union, elem_of_singleton.
  split; [tauto|]. intros [H|[->|H]]; tauto.
Qed.

Lemma union_insert (X L : gset (list Z)) (s : list Z) :
  ({[s]} ∪ X) ∪ L = X ∪ ({[s]} ∪ L).
Proof.
  apply set_eq. intros x. rewrite !elem_of_union, elem_of_singleton. tauto.
Qed.

Lemma compileStaticStrings_spec (literals : list (list Z)) :
  forall c : Compiler,
  internedWell c ->
  0 <= memoryOffset c ->
  memoryOffset c + stringsFootprint literals <= 2 ^ 31 ->
  exists exprs c' segments,
    compileStaticStrings literals c = Ok (exprs, c') /\
    options c' = options c /\
    memorySegments c' = memorySegments c ++ segments /\
    internedWell c' /\
    stringSegments c ⊆ stringSegments c' /\
    dom (stringSegments c') = dom (stringSegments c) ∪ list_to_set literals /\
    base.size (stringSegments c') = (base.size (stringSegments c) + length segments)%nat /\
    Forall2 (fun s expr => exists segment,
               stringSegments c' !! s = Some segment /\
               expr = offsetConstant (options c) (offset segment)) literals exprs /\
    memoryOffset c <= memoryOffset c' <= memoryOffset c + stringsFootprint literals.
Proof.
  induction literals as [|s rest IH]; intros c Hwell Hpos Hfit.
  - exists [], c, []. simpl in *. rewrite app_nil_r.
    split_and!; try done; try lia.
    symmetry. apply (right_id_L (∅ : gset (list Z)) (∪)).
  - pose proof (stringsFootprint_nonneg rest) as Hrest. simpl in Hfit.
    destruct (stringSegments c !! s) as [segment|] eqn:Hs.
    + destruct (Hwell s segment Hs) as (Hin & Hbuf & Hoff).
      pose proof (compileStaticString_known s c segment Hs Hoff) as Hrun.
      destruct (IH (withCurrentType c (currentStringType c))) as
        (exprs & c' & segments & Hrest_run & Hopt & Hsegs & Hwell' & Hsub & Hdom & Hsize
         & Hexprs & Hcursor); [exact Hwell | simpl; lia | simpl; lia |].
      simpl in Hopt, Hsegs, Hsub, Hdom, Hsize, Hexprs, Hcursor.
      exists (offsetConstant (options c) (offset segment) :: exprs), c', segments.
      assert (Hdom' : dom (stringSegments c')
                      = dom (stringSegments c) ∪ list_to_set (s :: rest)).
      { rewrite Hdom, list_to_set_cons. apply union_known. eapply elem_of_dom_2. exact Hs. }
      assert (Hexprs' :
        Forall2 (fun s expr => exists segment,
                   stringSegments c' !! s = Some segment /\
                   expr = offsetConstant (options c) (offset segment))
          (s :: rest) (offsetConstant (options c) (offset segment) :: exprs)).
      { constructor; [|exact Hexprs].
        exists segment. split; [|reflexivity]. eapply lookup_weaken; eassumption. }
      assert (Hrun' : compileStaticStrings (s :: rest) c
                      = Ok (offsetConstant (options c) (offset segment) :: exprs, c')).
      { simpl. rewrite (bind_eq _ _ _ _ _ Hrun), (bind_eq _ _ _ _ _ Hrest_run). reflexivity. }
      simpl stringsFootprint.
      split_and!; try assumption; lia.
    + set (alignment := byteSize (usizeType (options c))).
      assert (Halign : exists k, 0 <= k /\ alignment = 2 ^ k /\ alignment <= 8).
      { unfold alignment, usizeType. destruct (target (options c));
          [exists 2 | exists 3]; repeat split; try reflexivity; try lia;
          vm_compute; discriminate. }
      destruct Halign as (k & Hk & Halign & Hsmall).
      destruct (i64_align_spec (memoryOffset c) alignment k Hk Halign Hpos) as [_ Hrange];
        [lia|].
      pose proof (compileStaticString_new s c Hs) as Hrun. cbv zeta in Hrun.
      fold alignment in Hrun.
      set (segment := mkMemorySegment (stringBuffer s) (i64_align (memoryOffset c) alignment))
        in *.
      assert (Hoff : 0 <= offset segment < 2 ^ 31) by (simpl; lia).
      specialize (Hrun Hoff).
      set (next := i64_add (offset segment) (i64_new (Z.of_nat (length (stringBuffer s))) 0))
        in *.
      assert (Hnext : next = offset segment + 4 + 2 * Z.of_nat (length s)).
      { unfold next, i64_add, i64_new. rewrite length_stringBuffer.
        change (0 mod 2 ^ 32) with 0.
        rewrite (Z.mod_small (Z.of_nat _)) by lia. rewrite Z.mod_small; lia. }
      simpl offset in Hnext, Hoff.
      set (c1 := withCurrentType
                   (withMemory c next (memorySegments c ++ [segment])
                      (<[s := segment]> (stringSegments c)))
                   (currentStringType c)) in *.
      assert (Hwell1 : internedWell c1).
      { intros s' segment' Hs'. simpl in Hs'.
        destruct (decide (s = s')) as [<-|Hne].
        - rewrite lookup_insert_eq in Hs'. injection Hs' as <-.
          simpl. split_and!; try lia; try reflexivity.
          apply elem_of_app. right. apply list_elem_of_singleton. reflexivity.
        - rewrite lookup_insert_ne in Hs' by assumption.
          destruct (Hwell s' segment' Hs') as (Hin & Hbuf & Hoff').
          simpl. split_and!; try assumption; try lia.
          apply elem_of_app. left. exact Hin. }
      destruct (IH c1 Hwell1) as
        (exprs & c' & segments & Hrest_run & Hopt & Hsegs & Hwell' & Hsub & Hdom & Hsize
         & Hexprs & Hcursor); [unfold c1; simpl; lia | unfold c1; simpl; lia |].
      unfold c1 in Hopt, Hsegs, Hsub, Hdom, Hsize, Hexprs, Hcursor.
      simpl in Hopt, Hsegs, Hsub, Hdom, Hsize, Hexprs, Hcursor.
      exists (offsetConstant (options c) (offset segment) :: exprs), c', (segment :: segments).
      assert (Hrun' : compileStaticStrings (s :: rest) c
                      = Ok (offsetConstant (options c) (offset segment) :: exprs, c')).
      { change (compileStaticStrings (s :: rest))
          with (bind (compileStaticString s)
                  (fun expr => bind (compileStaticStrings rest)
                                 (fun exprs => ret (expr :: exprs)))).
        rewrite (bind_eq _ _ _ _ _ Hrun), (bind_eq _ _ _ _ _ Hrest_run). reflexivity. }
      assert (Hsub1 : stringSegments c ⊆ <[s := segment]> (stringSegments c))
        by (apply insert_subseteq; exact Hs).
      assert (Hsub' : stringSegments c ⊆ stringSegments c') by (etrans; eassumption).
      assert (Hsegs' : memorySegments c' = memorySegments c ++ segment :: segments)
        by (rewrite Hsegs, <- app_assoc; reflexivity).
      assert (Hdom' : dom (stringSegments c')
                      = dom (stringSegments c) ∪ list_to_set (s :: rest))
        by (rewrite Hdom, dom_insert_L, list_to_set_cons; apply union_insert).
      assert (Hsize' : base.size (stringSegments c')
                       = (base.size (stringSegments c) + length (segment :: segments))%nat)
        by (rewrite Hsize, map_size_insert_None by exact Hs; simpl; lia).
      assert (Hexprs' :
        Forall2 (fun s expr => exists segment,
                   stringSegments c' !! s = Some segment /\
                   expr = offsetConstant (options c) (offset segment))
          (s :: rest) (offsetConstant (options c) (offset segment) :: exprs)).
      { constructor; [|exact Hexprs].
        exists segment. split; [|reflexivity].
        eapply lookup_weaken; [|exact Hsub]. apply lookup_insert_eq. }
      simpl stringsFootprint.
      split_and!; try assumption; lia.
Qed.

(** C5.  For the string literals of a program, compiled in order by a
    compiler that has interned no string yet (and with room for them below
    2^31): there is exactly one memory segment per distinct string value, as
    many segments as there are distinct values; the segment of a value holds
    4 + 2*length bytes, the length as four bytes low byte first and then the
    UTF-16 code units low byte first; and every occurrence of a value
    evaluates to the same constant, the offset of its segment. *)
Theorem string_literals_interned (literals : list (list Z)) (c : Compiler) :
  stringSegments c = ∅ ->
  memorySegments c = [] ->
  0 <= memoryOffset c ->
  memoryOffset c + stringsFootprint literals <= 2 ^ 31 ->
  exists exprs c',
    compileStaticStrings literals c = Ok (exprs, c') /\
    length (memorySegments c') = base.size (list_to_set literals : gset (list Z)) /\
    (forall s, s ∈ literals ->
       exists segment,
         stringSegments c' !! s = Some segment /\
         segment ∈ memorySegments c' /\
         buffer segment = stringBuffer s /\
         length (buffer segment) = (4 + 2 * length s)%nat /\
         (Forall (fun codeUnit => 0 <= codeUnit < 2 ^ 16) s ->
          buffer segment = littleEndian32 (Z.of_nat (length s)) ++ flat_map littleEndian16 s) /\
         forall i, literals !! i = Some s ->
           exprs !! i = Some (offsetConstant (options c) (offset segment))) /\
    (forall i j s, literals !! i = Some s -> literals !! j = Some s ->
       is_Some (exprs !! i) /\ exprs !! i = exprs !! j).
Proof.
  intros Hmap Hsegs0 Hpos Hfit.
  assert (Hwell : internedWell c) by (intros s seg Hs; rewrite Hmap in Hs; done).
  destruct (compileStaticStrings_spec literals c Hwell Hpos Hfit) as
    (exprs & c' & segments & Hrun & Hopt & Hsegs & Hwell' & Hsub & Hdom & Hsize
     & Hexprs & Hcursor).
  rewrite Hmap in Hdom, Hsize. rewrite Hsegs0 in Hsegs. simpl in Hsegs.
  rewrite dom_empty_L, (left_id_L (∅ : gset (list Z)) (∪)) in Hdom.
  rewrite map_size_empty in Hsize. simpl in Hsize.
  assert (Hexpr : forall i s, literals !! i = Some s ->
            exists segment, stringSegments c' !! s = Some segment /\
              exprs !! i = Some (offsetConstant (options c) (offset segment))).
  { intros i s Hi.
    destruct (Forall2_lookup_l _ _ _ _ _ Hexprs Hi) as (expr & Hexpr & segment & Hseg & ->).
    eauto. }
  assert (Hlen : forall s, s ∈ literals -> 2 * Z.of_nat (length s) <= stringsFootprint literals).
  { clear. intros s Hs. induction literals as [|x rest IH]; [inversion Hs|].
    pose proof (stringsFootprint_nonneg rest). simpl.
    apply elem_of_cons in Hs as [<-|Hs]; [lia | specialize (IH Hs); lia]. }
  exists exprs, c'. split; [exact Hrun|]. split.
  { rewrite Hsegs, <- Hsize, <- Hdom. symmetry. apply size_dom. }
  split.
  - intros s Hs.
    assert (Hd : s ∈ dom (stringSegments c'))
      by (rewrite Hdom; apply elem_of_list_to_set; exact Hs).
    apply elem_of_dom in Hd as [segment Hseg].
    destruct (Hwell' s segment Hseg) as (Hin & Hbuf & _).
    exists segment.
    split; [exact Hseg|]. split; [exact Hin|]. split; [exact Hbuf|].
    split; [rewrite Hbuf; apply length_stringBuffer|].
    split.
    + intros Hunits. rewrite Hbuf. apply stringBuffer_format; [|exact Hunits].
      specialize (Hlen s Hs). lia.
    + intros i Hi. destruct (Hexpr i s Hi) as (segment' & Hseg' & ->).
      congruence.
  - intros i j s Hi Hj.
    destruct (Hexpr i s Hi) as (si & Hsi & Hei), (Hexpr j s Hj) as (sj & Hsj & Hej).
    rewrite Hei, Hej. split; [eauto | congruence].
Qed.

(** *** Flow frames are kept in place *)

(** The frame the current flow frame was pushed on. *)
Definition flowParent (c : Compiler) : option Flow := parent (flow (currentFunction c)).

(** What makes a function element the element it is. *)
Definition Identity : Type :=
  FunctionPrototype * string * string * Signature * Z * option Class.

Definition identity (f : Function) : Identity :=
  (prototype f, functionInternalName f, functionSimpleName f, signature f,
   functionFlags f, instanceMethodOf f).

(** Where the compiler stands: the frame below the current flow frame, and
    the function being compiled. *)
Definition Frame : Type := option Flow * Identity.

Definition frame (c : Compiler) : Frame := (flowParent c, identity (currentFunction c)).

(** A method keeps the frame below the current one and the function being
    compiled. *)
Definition preserves {A} (m : M A) : Prop :=
  forall c a c', m c = Ok (a, c') -> frame c' = frame c.

(** A method that runs inside a scope pushed on a frame whose parent is
    that of [q], in the function of [q], and leaves that scope. *)
Definition leavesTo {A} (q : Frame) (m : M A) : Prop :=
  forall c a c',
    (exists f, flowParent c = Some f /\ (parent f, identity (currentFunction c)) = q) ->
    m c = Ok (a, c') -> frame c' = q.

(** A method that ends at [q], wherever it starts. *)
Definition endsAt {A} (q : Frame) (m : M A) : Prop :=
  forall c a c', m c = Ok (a, c') -> frame c' = q.

Lemma identity_inv (f g : Function) :
  identity f = identity g ->
  prototype f = prototype g /\ functionInternalName f = functionInternalName g /\
  signature f = signature g /\ functionFlags f = functionFlags g.
Proof. unfold identity. intros H. inversion H. auto. Qed.

Lemma preserves_flowParent {A} (m : M A) c a c' :
  preserves m -> m c = Ok (a, c') -> flowParent c' = flowParent c.
Proof. intros Hm H. exact (f_equal fst (Hm _ _ _ H)). Qed.

Lemma preserves_identity {A} (m : M A) c a c' :
  preserves m -> m c = Ok (a, c') ->
  identity (currentFunction c') = identity (currentFunction c).
Proof. intros Hm H. exact (f_equal snd (Hm _ _ _ H)). Qed.

Lemma preserves_ret {A} (a : A) : preserves (ret a).
Proof. intros c a' c' H. injection H as _ <-. reflexivity. Qed.

Lemma preserves_throw {A} (msg : string) : preserves (throw msg : M A).
Proof. intros c a c' H. discriminate. Qed.

Lemma preserves_bind {A B} (m : M A) (k : A -> M B) :
  preserves m -> (forall a, preserves (k a)) -> preserves (bind m k).
Proof.
  intros Hm Hk c b c' H. apply bind_Ok in H as (a & c1 & H1 & H2).
  rewrite (Hk a _ _ _ H2). exact (Hm _ _ _ H1).
Qed.

Lemma preserves_get : preserves get.
Proof. intros c a c' H. injection H as _ <-. reflexivity. Qed.

Lemma preserves_gets {A} (f : Compiler -> A) : preserves (gets f).
Proof. intros c a c' H. injection H as _ <-. reflexivity. Qed.

Lemma preserves_modify (f : Compiler -> Compiler) :
  (forall c, frame (f c) = frame c) -> preserves (modify f).
Proof. intros Hf c a c' H. injection H as _ <-. apply Hf. Qed.

Lemma preserves_assert (b : bool) (msg : string) : preserves (assert b msg).
Proof. destruct b; [apply preserves_ret | apply preserves_throw]. Qed.

Lemma preserves_liftResult {A} (r : Result A) : preserves (liftResult r).
Proof. destruct r; [apply preserves_ret | apply preserves_throw]. Qed.

Lemma preserves_external {A} (m : M A) : preserves (external m).
Proof.
  intros c a c' H. unfold external in H.
  destruct (m c) as [[a1 c1]|]; [|discriminate]. injection H as _ <-. reflexivity.
Qed.

Lemma preserves_error (code : DiagnosticCode.t) (r : Range) : preserves (error code r).
Proof. apply preserves_modify. reflexivity. Qed.

Lemma preserves_warning (code : DiagnosticCode.t) (r : Range) : preserves (warning code r).
Proof. apply preserves_modify. reflexivity. Qed.

Lemma preserves_setCurrentType (t : Type_) : preserves (setCurrentType t).
Proof. apply preserves_modify. reflexivity. Qed.

Lemma preserves_getFlow : preserves getFlow.
Proof. apply preserves_gets. Qed.

Lemma preserves_flowIs (flag : Z) : preserves (flowIs flag).
Proof. apply preserves_bind; [apply preserves_getFlow | intros; apply preserves_ret]. Qed.

Lemma preserves_flowUpdate (g : Flow -> Flow) :
  (forall f, parent (g f) = parent f) ->
  preserves (f <- getFlow ;; setFlow (g f)).
Proof.
  intros Hg c a c' H. injection H as _ <-.
  unfold frame, flowParent. simpl. rewrite Hg. reflexivity.
Qed.

Lemma preserves_flowSet (flag : Z) : preserves (flowSet flag).
Proof. apply (preserves_flowUpdate (fun f => Flow_set f flag)). reflexivity. Qed.

Lemma preserves_setBreakLabel (l : option string) : preserves (setBreakLabel l).
Proof. apply (preserves_flowUpdate (fun f => withBreakLabel f l)). reflexivity. Qed.

Lemma preserves_setContinueLabel (l : option string) : preserves (setContinueLabel l).
Proof. apply (preserves_flowUpdate (fun f => withContinueLabel f l)). reflexivity. Qed.

Lemma preserves_enterBreakContext : preserves enterBreakContext.
Proof. intros c a c' H. injection H as _ <-. reflexivity. Qed.

Lemma preserves_leaveBreakContext : preserves leaveBreakContext.
Proof. apply preserves_modify. reflexivity. Qed.

Lemma preserves_addDebugLocation (e : ExpressionRef) (r : Range) :
  preserves (addDebugLocation e r).
Proof.
  intros c a c' H. unfold addDebugLocation, bind, get in H.
  destruct (negb (sourceMap (options c))).
  - injection H as _ <-. reflexivity.
  - injection H as _ <-. destruct (bool_decide _); reflexivity.
Qed.

Lemma preserves_freeScopedLocals (locals : list (string * Local)) :
  preserves (freeScopedLocals locals).
Proof.
  induction locals as [|[name local] rest IH]; simpl; [apply preserves_ret|].
  apply preserves_bind; [apply preserves_external | intros; exact IH].
Qed.

Lemma freeScopedLocals_Ok (locals : list (string * Local)) (c : Compiler) :
  exists c', freeScopedLocals locals c = Ok (tt, c').
Proof.
  revert c. induction locals as [|[name local] rest IH]; intros c; [eexists; reflexivity|].
  simpl. unfold bind, freeTempLocal, external, modify. apply IH.
Qed.

(** Entering a scope, then a method that leaves it, keeps the frame. *)
Lemma preserves_enter {A} (m : M A) :
  (forall q, leavesTo q m) -> preserves (enterBranchOrScope ;;; m).
Proof.
  intros Hm c a c' H. apply bind_Ok in H as ([] & c1 & H1 & H2).
  injection H1 as <-.
  eapply Hm; [|exact H2]. eexists. split; reflexivity.
Qed.

Lemma leavesTo_bind {A B} (q : Frame) (m : M A) (k : A -> M B) :
  preserves m -> (forall a, leavesTo q (k a)) -> leavesTo q (bind m k).
Proof.
  intros Hm Hk c b c' (f & Hf & Hq) H. apply bind_Ok in H as (a & c1 & H1 & H2).
  eapply Hk; [|exact H2]. exists f.
  rewrite (preserves_flowParent _ _ _ _ Hm H1), (preserves_identity _ _ _ _ Hm H1).
  split; assumption.
Qed.

(** When the parent frame is there, leaving a scope succeeds. *)
Lemma leaveBranchOrScope_Ok (c : Compiler) (p : Flow) :
  flowParent c = Some p ->
  exists c', leaveBranchOrScope c = Ok (tt, c') /\
             flowParent c' = parent p /\
             flowFlags (flow (currentFunction c')) = leaveFlags (flow (currentFunction c)) p /\
             identity (currentFunction c') = identity (currentFunction c).
Proof.
  intros Hp. unfold leaveBranchOrScope, bind, getFlow, gets. unfold flowParent in Hp.
  rewrite Hp.
  assert (Hfree : exists c1, (match scopedLocals (flow (currentFunction c)) with
                              | Some locals => freeScopedLocals locals
                              | None => ret tt
                              end) c = Ok (tt, c1) /\
                             identity (currentFunction c1) = identity (currentFunction c)).
  { destruct (scopedLocals (flow (currentFunction c))) as [locals|];
      [|eexists; split; reflexivity].
    destruct (freeScopedLocals_Ok locals c) as (c1 & H1).
    exists c1. split; [exact H1|].
    exact (preserves_identity _ _ _ _ (preserves_freeScopedLocals locals) H1). }
  destruct Hfree as (c1 & -> & Hid). eexists. split; [reflexivity|].
  split; [reflexivity|]. split; [reflexivity|]. exact Hid.
Qed.

Lemma leavesTo_leave {B} (q : Frame) (k : unit -> M B) :
  (forall a, preserves (k a)) -> leavesTo q (bind leaveBranchOrScope k).
Proof.
  intros Hk c b c' (f & Hf & Hq) H. apply bind_Ok in H as ([] & c1 & H1 & H2).
  rewrite (Hk _ _ _ _ H2). clear H2.
  destruct (leaveBranchOrScope_Ok c f Hf) as (c2 & Hleave & Hparent & _ & Hid).
  rewrite Hleave in H1. injection H1 as <-.
  unfold frame. rewrite Hparent, Hid. exact Hq.
Qed.

Lemma endsAt_bind {A B} (q : Frame) (m : M A) (k : A -> M B) :
  (forall a, endsAt q (k a)) -> endsAt q (bind m k).
Proof.
  intros Hk c b c' H. apply bind_Ok in H as (a & c1 & _ & H2). exact (Hk _ _ _ _ H2).
Qed.

Lemma endsAt_restore {B} (q : Frame) (previous : Function) (k : unit -> M B) :
  (parent (flow previous), identity previous) = q -> (forall a, preserves (k a)) ->
  endsAt q (bind (modify (fun c => withCurrentFunction c previous)) k).
Proof.
  intros Hq Hk c b c' H. apply bind_Ok in H as ([] & c1 & H1 & H2).
  injection H1 as <-. rewrite (Hk _ _ _ _ H2). exact Hq.
Qed.

Lemma endsAt_throw {A} (q : Frame) (msg : string) : endsAt q (throw msg : M A).
Proof. intros c a c' H. discriminate. Qed.

Lemma preserves_from_get {B} (k : Compiler -> M B) :
  (forall c0, endsAt (frame c0) (k c0)) -> preserves (bind get k).
Proof. intros Hk c b c' H. exact (Hk c c b c' H). Qed.

Lemma preserves_from_currentFunction {B} (k : Function -> M B) :
  (forall previous, endsAt (parent (flow previous), identity previous) (k previous)) ->
  preserves (bind (gets currentFunction) k).
Proof. intros Hk c b c' H. exact (Hk (currentFunction c) c b c' H). Qed.

Lemma endsAt_preserves {A} (m : M A) :
  preserves m -> forall c0 : Compiler, forall c a c', c = c0 -> m c = Ok (a, c') ->
  frame c' = frame c0.
Proof. intros Hm c0 c a c' -> H. exact (Hm _ _ _ H). Qed.

Create HintDb pres discriminated.

#[local] Hint Resolve preserves_ret preserves_throw preserves_get preserves_gets
  preserves_assert preserves_liftResult preserves_external preserves_error
  preserves_warning preserves_setCurrentType preserves_getFlow preserves_flowIs
  preserves_flowSet preserves_setBreakLabel preserves_setContinueLabel
  preserves_enterBreakContext preserves_leaveBreakContext preserves_addDebugLocation
  preserves_freeScopedLocals endsAt_throw : pres.

(** One step through the structure of a method. *)
Ltac pres_step :=
  cbv zeta;
  match goal with
  | |- forall _, _ => intro
  | |- preserves (bind enterBranchOrScope _) => apply preserves_enter; intro
  | |- preserves (bind _ _) => apply preserves_bind
  | |- leavesTo _ (bind leaveBranchOrScope _) => apply leavesTo_leave
  | |- leavesTo _ (bind _ _) => apply leavesTo_bind
  | |- endsAt _ (bind (modify (fun c => withCurrentFunction c _)) _) =>
      apply endsAt_restore; [reflexivity|]
  | |- endsAt _ (bind _ _) => apply endsAt_bind
  | |- preserves (modify _) => apply preserves_modify; reflexivity
  | |- _ => solve [auto with pres]
  | |- preserves (match ?x with _ => _ end) => destruct x
  | |- leavesTo _ (match ?x with _ => _ end) => destruct x
  | |- endsAt _ (match ?x with _ => _ end) => destruct x
  end.

Ltac pres := repeat pres_step.

Lemma preserves_compileExpression e t k w : preserves (compileExpression e t k w).
Proof. apply preserves_external. Qed.

Lemma preserves_compileInlineConstant element t retain :
  preserves (compileInlineConstant element t retain).
Proof. unfold compileInlineConstant. pres. Qed.

Lemma preserves_ensureFunctionTypeRef t : preserves (ensureFunctionTypeRef t).
Proof.
  unfold ensureFunctionTypeRef. apply preserves_bind; [|pres].
  apply preserves_modify. intros c. destruct (bool_decide _); reflexivity.
Qed.

#[local] Hint Resolve preserves_compileExpression preserves_compileInlineConstant
  preserves_ensureFunctionTypeRef : pres.

Lemma preserves_precomputeExpressionRef e : preserves (precomputeExpressionRef e).
Proof. unfold precomputeExpressionRef. pres. Qed.

Lemma preserves_addGlobal n t m i : preserves (addGlobal n t m i).
Proof. unfold addGlobal. pres. Qed.

Lemma preserves_addGlobalImport a b c t : preserves (addGlobalImport a b c t).
Proof. unfold addGlobalImport. pres. Qed.

Lemma preserves_addGlobalExport a b : preserves (addGlobalExport a b).
Proof. unfold addGlobalExport. pres. Qed.

Lemma preserves_resolveType n : preserves (resolveType n).
Proof. apply preserves_external. Qed.

#[local] Hint Resolve preserves_precomputeExpressionRef preserves_addGlobal
  preserves_addGlobalImport preserves_addGlobalExport preserves_resolveType : pres.

Lemma preserves_compileGlobal g : preserves (compileGlobal g).
Proof. unfold compileGlobal. pres. Qed.

Lemma preserves_ensureFunctionType s : preserves (ensureFunctionType s).
Proof. unfold ensureFunctionType. pres. Qed.

Lemma preserves_addFunction n t l b : preserves (addFunction n t l b).
Proof. unfold addFunction. pres. Qed.

Lemma preserves_addFunctionImport a b c t : preserves (addFunctionImport a b c t).
Proof. unfold addFunctionImport. pres. Qed.

Lemma preserves_addFunctionExport a b : preserves (addFunctionExport a b).
Proof. unfold addFunctionExport. pres. Qed.

Lemma preserves_at {A} (l : list A) i : preserves (at_ l i).
Proof. unfold at_. pres. Qed.

#[local] Hint Resolve preserves_compileGlobal preserves_ensureFunctionType
  preserves_addFunction preserves_addFunctionImport preserves_addFunctionExport
  preserves_at : pres.

Lemma preserves_forwardRequired n i o types : preserves (forwardRequired n i o types).
Proof. revert i o. induction n as [|n IH]; intros i o; simpl; pres. Qed.

Lemma preserves_initializeOptional n i o m types ps b f :
  preserves (initializeOptional n i o m types ps b f).
Proof. revert i o b f. induction n as [|n IH]; intros i o b f; simpl; pres. Qed.

Lemma preserves_omittedOperands n i types : preserves (omittedOperands n i types).
Proof. revert i. induction n as [|n IH]; intros i; simpl; pres. Qed.

#[local] Hint Resolve preserves_forwardRequired preserves_initializeOptional
  preserves_omittedOperands : pres.

Lemma preserves_ensureTrampoline original : preserves (ensureTrampoline original).
Proof.
  unfold ensureTrampoline. destruct (trampoline original); [pres|].
  cbv zeta. apply preserves_bind; [pres|]. intros _.
  apply preserves_from_get. intros c0. pres.
Qed.

#[local] Hint Resolve preserves_ensureTrampoline : pres.

Section PreservesKnot.

Variable compileFunctionRec : Function -> M (bool * Function).
Hypothesis preserves_rec : forall instance, preserves (compileFunctionRec instance).

#[local] Hint Resolve preserves_rec : pres.

Lemma preserves_makeCallDirect instance operands :
  preserves (makeCallDirect compileFunctionRec instance operands).
Proof. unfold makeCallDirect. pres. Qed.

#[local] Hint Resolve preserves_makeCallDirect : pres.

Lemma preserves_callDirect instance operands :
  preserves (callDirect compileFunctionRec instance operands).
Proof. unfold callDirect. pres. Qed.

Lemma preserves_compileTarget resolved : preserves (compileTarget resolved).
Proof. unfold compileTarget. pres. Qed.

Lemma preserves_resolveExpression e : preserves (resolveExpression e).
Proof. apply preserves_external. Qed.

Lemma preserves_resolvePrototype p : preserves (resolvePrototype p).
Proof. apply preserves_external. Qed.

Lemma preserves_getTempLocal t : preserves (getTempLocal t).
Proof. apply preserves_external. Qed.

Lemma preserves_getAndFreeTempLocal t : preserves (getAndFreeTempLocal t).
Proof. apply preserves_external. Qed.

Lemma preserves_freeTempLocal l : preserves (freeTempLocal l).
Proof. apply preserves_external. Qed.

Lemma preserves_addLocal t n : preserves (addLocal t n).
Proof. apply preserves_external. Qed.

Lemma preserves_unsupported e : preserves (unsupported e).
Proof. unfold unsupported. pres. Qed.

Lemma preserves_cannotAssign e : preserves (cannotAssign e).
Proof. unfold cannotAssign. pres. Qed.

#[local] Hint Resolve preserves_callDirect preserves_compileTarget preserves_resolveExpression
  preserves_resolvePrototype preserves_getTempLocal preserves_getAndFreeTempLocal
  preserves_freeTempLocal preserves_addLocal preserves_unsupported preserves_cannotAssign
  : pres.

Lemma preserves_compileAssignmentWithValue e v tee :
  preserves (compileAssignmentWithValue compileFunctionRec e v tee).
Proof. unfold compileAssignmentWithValue. pres. Qed.

Lemma preserves_setScopedLocals (g : Flow) (l : option (list (string * Local))) :
  forall c a c', flow (currentFunction c) = g ->
  setFlow (withScopedLocals g l) c = Ok (a, c') -> frame c' = frame c.
Proof. intros c a c' <- H. injection H as _ <-. reflexivity. Qed.

Lemma preserves_addScopedLocal n t r : preserves (addScopedLocal n t r).
Proof.
  unfold addScopedLocal. apply preserves_bind; [pres|]. intros local.
  intros c a c' H. apply bind_Ok in H as (g & c1 & Hg & H).
  injection Hg as <- <-.
  destruct (existsb _ _).
  - exact (preserves_error _ _ _ _ _ H).
  - eapply preserves_setScopedLocals; [reflexivity | exact H].
Qed.

Lemma preserves_makeIsTrueish e t : preserves (makeIsTrueish e t).
Proof. unfold makeIsTrueish. pres. Qed.

Lemma preserves_compileGlobalDeclaration d : preserves (compileGlobalDeclaration d).
Proof. unfold compileGlobalDeclaration. pres. Qed.

Lemma preserves_virtualLocal n t i : preserves (virtualLocal n t i).
Proof. unfold virtualLocal. pres. Qed.

#[local] Hint Resolve preserves_compileAssignmentWithValue preserves_addScopedLocal
  preserves_makeIsTrueish preserves_compileGlobalDeclaration preserves_virtualLocal : pres.

Lemma preserves_compileLocalDeclarations ds inits :
  preserves (compileLocalDeclarations compileFunctionRec ds inits).
Proof.
  revert inits. induction ds as [|d rest IH]; intros inits; simpl.
  - pres.
  - apply preserves_bind; [pres|]. intros typed. destruct typed as [[t init]|]; [|apply IH].
    assert (Hdeclare : forall init,
      preserves ((if isLetDeclaration d
                  then addScopedLocal (text (variableName d)) t (variableName d)
                  else addLocal t (text (variableName d))) ;;;
                 if negb (isNoExpression init)
                 then assignment <- compileAssignmentWithValue compileFunctionRec
                                      (asExpression (variableName d)) init false ;;
                      compileLocalDeclarations compileFunctionRec rest (inits ++ [assignment])
                 else compileLocalDeclarations compileFunctionRec rest inits)).
    { intros init'. pres. }
    cbv zeta.
    destruct (isConstDeclaration d); [|apply Hdeclare].
    destruct (negb (isNoExpression init)) eqn:Hinit.
    + apply preserves_bind; [pres|]. intros init'.
      destruct (isConst init').
      * apply preserves_bind; [pres|]. intros local.
        intros c a c' H. apply bind_Ok in H as (g & c1 & Hg & H).
        injection Hg as <- <-.
        destruct (scopedLocals (flow (currentFunction c))) as [locals|].
        -- destruct (existsb _ locals).
           ++ exact (preserves_bind _ _ (preserves_error _ _)
                       (fun _ => preserves_ret _) _ _ _ H).
           ++ apply bind_Ok in H as ([] & c2 & H1 & H2). injection H2 as _ <-.
              eapply preserves_setScopedLocals; [reflexivity | exact H1].
        -- apply bind_Ok in H as ([] & c2 & H1 & H2). injection H2 as _ <-.
           eapply preserves_setScopedLocals; [reflexivity | exact H1].
      * apply preserves_bind; [pres | intros; apply Hdeclare].
    + apply preserves_bind; [pres|]. intros _.
      pose proof (Hdeclare init) as Hd. rewrite Hinit in Hd. exact Hd.
Qed.

Lemma preserves_compileGlobalDeclarations ds : preserves (compileGlobalDeclarations ds).
Proof. induction ds as [|d rest IH]; simpl; pres. Qed.

#[local] Hint Resolve preserves_compileLocalDeclarations preserves_compileGlobalDeclarations
  : pres.

Lemma preserves_compileVariableStatement ds p k :
  preserves (compileVariableStatement compileFunctionRec ds p k).
Proof. unfold compileVariableStatement. pres. Qed.

Lemma preserves_compileCaseLabels cases i ctx tmp d :
  preserves (compileCaseLabels cases i ctx tmp d).
Proof.
  revert i d. induction cases as [|[[label|] stmts] rest IH]; intros i d; simpl; pres.
Qed.

#[local] Hint Resolve preserves_compileVariableStatement preserves_compileCaseLabels : pres.

Lemma preserves_compileSwitchBreaks cond cases : preserves (compileSwitchBreaks cond cases).
Proof. unfold compileSwitchBreaks. pres. Qed.

#[local] Hint Resolve preserves_compileSwitchBreaks : pres.

Lemma preserves_compileStatementsWith (compile : Statement -> M ExpressionRef) statements :
  Forall (fun s => preserves (compile s)) statements ->
  preserves (compileStatementsWith compile statements).
Proof. induction 1 as [|s rest Hs _ IH]; simpl; pres. Qed.

Lemma preserves_compileSwitchCases (compile : Statement -> M ExpressionRef) ctx n cases :
  Forall (fun case => Forall (fun s => preserves (compile s)) (snd case)) cases ->
  forall i block always, preserves (compileSwitchCases compile ctx n cases i block always).
Proof.
  induction 1 as [|[label stmts] rest Hs _ IH]; intros i block always; simpl; [pres|].
  pose proof (preserves_compileStatementsWith compile stmts Hs).
  pres.
Qed.

End PreservesKnot.

(** Induction on statements, with the statements of blocks and of switch
    cases and the optional parts of [for] and [if]. *)
Section StatementInduction.

Variable P : Statement -> Prop.

Definition optionalP (s : option Statement) : Prop :=
  match s with Some s => P s | None => True end.

Hypothesis HBlock : forall r statements, Forall P statements -> P (BlockStatement r statements).
Hypothesis HBreak : forall r label, P (BreakStatement r label).
Hypothesis HContinue : forall r label, P (ContinueStatement r label).
Hypothesis HDo : forall r body condition, P body -> P (DoStatement r body condition).
Hypothesis HEmpty : forall r, P (EmptyStatement r).
Hypothesis HExpression : forall r e, P (ExpressionStatement r e).
Hypothesis HFor : forall r initializer condition incrementor body,
  optionalP initializer -> P body -> P (ForStatement r initializer condition incrementor body).
Hypothesis HIf : forall r condition ifTrue ifFalse,
  P ifTrue -> optionalP ifFalse -> P (IfStatement r condition ifTrue ifFalse).
Hypothesis HReturn : forall r value, P (ReturnStatement r value).
Hypothesis HSwitch : forall r condition cases,
  Forall (fun case => Forall P (snd case)) cases -> P (SwitchStatement r condition cases).
Hypothesis HThrow : forall r value, P (ThrowStatement r value).
Hypothesis HTry : forall r, P (TryStatement r).
Hypothesis HVariable : forall r declarations parentIsSource,
  P (VariableStatement r declarations parentIsSource).
Hypothesis HVoid : forall r e, P (VoidStatement r e).
Hypothesis HWhile : forall r condition body, P body -> P (WhileStatement r condition body).
Hypothesis HType : forall r, P (TypeDeclaration r).
Hypothesis HOther : forall r, P (OtherStatement r).

Fixpoint Statement_induction (s : Statement) : P s :=
  let all :=
    fix all (l : list Statement) : Forall P l :=
      match l with
      | [] => List.Forall_nil P
      | x :: rest => List.Forall_cons P x rest (Statement_induction x) (all rest)
      end in
  match s with
  | BlockStatement r statements => HBlock r statements (all statements)
  | BreakStatement r label => HBreak r label
  | ContinueStatement r label => HContinue r label
  | DoStatement r body condition => HDo r body condition (Statement_induction body)
  | EmptyStatement r => HEmpty r
  | ExpressionStatement r e => HExpression r e
  | ForStatement r initializer condition incrementor body =>
      HFor r initializer condition incrementor body
        (match initializer return optionalP initializer with
         | Some s => Statement_induction s
         | None => I
         end)
        (Statement_induction body)
  | IfStatement r condition ifTrue ifFalse =>
      HIf r condition ifTrue ifFalse (Statement_induction ifTrue)
        (match ifFalse return optionalP ifFalse with
         | Some s => Statement_induction s
         | None => I
         end)
  | ReturnStatement r value => HReturn r value
  | SwitchStatement r condition cases =>
      HSwitch r condition cases
        ((fix allCases (l : list (option Expression * list Statement))
            : Forall (fun case => Forall P (snd case)) l :=
            match l with
            | [] => List.Forall_nil _
            | (label, statements) :: rest =>
                List.Forall_cons (fun case => Forall P (snd case)) (label, statements) rest
                  (all statements) (allCases rest)
            end) cases)
  | ThrowStatement r value => HThrow r value
  | TryStatement r => HTry r
  | VariableStatement r declarations parentIsSource => HVariable r declarations parentIsSource
  | VoidStatement r e => HVoid r e
  | WhileStatement r condition body => HWhile r condition body (Statement_induction body)
  | TypeDeclaration r => HType r
  | OtherStatement r => HOther r
  end.

End StatementInduction.

Section PreservesStatement.

Variable compileFunctionRec : Function -> M (bool * Function).
Hypothesis preserves_rec : forall instance, preserves (compileFunctionRec instance).

#[local] Hint Resolve preserves_rec preserves_makeCallDirect preserves_callDirect
  preserves_compileTarget preserves_resolveExpression
  preserves_resolvePrototype preserves_getTempLocal preserves_getAndFreeTempLocal
  preserves_freeTempLocal preserves_addLocal preserves_unsupported preserves_cannotAssign
  preserves_compileAssignmentWithValue preserves_addScopedLocal
  preserves_makeIsTrueish preserves_compileGlobalDeclaration preserves_virtualLocal
  preserves_compileLocalDeclarations preserves_compileGlobalDeclarations
  preserves_compileVariableStatement preserves_compileCaseLabels
  preserves_compileSwitchBreaks : pres.

(** Compiling a statement leaves the frame below the current one in place. *)
Lemma preserves_compileStatement (s : Statement) :
  preserves (compileStatement compileFunctionRec s).
Proof.
  induction s using Statement_induction; simpl;
    try match goal with
        | H : Forall _ ?l |- context [compileStatementsWith _ ?l] =>
            pose proof (preserves_compileStatementsWith _ _ H)
        end;
    unfold optionalP in *; pres.
  apply preserves_compileSwitchCases. assumption.
Qed.

Lemma preserves_checkModifiers instance : preserves (checkModifiers instance).
Proof. unfold checkModifiers. pres. Qed.

Lemma preserves_finalizeFlow : preserves finalizeFlow.
Proof.
  unfold finalizeFlow. intros c a c' H. injection H as _ <-. reflexivity.
Qed.

#[local] Hint Resolve preserves_compileStatement preserves_checkModifiers
  preserves_finalizeFlow : pres.

Lemma preserves_compileFunctionStep instance :
  preserves (compileFunctionStep compileFunctionRec instance).
Proof.
  unfold compileFunctionStep. destruct (Function_is instance ElementFlags.COMPILED); [pres|].
  cbv zeta.
  apply preserves_bind; [pres|]. intros _.
  apply preserves_bind; [pres|]. intros _.
  apply preserves_bind; [pres|]. intros typeRef.
  apply preserves_bind; [|pres].
  destruct (body _); [|pres].
  apply preserves_from_currentFunction. intros previous. pres.
Qed.

End PreservesStatement.

Lemma preserves_compileFunction depth instance : preserves (compileFunction depth instance).
Proof.
  revert instance. induction depth as [|depth IH]; intros instance; simpl;
    [apply preserves_throw | apply preserves_compileFunctionStep; exact IH].
Qed.

(** *** C8: [for] without a condition *)

(** The compiler as a [for] or [while] body sees it: a fresh break context,
    a fresh flow frame on the current one, and the labels of the loop. *)
Definition loopScope (c : Compiler) : Compiler :=
  let f := currentFunction c in
  let context := toString (nextBreakId f) in
  withCurrentFunction c
    (withFlow (withBreakContext f (nextBreakId f + 1) (breakStack f ++ [nextBreakId f]))
       (mkFlow (Some (flow f)) (branchFlags (flow f))
          (Some ("continue|" +:+ context)) (Some ("break|" +:+ context)) None)).

Lemma addDebugLocation_Ok (e : ExpressionRef) (r : Range) (c : Compiler) :
  exists c', addDebugLocation e r c = Ok (tt, c') /\
             flow (currentFunction c') = flow (currentFunction c).
Proof.
  unfold addDebugLocation, bind, get. destruct (negb (sourceMap (options c))).
  - eexists. split; reflexivity.
  - eexists. split; [reflexivity|]. destruct (bool_decide _); reflexivity.
Qed.

(** Runs the first method of a sequence; [pure] runs one that only reads
    and writes the state. *)
Ltac step := apply bind_Ok; do 2 eexists; split.
Ltac pure :=
  cbv beta iota zeta delta
    [bind get gets modify ret assert enterBreakContext enterBranchOrScope
     setBreakLabel setContinueLabel flowIs flowSet getFlow setFlow
     leaveBreakContext finalizeFlow error warning setCurrentType
     addFunction addFunctionExport];
  reflexivity.

(** C8.  A [for] statement without a condition compiles its condition as
    the constant [i32 1].  If after the loop body the flow of the loop has
    RETURNS, then after the statement the parent flow has RETURNS and the
    loop block is wrapped in a block that ends with [unreachable]; otherwise
    the loop block is the result. *)
Theorem for_without_condition (depth : nat) (r : Range)
    (initializer : option Statement) (incrementor : option Expression) (body : Statement)
    (c c1 c2 c3 : Compiler) (initExpr incrExpr bodyExpr : ExpressionRef) :
  (match initializer with
   | Some s => compileStatement (compileFunction depth) s
   | None => ret createNop
   end) (loopScope c) = Ok (initExpr, c1) ->
  (match incrementor with
   | Some e => compileExpression e Ty.void IMPLICIT true
   | None => ret createNop
   end) c1 = Ok (incrExpr, c2) ->
  compileStatement (compileFunction depth) body c2 = Ok (bodyExpr, c3) ->
  let context := toString (nextBreakId (currentFunction c)) in
  let returns := Flow_is (flow (currentFunction c3)) FlowFlags.RETURNS in
  let loop :=
    createBlock (Some ("break|" +:+ context))
      [ initExpr;
        createLoop ("continue|" +:+ context)
          (createBlock None
             [ createIf (createI32 1)
                 (createBlock None
                    [ bodyExpr; incrExpr; createBreak ("continue|" +:+ context) noExpression ]
                    NativeType.None)
                 noExpression ]
             NativeType.None) ]
      NativeType.None in
  exists c',
    compileStatement (compileFunction depth)
      (ForStatement r initializer None incrementor body) c
    = Ok (if returns
          then createBlock None [ loop; createUnreachable ] NativeType.Auto
          else loop, c') /\
    (returns = true -> Flow_is (flow (currentFunction c')) FlowFlags.RETURNS = true) /\
    flowParent c' = flowParent c.
Proof.
  intros Hinit Hincr Hbody context returns loop.
  assert (Hparent : flowParent c3 = Some (flow (currentFunction c))).
  { rewrite (preserves_flowParent _ _ _ _
               (preserves_compileStatement _ (preserves_compileFunction depth) _) Hbody).
    assert (Hi : flowParent c2 = flowParent c1).
    { destruct incrementor;
        [exact (preserves_flowParent _ _ _ _ (preserves_compileExpression _ _ _ _) Hincr)|].
      injection Hincr as _ <-. reflexivity. }
    rewrite Hi.
    assert (H1 : flowParent c1 = flowParent (loopScope c)).
    { destruct initializer;
        [exact (preserves_flowParent _ _ _ _
                  (preserves_compileStatement _ (preserves_compileFunction depth) _) Hinit)|].
      injection Hinit as _ <-. reflexivity. }
    rewrite H1. reflexivity. }
  destruct (leaveBranchOrScope_Ok c3 _ Hparent) as (c4 & Hleave & Hparent4 & _).
  set (c5 := withCurrentFunction c4
               (withBreakContext (currentFunction c4) (nextBreakId (currentFunction c4))
                  (removelast (breakStack (currentFunction c4))))).
  set (c6 := if returns
             then withCurrentFunction c5
                    (withFlow (currentFunction c5)
                       (Flow_set (flow (currentFunction c5)) FlowFlags.RETURNS))
             else c5).
  destruct (addDebugLocation_Ok
              (if returns
               then createBlock None [ loop; createUnreachable ] NativeType.Auto
               else loop) r c6) as (c' & Hdebug & Hflow).
  exists c'. split; [|split].
  - simpl compileStatement. step; [|step; [exact Hdebug | reflexivity]].
    step; [pure|]. step; [pure|]. step; [pure|]. step; [pure|].
    step; [exact Hinit|]. step; [pure|]. step; [exact Hincr|]. step; [exact Hbody|].
    step; [pure|]. step; [exact Hleave|]. step; [pure|].
    fold returns. unfold c6. destruct returns; reflexivity.
  - intros Hreturns. rewrite Hflow. unfold c6. rewrite Hreturns. simpl.
    apply flags_is_set.
  - unfold flowParent. rewrite Hflow. unfold c6.
    destruct returns; simpl; exact Hparent4.
Qed.

(** *** C9: [switch] with a default case *)

(** The compiler as the body of a switch case sees it: a fresh flow frame
    on the current one with the break label of the switch. *)
Definition caseScope (context : string) (c : Compiler) : Compiler :=
  let f := currentFunction c in
  withCurrentFunction c
    (withFlow f
       (mkFlow (Some (flow f)) (branchFlags (flow f)) (continueLabel (flow f))
          (Some ("break|" +:+ context)) None)).

(** Every case body, from case [i] on and in order of compilation, either
    falls through (it is not the last of the [numCases] cases) or leaves
    RETURNS in its flow. *)
Inductive fallThroughOrReturn (depth : nat) (context : string) (numCases : Z)
    : list (option Expression * list Statement) -> Z -> Compiler -> Prop :=
| noCaseLeft (i : Z) (c : Compiler) :
    fallThroughOrReturn depth context numCases [] i c
| caseFallsThroughOrReturns (label : option Expression) (statements : list Statement)
    (rest : list (option Expression * list Statement)) (i : Z)
    (c c1 c2 : Compiler) (stmts : list ExpressionRef) :
    compileStatementsWith (compileStatement (compileFunction depth)) statements
      (caseScope context c) = Ok (stmts, c1) ->
    i <> numCases - 1 \/ Flow_is (flow (currentFunction c1)) FlowFlags.RETURNS = true ->
    leaveBranchOrScope c1 = Ok (tt, c2) ->
    fallThroughOrReturn depth context numCases rest (i + 1) c2 ->
    fallThroughOrReturn depth context numCases ((label, statements) :: rest) i c.

Lemma compileCaseLabels_default_kept cases :
  forall i context tempLocal defaultIndex c breaks defaultIndex' c',
    compileCaseLabels cases i context tempLocal defaultIndex c
    = Ok ((breaks, defaultIndex'), c') ->
    0 <= i -> 0 <= defaultIndex -> 0 <= defaultIndex'.
Proof.
  induction cases as [|[[label|] statements] rest IH];
    intros i context tempLocal defaultIndex c breaks defaultIndex' c' H Hi Hd;
    simpl in H.
  - injection H as _ <- _. exact Hd.
  - apply bind_Ok in H as (labelExpr & c1 & _ & H).
    apply bind_Ok in H as ([bs d] & c2 & H & Hret).
    injection Hret as _ <- _. simpl. eapply IH; [exact H | lia | exact Hd].
  - eapply IH; [exact H | lia | exact Hi].
Qed.

Lemma compileCaseLabels_default cases :
  forall i context tempLocal defaultIndex c breaks defaultIndex' c',
    compileCaseLabels cases i context tempLocal defaultIndex c
    = Ok ((breaks, defaultIndex'), c') ->
    0 <= i -> (exists statements, In (None, statements) cases) -> 0 <= defaultIndex'.
Proof.
  induction cases as [|[[label|] statements] rest IH];
    intros i context tempLocal defaultIndex c breaks defaultIndex' c' H Hi (sts & Hin);
    simpl in H.
  - destruct Hin.
  - apply bind_Ok in H as (labelExpr & c1 & _ & H).
    apply bind_Ok in H as ([bs d] & c2 & H & Hret).
    injection Hret as _ <- _. simpl. destruct Hin as [Hin|Hin]; [discriminate|].
    eapply IH; [exact H | lia | eauto].
  - eapply compileCaseLabels_default_kept; [exact H | lia | exact Hi].
Qed.

Lemma compileSwitchBreaks_default condition cases c context breaks defaultIndex c' :
  compileSwitchBreaks condition cases c = Ok ((context, breaks, defaultIndex), c') ->
  (exists statements, In (None, statements) cases) ->
  0 <= defaultIndex.
Proof.
  unfold compileSwitchBreaks. intros H Hdefault.
  apply bind_Ok in H as (context' & c1 & _ & H).
  apply bind_Ok in H as (tempLocal & c2 & _ & H).
  apply bind_Ok in H as (conditionExpr & c3 & _ & H).
  apply bind_Ok in H as ([caseBreaks d] & c4 & Hlabels & H).
  apply bind_Ok in H as ([] & c5 & _ & H).
  injection H as _ _ <- _.
  eapply compileCaseLabels_default; [exact Hlabels | lia | exact Hdefault].
Qed.

Lemma compileSwitchCases_alwaysReturns depth context numCases cases i c :
  fallThroughOrReturn depth context numCases cases i c ->
  forall currentBlock, exists block c',
    compileSwitchCases (compileStatement (compileFunction depth)) context numCases
      cases i currentBlock true c = Ok ((block, true), c').
Proof.
  induction 1 as [i c | label statements rest i c c1 c2 stmts Hstmts Hcase Hleave _ IH];
    intros currentBlock.
  - do 2 eexists. reflexivity.
  - destruct (IH (createBlock
                    (Some (if negb (negb (i =? numCases - 1)) then "break|" +:+ context
                           else "case" +:+ toString (i + 1) +:+ "|" +:+ context))
                    (currentBlock :: stmts) NativeType.None)) as (block & c' & Hrest).
    exists block, c'. simpl.
    step; [pure|]. step; [pure|]. step; [exact Hstmts|]. step; [pure|].
    step; [exact Hleave|].
    replace (negb (i =? numCases - 1)
             || Flow_is (flow (currentFunction c1)) FlowFlags.RETURNS) with true.
    + exact Hrest.
    + destruct Hcase as [Hi | ->]; [|apply eq_sym, orb_true_r].
      apply Z.eqb_neq in Hi. rewrite Hi. reflexivity.
Qed.

(** C9.  A [switch] statement that has a default case, and whose case
    bodies each either fall through to the next case or leave RETURNS in
    their flow, compiles, and afterwards the flow it was compiled in (still
    on the same parent) has RETURNS. *)
Theorem switch_with_default_returns (depth : nat) (r : Range) (condition : Expression)
    (cases : list (option Expression * list Statement))
    (c c1 : Compiler) (context : string) (breaks : list ExpressionRef) (defaultIndex : Z) :
  (exists statements, In (None, statements) cases) ->
  compileSwitchBreaks condition cases c = Ok ((context, breaks, defaultIndex), c1) ->
  fallThroughOrReturn depth context (Z.of_nat (length cases)) cases 0 c1 ->
  exists expr c',
    compileStatement (compileFunction depth) (SwitchStatement r condition cases) c
    = Ok (expr, c') /\
    Flow_is (flow (currentFunction c')) FlowFlags.RETURNS = true /\
    flowParent c' = flowParent c.
Proof.
  intros Hdefault Hbreaks Hcases.
  pose proof (compileSwitchBreaks_default _ _ _ _ _ _ _ Hbreaks Hdefault) as Hd.
  destruct (compileSwitchCases_alwaysReturns _ _ _ _ _ _ Hcases
              (createBlock (Some ("case0|" +:+ context)) breaks NativeType.None))
    as (block & c2 & Hblock).
  set (c3 := withCurrentFunction c2
               (withBreakContext (currentFunction c2) (nextBreakId (currentFunction c2))
                  (removelast (breakStack (currentFunction c2))))).
  set (c4 := withCurrentFunction c3
               (withFlow (currentFunction c3)
                  (Flow_set (flow (currentFunction c3)) FlowFlags.RETURNS))).
  destruct (addDebugLocation_Ok block r c4) as (c' & Hdebug & Hflow).
  assert (Hrun : compileStatement (compileFunction depth)
                   (SwitchStatement r condition cases) c = Ok (block, c')).
  { simpl compileStatement. step; [|step; [exact Hdebug | reflexivity]].
    step; [exact Hbreaks|]. step; [exact Hblock|]. step; [pure|].
    apply Z.leb_le in Hd. rewrite Hd. step; [pure|]. reflexivity. }
  exists block, c'. split; [exact Hrun|]. split.
  - rewrite Hflow. apply flags_is_set.
  - exact (preserves_flowParent _ _ _ _
             (preserves_compileStatement _ (preserves_compileFunction depth) _) Hrun).
Qed.

(** *** C3: a function that must return a value *)

(** C3.  A function instance with a body is compiled; its return type is
    not void and the flow of the body, when finalized, has no RETURNS.  Then
    the error "A function whose declared type is not void must return a
    value" is reported at the declared return type, after the diagnostics of
    the body, and compilation goes on: the function is added to the module
    under its name with the compiled body, the instance is COMPILED,
    [compileFunction] answers true and the function that was being compiled
    before is current again. *)
Theorem missing_return_reported (depth : nat) (instance : Function)
    (b : Statement) (node : TypeNode) (c c1 c2 c3 : Compiler)
    (typeRef : FunctionTypeRef) (stmt : ExpressionRef) :
  let compiled := Function_set instance ElementFlags.COMPILED in
  let declaration := functionDeclaration (prototype instance) in
  Function_is instance ElementFlags.COMPILED = false ->
  Function_is instance ElementFlags.BUILTIN = false ->
  body declaration = Some b ->
  declaredReturnType declaration = Some node ->
  Type_eqb (returnType (signature instance)) Ty.void = false ->
  checkModifiers compiled c = Ok (tt, c1) ->
  ensureFunctionType (signature instance) c1 = Ok (typeRef, c2) ->
  compileStatement (compileFunction depth) b (withCurrentFunction c2 compiled)
  = Ok (stmt, c3) ->
  Flow_is (flow (currentFunction c3)) FlowFlags.RETURNS = false ->
  exists instance' c',
    compileFunction (S depth) instance c = Ok ((true, instance'), c') /\
    diagnostics c' =
      diagnostics c3 ++
      [ mkDiagnostic
          DiagnosticCode.A_function_whose_declared_type_is_not_void_must_return_a_value
          ERROR (typeNodeRange node) ] /\
    functions (module c') =
      functions (module c3) ++
      [ mkFunctionEntry (functionInternalName instance) typeRef
          (typesToNativeTypes (additionalLocals (currentFunction c3))) stmt ] /\
    Function_is instance' ElementFlags.COMPILED = true /\
    currentFunction c' = currentFunction c2.
Proof.
  intros compiled declaration Hfresh Hbuiltin Hbody Hnode Hvoid Hmodifiers Htype Hstmt Hflow.
  pose proof (preserves_identity _ _ _ _
                (preserves_compileStatement _ (preserves_compileFunction depth) _) Hstmt)
    as Hid.
  apply identity_inv in Hid as (_ & Hname & _ & Hflags). simpl in Hname, Hflags.
  rewrite <- Hname.
  destruct (functionSourceIsEntry declaration && functionIsTopLevelExport declaration)
    eqn:Hexport.
  all: do 2 eexists; split;
    [ simpl compileFunction; unfold compileFunctionStep; rewrite Hfresh;
      step; [unfold assert; rewrite Hbuiltin; reflexivity|];
      step; [exact Hmodifiers|]; step; [exact Htype|];
      change (functionDeclaration (prototype (Function_set instance ElementFlags.COMPILED)))
        with declaration;
      rewrite Hbody, Hexport;
      step;
      [ step; [pure|]; step; [pure|]; step; [exact Hstmt|]; step; [pure|];
        change (signature (Function_set instance ElementFlags.COMPILED))
          with (signature instance);
        rewrite Hvoid, Hflow, Hnode; step; [pure|]; step; [pure|]; step; [pure|];
        step; [pure|]; reflexivity
      | cbv beta iota; step; [pure | reflexivity] ]
    | ].
  all: split; [reflexivity|]; split; [reflexivity|]; split; [|reflexivity].
  all: unfold Function_is, Function_finalize; simpl; rewrite Hflags; apply flags_is_set.
Qed.

(** The other way round: when the flow of the body has RETURNS, as it has
    after a [for] without a condition whose body returns, nothing is
    reported for the function. *)
Lemma returning_body_not_reported (depth : nat) (instance : Function)
    (b : Statement) (c c1 c2 c3 : Compiler)
    (typeRef : FunctionTypeRef) (stmt : ExpressionRef) :
  let compiled := Function_set instance ElementFlags.COMPILED in
  let declaration := functionDeclaration (prototype instance) in
  Function_is instance ElementFlags.COMPILED = false ->
  Function_is instance ElementFlags.BUILTIN = false ->
  body declaration = Some b ->
  checkModifiers compiled c = Ok (tt, c1) ->
  ensureFunctionType (signature instance) c1 = Ok (typeRef, c2) ->
  compileStatement (compileFunction depth) b (withCurrentFunction c2 compiled)
  = Ok (stmt, c3) ->
  Flow_is (flow (currentFunction c3)) FlowFlags.RETURNS = true ->
  exists instance' c',
    compileFunction (S depth) instance c = Ok ((true, instance'), c') /\
    diagnostics c' = diagnostics c3.
Proof.
  intros compiled declaration Hfresh Hbuiltin Hbody Hmodifiers Htype Hstmt Hflow.
  destruct (functionSourceIsEntry declaration && functionIsTopLevelExport declaration)
    eqn:Hexport.
  all: do 2 eexists; split;
    [ simpl compileFunction; unfold compileFunctionStep; rewrite Hfresh;
      step; [unfold assert; rewrite Hbuiltin; reflexivity|];
      step; [exact Hmodifiers|]; step; [exact Htype|];
      change (functionDeclaration (prototype (Function_set instance ElementFlags.COMPILED)))
        with declaration;
      rewrite Hbody, Hexport;
      step;
      [ step; [pure|]; step; [pure|]; step; [exact Hstmt|]; step; [pure|];
        rewrite Hflow, Bool.andb_false_r; step; [pure|]; step; [pure|]; step; [pure|];
        step; [pure|]; reflexivity
      | cbv beta iota; step; [pure | reflexivity] ]
    | reflexivity ].
Qed.

(** *** C2: trampolines *)

Lemma flags_is_set_disjoint (f flag other : Z) :
  Z.land flag other = 0 -> flags_is (flags_set f flag) other = flags_is f other.
Proof.
  intros H. unfold flags_is, flags_set.
  rewrite Z.land_lor_distr_l, H, Z.lor_0_r. reflexivity.
Qed.

(** Compiling a function leaves it the element it was, apart from the
    COMPILED and IMPORTED flags. *)
Lemma compileFunction_identity depth instance c compiled instance' c' :
  compileFunction depth instance c = Ok ((compiled, instance'), c') ->
  functionInternalName instance' = functionInternalName instance /\
  signature instance' = signature instance /\
  forall flag, Z.land ElementFlags.COMPILED flag = 0 -> Z.land ElementFlags.IMPORTED flag = 0 ->
               Function_is instance' flag = Function_is instance flag.
Proof.
  destruct depth as [|depth]; [discriminate|]. simpl. unfold compileFunctionStep.
  destruct (Function_is instance ElementFlags.COMPILED).
  { intros H. injection H as _ <- _. auto. }
  intros H.
  apply bind_Ok in H as ([] & c1 & _ & H).
  apply bind_Ok in H as ([] & c2 & _ & H).
  apply bind_Ok in H as (typeRef & c3 & _ & H).
  apply bind_Ok in H as ([ref inst] & c4 & Hr & H).
  apply bind_Ok in H as ([] & c5 & _ & H).
  injection H as _ <- _.
  assert (Hinst : functionInternalName inst = functionInternalName instance /\
                  signature inst = signature instance /\
                  (functionFlags inst = flags_set (functionFlags instance) ElementFlags.COMPILED \/
                   functionFlags inst =
                     flags_set (flags_set (functionFlags instance) ElementFlags.COMPILED)
                       ElementFlags.IMPORTED)).
  { destruct (body _) as [b|].
    - apply bind_Ok in Hr as (previous & c6 & Hp & Hr). injection Hp as _ <-.
      apply bind_Ok in Hr as ([] & c7 & Hm & Hr). injection Hm as <-.
      apply bind_Ok in Hr as (stmt & c8 & Hstmt & Hr).
      apply bind_Ok in Hr as (all & c9 & Hfin & Hr).
      apply bind_Ok in Hr as ([] & c10 & Herr & Hr).
      apply bind_Ok in Hr as (inst0 & c11 & Hget & Hr). injection Hget as <- <-.
      apply bind_Ok in Hr as ([] & c12 & _ & Hr).
      apply bind_Ok in Hr as (ref0 & c13 & _ & Hr).
      injection Hr as _ <- _.
      assert (Hid : identity (currentFunction c10)
                    = identity (Function_set instance ElementFlags.COMPILED)).
      { assert (Herr' : identity (currentFunction c10) = identity (currentFunction c9)).
        { destruct (_ && _); [|injection Herr as <-; reflexivity].
          destruct (declaredReturnType _); [|discriminate].
          injection Herr as <-. reflexivity. }
        rewrite Herr'.
        rewrite (preserves_identity _ _ _ _ preserves_finalizeFlow Hfin).
        rewrite (preserves_identity _ _ _ _
                   (preserves_compileStatement _ (preserves_compileFunction depth) _) Hstmt).
        reflexivity. }
      apply identity_inv in Hid as (_ & Hname & Hsig & Hflags). auto.
    - apply bind_Ok in Hr as (ref0 & c6 & _ & Hr). injection Hr as _ <- _. auto. }
  destruct Hinst as (Hname & Hsig & Hflags).
  split; [exact Hname|]. split; [exact Hsig|].
  intros flag Hc Hi. unfold Function_is, Function_finalize. simpl.
  destruct Hflags as [-> | ->]; rewrite ?flags_is_set_disjoint by assumption; reflexivity.
Qed.

(** A function that is COMPILED is not compiled again. *)
Lemma compileFunction_compiled depth instance c :
  Function_is instance ElementFlags.COMPILED = true ->
  compileFunction (S depth) instance c = Ok ((true, instance), c).
Proof. intros H. simpl. unfold compileFunctionStep. rewrite H. reflexivity. Qed.

Lemma at_Ok {A} (l l' : list A) (a : A) (c : Compiler) :
  at_ (l ++ a :: l') (Z.of_nat (length l)) c = Ok (a, c).
Proof.
  unfold at_. destruct (Z.of_nat (length l) <? 0) eqn:H; [apply Z.ltb_lt in H; lia|].
  rewrite Nat2Z.id. rewrite nth_error_app2 by lia.
  rewrite Nat.sub_diag. reflexivity.
Qed.

(** The zero constants for the omitted arguments are those of the
    parameter types from the first omitted one on. *)
Lemma omittedOperands_Ok (omitted : list Type_) :
  forall (given rest : list Type_) (c : Compiler),
    omittedOperands (length omitted) (Z.of_nat (length given)) (given ++ omitted ++ rest) c
    = Ok (map toNativeZero omitted, c).
Proof.
  induction omitted as [|t omitted IH]; intros given rest c; [reflexivity|].
  simpl omittedOperands. step; [apply (at_Ok given (omitted ++ rest) t)|].
  step; [|reflexivity].
  pose proof (IH (given ++ [t]) rest c) as IH'.
  rewrite <- app_assoc, length_app, Nat2Z.inj_add in IH'. exact IH'.
Qed.

(** The first call of [ensureTrampoline] for a function makes its
    trampoline: an element named after the original, with the parameters of
    the original and one more [i32], that counts as compiled, is remembered
    by the original and is the function added last to the module. *)
Lemma ensureTrampoline_new original c tr original' c' :
  trampoline original = None ->
  ensureTrampoline original c = Ok ((tr, original'), c') ->
  functionInternalName tr = functionInternalName original +:+ "|trampoline" /\
  signature tr =
    mkSignature (parameterTypes (signature original) ++ [Ty.i32])
      (returnType (signature original)) (thisType (signature original))
      (Z.of_nat (length (parameterTypes (signature original))) + 1) false /\
  functionFlags tr = Z.lor (functionFlags original) ElementFlags.COMPILED /\
  original' = withTrampoline original (Some tr) /\
  exists others entry,
    functions (module c') = others ++ [entry] /\
    entryName entry = functionInternalName original +:+ "|trampoline".
Proof.
  intros Hnone H. unfold ensureTrampoline in H. rewrite Hnone in H. cbv zeta in H.
  apply bind_Ok in H as ([] & c1 & Ha & H).
  apply bind_Ok in H as (c0 & c2 & Hget & H).
  apply bind_Ok in H as (forwarded & c3 & _ & H).
  apply bind_Ok in H as ([] & c4 & Hm & H). injection Hm as <-.
  apply bind_Ok in H as ([body forwardedOperands] & c5 & Hinit & H).
  apply bind_Ok in H as (tr0 & c6 & Hcur & H). injection Hcur as <- <-.
  apply bind_Ok in H as ([] & c7 & Hm & H). injection Hm as <-.
  apply bind_Ok in H as (typeRef & c8 & Htype & H).
  apply bind_Ok in H as (funcRef & c9 & Hadd & H).
  injection H as <- <- <-.
  pose proof (preserves_identity _ _ _ _ (preserves_initializeOptional _ _ _ _ _ _ _ _) Hinit)
    as Hid.
  apply identity_inv in Hid as (_ & Hname & Hsig & Hflags).
  simpl in Hname, Hsig, Hflags.
  split; [exact Hname|]. split; [exact Hsig|]. split; [exact Hflags|].
  split; [reflexivity|].
  injection Hadd as _ <-. do 2 eexists. split; reflexivity.
Qed.


(** *** C10: assignment to a constant *)

(** What a method answers, when it answers. *)
Definition yields {A} (P : A -> Prop) (m : M A) : Prop :=
  forall c a c', m c = Ok (a, c') -> P a.

Lemma yields_ret {A} (P : A -> Prop) (a : A) : P a -> yields P (ret a).
Proof. intros H c a' c' E. injection E as <- _. exact H. Qed.

Lemma yields_throw {A} (P : A -> Prop) (msg : string) : yields P (throw msg).
Proof. intros c a c' E. discriminate. Qed.

Lemma yields_bind {A B} (Q : A -> Prop) (P : B -> Prop) (m : M A) (k : A -> M B) :
  yields Q m -> (forall a, Q a -> yields P (k a)) -> yields P (bind m k).
Proof.
  intros Hm Hk c b c' E. apply bind_Ok in E as (a & c1 & E1 & E2).
  exact (Hk a (Hm _ _ _ E1) _ _ _ E2).
Qed.

Lemma yields_any {A} (m : M A) : yields (fun _ => True) m.
Proof. intros c a c' _. exact I. Qed.

Ltac yields_step :=
  match goal with
  | |- yields _ (ret _) => apply yields_ret
  | |- yields _ (throw _) => apply yields_throw
  | |- yields _ (bind _ _) => eapply yields_bind; [apply yields_any | intros ? _]
  | |- yields _ (if ?b then _ else _) => case b
  | |- yields _ (match ?x with _ => _ end) => case x; intros
  end.

(** Compiling a global neither makes it a constant nor makes it mutable. *)
Lemma compileGlobal_constant (global : Global) :
  yields (fun r => Element_is (snd r) ElementFlags.CONSTANT
                   = Element_is global ElementFlags.CONSTANT)
    (compileGlobal global).
Proof.
  assert (Hset : forall g flag,
             Z.land flag ElementFlags.CONSTANT = 0 ->
             Element_is g ElementFlags.CONSTANT = Element_is global ElementFlags.CONSTANT ->
             Element_is (Element_set g flag) ElementFlags.CONSTANT
             = Element_is global ElementFlags.CONSTANT).
  { intros g flag Hflag <-. apply flags_is_set_disjoint. exact Hflag. }
  pose proof (Hset global ElementFlags.COMPILED eq_refl eq_refl) as Hcompiled.
  unfold compileGlobal.
  destruct (_ || _); [apply yields_ret; reflexivity|]. cbv zeta.
  set (compiled := Element_set global ElementFlags.COMPILED) in *.
  change (declaration compiled) with (declaration global).
  destruct (declaration global) as [declaration|]; [|apply yields_throw].
  apply (yields_bind
           (fun r => match fst r with
                     | Some g => Element_is g ElementFlags.CONSTANT
                                 = Element_is global ElementFlags.CONSTANT
                     | None => True
                     end)).
  { repeat yields_step; simpl; auto. }
  intros [[g|] initExpr] Hg; simpl in Hg; [|apply yields_ret; exact Hcompiled].
  destruct (Element_is g ElementFlags.DECLARED).
  { repeat yields_step; simpl; try (apply Hset; [reflexivity|]); exact Hg. }
  eapply yields_bind; [apply yields_any|]. intros [initExpr' initializeInStart] _.
  destruct initializeInStart; [repeat yields_step; exact Hg|].
  case (Element_is g ElementFlags.CONSTANT); [|repeat yields_step; exact Hg].
  apply (yields_bind
           (fun g' => Element_is g' ElementFlags.CONSTANT
                      = Element_is global ElementFlags.CONSTANT)).
  { repeat yields_step; exact Hg. }
  intros g' Hg'. repeat yields_step; simpl; apply Hset; [reflexivity | exact Hg'].
Qed.

(** A global that [compileGlobal] compiles for the first time has a
    concrete type when the answer is true. *)
Lemma compileGlobal_concrete (global : Global) :
  Element_is global ElementFlags.COMPILED = false ->
  Element_is global ElementFlags.BUILTIN = false ->
  yields (fun r => fst r = true -> Type_eqb (type (snd r)) Ty.void = false)
    (compileGlobal global).
Proof.
  intros Hcompiled Hbuiltin. unfold compileGlobal. rewrite Hcompiled, Hbuiltin.
  cbv [orb]. cbv zeta.
  set (compiled := Element_set global ElementFlags.COMPILED) in *.
  change (declaration compiled) with (declaration global).
  change (type compiled) with (type global).
  destruct (declaration global) as [declaration|]; [|apply yields_throw].
  apply (yields_bind
           (fun r => match fst r with
                     | Some g => Type_eqb (type g) Ty.void = false
                     | None => True
                     end)).
  { destruct (Type_eqb (type global) Ty.void) eqn:Hvoid; [|apply yields_ret; exact Hvoid].
    destruct (variableType declaration) as [typeNode|].
    - eapply yields_bind; [apply yields_any|]. intros [resolvedType|] _;
        [|apply yields_ret; exact I].
      destruct (Type_eqb resolvedType Ty.void) eqn:Hresolved.
      + repeat yields_step. exact I.
      + apply yields_ret. exact Hresolved.
    - destruct (variableInitializer declaration) as [initializer|];
        [|repeat yields_step; exact I].
      eapply yields_bind; [apply yields_any|]. intros initExpr _.
      intros c r c' Hrun. apply bind_Ok in Hrun as (c0 & c1 & Hget & Hrun).
      injection Hget as <- <-.
      destruct (Type_eqb (currentType c) Ty.void) eqn:Hcurrent.
      + apply bind_Ok in Hrun as (? & ? & _ & Hrun). injection Hrun as <- _. exact I.
      + injection Hrun as <- _. exact Hcurrent. }
  intros [[g|] initExpr] Hg; simpl in Hg; [|apply yields_ret; discriminate].
  destruct (Element_is g ElementFlags.DECLARED).
  { repeat yields_step; simpl; intros; try discriminate; exact Hg. }
  eapply yields_bind; [apply yields_any|]. intros [initExpr' initializeInStart] _.
  destruct initializeInStart; [repeat yields_step; intros; exact Hg|].
  case (Element_is g ElementFlags.CONSTANT); [|repeat yields_step; intros; exact Hg].
  apply (yields_bind (fun g' => Type_eqb (type g') Ty.void = false)).
  { repeat yields_step; exact Hg. }
  intros g' Hg'. repeat yields_step; simpl; intros; exact Hg'.
Qed.


(** *** C6: reads of inlined globals *)

(** A read of an inlined global that is compiled is a literal, never a
    [get_global]. *)
Lemma inlined_global_read_is_literal (global : Global) (expression : Expression)
    (contextualType : Type_) (retainConstantType : bool) (c : Compiler) :
  Element_is global ElementFlags.BUILTIN = false ->
  Element_is global ElementFlags.COMPILED = true ->
  Element_is global ElementFlags.INLINED = true ->
  Type_eqb (type global) Ty.void = false ->
  kind (type global) <> TypeKind.VOID ->
  kind contextualType <> TypeKind.VOID ->
  exists literal c',
    compileGlobalRead global expression contextualType retainConstantType c
    = Ok (literal, c') /\
    isConst literal = true.
Proof.
  intros Hbuiltin Hcompiled Hinlined Hvoid Hkind Hcontext.
  assert (Hglobal : compileGlobal global c = Ok ((true, global), c)).
  { unfold compileGlobal. rewrite Hcompiled. reflexivity. }
  assert (Hliteral : exists literal c',
             compileInlineConstant global contextualType retainConstantType c
             = Ok (literal, c') /\ isConst literal = true).
  { unfold compileInlineConstant, assert. rewrite Hinlined. cbv zeta.
    unfold bind, ret, get, setCurrentType, modify. cbv beta iota.
    destruct (_ && _ && _ && _).
    - destruct (kind contextualType); try contradiction;
        try destruct (negb _); do 2 eexists; (split; [reflexivity|]);
        destruct (constantValueKind global); reflexivity.
    - destruct (kind (type global)); try contradiction;
        try destruct (negb _); do 2 eexists; (split; [reflexivity|]);
        destruct (constantValueKind global); reflexivity. }
  destruct Hliteral as (literal & c' & Hliteral & Hconst).
  exists literal, c'. split; [|exact Hconst].
  unfold compileGlobalRead. rewrite Hbuiltin.
  step; [exact Hglobal|]. cbv beta iota. simpl negb. cbv iota.
  step; [unfold assert; rewrite Hvoid; reflexivity|].
  rewrite Hinlined. exact Hliteral.
Qed.

(** C6.  What the reads of two inlined globals lower to.  [const K: i8]
    whose cached value is 200 reads, as an [i8], as the literal -56.
    [const K: u8 = 200] reads, as a [u8], as the literal 200, the cached
    value normalized to the declared type; read where an [i16] is expected
    (the declared type is narrower, and the type of the constant is not
    retained) it is the literal -56: the literal is made for the kind of the
    expected type, signed, from the width of the declared type. *)
Theorem inlined_global_read (expression : Expression) (c : Compiler) :
  let inlined (t : Type_) : Global :=
    mkVariable "K" "K"
      (Z.lor ElementFlags.COMPILED (Z.lor ElementFlags.CONSTANT ElementFlags.INLINED))
      t INTEGER 200 0%float (-1) None None in
  compileGlobalRead (inlined Ty.i8) expression Ty.i8 false c
  = Ok (createI32 (-56), withCurrentType c Ty.i8) /\
  compileGlobalRead (inlined Ty.u8) expression Ty.u8 false c
  = Ok (createI32 200, withCurrentType c Ty.u8) /\
  compileGlobalRead (inlined Ty.u8) expression Ty.i16 false c
  = Ok (createI32 (-56), withCurrentType c Ty.i16).
Proof. cbv zeta. split; [|split]; reflexivity. Qed.


(** ** More of the lowering, and what it keeps *)

(** *** Statements and functions leave the compiler where it stood *)

(** X1.  Compiling a statement, whatever it is and whatever it contains,
    leaves the flow frame of the current function on the frame it was on:
    every branch or scope the statement enters it has left again when it
    answers.  The function being compiled is the same function, with the name,
    prototype, signature and flags it had. *)
Theorem statement_keeps_frame (depth : nat) (statement : Statement) (c c' : Compiler)
    (expr : ExpressionRef) :
  compileStatement (compileFunction depth) statement c = Ok (expr, c') ->
  parent (flow (currentFunction c')) = parent (flow (currentFunction c)) /\
  prototype (currentFunction c') = prototype (currentFunction c) /\
  functionInternalName (currentFunction c') = functionInternalName (currentFunction c) /\
  signature (currentFunction c') = signature (currentFunction c) /\
  functionFlags (currentFunction c') = functionFlags (currentFunction c).
Proof.
  intros Hrun.
  pose proof (preserves_compileStatement _ (preserves_compileFunction depth) statement)
    as Hkept.
  split; [exact (preserves_flowParent _ _ _ _ Hkept Hrun)|].
  exact (identity_inv _ _ (preserves_identity _ _ _ _ Hkept Hrun)).
Qed.

(** How [compileFunction] answers: always true; the instance comes back
    as it was when it was COMPILED already, and otherwise with COMPILED set,
    and IMPORTED too when it has no body. *)
Lemma compileFunction_inv depth instance c compiled instance' c' :
  compileFunction depth instance c = Ok ((compiled, instance'), c') ->
  compiled = true /\
  (Function_is instance ElementFlags.COMPILED = true /\ instance' = instance /\ c' = c \/
   Function_is instance ElementFlags.COMPILED = false /\
   (functionFlags instance' = flags_set (functionFlags instance) ElementFlags.COMPILED \/
    functionFlags instance' =
      flags_set (flags_set (functionFlags instance) ElementFlags.COMPILED)
        ElementFlags.IMPORTED)).
Proof.
  destruct depth as [|depth]; [discriminate|]. simpl. unfold compileFunctionStep.
  destruct (Function_is instance ElementFlags.COMPILED) eqn:Hcompiled.
  { intros H. injection H as <- <- <-. auto. }
  intros H.
  apply bind_Ok in H as ([] & c1 & _ & H).
  apply bind_Ok in H as ([] & c2 & _ & H).
  apply bind_Ok in H as (typeRef & c3 & _ & H).
  apply bind_Ok in H as ([ref inst] & c4 & Hr & H).
  apply bind_Ok in H as ([] & c5 & _ & H).
  injection H as <- <- _.
  split; [reflexivity|]. right. split; [reflexivity|].
  unfold Function_finalize. simpl functionFlags.
  destruct (body _) as [b|].
  - apply bind_Ok in Hr as (previous & c6 & Hp & Hr). injection Hp as _ <-.
    apply bind_Ok in Hr as ([] & c7 & Hm & Hr). injection Hm as <-.
    apply bind_Ok in Hr as (stmt & c8 & Hstmt & Hr).
    apply bind_Ok in Hr as (all & c9 & Hfin & Hr).
    apply bind_Ok in Hr as ([] & c10 & Herr & Hr).
    apply bind_Ok in Hr as (inst0 & c11 & Hget & Hr). injection Hget as <- <-.
    apply bind_Ok in Hr as ([] & c12 & _ & Hr).
    apply bind_Ok in Hr as (ref0 & c13 & _ & Hr).
    injection Hr as _ <- _.
    assert (Hid : identity (currentFunction c10)
                  = identity (Function_set instance ElementFlags.COMPILED)).
    { assert (Herr' : identity (currentFunction c10) = identity (currentFunction c9)).
      { destruct (_ && _); [|injection Herr as <-; reflexivity].
        destruct (declaredReturnType _); [|discriminate].
        injection Herr as <-. reflexivity. }
      rewrite Herr'.
      rewrite (preserves_identity _ _ _ _ preserves_finalizeFlow Hfin).
      rewrite (preserves_identity _ _ _ _
                 (preserves_compileStatement _ (preserves_compileFunction depth) _) Hstmt).
      reflexivity. }
    apply identity_inv in Hid as (_ & _ & _ & Hflags). left. exact Hflags.
  - apply bind_Ok in Hr as (ref0 & c6 & _ & Hr). injection Hr as _ <- _. right. reflexivity.
Qed.

(** X2.  [compileFunction] never answers false.  The instance it gives
    back is COMPILED, so that compiling it again, from any state, changes
    nothing: a function is compiled, and added to the module, at most once.
    The function that was being compiled when [compileFunction] was called
    is current again afterwards, on the flow frame it was on. *)
Theorem function_compiled_once (depth : nat) (instance instance' : Function)
    (compiled : bool) (c c' : Compiler) :
  compileFunction depth instance c = Ok ((compiled, instance'), c') ->
  compiled = true /\
  Function_is instance' ElementFlags.COMPILED = true /\
  (forall depth' c'', compileFunction (S depth') instance' c'' = Ok ((true, instance'), c'')) /\
  parent (flow (currentFunction c')) = parent (flow (currentFunction c)) /\
  functionInternalName (currentFunction c') = functionInternalName (currentFunction c).
Proof.
  intros Hrun.
  destruct (compileFunction_inv _ _ _ _ _ _ Hrun) as (-> & Hcases).
  assert (Hcompiled : Function_is instance' ElementFlags.COMPILED = true).
  { destruct Hcases as [(Hc & -> & _) | (_ & [Hflags | Hflags])].
    - exact Hc.
    - unfold Function_is. rewrite Hflags. apply flags_is_set.
    - unfold Function_is. rewrite Hflags. apply flags_is_set_other, flags_is_set. }
  split; [reflexivity|]. split; [exact Hcompiled|]. split.
  - intros depth' c''. simpl. unfold compileFunctionStep. rewrite Hcompiled. reflexivity.
  - pose proof (preserves_compileFunction depth instance) as Hkept. split.
    + exact (preserves_flowParent _ _ _ _ Hkept Hrun).
    + apply (identity_inv _ _ (preserves_identity _ _ _ _ Hkept Hrun)).
Qed.

(** *** Globals are compiled once *)

(** X3.  Whatever [compileGlobal] answers, true or false, the global it
    leaves is COMPILED (or was BUILTIN): compiling it again, from any state,
    answers true and changes nothing.  In particular a global whose
    compilation has failed counts as compiled from then on. *)
Theorem global_compiled_once (global global' : Global) (compiled : bool)
    (c c' : Compiler) :
  compileGlobal global c = Ok ((compiled, global'), c') ->
  forall c'', compileGlobal global' c'' = Ok ((true, global'), c'').
Proof.
  intros Hrun.
  assert (Hdone : Element_is global' ElementFlags.COMPILED
                  || Element_is global' ElementFlags.BUILTIN = true).
  { revert Hrun.
    assert (Hyields : yields (fun r => Element_is (snd r) ElementFlags.COMPILED
                                       || Element_is (snd r) ElementFlags.BUILTIN = true)
                        (compileGlobal global)); [|exact (fun H => Hyields _ _ _ H)].
    assert (Hset : forall g flag,
               Element_is g ElementFlags.COMPILED = true ->
               Element_is (Element_set g flag) ElementFlags.COMPILED
               || Element_is (Element_set g flag) ElementFlags.BUILTIN = true).
    { intros g flag Hg. apply orb_true_iff. left. apply flags_is_set_other. exact Hg. }
    assert (Hcompiled : Element_is (Element_set global ElementFlags.COMPILED)
                          ElementFlags.COMPILED = true) by apply flags_is_set.
    unfold compileGlobal.
    destruct (_ || _) eqn:Hearly; [apply yields_ret; exact Hearly|]. cbv zeta.
    set (compiled0 := Element_set global ElementFlags.COMPILED) in *.
    change (declaration compiled0) with (declaration global).
    destruct (declaration global) as [declaration|]; [|apply yields_throw].
    apply (yields_bind
             (fun r => match fst r with
                       | Some g => Element_is g ElementFlags.COMPILED = true
                       | None => True
                       end)).
    { repeat yields_step; simpl; auto. }
    intros [[g|] initExpr] Hg; simpl in Hg;
      [|apply yields_ret; simpl; rewrite Hcompiled; reflexivity].
    assert (Hg' : Element_is g ElementFlags.COMPILED || Element_is g ElementFlags.BUILTIN = true)
      by (rewrite Hg; reflexivity).
    destruct (Element_is g ElementFlags.DECLARED).
    { repeat yields_step; simpl; try (apply Hset; exact Hg); exact Hg'. }
    eapply yields_bind; [apply yields_any|]. intros [initExpr' initializeInStart] _.
    destruct initializeInStart; [repeat yields_step; exact Hg'|].
    case (Element_is g ElementFlags.CONSTANT); [|repeat yields_step; exact Hg'].
    apply (yields_bind (fun g' => Element_is g' ElementFlags.COMPILED = true)).
    { repeat yields_step; exact Hg. }
    intros g' Hg''. repeat yields_step; simpl; apply Hset; exact Hg''. }
  intros c''. unfold compileGlobal. rewrite Hdone. reflexivity.
Qed.

(** *** An inlined constant reads back as its value *)

Lemma i32_wrap_small (v : Z) : - 2 ^ 31 <= v < 2 ^ 31 -> i32_wrap v = v.
Proof.
  intros Hv. unfold i32_wrap.
  change (2 ^ 31) with 2147483648 in *. change (2 ^ 32) with 4294967296.
  Z.div_mod_to_equations. lia.
Qed.

Lemma i64_low_new (v : Z) : - 2 ^ 31 <= v < 2 ^ 31 -> i64_low (i64_new v 0) = v.
Proof.
  intros Hv. unfold i64_low, i64_new, i32_wrap. change (0 mod 2 ^ 32 * 2 ^ 32) with 0.
  change (2 ^ 31) with 2147483648 in *. change (2 ^ 32) with 4294967296.
  Z.div_mod_to_equations. lia.
Qed.

Lemma sign_extension_small (v n : Z) :
  0 <= n < 32 -> - 2 ^ (31 - n) <= v < 2 ^ (31 - n) -> js_shr (js_shl v n) n = v.
Proof.
  intros Hn Hv.
  assert (Hpow : 2 ^ 31 = 2 ^ (31 - n) * 2 ^ n)
    by (rewrite <- Z.pow_add_r by lia; f_equal; lia).
  assert (Hpos : 0 < 2 ^ n) by (apply Z.pow_pos_nonneg; lia).
  assert (Hpos' : 0 < 2 ^ (31 - n)) by (apply Z.pow_pos_nonneg; lia).
  unfold js_shr, js_shl. rewrite (Z.mod_small n 32) by lia.
  rewrite (i32_wrap_small v) by nia.
  rewrite Z.shiftl_mul_pow2 by lia.
  rewrite !(i32_wrap_small (v * 2 ^ n)) by nia.
  rewrite Z.shiftr_div_pow2 by lia. apply Z.div_mul. lia.
Qed.

Lemma mask_small (v k : Z) :
  0 <= k < 31 -> 0 <= v < 2 ^ k -> js_and v (Z.ones k) = v.
Proof.
  intros Hk Hv.
  assert (Hle : 2 ^ k <= 2 ^ 30) by (apply Z.pow_le_mono_r; lia).
  assert (Hpos : 0 < 2 ^ k) by (apply Z.pow_pos_nonneg; lia).
  change (2 ^ 30) with 1073741824 in Hle.
  unfold js_and.
  rewrite (i32_wrap_small v) by (change (2 ^ 31) with 2147483648; lia).
  rewrite (i32_wrap_small (Z.ones k))
    by (rewrite Z.ones_equiv; change (2 ^ 31) with 2147483648; lia).
  rewrite Z.land_ones by lia. rewrite (Z.mod_small v) by lia.
  apply i32_wrap_small. change (2 ^ 31) with 2147483648. lia.
Qed.

(** The values of the integer types of up to 32 bits, as [i32] constants
    hold them. *)
Definition representable (t : Type_) (v : Z) : Prop :=
  match kind t with
  | TypeKind.I8 => - 2 ^ 7 <= v < 2 ^ 7
  | TypeKind.I16 => - 2 ^ 15 <= v < 2 ^ 15
  | TypeKind.I32 => - 2 ^ 31 <= v < 2 ^ 31
  | TypeKind.U8 => 0 <= v < 2 ^ 8
  | TypeKind.U16 => 0 <= v < 2 ^ 16
  | TypeKind.BOOL => 0 <= v < 2
  | _ => False
  end.

Lemma inlined_value_reads_back (element : VariableLikeElement) (v : Z) (c : Compiler) :
  In (type element) [Ty.i8; Ty.i16; Ty.i32; Ty.u8; Ty.u16; Ty.bool] ->
  representable (type element) v ->
  Element_is element ElementFlags.INLINED = true ->
  constantValueKind element = INTEGER ->
  constantIntegerValue element = i64_new v 0 ->
  compileInlineConstant element (type element) true c
  = Ok (createI32 v, withCurrentType c (type element)).
Proof.
  intros Htype Hv Hinlined Hkind Hvalue.
  unfold compileInlineConstant, assert. rewrite Hinlined, Hkind, Hvalue.
  unfold bind, ret, get, setCurrentType, modify. cbv beta iota zeta. simpl negb.
  simpl andb. cbv iota.
  unfold representable in Hv.
  remember (type element) as t eqn:Et. clear Et. simpl in Htype.
  assert (Hlow : - 2 ^ 31 <= v < 2 ^ 31)
    by (destruct Htype as [<-|[<-|[<-|[<-|[<-|[<-|[]]]]]]]; simpl in Hv; lia).
  rewrite (i64_low_new v Hlow).
  destruct Htype as [<-|[<-|[<-|[<-|[<-|[<-|[]]]]]]]; simpl in Hv |- *.
  - change (computeSmallIntegerShift Ty.i8 Ty.i32) with 24.
    rewrite sign_extension_small by lia. reflexivity.
  - change (computeSmallIntegerShift Ty.i16 Ty.i32) with 16.
    rewrite sign_extension_small by lia. reflexivity.
  - reflexivity.
  - change (computeSmallIntegerMask Ty.u8 Ty.i32) with (Z.ones 8).
    rewrite mask_small by lia. reflexivity.
  - change (computeSmallIntegerMask Ty.u16 Ty.i32) with (Z.ones 16).
    rewrite mask_small by lia. reflexivity.
  - change (computeSmallIntegerMask Ty.bool Ty.i32) with (Z.ones 1).
    rewrite mask_small by lia. reflexivity.
Qed.

Ltac pure_more :=
  cbv beta iota zeta delta
    [bind get gets modify ret assert addGlobal addGlobalImport addGlobalExport
     addFunction addFunctionImport addFunctionExport error warning setCurrentType];
  reflexivity.


(** *** Static data does not overlap *)

(** Where a segment ends, and segments laid out one after the other below
    the cursor. *)
Definition segmentEnd (segment : MemorySegment) : Z :=
  offset segment + Z.of_nat (length (buffer segment)).

Definition precedes (a b : MemorySegment) : Prop := segmentEnd a <= offset b.

Definition wellPacked (c : Compiler) : Prop :=
  0 <= memoryOffset c /\
  StronglySorted precedes (memorySegments c) /\
  Forall (fun segment => segmentEnd segment <= memoryOffset c) (memorySegments c).

Lemma StronglySorted_snoc {A} (R : A -> A -> Prop) (l : list A) (x : A) :
  StronglySorted R l -> Forall (fun a => R a x) l -> StronglySorted R (l ++ [x]).
Proof.
  induction 1 as [|a l Hl IH Ha]; intros Hx; simpl.
  - repeat constructor.
  - inversion Hx as [|? ? Hax Hlx]; subst.
    constructor; [apply IH; exact Hlx|].
    apply Forall_app. split; [exact Ha | repeat constructor; exact Hax].
Qed.

Lemma addMemorySegment_packed (bytes : list Z) (alignment k : Z) (c : Compiler) :
  wellPacked c ->
  0 <= k -> alignment = 2 ^ k ->
  Z.of_nat (length bytes) < 2 ^ 32 ->
  memoryOffset c + alignment + Z.of_nat (length bytes) <= 2 ^ 64 ->
  exists segment c',
    addMemorySegment bytes alignment c = Ok (segment, c') /\
    memorySegments c' = memorySegments c ++ [segment] /\
    stringSegments c' = stringSegments c /\
    buffer segment = bytes /\
    memoryOffset c <= offset segment /\
    memoryOffset c' = segmentEnd segment /\
    Forall (fun earlier => precedes earlier segment) (memorySegments c) /\
    wellPacked c'.
Proof.
  intros (Hpos & Hsorted & Hbelow) Hk Hal Hlen Hfit.
  assert (Hpow : 0 < alignment) by (subst; apply Z.pow_pos_nonneg; lia).
  destruct (i64_align_spec (memoryOffset c) alignment k Hk Hal Hpos) as [_ Hrange]; [lia|].
  rewrite addMemorySegment_eq. cbv zeta.
  set (aligned := i64_align (memoryOffset c) alignment) in *.
  set (segment := mkMemorySegment bytes aligned).
  assert (Hnext : i64_add aligned (i64_new (Z.of_nat (length bytes)) 0)
                  = segmentEnd segment).
  { unfold i64_add, i64_new, segmentEnd. simpl. change (0 mod 2 ^ 32) with 0.
    rewrite (Z.mod_small (Z.of_nat (length bytes))) by lia.
    rewrite Z.mod_small; lia. }
  assert (Hearlier : Forall (fun earlier => precedes earlier segment) (memorySegments c)).
  { eapply Forall_impl; [exact Hbelow|]. intros s Hs. unfold precedes.
    change (offset segment) with aligned. cbv beta in Hs. lia. }
  do 2 eexists. split; [reflexivity|]. simpl.
  split; [reflexivity|]. split; [reflexivity|]. split; [reflexivity|].
  split; [lia|]. split; [exact Hnext|]. split; [exact Hearlier|].
  unfold wellPacked. simpl. rewrite Hnext.
  split; [unfold segmentEnd; simpl; lia|].
  split; [apply StronglySorted_snoc; assumption|].
  apply Forall_app. split; [|repeat constructor; lia].
  eapply Forall_impl; [exact Hbelow|]. intros s Hs. cbv beta in Hs.
  unfold segmentEnd in *. simpl. lia.
Qed.

(** X5.  The memory segments of a fresh compiler are laid out one after
    the other, and [addMemorySegment] keeps them so: the segment it adds
    holds the buffer, starts at or after the cursor, so after the end of
    every segment added before, and the cursor moves to its end.  No two
    segments ever share a byte. *)
Theorem segments_never_overlap (p : ProgramState) (o : Options) (startFunction : Function) :
  wellPacked (Compiler_new p o startFunction) /\
  forall (bytes : list Z) (alignment k : Z) (c : Compiler),
    wellPacked c ->
    0 <= k -> alignment = 2 ^ k ->
    Z.of_nat (length bytes) < 2 ^ 32 ->
    memoryOffset c + alignment + Z.of_nat (length bytes) <= 2 ^ 64 ->
    exists segment c',
      addMemorySegment bytes alignment c = Ok (segment, c') /\
      memorySegments c' = memorySegments c ++ [segment] /\
      buffer segment = bytes /\
      Forall (fun earlier => segmentEnd earlier <= offset segment) (memorySegments c) /\
      memoryOffset c' = segmentEnd segment /\
      wellPacked c'.
Proof.
  split.
  - unfold wellPacked, Compiler_new. simpl. split; [|split; constructor].
    unfold i64_new. change (0 mod 2 ^ 32 * 2 ^ 32) with 0.
    pose proof (Z.mod_pos_bound (Z.max (memoryBase o) (byteSize (usizeType o))) (2 ^ 32)).
    lia.
  - intros bytes alignment k c Hpacked Hk Hal Hlen Hfit.
    destruct (addMemorySegment_packed bytes alignment k c Hpacked Hk Hal Hlen Hfit)
      as (segment & c' & Hrun & Hsegments & _ & Hbuffer & _ & Hcursor & Hearlier & Hpacked').
    exists segment, c'.
    exact (conj Hrun (conj Hsegments (conj Hbuffer (conj Hearlier (conj Hcursor Hpacked'))))).
Qed.

(** *** Different strings, different offsets *)

(** The interned strings have their segments among the packed segments,
    and no two of them the same offset. *)
Definition internedApart (c : Compiler) : Prop :=
  internedWell c /\ wellPacked c /\
  forall s s' segment segment',
    stringSegments c !! s = Some segment ->
    stringSegments c !! s' = Some segment' ->
    offset segment = offset segment' -> s = s'.

Lemma offsetConstant_inj (o : Options) (a b : Z) :
  0 <= a < 2 ^ 31 -> 0 <= b < 2 ^ 31 -> offsetConstant o a = offsetConstant o b -> a = b.
Proof.
  intros Ha Hb. unfold offsetConstant, i64_low.
  rewrite !i32_wrap_small by lia.
  destruct (isWasm64 o); intros H; injection H; auto.
Qed.

Lemma compileStaticString_apart (s : list Z) (c : Compiler) :
  internedApart c ->
  memoryOffset c + 12 + 2 * Z.of_nat (length s) <= 2 ^ 31 ->
  exists segment c',
    compileStaticString s c = Ok (offsetConstant (options c) (offset segment), c') /\
    stringSegments c' !! s = Some segment /\
    options c' = options c /\
    stringSegments c ⊆ stringSegments c' /\
    internedApart c' /\
    memoryOffset c' <= memoryOffset c + 12 + 2 * Z.of_nat (length s).
Proof.
  intros (Hwell & Hpacked & Hapart) Hfit.
  destruct Hpacked as (Hpos & Hsorted & Hbelow).
  destruct (stringSegments c !! s) as [segment|] eqn:Hs.
  - destruct (Hwell s segment Hs) as (Hin & Hbuf & Hoff).
    exists segment, (withCurrentType c (currentStringType c)).
    split; [exact (compileStaticString_known s c segment Hs Hoff)|].
    simpl. split; [exact Hs|]. split; [reflexivity|]. split; [reflexivity|].
    split; [|lia]. split; [exact Hwell|]. split; [|exact Hapart].
    split; [exact Hpos|]. split; assumption.
  - set (alignment := byteSize (usizeType (options c))).
    assert (Halign : exists k, 0 <= k /\ alignment = 2 ^ k /\ alignment <= 8).
    { unfold alignment, usizeType. destruct (target (options c));
        [exists 2 | exists 3]; repeat split; try reflexivity; try lia;
        vm_compute; discriminate. }
    destruct Halign as (k & Hk & Halign & Hsmall).
    destruct (i64_align_spec (memoryOffset c) alignment k Hk Halign Hpos) as [_ Hrange];
      [lia|].
    pose proof (compileStaticString_new s c Hs) as Hrun. cbv zeta in Hrun.
    fold alignment in Hrun.
    set (segment := mkMemorySegment (stringBuffer s) (i64_align (memoryOffset c) alignment))
      in *.
    assert (Hoff : 0 <= offset segment < 2 ^ 31) by (simpl; lia).
    specialize (Hrun Hoff).
    set (next := i64_add (offset segment) (i64_new (Z.of_nat (length (stringBuffer s))) 0))
      in *.
    assert (Hnext : next = offset segment + 4 + 2 * Z.of_nat (length s)).
    { unfold next, i64_add, i64_new. rewrite length_stringBuffer.
      change (0 mod 2 ^ 32) with 0.
      rewrite (Z.mod_small (Z.of_nat _)) by lia. rewrite Z.mod_small; lia. }
    assert (Hend : segmentEnd segment = next).
    { unfold segmentEnd. simpl buffer. rewrite length_stringBuffer. lia. }
    simpl offset in Hnext, Hoff.
    eexists segment, _. split; [exact Hrun|]. simpl.
    split; [apply lookup_insert_eq|]. split; [reflexivity|].
    split; [apply insert_subseteq; exact Hs|]. split; [|lia].
    assert (Hold : forall s' segment', stringSegments c !! s' = Some segment' ->
                                       offset segment' < offset segment).
    { intros s' segment' Hs'. destruct (Hwell s' segment' Hs') as (Hin & Hbuf & _).
      rewrite Forall_forall in Hbelow. specialize (Hbelow segment' Hin).
      unfold segmentEnd in Hbelow. rewrite Hbuf, length_stringBuffer in Hbelow.
      simpl. lia. }
    split; [|split].
    + intros s' segment' Hs'. simpl in Hs'.
      destruct (decide (s = s')) as [<-|Hne].
      * rewrite lookup_insert_eq in Hs'. injection Hs' as <-.
        simpl. split_and!; try lia; try reflexivity.
        apply elem_of_app. right. apply list_elem_of_singleton. reflexivity.
      * rewrite lookup_insert_ne in Hs' by assumption.
        destruct (Hwell s' segment' Hs') as (Hin & Hbuf & Hoff').
        simpl. split_and!; try assumption; try lia.
        apply elem_of_app. left. exact Hin.
    + unfold wellPacked. simpl. split; [lia|]. split.
      * apply StronglySorted_snoc; [exact Hsorted|].
        eapply Forall_impl; [exact Hbelow|]. intros x Hx. cbv beta in Hx.
        unfold precedes. simpl offset. lia.
      * apply Forall_app. split; [|repeat constructor; lia].
        eapply Forall_impl; [exact Hbelow|]. intros x Hx. cbv beta in Hx. lia.
    + intros s1 s2 segment1 segment2 H1 H2 Hsame. simpl in H1, H2.
      destruct (decide (s = s1)) as [<-|Hne1], (decide (s = s2)) as [<-|Hne2];
        [reflexivity | | |].
      * rewrite lookup_insert_eq in H1. injection H1 as <-.
        rewrite lookup_insert_ne in H2 by assumption.
        pose proof (Hold _ _ H2). lia.
      * rewrite lookup_insert_eq in H2. injection H2 as <-.
        rewrite lookup_insert_ne in H1 by assumption.
        pose proof (Hold _ _ H1). lia.
      * rewrite lookup_insert_ne in H1, H2 by assumption.
        exact (Hapart _ _ _ _ H1 H2 Hsame).
Qed.

(** X6.  Two different strings, compiled one after the other by a compiler
    whose interned strings are apart (as those of a fresh compiler are,
    having none), with room for both below 2^31, never evaluate to the same
    constant: each string has an offset of its own, and the compiler still
    keeps its strings apart afterwards. *)
Theorem different_strings_different_offsets (s s' : list Z) (c : Compiler) :
  internedApart c ->
  memoryOffset c + 24 + 2 * Z.of_nat (length s) + 2 * Z.of_nat (length s') <= 2 ^ 31 ->
  s <> s' ->
  exists expr expr' c1 c2,
    compileStaticString s c = Ok (expr, c1) /\
    compileStaticString s' c1 = Ok (expr', c2) /\
    expr <> expr' /\
    internedApart c2.
Proof.
  intros Hc Hfit Hne.
  assert (Hpos : 0 <= memoryOffset c) by apply Hc.
  destruct (compileStaticString_apart s c Hc) as
    (segment & c1 & Hrun & Hs & Hoptions & Hsub & Hc1 & Hcursor); [lia|].
  destruct (compileStaticString_apart s' c1 Hc1) as
    (segment' & c2 & Hrun' & Hs' & _ & Hsub' & Hc2 & _); [lia|].
  exists (offsetConstant (options c) (offset segment)),
         (offsetConstant (options c1) (offset segment')), c1, c2.
  split; [exact Hrun|]. split; [exact Hrun'|]. split; [|exact Hc2].
  rewrite Hoptions. intros Hsame.
  pose proof (lookup_weaken _ _ _ _ Hs Hsub') as Hs2.
  destruct Hc2 as (Hwell2 & _ & Hapart2).
  destruct (Hwell2 _ _ Hs2) as (_ & _ & Hoff), (Hwell2 _ _ Hs') as (_ & _ & Hoff').
  apply Hne, (Hapart2 _ _ _ _ Hs2 Hs').
  exact (offsetConstant_inj _ _ _ Hoff Hoff' Hsame).
Qed.

Lemma fresh_internedApart (p : ProgramState) (o : Options) (startFunction : Function) :
  internedApart (Compiler_new p o startFunction).
Proof.
  split; [|split].
  - intros s segment Hs. unfold Compiler_new in Hs. simpl in Hs.
    rewrite lookup_empty in Hs. discriminate.
  - unfold wellPacked, Compiler_new. simpl. split; [|split; constructor].
    unfold i64_new. change (0 mod 2 ^ 32 * 2 ^ 32) with 0.
    pose proof (Z.mod_pos_bound (Z.max (memoryBase o) (byteSize (usizeType o))) (2 ^ 32)).
    lia.
  - intros s s' segment segment' Hs. unfold Compiler_new in Hs. simpl in Hs.
    rewrite lookup_empty in Hs. discriminate.
Qed.

(** *** Statements that return *)

(** The statements that the flow analysis of the lowering takes to return
    on every path: a [return], a [throw], a block whose last statement
    returns, an [if] whose two arms return, a [for] without a condition
    whose body returns, a [switch] with a default case whose last case
    ends in a statement that returns, and a [do] loop whose body returns. *)
Inductive endsInReturn : Statement -> Prop :=
| returnEnds (r : Range) (value : option Expression) :
    endsInReturn (ReturnStatement r value)
| throwEnds (r : Range) (value : Expression) :
    endsInReturn (ThrowStatement r value)
| blockEnds (r : Range) (statements : list Statement) (last : Statement) :
    endsInReturn last -> endsInReturn (BlockStatement r (statements ++ [last]))
| ifEnds (r : Range) (condition : Expression) (ifTrue ifFalse : Statement) :
    endsInReturn ifTrue -> endsInReturn ifFalse ->
    endsInReturn (IfStatement r condition ifTrue (Some ifFalse))
| forEnds (r : Range) (initializer : option Statement) (incrementor : option Expression)
    (body : Statement) :
    endsInReturn body -> endsInReturn (ForStatement r initializer None incrementor body)
| switchEnds (r : Range) (condition : Expression)
    (cases : list (option Expression * list Statement)) (label : option Expression)
    (statements : list Statement) (last : Statement) :
    (exists defaultStatements,
       In (None, defaultStatements) (cases ++ [(label, statements ++ [last])])) ->
    endsInReturn last ->
    endsInReturn (SwitchStatement r condition (cases ++ [(label, statements ++ [last])]))
| doEnds (r : Range) (body : Statement) (condition : Expression) :
    endsInReturn body -> endsInReturn (DoStatement r body condition).

Lemma located_flow (m : M ExpressionRef) (r : Range) (c : Compiler)
    (e : ExpressionRef) (c' : Compiler) :
  (expr <- m ;; addDebugLocation expr r ;;; ret expr) c = Ok (e, c') ->
  exists c1, m c = Ok (e, c1) /\ flow (currentFunction c') = flow (currentFunction c1).
Proof.
  intros H. apply bind_Ok in H as (expr & c1 & Hm & H).
  apply bind_Ok in H as ([] & c2 & Hdebug & H). injection H as <- <-.
  exists c1. split; [exact Hm|].
  destruct (addDebugLocation_Ok expr r c1) as (c2' & Hdebug' & Hflow).
  rewrite Hdebug' in Hdebug. injection Hdebug as <-. exact Hflow.
Qed.

Lemma flowSet_returns {A} (x : A) (c : Compiler) (a : A) (c' : Compiler) :
  (flowSet FlowFlags.RETURNS ;;; ret x) c = Ok (a, c') ->
  Flow_is (flow (currentFunction c')) FlowFlags.RETURNS = true.
Proof. intros H. injection H as _ <-. apply flags_is_set. Qed.

Lemma flowIs_Ok (flag : Z) (c : Compiler) (b : bool) (c' : Compiler) :
  flowIs flag c = Ok (b, c') -> b = Flow_is (flow (currentFunction c)) flag /\ c' = c.
Proof. intros H. injection H as <- <-. auto. Qed.

Lemma compileStatementsWith_snoc (compile : Statement -> M ExpressionRef)
    (statements : list Statement) (last : Statement) :
  forall c exprs c',
    compileStatementsWith compile (statements ++ [last]) c = Ok (exprs, c') ->
    exists c1 expr, compile last c1 = Ok (expr, c').
Proof.
  induction statements as [|s rest IH]; intros c exprs c' H; simpl in H.
  - apply bind_Ok in H as (expr & c1 & Hlast & H).
    injection H as _ <-. eauto.
  - apply bind_Ok in H as (expr & c1 & _ & H).
    apply bind_Ok in H as (exprs' & c2 & Hrest & H). injection H as _ <-.
    exact (IH _ _ _ Hrest).
Qed.

(** The cases before the last fall through; the last one decides. *)
Lemma compileSwitchCases_last (compile : Statement -> M ExpressionRef)
    (context : string) (numCases : Z)
    (cases : list (option Expression * list Statement)) (label : option Expression)
    (statements : list Statement) :
  forall i block always c result always' c',
    i + Z.of_nat (length cases) = numCases - 1 ->
    compileSwitchCases compile context numCases (cases ++ [(label, statements)])
      i block always c = Ok ((result, always'), c') ->
    exists c1 exprs c2,
      compileStatementsWith compile statements c1 = Ok (exprs, c2) /\
      always' = always && Flow_is (flow (currentFunction c2)) FlowFlags.RETURNS.
Proof.
  induction cases as [|[label0 statements0] rest IH];
    intros i block always c result always' c' Hi H; simpl in H.
  - apply bind_Ok in H as ([] & c1 & _ & H).
    apply bind_Ok in H as ([] & c2 & _ & H).
    apply bind_Ok in H as (exprs & c3 & Hstatements & H).
    apply bind_Ok in H as (returns & c4 & Hreturns & H).
    apply flowIs_Ok in Hreturns as [-> ->].
    apply bind_Ok in H as ([] & c5 & _ & H).
    injection H as _ <- _.
    exists c2, exprs, c3. split; [exact Hstatements|].
    simpl in Hi. replace (i =? numCases - 1) with true by (symmetry; apply Z.eqb_eq; lia).
    simpl. destruct (Flow_is _ _), always; reflexivity.
  - apply bind_Ok in H as ([] & c1 & _ & H).
    apply bind_Ok in H as ([] & c2 & _ & H).
    apply bind_Ok in H as (exprs & c3 & _ & H).
    apply bind_Ok in H as (returns & c4 & _ & H).
    apply bind_Ok in H as ([] & c5 & _ & H).
    simpl length in Hi.
    replace (i =? numCases - 1) with false in H by (symmetry; apply Z.eqb_neq; lia).
    simpl in H.
    eapply IH; [|exact H]. lia.
Qed.

Lemma endsInReturn_sets_returns (depth : nat) (statement : Statement) :
  endsInReturn statement ->
  forall (c c' : Compiler) (expr : ExpressionRef),
    compileStatement (compileFunction depth) statement c = Ok (expr, c') ->
    Flow_is (flow (currentFunction c')) FlowFlags.RETURNS = true.
Proof.
  induction 1 as [ r value | r value | r statements last Hlast IH
                 | r condition ifTrue ifFalse HifTrue IHtrue HifFalse IHfalse
                 | r initializer incrementor body Hbody IH
                 | r condition cases label statements last Hdefault Hlast IH
                 | r body condition Hbody IH ];
    intros c c' expr Hrun; simpl in Hrun;
    apply located_flow in Hrun as (c1 & Hrun & ->).
  - apply bind_Ok in Hrun as (expression & c2 & _ & Hrun).
    exact (flowSet_returns _ _ _ _ Hrun).
  - apply bind_Ok in Hrun as ([] & c2 & _ & Hrun).
    exact (flowSet_returns _ _ _ _ Hrun).
  - apply bind_Ok in Hrun as ([] & c2 & _ & Hrun).
    apply bind_Ok in Hrun as (stmts & c3 & Hstatements & Hrun).
    apply bind_Ok in Hrun as (returns & c4 & Hreturns & Hrun).
    apply flowIs_Ok in Hreturns as [-> ->].
    apply bind_Ok in Hrun as ([] & c5 & _ & Hrun).
    apply compileStatementsWith_snoc in Hstatements as (c6 & e & Hstatement).
    rewrite (IH _ _ _ Hstatement) in Hrun.
    apply bind_Ok in Hrun as ([] & c7 & Hset & Hrun). injection Hrun as _ <-.
    injection Hset as <-. apply flags_is_set.
  - apply bind_Ok in Hrun as (conditionExpr & c2 & _ & Hrun).
    apply bind_Ok in Hrun as (c3 & c4 & _ & Hrun).
    apply bind_Ok in Hrun as (conditionExpr' & c5 & _ & Hrun).
    apply bind_Ok in Hrun as ([] & c6 & _ & Hrun).
    apply bind_Ok in Hrun as (ifTrueExpr & c7 & Htrue & Hrun).
    apply bind_Ok in Hrun as (trueReturns & c8 & Hreturns & Hrun).
    apply flowIs_Ok in Hreturns as [-> ->]. rewrite (IHtrue _ _ _ Htrue) in Hrun.
    apply bind_Ok in Hrun as ([] & c9 & _ & Hrun).
    apply bind_Ok in Hrun as ([ifFalseExpr falseReturns] & c10 & Hfalse & Hrun).
    apply bind_Ok in Hfalse as ([] & c11 & _ & Hfalse).
    apply bind_Ok in Hfalse as (ifFalseExpr' & c12 & Hfalse' & Hfalse).
    apply bind_Ok in Hfalse as (falseReturns' & c13 & Hreturns & Hfalse).
    apply flowIs_Ok in Hreturns as [-> ->]. rewrite (IHfalse _ _ _ Hfalse') in Hfalse.
    apply bind_Ok in Hfalse as ([] & c14 & _ & Hfalse). injection Hfalse as _ <- _.
    simpl in Hrun.
    apply bind_Ok in Hrun as ([] & c15 & Hset & Hrun). injection Hrun as _ <-.
    injection Hset as <-. apply flags_is_set.
  - apply bind_Ok in Hrun as (context & c2 & _ & Hrun).
    apply bind_Ok in Hrun as ([] & c3 & _ & Hrun).
    apply bind_Ok in Hrun as ([] & c4 & _ & Hrun).
    apply bind_Ok in Hrun as ([] & c5 & _ & Hrun).
    apply bind_Ok in Hrun as (initExpr & c6 & _ & Hrun).
    apply bind_Ok in Hrun as (conditionExpr & c7 & _ & Hrun).
    apply bind_Ok in Hrun as (incrExpr & c8 & _ & Hrun).
    apply bind_Ok in Hrun as (bodyExpr & c9 & Hbody' & Hrun).
    apply bind_Ok in Hrun as (returns & c10 & Hreturns & Hrun).
    apply flowIs_Ok in Hreturns as [-> ->]. rewrite (IH _ _ _ Hbody') in Hrun.
    apply bind_Ok in Hrun as ([] & c11 & _ & Hrun).
    apply bind_Ok in Hrun as ([] & c12 & _ & Hrun).
    exact (flowSet_returns _ _ _ _ Hrun).
  - apply bind_Ok in Hrun as ([[context breaks] defaultIndex] & c2 & Hbreaks & Hrun).
    apply bind_Ok in Hrun as ([block always] & c3 & Hcases & Hrun).
    apply bind_Ok in Hrun as ([] & c4 & _ & Hrun).
    pose proof (compileSwitchBreaks_default _ _ _ _ _ _ _ Hbreaks Hdefault) as Hindex.
    apply Z.leb_le in Hindex. rewrite Hindex in Hrun.
    apply compileSwitchCases_last in Hcases as (c5 & exprs & c6 & Hstatements & ->);
      [|rewrite length_app; simpl; lia].
    apply compileStatementsWith_snoc in Hstatements as (c7 & e & Hstatement).
    rewrite (IH _ _ _ Hstatement) in Hrun. simpl in Hrun.
    apply bind_Ok in Hrun as ([] & c8 & Hset & Hrun). injection Hrun as _ <-.
    injection Hset as <-. apply flags_is_set.
  - apply bind_Ok in Hrun as (label & c2 & _ & Hrun).
    apply bind_Ok in Hrun as (f & c3 & _ & Hrun). cbv zeta in Hrun.
    apply bind_Ok in Hrun as ([] & c4 & _ & Hrun).
    apply bind_Ok in Hrun as ([] & c5 & _ & Hrun).
    apply bind_Ok in Hrun as (bodyExpr & c6 & Hbody' & Hrun).
    apply bind_Ok in Hrun as ([] & c7 & Hbreak & Hrun).
    apply bind_Ok in Hrun as ([] & c8 & Hcontinue & Hrun).
    apply bind_Ok in Hrun as (conditionExpr & c9 & Hcondition & Hrun).
    apply bind_Ok in Hrun as (c9' & c10 & Hget & Hrun). injection Hget as <- <-.
    apply bind_Ok in Hrun as (trueish & c11 & Htrueish & Hrun).
    apply bind_Ok in Hrun as ([] & c12 & Hleave & Hrun). injection Hrun as _ <-.
    pose proof (IH _ _ _ Hbody') as Hreturns.
    assert (H11 : c11 = c9).
    { unfold makeIsTrueish in Htrueish.
      destruct (kind (currentType c9)); try destruct (size (currentType c9) =? 64);
        try discriminate; injection Htrueish as _ <-; reflexivity. }
    assert (H9 : flow (currentFunction c9) = flow (currentFunction c8)).
    { unfold compileExpression, external in Hcondition.
      destruct (compileExpressionImpl _ _ _ _ c8) as [[e0 c0]|]; [|discriminate].
      injection Hcondition as _ <-. reflexivity. }
    injection Hleave as <-. rewrite H11. simpl. rewrite H9.
    injection Hcontinue as <-. injection Hbreak as <-. exact Hreturns.
Qed.

(** X7.  When a statement that returns on every path, in the sense above,
    compiles, the flow it was compiled in has RETURNS afterwards. *)
Theorem returning_statement_sets_returns (depth : nat) (statement : Statement)
    (c c' : Compiler) (expr : ExpressionRef) :
  endsInReturn statement ->
  compileStatement (compileFunction depth) statement c = Ok (expr, c') ->
  Flow_is (flow (currentFunction c')) FlowFlags.RETURNS = true.
Proof. intros Hreturns Hrun. exact (endsInReturn_sets_returns depth _ Hreturns _ _ _ Hrun). Qed.

(** X8.  A function whose body returns on every path, in the sense above,
    is compiled without a word about its return: what [compileFunction]
    leaves as diagnostics are those the body left, and the module has the
    function, with the compiled body, as its last function. *)
Theorem returning_function_not_reported (depth : nat) (instance instance' : Function)
    (b : Statement) (compiled : bool) (c c' : Compiler) :
  Function_is instance ElementFlags.COMPILED = false ->
  body (functionDeclaration (prototype instance)) = Some b ->
  endsInReturn b ->
  compileFunction (S depth) instance c = Ok ((compiled, instance'), c') ->
  exists (c2 c3 : Compiler) (stmt : ExpressionRef) (typeRef : FunctionTypeRef),
    compileStatement (compileFunction depth) b
      (withCurrentFunction c2 (Function_set instance ElementFlags.COMPILED))
    = Ok (stmt, c3) /\
    diagnostics c' = diagnostics c3 /\
    functions (module c') =
      functions (module c3) ++
      [ mkFunctionEntry (functionInternalName instance) typeRef
          (typesToNativeTypes (additionalLocals (currentFunction c3))) stmt ].
Proof.
  intros Hfresh Hbody Hreturns H. simpl in H. unfold compileFunctionStep in H.
  rewrite Hfresh in H.
  apply bind_Ok in H as ([] & c1 & _ & H).
  apply bind_Ok in H as ([] & c2 & _ & H).
  apply bind_Ok in H as (typeRef & c3 & _ & H).
  apply bind_Ok in H as ([ref inst] & c4 & Hr & H).
  apply bind_Ok in H as ([] & c5 & Hexport & H).
  injection H as _ _ <-.
  change (functionDeclaration (prototype (Function_set instance ElementFlags.COMPILED)))
    with (functionDeclaration (prototype instance)) in Hr, Hexport.
  rewrite Hbody in Hr.
  apply bind_Ok in Hr as (previous & c6 & Hp & Hr). injection Hp as _ <-.
  apply bind_Ok in Hr as ([] & c7 & Hm & Hr). injection Hm as <-.
  apply bind_Ok in Hr as (stmt & c8 & Hstmt & Hr).
  apply bind_Ok in Hr as (all & c9 & Hfin & Hr).
  injection Hfin as <- <-.
  rewrite (endsInReturn_sets_returns _ _ Hreturns _ _ _ Hstmt) in Hr.
  rewrite Bool.andb_false_r in Hr.
  apply bind_Ok in Hr as ([] & c10 & Herr & Hr). injection Herr as <-.
  apply bind_Ok in Hr as (inst0 & c11 & Hget & Hr). injection Hget as <- <-.
  apply bind_Ok in Hr as ([] & c12 & Hm & Hr). injection Hm as <-.
  apply bind_Ok in Hr as (ref0 & c13 & Hadd & Hr).
  injection Hadd as <- <-. injection Hr as <- <- <-.
  pose proof (preserves_identity _ _ _ _
                (preserves_compileStatement _ (preserves_compileFunction depth) _) Hstmt)
    as Hid.
  apply identity_inv in Hid as (_ & Hname & _ & _). simpl in Hname.
  exists c3, c8, stmt, typeRef. split; [exact Hstmt|].
  destruct (functionSourceIsEntry _ && functionIsTopLevelExport _);
    injection Hexport as <-; simpl; rewrite Hname; split; reflexivity.
Qed.

(** *** Conversions *)

(** X9.  Converting an expression to the type it already has, whatever
    the type as long as it is not void, emits no instruction: the expression
    comes back as it is, nothing is reported, and the current type is that
    type.  (An implicit conversion asks the type whether it is assignable to
    itself.) *)
Theorem conversion_to_same_type (expr : ExpressionRef) (t : Type_)
    (conversionKind : ConversionKind) (reportNode : Expression) (c : Compiler) :
  conversionKind <> ConversionNONE ->
  kind t <> TypeKind.VOID ->
  (conversionKind = IMPLICIT -> isAssignableTo t t = true) ->
  convertExpression expr t t conversionKind reportNode c = Ok (expr, withCurrentType c t).
Proof.
  intros Hkind Hvoid Hassignable.
  assert (Hnotvoid : TypeKind.eqb (kind t) TypeKind.VOID = false)
    by (destruct (kind t); try reflexivity; contradiction).
  assert (Hchecked :
            (match conversionKind with
             | IMPLICIT =>
                 if negb (isAssignableTo t t) then
                   error DiagnosticCode.Conversion_from_type_0_to_1_requires_an_explicit_cast
                     (expressionRange reportNode)
                 else ret tt
             | _ => ret tt
             end) c = Ok (tt, c)).
  { destruct conversionKind; try reflexivity. rewrite Hassignable; reflexivity. }
  unfold convertExpression. rewrite Hnotvoid.
  destruct conversionKind; [contradiction | |];
    (unfold bind at 1; rewrite Hchecked; cbv beta iota;
     destruct (Type_is t TypeFlags.FLOAT) eqn:Hfloat;
     [ destruct (TypeKind.eqb (kind t) TypeKind.F32) eqn:Hf32;
       [ assert (Hf64 : TypeKind.eqb (kind t) TypeKind.F64 = false)
           by (destruct (kind t); try reflexivity; discriminate);
         rewrite Hf64; reflexivity
       | reflexivity ]
     | rewrite Bool.andb_false_r;
       destruct (Type_is t TypeFlags.LONG) eqn:Hlong;
       [ reflexivity
       | rewrite Z.gtb_ltb, Z.ltb_irrefl, Z.eqb_refl, Bool.eqb_reflx, Bool.andb_false_r;
         reflexivity ] ]).
Qed.

(** *** Functions without a body *)

Lemma ensureFunctionTypeRef_Ok (t : FunctionTypeRef) (c : Compiler) :
  exists c',
    ensureFunctionTypeRef t c = Ok (t, c') /\
    t ∈ functionTypes (module c') /\
    functions (module c') = functions (module c) /\
    functionImports (module c') = functionImports (module c) /\
    functionExports (module c') = functionExports (module c) /\
    diagnostics c' = diagnostics c /\
    currentFunction c' = currentFunction c.
Proof.
  unfold ensureFunctionTypeRef, bind, modify, ret.
  destruct (bool_decide (t ∈ functionTypes (module c))) eqn:Hin.
  - eexists. split; [reflexivity|]. apply bool_decide_eq_true in Hin. auto 10.
  - eexists. split; [reflexivity|]. simpl. split; [set_solver | auto 10].
Qed.

(** X10.  A function without a body, not compiled yet, never becomes a
    function of the module: [compileFunction] answers true, marks the
    instance IMPORTED and appends one function import, from the module named
    after the namespace of the function or else from [env], under the simple
    name of the function and with the function type of its signature.  The
    only diagnostic is the error that the implementation is missing, and only
    when the function is not DECLARED.  The import is exported under the
    declared name when the function is a top-level export of an entry file.
    Compiling the instance again imports nothing more. *)
Theorem bodiless_function_becomes_import (depth : nat) (instance : Function) (c : Compiler) :
  let declaration := functionDeclaration (prototype instance) in
  let typeRef :=
    (toNativeType (returnType (signature instance)),
     match thisType (signature instance) with
     | Some thisType => [toNativeType thisType]
     | None => []
     end ++ map toNativeType (parameterTypes (signature instance))) in
  Function_is instance ElementFlags.COMPILED = false ->
  Function_is instance ElementFlags.BUILTIN = false ->
  body declaration = None ->
  exists instance' c',
    compileFunction (S depth) instance c = Ok ((true, instance'), c') /\
    Function_is instance' ElementFlags.IMPORTED = true /\
    functions (module c') = functions (module c) /\
    functionImports (module c') =
      functionImports (module c) ++
      [(functionInternalName instance,
        match prototypeNamespace (prototype instance) with
        | Some namespace => namespace
        | None => "env"
        end,
        functionSimpleName instance, typeRef)] /\
    typeRef ∈ functionTypes (module c') /\
    functionExports (module c') =
      functionExports (module c) ++
      (if functionSourceIsEntry declaration && functionIsTopLevelExport declaration
       then [(functionInternalName instance, text (functionName declaration))]
       else []) /\
    diagnostics c' =
      diagnostics c ++
      (if Function_is instance ElementFlags.DECLARED then []
       else [mkDiagnostic
               DiagnosticCode.Function_implementation_is_missing_or_not_immediately_following_the_declaration
               ERROR (identifierRange (functionName declaration))]) /\
    forall c'', compileFunction (S depth) instance' c'' = Ok ((true, instance'), c'').
Proof.
  intros declaration typeRef Hcompiled Hbuiltin Hbody.
  assert (Hdeclared : Function_is (Function_set instance ElementFlags.COMPILED)
                        ElementFlags.DECLARED
                      = Function_is instance ElementFlags.DECLARED)
    by (apply flags_is_set_disjoint; reflexivity).
  set (c1 := if Function_is instance ElementFlags.DECLARED then c
             else withDiagnostics c
                    (diagnostics c ++
                     [mkDiagnostic
                        DiagnosticCode.Function_implementation_is_missing_or_not_immediately_following_the_declaration
                        ERROR (identifierRange (functionName declaration))])).
  assert (Hmodifiers : checkModifiers (Function_set instance ElementFlags.COMPILED) c
                       = Ok (tt, c1)).
  { unfold checkModifiers. change (prototype (Function_set _ _)) with (prototype instance).
    fold declaration. rewrite Hbody, Hdeclared. unfold c1.
    destruct (Function_is instance ElementFlags.DECLARED); reflexivity. }
  destruct (ensureFunctionTypeRef_Ok typeRef c1)
    as (c2 & Htype & Hin & Hfunctions & Himports & Hexports & Hdiagnostics & Hcurrent).
  set (imported := Function_set (Function_set instance ElementFlags.COMPILED)
                     ElementFlags.IMPORTED).
  assert (Hagain : Function_is imported ElementFlags.COMPILED = true)
    by (apply flags_is_set_other, flags_is_set).
  assert (Hstate1 : functions (module c1) = functions (module c) /\
                    functionImports (module c1) = functionImports (module c) /\
                    functionExports (module c1) = functionExports (module c))
    by (unfold c1; destruct (Function_is instance ElementFlags.DECLARED);
        repeat split; reflexivity).
  destruct Hstate1 as (Hfunctions1 & Himports1 & Hexports1).
  assert (Hdiagnostics1 :
            diagnostics c1 =
            diagnostics c ++
            (if Function_is instance ElementFlags.DECLARED then []
             else [mkDiagnostic
                     DiagnosticCode.Function_implementation_is_missing_or_not_immediately_following_the_declaration
                     ERROR (identifierRange (functionName declaration))])).
  { unfold c1. destruct (Function_is instance ElementFlags.DECLARED);
      [rewrite app_nil_r|]; reflexivity. }
  destruct (functionSourceIsEntry declaration && functionIsTopLevelExport declaration)
    eqn:Hexport;
    (do 2 eexists; split;
     [ simpl; unfold compileFunctionStep; rewrite Hcompiled, Hbuiltin;
       change (prototype (Function_set instance ElementFlags.COMPILED))
         with (prototype instance);
       fold declaration; rewrite Hbody, Hexport;
       unfold assert; simpl negb; simpl orb; cbv iota;
       apply bind_Ok; exists tt, c; split; [reflexivity|];
       apply bind_Ok; exists tt, c1; split; [exact Hmodifiers|];
       apply bind_Ok; exists typeRef, c2; split; [exact Htype|];
       pure_more
     | simpl;
       split; [apply flags_is_set|]; split; [congruence|]; split; [congruence|];
       split; [exact Hin|]; split; [rewrite ?app_nil_r; congruence|];
       split; [congruence|];
       intros c''; apply compileFunction_compiled; exact Hagain ]).
Qed.

(** *** Calls with every operand *)

(** X11.  A direct call that supplies an operand for every parameter of
    the callee ([this] included for an instance method) needs no trampoline:
    once the callee is compiled the call goes to the callee itself, as an
    import call when the callee is IMPORTED, with exactly the operands
    written, and nothing is added to what compiling the callee left but the
    current type, which is the return type.  Calling the callee again gives
    the same call and changes nothing. *)
Theorem direct_call_with_all_operands (depth : nat) (instance callee : Function)
    (compiled : bool) (operands : list ExpressionRef) (c c1 : Compiler) :
  let isInstance := Function_is instance ElementFlags.INSTANCE in
  let numOperands := Z.of_nat (length operands) in
  let minArguments := requiredParameters (signature instance) in
  let maxArguments := Z.of_nat (length (parameterTypes (signature instance))) in
  let minOperands := if isInstance then minArguments + 1 else minArguments in
  let maxOperands := if isInstance then maxArguments + 1 else maxArguments in
  let call :=
    (if Function_is callee ElementFlags.IMPORTED then createCallImport else createCall)
      (functionInternalName instance) operands
      (toNativeType (returnType (signature instance))) in
  minOperands <= numOperands ->
  maxOperands <= numOperands ->
  compileFunction (S depth) instance c = Ok ((compiled, callee), c1) ->
  makeCallDirect (compileFunction (S depth)) instance (Some operands) c
  = Ok ((call, callee), withCurrentType c1 (returnType (signature instance))) /\
  makeCallDirect (compileFunction (S depth)) callee (Some operands)
    (withCurrentType c1 (returnType (signature instance)))
  = Ok ((call, callee), withCurrentType c1 (returnType (signature instance))).
Proof.
  intros isInstance numOperands minArguments maxArguments minOperands maxOperands call
    Hmin Hmax Hcallee.
  destruct (compileFunction_identity _ _ _ _ _ _ Hcallee) as (Hname & Hsig & Hflags).
  destruct (compileFunction_inv _ _ _ _ _ _ Hcallee) as (-> & Hinv).
  assert (Hcompiled : Function_is callee ElementFlags.COMPILED = true).
  { destruct Hinv as [(H & -> & _)|(_ & [H|H])]; [exact H| |]; unfold Function_is; rewrite H.
    - apply flags_is_set.
    - apply flags_is_set_other, flags_is_set. }
  assert (Hinstance : Function_is callee ElementFlags.INSTANCE = isInstance)
    by (apply Hflags; reflexivity).
  assert (Hcall : forall (callee0 : Function) (c0 c2 : Compiler),
            Function_is callee0 ElementFlags.INSTANCE = isInstance ->
            signature callee0 = signature instance ->
            compileFunction (S depth) callee0 c0 = Ok ((true, callee), c2) ->
            makeCallDirect (compileFunction (S depth)) callee0 (Some operands) c0
            = Ok ((call, callee), withCurrentType c2 (returnType (signature instance)))).
  { intros callee0 c0 c2 Hi Hs Hrun. unfold makeCallDirect. rewrite Hi, Hs.
    fold isInstance numOperands minArguments maxArguments. cbv zeta.
    fold minOperands maxOperands.
    replace (minOperands <=? numOperands) with true by (symmetry; apply Z.leb_le; exact Hmin).
    replace (numOperands <? maxOperands) with false by (symmetry; apply Z.ltb_ge; exact Hmax).
    apply bind_Ok. exists tt, c0. split; [reflexivity|].
    apply bind_Ok. exists (true, callee), c2. split; [exact Hrun|].
    simpl negb. cbv iota.
    unfold bind, setCurrentType, modify, ret. rewrite Hsig, Hname. unfold call.
    destruct (Function_is callee ElementFlags.IMPORTED); reflexivity. }
  split.
  - apply Hcall; [reflexivity | reflexivity | exact Hcallee].
  - apply (Hcall callee _ (withCurrentType c1 (returnType (signature instance))) Hinstance Hsig).
    apply compileFunction_compiled. exact Hcompiled.
Qed.

(** *** What a trampoline forwards *)

Lemma at_inv {A} (l : list A) (i : Z) (c : Compiler) (a : A) (c' : Compiler) :
  at_ l i c = Ok (a, c') ->
  c' = c /\ 0 <= i /\ drop (Z.to_nat i) l = a :: drop (S (Z.to_nat i)) l.
Proof.
  unfold at_. destruct (i <? 0) eqn:Hi; [discriminate|]. apply Z.ltb_ge in Hi.
  destruct (nth_error l (Z.to_nat i)) as [a0|] eqn:Hnth; [|discriminate].
  intros H. injection H as <- <-. split; [reflexivity|]. split; [exact Hi|].
  revert Hnth. generalize (Z.to_nat i). clear. intros n. revert l.
  induction n as [|n IH]; intros [|x l]; simpl; try discriminate.
  - intros [= ->]. reflexivity.
  - apply IH.
Qed.

(** The operands [forwardRequired] answers: a [get_local] for each of the
    [count] parameters from [i] on, which exist, of the type of the
    parameter and on consecutive locals from [operandIndex] on. *)
Lemma forwardRequired_Ok (count : nat) (types : list Type_) :
  forall (i operandIndex : Z) (c : Compiler) (forwarded : list ExpressionRef) (c' : Compiler),
    forwardRequired count i operandIndex types c = Ok (forwarded, c') ->
    0 <= i ->
    c' = c /\
    (count = 0 \/ Z.to_nat i + count <= length types)%nat /\
    forwarded =
      imap (fun j t => createGetLocal (operandIndex + Z.of_nat j) (toNativeType t))
        (take count (drop (Z.to_nat i) types)).
Proof.
  induction count as [|count IH]; intros i operandIndex c forwarded c' H Hi.
  - injection H as <- <-. split; [reflexivity|]. split; [left|]; reflexivity.
  - simpl in H.
    apply bind_Ok in H as (parameterType & c1 & Hat & H).
    apply bind_Ok in H as (rest & c2 & Hrest & H).
    injection H as <- <-.
    apply at_inv in Hat as (-> & _ & Hdrop).
    apply IH in Hrest as (-> & Hlength & ->); [|lia].
    replace (Z.to_nat (i + 1)) with (S (Z.to_nat i)) in * by lia.
    assert (Hlt : (Z.to_nat i < length types)%nat).
    { apply (f_equal length) in Hdrop. rewrite length_drop in Hdrop. simpl in Hdrop. lia. }
    split; [reflexivity|]. split; [right; lia|].
    rewrite Hdrop. simpl. rewrite Z.add_0_r. f_equal.
    apply imap_ext. intros j t _. simpl. f_equal. lia.
Qed.

(** What [initializeOptional] forwards: what was forwarded before, and a
    [get_local] for each of the [count] optional parameters from
    [minArguments + i] on, which exist, on consecutive locals from
    [operandIndex] on. *)
Lemma initializeOptional_forwarded (count : nat) (minArguments : Z) (types : list Type_)
    (parameters : list ParameterNode) :
  forall (i operandIndex : Z) (body : ExpressionRef) (forwarded : list ExpressionRef)
         (c : Compiler) (body' : ExpressionRef) (forwarded' : list ExpressionRef)
         (c' : Compiler),
    initializeOptional count i operandIndex minArguments types parameters body forwarded c
    = Ok ((body', forwarded'), c') ->
    (count = 0%nat \/
     0 <= minArguments + i /\ (Z.to_nat (minArguments + i) + count <= length types)%nat) /\
    forwarded' =
      forwarded ++
      imap (fun j t => createGetLocal (operandIndex + Z.of_nat j) (toNativeType t))
        (take count (drop (Z.to_nat (minArguments + i)) types)).
Proof.
  induction count as [|count IH];
    intros i operandIndex body forwarded c body' forwarded' c' H.
  - injection H as _ <- _. split; [left; reflexivity|]. simpl. rewrite app_nil_r. reflexivity.
  - simpl in H.
    apply bind_Ok in H as (type & c1 & Htype & H).
    apply bind_Ok in H as (parameter & c2 & _ & H).
    destruct (parameterInitializer parameter) as [initializer|]; [|discriminate].
    apply bind_Ok in H as (init & c3 & _ & H).
    apply at_inv in Htype as (_ & Hi & Hdrop).
    apply IH in H as (Hbound & ->).
    replace (Z.to_nat (minArguments + (i + 1))) with (S (Z.to_nat (minArguments + i)))
      in * by lia.
    assert (Hlt : (Z.to_nat (minArguments + i) < length types)%nat).
    { apply (f_equal length) in Hdrop. rewrite length_drop in Hdrop. simpl in Hdrop. lia. }
    split; [right; split; [exact Hi | lia]|].
    rewrite Hdrop, <- app_assoc. simpl. rewrite Z.add_0_r. do 2 f_equal.
    apply imap_ext. intros j t _. simpl. f_equal. lia.
Qed.

Lemma imap_take_drop {A B} (f : nat -> A -> B) (n : nat) (l : list A) :
  (n <= length l)%nat ->
  imap f l = imap f (take n l) ++ imap (fun j => f (n + j)%nat) (drop n l).
Proof.
  intros Hn. rewrite <- (take_drop n l) at 1. rewrite imap_app. f_equal.
  apply imap_ext. intros j a _. simpl. rewrite length_take. f_equal. lia.
Qed.

(** X12.  A trampoline is only ever made for a function that has at least
    one optional parameter after its required ones.  Its body ends in a call
    of the original that forwards every parameter of the original, in order:
    [this] first for an instance method, as a local of the native size type,
    then each parameter, optional ones included, as the local it arrives in
    and at its own native type; the count of provided arguments, the last
    parameter of the trampoline, is not forwarded.  The result of that call
    is the result of the trampoline. *)
Theorem trampoline_forwards_every_parameter (original tr original' : Function)
    (c c' : Compiler) :
  let isInstance := Function_is original ElementFlags.INSTANCE in
  let types := parameterTypes (signature original) in
  let returns := toNativeType (returnType (signature original)) in
  let forwarded :=
    (if isInstance then [createGetLocal 0 (nativeSizeType (options c))] else []) ++
    imap (fun j t => createGetLocal (Z.of_nat j + (if isInstance then 1 else 0))
                       (toNativeType t)) types in
  trampoline original = None ->
  ensureTrampoline original c = Ok ((tr, original'), c') ->
  0 <= requiredParameters (signature original) < Z.of_nat (length types) /\
  exists others typeRef locals body,
    functions (module c') =
      others ++
      [mkFunctionEntry (functionInternalName original +:+ "|trampoline") typeRef locals
         (createBlock None
            [body; createCall (functionInternalName original) forwarded returns] returns)].
Proof.
  intros isInstance types returns forwarded Hnone H.
  unfold ensureTrampoline in H. rewrite Hnone in H. cbv zeta in H.
  fold isInstance types in H.
  apply bind_Ok in H as ([] & c1 & Hassert & H).
  apply bind_Ok in H as (c0 & c2 & Hget & H). injection Hget as <- <-.
  apply bind_Ok in H as (forwardedRequired & c3 & Hrequired & H).
  apply bind_Ok in H as ([] & c4 & Hm & H). injection Hm as <-.
  apply bind_Ok in H as ([body forwardedOperands] & c5 & Hoptional & H).
  apply bind_Ok in H as (tr0 & c6 & Hcur & H). injection Hcur as <- <-.
  apply bind_Ok in H as ([] & c7 & Hm & H). injection Hm as <-.
  apply bind_Ok in H as (typeRef & c8 & _ & H).
  apply bind_Ok in H as (funcRef & c9 & Hadd & H).
  injection H as _ _ <-.
  unfold assert in Hassert.
  destruct (negb _) eqn:Hoptionals in Hassert; [|discriminate]. injection Hassert as <-.
  apply Bool.negb_true_iff, Z.eqb_neq in Hoptionals.
  apply forwardRequired_Ok in Hrequired as (-> & Hmin & ->); [|lia].
  apply initializeOptional_forwarded in Hoptional as (Hmax & ->).
  rewrite Z.add_0_r in Hmax.
  set (minArguments := requiredParameters (signature original)) in *.
  assert (Hrange : 0 <= minArguments < Z.of_nat (length types)).
  { change (Z.to_nat 0) with 0%nat in Hmin. destruct isInstance; lia. }
  split; [exact Hrange|].
  injection Hadd as _ <-. simpl. rewrite Z.add_0_r.
  eexists _, typeRef, _, body.
  apply (f_equal (fun operands =>
                    functions (module c8) ++
                    [mkFunctionEntry (functionInternalName original +:+ "|trampoline") typeRef
                       (typesToNativeTypes (additionalLocals (currentFunction c5)))
                       (createBlock None
                          [body; createCall (functionInternalName original) operands returns]
                          returns)])).
  unfold forwarded. rewrite <- app_assoc. f_equal.
  change (Z.to_nat 0) with 0%nat. rewrite drop_0.
  rewrite (imap_take_drop _ (Z.to_nat minArguments) types) by lia. f_equal.
  - apply imap_ext. intros j t _. simpl. f_equal. destruct isInstance; lia.
  - rewrite take_ge by (rewrite length_drop; destruct isInstance; lia).
    apply imap_ext. intros j t _. simpl. f_equal. destruct isInstance; lia.
Qed.

(** *** Constant locals *)


(** *** Enums *)

(** The members of an enum whose values are all declared without an
    initializer, none of them inlined beforehand. *)
Definition plainValues (values : list (EnumValue * EnumValueDeclaration)) : Prop :=
  Forall (fun value => enumValueInitializer (snd value) = None /\
                       EnumValue_is (fst value) ElementFlags.INLINED = false) values.

(** An enum value once it is compiled and inlined with the constant [n]. *)
Definition numbered (val : EnumValue) (n : Z) : EnumValue :=
  mkEnumValue (enumValueInternalName val)
    (flags_set (flags_set (enumValueFlags val) ElementFlags.COMPILED) ElementFlags.INLINED) n.

Lemma compileEnumMembers_counting (element : Enum)
    (values : list (EnumValue * EnumValueDeclaration)) :
  forall (previousValue : option EnumValue) (start : Z) (c : Compiler),
    plainValues values ->
    match previousValue with
    | None => start = 0
    | Some previous =>
        EnumValue_is previous ElementFlags.INLINED = true /\ constantValue previous + 1 = start
    end ->
    - 2 ^ 31 <= start -> start + Z.of_nat (length values) <= 2 ^ 31 ->
    exists c',
      compileEnumMembers element previousValue
        (map (fun value => MEMBER_VALUE (fst value) (snd value)) values) c
      = Ok (imap (fun i value =>
                    MEMBER_VALUE (numbered (fst value) (start + Z.of_nat i)) (snd value))
              values, c') /\
      globals (module c') =
        globals (module c) ++
        imap (fun i value =>
                (enumValueInternalName (fst value), NativeType.I32, false,
                 createI32 (start + Z.of_nat i))) values /\
      globalExports (module c') =
        globalExports (module c) ++
        (if enumSourceIsEntry (enumDeclaration element) &&
            enumIsTopLevelExport (enumDeclaration element)
         then map (fun value => (enumValueInternalName (fst value),
                                 enumValueInternalName (fst value))) values
         else []) /\
      functions (module c') = functions (module c) /\
      startFunctionBody c' = startFunctionBody c /\
      diagnostics c' = diagnostics c /\
      program c' = program c.
Proof.
  induction values as [|[val valueDeclaration] values IH];
    intros previousValue start c Hplain Hprevious Hstart Hroom.
  - eexists. split; [reflexivity|]. simpl. rewrite !app_nil_r.
    destruct (_ && _); rewrite ?app_nil_r; auto 10.
  - apply Forall_cons in Hplain as ((Hnone & Hfresh) & Hplain). simpl in Hnone, Hfresh.
    rewrite length_cons in Hroom.
    assert (Hinlined : EnumValue_is (EnumValue_set val ElementFlags.COMPILED)
                         ElementFlags.INLINED = false).
    { unfold EnumValue_is, EnumValue_set. simpl.
      rewrite flags_is_set_disjoint by reflexivity. exact Hfresh. }
    assert (Hinit :
              match previousValue with
              | None => ret (createI32 0, false)
              | Some previousValue =>
                  if EnumValue_is previousValue ElementFlags.INLINED then
                    ret (createI32 (constantValue previousValue + 1), false)
                  else
                    (if Enum_is element ElementFlags.CONSTANT then
                       warning
                         DiagnosticCode.Compiling_constant_with_non_constant_initializer_as_mutable
                         (enumValueRange valueDeclaration)
                     else ret tt) ;;;
                    ret (createBinary BinaryOp.AddI32
                           (createGetGlobal (enumValueInternalName previousValue)
                              NativeType.I32)
                           (createI32 1),
                         true)
              end = (ret (createI32 start, false) : M (ExpressionRef * bool))).
    { destruct previousValue as [previous|]; [|rewrite Hprevious; reflexivity].
      destruct Hprevious as (-> & <-). reflexivity. }
    assert (Hvalue : i32_wrap start = start) by (apply i32_wrap_small; lia).
    set (c1 := withModule c
                 (withGlobals (module c)
                    (globals (module c) ++
                     [(enumValueInternalName val, NativeType.I32, false, createI32 start)]))).
    set (c2 := if enumSourceIsEntry (enumDeclaration element) &&
                  enumIsTopLevelExport (enumDeclaration element)
               then withModule c1
                      (withGlobalExports (module c1)
                         (globalExports (module c1) ++
                          [(enumValueInternalName val, enumValueInternalName val)]))
               else c1).
    assert (Hone : compileEnumValue element previousValue val valueDeclaration c
                   = Ok (numbered val start, c2)).
    { unfold compileEnumValue. rewrite Hinlined, Hnone, Hinit. unfold c2, c1.
      unfold bind, ret, addGlobal, addGlobalExport, modify.
      cbn [expressionType constantI32]. cbv beta iota. rewrite Hvalue.
      assert (Hnow : EnumValue_is
                       (EnumValue_set
                          (withConstantValue (EnumValue_set val ElementFlags.COMPILED) start)
                          ElementFlags.INLINED) ElementFlags.INLINED = true)
        by apply flags_is_set.
      rewrite Hnow.
      destruct (enumSourceIsEntry (enumDeclaration element) &&
                enumIsTopLevelExport (enumDeclaration element)); reflexivity. }
    destruct (IH (Some (numbered val start)) (start + 1) c2 Hplain) as
      (c' & Hrest & Hglobals & Hexports & Hfunctions & Hstartbody & Hdiagnostics & Hprogram).
    { split; [apply flags_is_set | reflexivity]. }
    { lia. }
    { lia. }
    exists c'. split.
    { cbn [map compileEnumMembers fst snd]. apply bind_Ok. do 2 eexists.
      split; [exact Hone|]. apply bind_Ok. do 2 eexists. split; [exact Hrest|].
      unfold ret. cbn [imap]. rewrite Z.add_0_r. do 3 f_equal.
      apply imap_ext. intros i value _. simpl.
      replace (start + 1 + Z.of_nat i) with (start + Z.of_nat (S i)) by lia. reflexivity. }
    assert (Hstate : globals (module c2) =
                       globals (module c) ++
                       [(enumValueInternalName val, NativeType.I32, false, createI32 start)] /\
                     globalExports (module c2) =
                       globalExports (module c) ++
                       (if enumSourceIsEntry (enumDeclaration element) &&
                           enumIsTopLevelExport (enumDeclaration element)
                        then [(enumValueInternalName val, enumValueInternalName val)]
                        else []) /\
                     functions (module c2) = functions (module c) /\
                     startFunctionBody c2 = startFunctionBody c /\
                     diagnostics c2 = diagnostics c /\ program c2 = program c).
    { unfold c2, c1.
      destruct (enumSourceIsEntry (enumDeclaration element) &&
                enumIsTopLevelExport (enumDeclaration element));
        simpl; rewrite ?app_nil_r; auto 10. }
    destruct Hstate as (Hg & He & Hf & Hs & Hd & Hp).
    rewrite Hglobals, Hexports, Hfunctions, Hstartbody, Hdiagnostics, Hprogram.
    rewrite Hg, He, Hf, Hs, Hd, Hp.
    split.
    { rewrite <- app_assoc. f_equal. cbn [imap fst app]. rewrite Z.add_0_r. f_equal.
      apply imap_ext. intros i value _. simpl.
      replace (start + 1 + Z.of_nat i) with (start + Z.of_nat (S i)) by lia. reflexivity. }
    split; [|auto].
    rewrite <- app_assoc. f_equal.
    destruct (enumSourceIsEntry (enumDeclaration element) &&
              enumIsTopLevelExport (enumDeclaration element)); reflexivity.
Qed.

(** X14.  An enum, not compiled yet, whose values are all declared
    without an initializer (fewer than 2^31 of them): [compileEnum] numbers
    them 0, 1, 2, ... in the order of declaration.  Each value becomes
    COMPILED and INLINED with its number and an immutable [i32] global of
    that constant, exported under its own name if the enum is a top-level
    export of an entry file; nothing is added to the start function and
    nothing is reported.  Compiling the enum again changes nothing. *)
Theorem enum_values_count_up (element : Enum)
    (values : list (EnumValue * EnumValueDeclaration)) (c : Compiler) :
  Enum_is element ElementFlags.COMPILED = false ->
  enumMembers element = Some (map (fun value => MEMBER_VALUE (fst value) (snd value)) values) ->
  plainValues values ->
  Z.of_nat (length values) <= 2 ^ 31 ->
  exists element' c',
    compileEnum element c = Ok ((true, element'), c') /\
    enumMembers element' =
      Some (imap (fun i value => MEMBER_VALUE (numbered (fst value) (Z.of_nat i)) (snd value))
              values) /\
    globals (module c') =
      globals (module c) ++
      imap (fun i value =>
              (enumValueInternalName (fst value), NativeType.I32, false,
               createI32 (Z.of_nat i))) values /\
    globalExports (module c') =
      globalExports (module c) ++
      (if enumSourceIsEntry (enumDeclaration element) &&
          enumIsTopLevelExport (enumDeclaration element)
       then map (fun value => (enumValueInternalName (fst value),
                               enumValueInternalName (fst value))) values
       else []) /\
    startFunctionBody c' = startFunctionBody c /\
    diagnostics c' = diagnostics c /\
    forall c'', compileEnum element' c'' = Ok ((true, element'), c'').
Proof.
  intros Hfresh Hmembers Hplain Hroom.
  set (c1 := mkCompiler
               (setCurrentEnum (Some (Enum_set element ElementFlags.COMPILED)) (program c))
               (options c) (module c) (diagnostics c) (startFunctionBody c)
               (currentFunction c) (currentType c) (memoryOffset c) (memorySegments c)
               (stringSegments c)).
  destruct (compileEnumMembers_counting (Enum_set element ElementFlags.COMPILED) values
              None 0 c1 Hplain eq_refl) as
    (c2 & Hrun & Hglobals & Hexports & _ & Hstartbody & Hdiagnostics & _); [lia | lia |].
  do 2 eexists. split.
  { unfold compileEnum. rewrite Hfresh.
    change (enumMembers (Enum_set element ElementFlags.COMPILED)) with (enumMembers element).
    rewrite Hmembers.
    apply bind_Ok. exists tt, c1. split; [reflexivity|].
    apply bind_Ok. do 2 eexists. split.
    { apply bind_Ok. do 2 eexists. split; [exact Hrun | reflexivity]. }
    reflexivity. }
  simpl. split.
  { do 2 f_equal. }
  split; [exact Hglobals|]. split; [exact Hexports|].
  split; [exact Hstartbody|]. split; [exact Hdiagnostics|].
  intros c''. unfold compileEnum.
  assert (Hcompiled : Enum_is (withMembers (Enum_set element ElementFlags.COMPILED)
                                 (Some (imap (fun i value =>
                                                MEMBER_VALUE
                                                  (numbered (fst value) (0 + Z.of_nat i))
                                                  (snd value)) values)))
                        ElementFlags.COMPILED = true) by apply flags_is_set.
  rewrite Hcompiled. reflexivity.
Qed.

(** What is reported for an enum value that is initialized in the start
    function: that a constant is compiled as mutable, when the enum is
    CONSTANT, and that a mutable global cannot be exported, when the enum is a
    top-level export of an entry file. *)
Definition mutableValueWarnings (element : Enum) (valueDeclaration : EnumValueDeclaration)
    : list DiagnosticMessage :=
  (if Enum_is element ElementFlags.CONSTANT then
     [mkDiagnostic DiagnosticCode.Compiling_constant_with_non_constant_initializer_as_mutable
        WARNING (enumValueRange valueDeclaration)]
   else []) ++
  (if enumSourceIsEntry (enumDeclaration element) &&
      enumIsTopLevelExport (enumDeclaration element) then
     [mkDiagnostic Cannot_export_a_mutable_global WARNING (enumValueRange valueDeclaration)]
   else []).

(** [name = previous + 1], as the start function runs it. *)
Definition successor (previous name : string) : ExpressionRef :=
  createSetGlobal name
    (createBinary BinaryOp.AddI32 (createGetGlobal previous NativeType.I32) (createI32 1)).

Lemma compileEnumMembers_mutable (element : Enum)
    (values : list (EnumValue * EnumValueDeclaration)) :
  forall (previous : EnumValue) (c : Compiler),
    EnumValue_is previous ElementFlags.INLINED = false ->
    plainValues values ->
    exists c',
      compileEnumMembers element (Some previous)
        (map (fun value => MEMBER_VALUE (fst value) (snd value)) values) c
      = Ok (map (fun value =>
                   MEMBER_VALUE (EnumValue_set (fst value) ElementFlags.COMPILED) (snd value))
              values, c') /\
      globals (module c') =
        globals (module c) ++
        map (fun value => (enumValueInternalName (fst value), NativeType.I32, true, createI32 0))
          values /\
      startFunctionBody c' =
        startFunctionBody c ++
        zip_with successor
          (enumValueInternalName previous ::
           map (fun value => enumValueInternalName (fst value)) values)
          (map (fun value => enumValueInternalName (fst value)) values) /\
      globalExports (module c') = globalExports (module c) /\
      diagnostics c' =
        diagnostics c ++
        concat (map (fun value => mutableValueWarnings element (snd value)) values).
Proof.
  induction values as [|[val valueDeclaration] values IH]; intros previous c Hprevious Hplain.
  - eexists. split; [reflexivity|]. simpl. rewrite !app_nil_r. auto.
  - apply Forall_cons in Hplain as ((Hnone & Hfresh) & Hplain). simpl in Hnone, Hfresh.
    assert (Hinlined : EnumValue_is (EnumValue_set val ElementFlags.COMPILED)
                         ElementFlags.INLINED = false).
    { unfold EnumValue_is, EnumValue_set. simpl.
      rewrite flags_is_set_disjoint by reflexivity. exact Hfresh. }
    assert (Hone : exists c1,
               compileEnumValue element (Some previous) val valueDeclaration c
               = Ok (EnumValue_set val ElementFlags.COMPILED, c1) /\
               globals (module c1) =
                 globals (module c) ++
                 [(enumValueInternalName val, NativeType.I32, true, createI32 0)] /\
               startFunctionBody c1 =
                 startFunctionBody c ++
                 [successor (enumValueInternalName previous) (enumValueInternalName val)] /\
               globalExports (module c1) = globalExports (module c) /\
               diagnostics c1 = diagnostics c ++ mutableValueWarnings element valueDeclaration).
    { unfold compileEnumValue, mutableValueWarnings.
      rewrite Hinlined, Hnone, Hprevious.
      unfold bind, ret, addGlobal, addGlobalExport, warning, modify.
      destruct (Enum_is element ElementFlags.CONSTANT);
        destruct (enumSourceIsEntry (enumDeclaration element) &&
                  enumIsTopLevelExport (enumDeclaration element));
        cbv beta iota; rewrite ?Hinlined;
        (eexists; split; [reflexivity|]); simpl; rewrite ?app_nil_r, <- ?app_assoc; auto. }
    destruct Hone as (c1 & Hone & Hg & Hs & He & Hd).
    destruct (IH (EnumValue_set val ElementFlags.COMPILED) c1 Hinlined Hplain)
      as (c' & Hrest & Hglobals & Hstartbody & Hexports & Hdiagnostics).
    exists c'. split.
    { cbn [map compileEnumMembers fst snd]. apply bind_Ok. do 2 eexists.
      split; [exact Hone|]. apply bind_Ok. do 2 eexists. split; [exact Hrest|]. reflexivity. }
    rewrite Hglobals, Hstartbody, Hexports, Hdiagnostics, Hg, Hs, He, Hd.
    cbn [map concat zip_with fst snd]. rewrite <- !app_assoc. auto.
Qed.

(** X15.  When the initializer of the first value of an enum is not a
    constant, not even once precomputed, the value is a mutable global that
    the start function initializes, and so is every value after it that is
    declared without an initializer: each is a mutable [i32] global that
    starts at zero and that the start function sets to its predecessor plus
    one, in the order of declaration.  None of them is inlined or exported,
    and each is reported as the enum requires. *)
Theorem enum_values_after_a_runtime_initializer (element : Enum) (first : EnumValue)
    (firstDeclaration : EnumValueDeclaration) (initializer : Expression)
    (values : list (EnumValue * EnumValueDeclaration)) (initExpr precomputed : ExpressionRef)
    (c c0 c1 c2 : Compiler) :
  let compiling := Enum_set element ElementFlags.COMPILED in
  let all := (first, firstDeclaration) :: values in
  let names := map (fun value => enumValueInternalName (fst value)) all in
  Enum_is element ElementFlags.COMPILED = false ->
  enumMembers element = Some (map (fun value => MEMBER_VALUE (fst value) (snd value)) all) ->
  EnumValue_is first ElementFlags.INLINED = false ->
  enumValueInitializer firstDeclaration = Some initializer ->
  plainValues values ->
  withCurrentEnum (Some compiling) c = Ok (tt, c0) ->
  compileExpression initializer Ty.i32 IMPLICIT true c0 = Ok (initExpr, c1) ->
  isConst initExpr = false ->
  precomputeExpressionRef initExpr c1 = Ok (precomputed, c2) ->
  isConst precomputed = false ->
  exists element' c',
    compileEnum element c = Ok ((true, element'), c') /\
    enumMembers element' =
      Some (map (fun value =>
                   MEMBER_VALUE (EnumValue_set (fst value) ElementFlags.COMPILED) (snd value))
              all) /\
    globals (module c') =
      globals (module c2) ++
      map (fun name => (name, NativeType.I32, true, createI32 0)) names /\
    startFunctionBody c' =
      startFunctionBody c2 ++
      createSetGlobal (enumValueInternalName first) precomputed ::
      zip_with successor names (tail names) /\
    globalExports (module c') = globalExports (module c2) /\
    diagnostics c' =
      diagnostics c2 ++
      concat (map (fun value => mutableValueWarnings compiling (snd value)) all).
Proof.
  intros compiling all names Hfresh Hmembers Hfirst Hinitializer Hplain Hcurrent Hcompiled
    Hnotconst Hprecomputed Hstillnot.
  assert (Hinlined : EnumValue_is (EnumValue_set first ElementFlags.COMPILED)
                       ElementFlags.INLINED = false).
  { unfold EnumValue_is, EnumValue_set. simpl.
    rewrite flags_is_set_disjoint by reflexivity. exact Hfirst. }
  assert (Hone : exists c3,
             compileEnumValue compiling None first firstDeclaration c0
             = Ok (EnumValue_set first ElementFlags.COMPILED, c3) /\
             globals (module c3) =
               globals (module c2) ++
               [(enumValueInternalName first, NativeType.I32, true, createI32 0)] /\
             startFunctionBody c3 =
               startFunctionBody c2 ++
               [createSetGlobal (enumValueInternalName first) precomputed] /\
             globalExports (module c3) = globalExports (module c2) /\
             diagnostics c3 = diagnostics c2 ++ mutableValueWarnings compiling firstDeclaration).
  { unfold compileEnumValue, mutableValueWarnings.
    rewrite Hinlined, Hinitializer.
    unfold bind. rewrite Hcompiled. cbv beta iota. rewrite Hnotconst. cbn [negb]. cbv iota.
    rewrite Hprecomputed. cbv beta iota. rewrite Hstillnot. cbn [negb]. cbv iota.
    unfold ret, addGlobal, addGlobalExport, warning, modify.
    destruct (Enum_is compiling ElementFlags.CONSTANT);
      destruct (enumSourceIsEntry (enumDeclaration compiling) &&
                enumIsTopLevelExport (enumDeclaration compiling));
      cbv beta iota; rewrite ?Hinlined;
      (eexists; split; [reflexivity|]); simpl; rewrite ?app_nil_r, <- ?app_assoc; auto. }
  destruct Hone as (c3 & Hone & Hg & Hs & He & Hd).
  destruct (compileEnumMembers_mutable compiling values
              (EnumValue_set first ElementFlags.COMPILED) c3 Hinlined Hplain)
    as (c4 & Hrest & Hglobals & Hstartbody & Hexports & Hdiagnostics).
  do 2 eexists. split.
  { unfold compileEnum. rewrite Hfresh. fold compiling.
    change (enumMembers compiling) with (enumMembers element). rewrite Hmembers.
    apply bind_Ok. exists tt, c0. split; [exact Hcurrent|].
    apply bind_Ok. do 2 eexists. split.
    { apply bind_Ok. do 2 eexists. split; [|reflexivity].
      unfold all. cbn [map compileEnumMembers fst snd].
      apply bind_Ok. do 2 eexists. split; [exact Hone|].
      apply bind_Ok. do 2 eexists. split; [exact Hrest | reflexivity]. }
    reflexivity. }
  simpl. split; [reflexivity|].
  rewrite Hglobals, Hstartbody, Hexports, Hdiagnostics, Hg, Hs, He, Hd.
  unfold names, all. cbn [map concat fst snd tail]. rewrite <- !app_assoc.
  rewrite !map_map. auto.
Qed.

(** *** Calls that are checked first *)

(** X16.  A direct call whose [this] argument does not match the
    signature, whose callee takes rest parameters, or that has fewer
    arguments than the callee requires or more than it has parameters, is
    rejected before anything is compiled: neither an argument nor the callee
    is looked at, the call is [unreachable], and exactly one error is
    reported at the call. *)
Theorem ill_formed_call_rejected (compileFunctionRec : Function -> M (bool * Function))
    (instance : Function) (argumentExpressions : list Expression) (reportNode : Expression)
    (thisArg : ExpressionRef) (c : Compiler) :
  let numArguments := Z.of_nat (length argumentExpressions) in
  let minimum := requiredParameters (signature instance) in
  let maximum := Z.of_nat (length (parameterTypes (signature instance))) in
  let hasThis := negb (isNoExpression thisArg) in
  let expectsThis := match thisType (signature instance) with Some _ => true | None => false end in
  let code :=
    if negb (Bool.eqb hasThis expectsThis) || hasRest (signature instance)
    then DiagnosticCode.Operation_not_supported
    else if (numArguments <? minimum) && (minimum <? maximum)
    then Expected_at_least_0_arguments_but_got_1
    else Expected_0_arguments_but_got_1 in
  hasThis <> expectsThis \/ hasRest (signature instance) = true \/
  numArguments < minimum \/ maximum < numArguments ->
  compileCallDirect compileFunctionRec instance argumentExpressions reportNode thisArg c
  = Ok ((createUnreachable, instance),
        withDiagnostics c
          (diagnostics c ++ [mkDiagnostic code ERROR (expressionRange reportNode)])).
Proof.
  intros numArguments minimum maximum hasThis expectsThis code Hill.
  unfold compileCallDirect, checkCallSignature.
  fold numArguments minimum maximum hasThis expectsThis. unfold code.
  destruct (Bool.eqb hasThis expectsThis) eqn:Hthis; [|reflexivity].
  apply Bool.eqb_prop in Hthis.
  destruct (hasRest (signature instance)) eqn:Hrest; [reflexivity|].
  destruct Hill as [Hill|[Hill|Hill]]; [contradiction | discriminate |].
  cbn [negb orb andb].
  destruct (numArguments <? minimum) eqn:Hfew.
  - destruct (minimum <? maximum); reflexivity.
  - apply Z.ltb_ge in Hfew.
    destruct Hill as [Hill|Hill]; [lia|].
    replace (numArguments >? maximum) with true by (symmetry; apply Z.gtb_lt; exact Hill).
    reflexivity.
Qed.

(** The arguments of a call, each compiled to the type it is paired
    with. *)
Fixpoint compileEach (pairs : list (Expression * Type_)) : M (list ExpressionRef) :=
  match pairs with
  | [] => ret []
  | (argumentExpression, parameterType) :: rest =>
      operand <- compileExpression argumentExpression parameterType IMPLICIT true ;;
      operands <- compileEach rest ;;
      ret (operand :: operands)
  end.

Lemma compileArguments_each (argumentExpressions : list Expression) :
  forall (earlier parameterTypes : list Type_) (c : Compiler),
    (length argumentExpressions <= length parameterTypes)%nat ->
    compileArguments argumentExpressions (earlier ++ parameterTypes)
      (Z.of_nat (length earlier)) c
    = compileEach (zip argumentExpressions parameterTypes) c.
Proof.
  induction argumentExpressions as [|argumentExpression rest IH];
    intros earlier parameterTypes c Hlength; [reflexivity|].
  destruct parameterTypes as [|parameterType parameterTypes]; [simpl in Hlength; lia|].
  simpl in Hlength. cbn [compileArguments zip zip_with compileEach].
  unfold bind at 1. rewrite at_Ok. cbv beta iota.
  unfold bind at 1 3. destruct (compileExpression _ _ _ _ c) as [[operand c1]|]; [|reflexivity].
  unfold bind.
  replace (Z.of_nat (length earlier) + 1) with (Z.of_nat (length (earlier ++ [parameterType])))
    by (rewrite length_app; simpl; lia).
  replace (earlier ++ parameterType :: parameterTypes)
    with ((earlier ++ [parameterType]) ++ parameterTypes) by (rewrite <- app_assoc; reflexivity).
  rewrite IH by lia. reflexivity.
Qed.

Lemma compileArguments_zip (argumentExpressions : list Expression)
    (parameterTypes : list Type_) (c : Compiler) :
  (length argumentExpressions <= length parameterTypes)%nat ->
  compileArguments argumentExpressions parameterTypes 0 c
  = compileEach (zip argumentExpressions parameterTypes) c.
Proof. exact (compileArguments_each argumentExpressions [] parameterTypes c). Qed.

Lemma compileEach_length (pairs : list (Expression * Type_)) :
  forall (c : Compiler) (operands : list ExpressionRef) (c' : Compiler),
    compileEach pairs c = Ok (operands, c') -> length operands = length pairs.
Proof.
  induction pairs as [|[argumentExpression parameterType] rest IH]; intros c operands c' H.
  - injection H as <- _. reflexivity.
  - simpl in H.
    apply bind_Ok in H as (operand & c1 & _ & H).
    apply bind_Ok in H as (others & c2 & Hrest & H).
    injection H as <- _. simpl. f_equal. exact (IH _ _ _ Hrest).
Qed.

(** X17.  A direct call that matches the signature of its callee, an
    instance method exactly when there is a [this] argument: the arguments
    are compiled in order, the [i]th to the type of the [i]th parameter,
    and the call is made from [this], if any, and the operands they gave.
    Whenever the arguments compile, [makeCallDirect] gets at least the
    operands the callee requires and no more than it has parameters, so that
    its assertion on the number of operands holds. *)
Theorem checked_call_reaches_callee (compileFunctionRec : Function -> M (bool * Function))
    (instance : Function) (argumentExpressions : list Expression) (reportNode : Expression)
    (thisArg : ExpressionRef) (c : Compiler) :
  let numArguments := Z.of_nat (length argumentExpressions) in
  let minimum := requiredParameters (signature instance) in
  let maximum := Z.of_nat (length (parameterTypes (signature instance))) in
  let hasThis := negb (isNoExpression thisArg) in
  let this := if hasThis then [thisArg] else [] in
  let arguments := compileEach (zip argumentExpressions (parameterTypes (signature instance))) in
  hasThis = match thisType (signature instance) with Some _ => true | None => false end ->
  Function_is instance ElementFlags.INSTANCE = hasThis ->
  hasRest (signature instance) = false ->
  minimum <= numArguments <= maximum ->
  compileCallDirect compileFunctionRec instance argumentExpressions reportNode thisArg c
  = (operands <- arguments ;;
     makeCallDirect compileFunctionRec instance (Some (this ++ operands))) c /\
  forall operands c1,
    arguments c = Ok (operands, c1) ->
    (if Function_is instance ElementFlags.INSTANCE then minimum + 1 else minimum)
    <= Z.of_nat (length (this ++ operands))
    <= (if Function_is instance ElementFlags.INSTANCE then maximum + 1 else maximum).
Proof.
  intros numArguments minimum maximum hasThis this arguments Hthis Hinstance Hrest Harity.
  assert (Hlength : forall operands c1,
            arguments c = Ok (operands, c1) ->
            Z.of_nat (length (this ++ operands))
            = if hasThis then numArguments + 1 else numArguments).
  { intros operands c1 Hrun. apply compileEach_length in Hrun.
    rewrite length_app, Hrun, length_zip_with. unfold this, numArguments.
    destruct hasThis; simpl; lia. }
  split.
  - unfold compileCallDirect, checkCallSignature.
    fold numArguments minimum maximum hasThis. rewrite <- Hthis, Hrest, Bool.eqb_reflx.
    cbn [negb].
    replace (numArguments <? minimum) with false by (symmetry; apply Z.ltb_ge; lia).
    replace (numArguments >? maximum) with false
      by (symmetry; rewrite Z.gtb_ltb; apply Z.ltb_ge; lia).
    cbn [andb]. unfold bind at 1, ret at 1. cbv beta iota. cbn [negb]. cbv iota.
    assert (Hzip : compileArguments argumentExpressions (parameterTypes (signature instance))
                     0 c = arguments c)
      by (apply compileArguments_zip; unfold numArguments, maximum in Harity; lia).
    destruct (arguments c) as [[operands c1]|] eqn:Hrun.
    + rewrite (bind_eq _ _ _ _ _ Hzip), (bind_eq _ _ _ _ _ Hrun).
      fold this. rewrite (Hlength _ _ eq_refl), Z.eqb_refl. reflexivity.
    + unfold bind. rewrite Hzip, Hrun. reflexivity.
  - intros operands c1 Hrun. rewrite (Hlength _ _ Hrun), Hinstance. destruct hasThis; lia.
Qed.

(** *** The heap base *)

Lemma i64_low_small (v : Z) : 0 <= v < 2 ^ 31 -> i64_low v = v.
Proof.
  intros Hv. unfold i64_low, i32_wrap.
  rewrite Z.mod_small by lia. lia.
Qed.

Lemma i64_high_small (v : Z) : 0 <= v < 2 ^ 31 -> i64_high v = 0.
Proof.
  intros Hv. unfold i64_high. rewrite Z.shiftr_div_pow2 by lia.
  rewrite Z.div_small by lia. reflexivity.
Qed.

(** X18.  When the sources are compiled, the static memory segments are
    laid out as [addMemorySegment] leaves them and end below 2^31 - 2^16,
    and the module has a memory: the end of [compile] moves the memory offset
    up to the next multiple of the pointer size and makes it the immutable
    global [HEAP_BASE], of the pointer type, added last.  Every static
    segment ends at or below the heap base, the memory is set up with
    exactly these segments, and its initial size is the least number of 64K
    pages that holds everything below the heap base. *)
Theorem heap_after_static_data (functionTable : list Function) (c : Compiler) :
  wellPacked c ->
  noMemory (options c) = false ->
  memoryOffset c + 65536 <= 2 ^ 31 ->
  exists setup memory c',
    finishCompile functionTable c = Ok (setup, c') /\
    memorySetup setup = Some memory /\
    memoryOffset c <= memoryOffset c' < memoryOffset c + byteSize (usizeType (options c)) /\
    memoryOffset c' mod byteSize (usizeType (options c)) = 0 /\
    (exists others,
       globals (module c') =
         others ++
         [("HEAP_BASE", nativeSizeType (options c), false,
           if isWasm64 (options c) then createI64 (memoryOffset c') 0
           else createI32 (memoryOffset c'))]) /\
    memorySegments c' = memorySegments c /\
    staticSegments memory = memorySegments c /\
    Forall (fun segment => segmentEnd segment <= memoryOffset c') (memorySegments c) /\
    memoryOffset c' <= initialPages memory * 65536 < memoryOffset c' + 65536.
Proof.
  intros (Hoffset & _ & Hbelow) Hmemory Hroom.
  set (pointerSize := byteSize (usizeType (options c))).
  assert (Hsize : exists k, 0 <= k /\ pointerSize = 2 ^ k /\ pointerSize <= 8).
  { unfold pointerSize, usizeType.
    destruct (target (options c)); [exists 2 | exists 3]; repeat split; lia || discriminate. }
  destruct Hsize as (k & Hk & Hpower & Hsmall).
  set (heapBase := i64_align (memoryOffset c) pointerSize).
  destruct (i64_align_spec (memoryOffset c) pointerSize k Hk Hpower Hoffset)
    as (Haligned & Hrange); [lia|]. fold heapBase in Haligned, Hrange.
  destruct (i64_align_spec heapBase 65536 16) as (Hpage & Hpages);
    [lia | reflexivity | lia | lia |].
  set (top := i64_align heapBase 65536) in *.
  assert (Hshift : i64_shr_u top (i64_new 16 0) = top / 65536).
  { unfold i64_shr_u. change (i64_new 16 0 mod 64) with 16.
    rewrite Z.shiftr_div_pow2 by lia. reflexivity. }
  assert (Hexact : top / 65536 * 65536 = top).
  { pose proof (Z.div_mod top 65536). lia. }
  assert (Hglobal : exists others,
            globals (module c) ++
            [("HEAP_BASE", if isWasm64 (options c) then NativeType.I64 else NativeType.I32,
              false,
              if isWasm64 (options c)
              then createI64 (i64_low heapBase) (i64_high heapBase)
              else createI32 (i64_low heapBase))]
            = others ++
              [("HEAP_BASE", nativeSizeType (options c), false,
                if isWasm64 (options c) then createI64 heapBase 0 else createI32 heapBase)]).
  { eexists. f_equal. unfold nativeSizeType, isWasm64.
    rewrite i64_low_small, i64_high_small by lia.
    destruct (target (options c)); reflexivity. }
  assert (Hcovered : Forall (fun segment => segmentEnd segment <= heapBase) (memorySegments c)).
  { eapply Forall_impl; [exact Hbelow|]. cbv beta. intros segment Hsegment. lia. }
  assert (Hinitial : heapBase <= i64_low (i64_shr_u top (i64_new 16 0)) * 65536
                     < heapBase + 65536).
  { rewrite Hshift, i64_low_small
      by (split; [apply Z.div_pos; lia | apply Z.div_lt_upper_bound; lia]).
    rewrite Hexact. exact Hpages. }
  unfold finishCompile, bind at 1, get at 1. cbv beta iota zeta. rewrite Hmemory. cbn [negb].
  fold pointerSize.
  unfold ensureFunctionType, ensureFunctionTypeRef, addFunction.
  unfold bind, get, modify, addGlobal, ret.
  destruct (startFunctionBody c) as [|first rest];
    [|destruct (bool_decide _)];
    (destruct (isWasm64 (options c));
     (do 3 eexists; split; [reflexivity|]);
     cbn [memorySetup staticSegments initialPages];
     (split; [reflexivity|]); simpl; fold pointerSize heapBase top; auto 10).
Qed.

(** *** Where [break] and [continue] go *)

(** The labels that a [break] and a [continue] compiled now would branch
    to. *)
Definition labels (c : Compiler) : option string * option string :=
  (breakLabel (flow (currentFunction c)), continueLabel (flow (currentFunction c))).

(** Where the compiler stands, and where its jumps go. *)
Definition Stand : Type := Frame * (option string * option string).

Definition stand (c : Compiler) : Stand := (frame c, labels c).

(** A method keeps the frame, the function being compiled and the labels. *)
Definition keeps {A} (m : M A) : Prop :=
  forall c a c', m c = Ok (a, c') -> stand c' = stand c.

(** A method that runs inside a scope pushed on a flow frame that stood at
    [q], and leaves that scope. *)
Definition returnsTo {A} (q : Stand) (m : M A) : Prop :=
  forall c a c',
    (exists f, flowParent c = Some f /\
               ((parent f, identity (currentFunction c)), (breakLabel f, continueLabel f)) = q) ->
    m c = Ok (a, c') -> stand c' = q.

(** A method that ends standing at [q], wherever it starts. *)
Definition arrivesAt {A} (q : Stand) (m : M A) : Prop :=
  forall c a c', m c = Ok (a, c') -> stand c' = q.

Lemma keeps_preserves {A} (m : M A) : keeps m -> preserves m.
Proof. intros Hm c a c' H. exact (f_equal fst (Hm _ _ _ H)). Qed.

Lemma keeps_labels {A} (m : M A) c a c' :
  keeps m -> m c = Ok (a, c') -> labels c' = labels c.
Proof. intros Hm H. exact (f_equal snd (Hm _ _ _ H)). Qed.

Lemma keeps_ret {A} (a : A) : keeps (ret a).
Proof. intros c a' c' H. injection H as _ <-. reflexivity. Qed.

Lemma keeps_throw {A} (msg : string) : keeps (throw msg : M A).
Proof. intros c a c' H. discriminate. Qed.

Lemma keeps_bind {A B} (m : M A) (k : A -> M B) :
  keeps m -> (forall a, keeps (k a)) -> keeps (bind m k).
Proof.
  intros Hm Hk c b c' H. apply bind_Ok in H as (a & c1 & H1 & H2).
  rewrite (Hk a _ _ _ H2). exact (Hm _ _ _ H1).
Qed.

Lemma keeps_get : keeps get.
Proof. intros c a c' H. injection H as _ <-. reflexivity. Qed.

Lemma keeps_gets {A} (f : Compiler -> A) : keeps (gets f).
Proof. intros c a c' H. injection H as _ <-. reflexivity. Qed.

Lemma keeps_modify (f : Compiler -> Compiler) :
  (forall c, stand (f c) = stand c) -> keeps (modify f).
Proof. intros Hf c a c' H. injection H as _ <-. apply Hf. Qed.

Lemma keeps_assert (b : bool) (msg : string) : keeps (assert b msg).
Proof. destruct b; [apply keeps_ret | apply keeps_throw]. Qed.

Lemma keeps_liftResult {A} (r : Result A) : keeps (liftResult r).
Proof. destruct r; [apply keeps_ret | apply keeps_throw]. Qed.

Lemma keeps_external {A} (m : M A) : keeps (external m).
Proof.
  intros c a c' H. unfold external in H.
  destruct (m c) as [[a1 c1]|]; [|discriminate]. injection H as _ <-. reflexivity.
Qed.

Lemma keeps_error (code : DiagnosticCode.t) (r : Range) : keeps (error code r).
Proof. apply keeps_modify. reflexivity. Qed.

Lemma keeps_warning (code : DiagnosticCode.t) (r : Range) : keeps (warning code r).
Proof. apply keeps_modify. reflexivity. Qed.

Lemma keeps_setCurrentType (t : Type_) : keeps (setCurrentType t).
Proof. apply keeps_modify. reflexivity. Qed.

Lemma keeps_getFlow : keeps getFlow.
Proof. apply keeps_gets. Qed.

Lemma keeps_flowIs (flag : Z) : keeps (flowIs flag).
Proof. apply keeps_bind; [apply keeps_getFlow | intros; apply keeps_ret]. Qed.

Lemma keeps_flowSet (flag : Z) : keeps (flowSet flag).
Proof. intros c a c' H. injection H as _ <-. reflexivity. Qed.

Lemma keeps_enterBreakContext : keeps enterBreakContext.
Proof. intros c a c' H. injection H as _ <-. reflexivity. Qed.

Lemma keeps_leaveBreakContext : keeps leaveBreakContext.
Proof. apply keeps_modify. reflexivity. Qed.

Lemma keeps_addDebugLocation (e : ExpressionRef) (r : Range) : keeps (addDebugLocation e r).
Proof.
  intros c a c' H. unfold addDebugLocation, bind, get in H.
  destruct (negb (sourceMap (options c))).
  - injection H as _ <-. reflexivity.
  - injection H as _ <-. destruct (bool_decide _); reflexivity.
Qed.

(** Leaving a scope: the flow is the parent frame again, with its labels. *)
Lemma leaveBranchOrScope_labels (c : Compiler) (p : Flow) (c' : Compiler) :
  flowParent c = Some p ->
  leaveBranchOrScope c = Ok (tt, c') ->
  stand c' = ((parent p, identity (currentFunction c)), (breakLabel p, continueLabel p)).
Proof.
  intros Hp H. unfold leaveBranchOrScope in H. unfold flowParent in Hp.
  apply bind_Ok in H as (f & c0 & Hf & H). injection Hf as <- <-. rewrite Hp in H.
  apply bind_Ok in H as ([] & c1 & Hfree & H). injection H as <-.
  assert (Hid : identity (currentFunction c1) = identity (currentFunction c)).
  { destruct (scopedLocals (flow (currentFunction c))) as [locals|].
    - exact (preserves_identity _ _ _ _ (preserves_freeScopedLocals locals) Hfree).
    - injection Hfree as <-. reflexivity. }
  unfold stand, frame, labels, flowParent. simpl.
  change (identity (withFlow (currentFunction c1) _)) with (identity (currentFunction c1)).
  rewrite Hid. reflexivity.
Qed.

(** Entering a scope, then a method that leaves it, keeps the labels. *)
Lemma keeps_enter {A} (m : M A) :
  (forall q, returnsTo q m) -> keeps (enterBranchOrScope ;;; m).
Proof.
  intros Hm c a c' H. apply bind_Ok in H as ([] & c1 & H1 & H2).
  injection H1 as <-.
  eapply Hm; [|exact H2]. eexists. split; reflexivity.
Qed.

(** Inside the scope the labels may change; the frame below may not. *)
Lemma returnsTo_bind {A B} (q : Stand) (m : M A) (k : A -> M B) :
  preserves m -> (forall a, returnsTo q (k a)) -> returnsTo q (bind m k).
Proof.
  intros Hm Hk c b c' (f & Hf & Hq) H. apply bind_Ok in H as (a & c1 & H1 & H2).
  eapply Hk; [|exact H2]. exists f.
  rewrite (preserves_flowParent _ _ _ _ Hm H1), (preserves_identity _ _ _ _ Hm H1).
  split; assumption.
Qed.

Lemma returnsTo_leave {B} (q : Stand) (k : unit -> M B) :
  (forall a, keeps (k a)) -> returnsTo q (bind leaveBranchOrScope k).
Proof.
  intros Hk c b c' (f & Hf & Hq) H. apply bind_Ok in H as ([] & c1 & H1 & H2).
  rewrite (Hk _ _ _ _ H2). rewrite (leaveBranchOrScope_labels c f c1 Hf H1). exact Hq.
Qed.

Lemma arrivesAt_bind {A B} (q : Stand) (m : M A) (k : A -> M B) :
  (forall a, arrivesAt q (k a)) -> arrivesAt q (bind m k).
Proof.
  intros Hk c b c' H. apply bind_Ok in H as (a & c1 & _ & H2). exact (Hk _ _ _ _ H2).
Qed.

Lemma arrivesAt_restore {B} (q : Stand) (previous : Function) (k : unit -> M B) :
  ((parent (flow previous), identity previous),
   (breakLabel (flow previous), continueLabel (flow previous))) = q ->
  (forall a, keeps (k a)) ->
  arrivesAt q (bind (modify (fun c => withCurrentFunction c previous)) k).
Proof.
  intros Hq Hk c b c' H. apply bind_Ok in H as ([] & c1 & H1 & H2).
  injection H1 as <-. rewrite (Hk _ _ _ _ H2). exact Hq.
Qed.

Lemma arrivesAt_throw {A} (q : Stand) (msg : string) : arrivesAt q (throw msg : M A).
Proof. intros c a c' H. discriminate. Qed.

Lemma keeps_from_get {B} (k : Compiler -> M B) :
  (forall c0, arrivesAt (stand c0) (k c0)) -> keeps (bind get k).
Proof. intros Hk c b c' H. exact (Hk c c b c' H). Qed.

Lemma keeps_from_currentFunction {B} (k : Function -> M B) :
  (forall previous,
     arrivesAt ((parent (flow previous), identity previous),
                (breakLabel (flow previous), continueLabel (flow previous))) (k previous)) ->
  keeps (bind (gets currentFunction) k).
Proof. intros Hk c b c' H. exact (Hk (currentFunction c) c b c' H). Qed.

Create HintDb keeps discriminated.

#[local] Hint Resolve keeps_ret keeps_throw keeps_get keeps_gets keeps_assert
  keeps_liftResult keeps_external keeps_error keeps_warning keeps_setCurrentType
  keeps_getFlow keeps_flowIs keeps_flowSet keeps_enterBreakContext
  keeps_leaveBreakContext keeps_addDebugLocation arrivesAt_throw : keeps.

(** One step through the structure of a method. *)
Ltac keeps_step :=
  cbv zeta;
  match goal with
  | |- forall _, _ => intro
  | |- keeps (bind enterBranchOrScope _) => apply keeps_enter; intro
  | |- keeps (bind _ _) => apply keeps_bind
  | |- returnsTo _ (bind leaveBranchOrScope _) => apply returnsTo_leave
  | |- returnsTo _ (bind _ _) => apply returnsTo_bind; [solve [pres]|]
  | |- arrivesAt _ (bind (modify (fun c => withCurrentFunction c _)) _) =>
      apply arrivesAt_restore; [reflexivity|]
  | |- arrivesAt _ (bind _ _) => apply arrivesAt_bind
  | |- keeps (modify _) => apply keeps_modify; reflexivity
  | |- _ => solve [auto with keeps]
  | |- keeps (match ?x with _ => _ end) => destruct x
  | |- returnsTo _ (match ?x with _ => _ end) => destruct x
  | |- arrivesAt _ (match ?x with _ => _ end) => destruct x
  end.

Ltac keeps_all := repeat keeps_step.

Lemma keeps_compileExpression e t k w : keeps (compileExpression e t k w).
Proof. apply keeps_external. Qed.

Lemma keeps_compileInlineConstant element t retain :
  keeps (compileInlineConstant element t retain).
Proof. unfold compileInlineConstant. keeps_all. Qed.

Lemma keeps_ensureFunctionTypeRef t : keeps (ensureFunctionTypeRef t).
Proof.
  unfold ensureFunctionTypeRef. apply keeps_bind; [|keeps_all].
  apply keeps_modify. intros c. destruct (bool_decide _); reflexivity.
Qed.

#[local] Hint Resolve keeps_compileExpression keeps_compileInlineConstant
  keeps_ensureFunctionTypeRef : keeps.

Lemma keeps_precomputeExpressionRef e : keeps (precomputeExpressionRef e).
Proof. unfold precomputeExpressionRef. keeps_all. Qed.

Lemma keeps_addGlobal n t m i : keeps (addGlobal n t m i).
Proof. unfold addGlobal. keeps_all. Qed.

Lemma keeps_addGlobalImport a b c t : keeps (addGlobalImport a b c t).
Proof. unfold addGlobalImport. keeps_all. Qed.

Lemma keeps_addGlobalExport a b : keeps (addGlobalExport a b).
Proof. unfold addGlobalExport. keeps_all. Qed.

Lemma keeps_resolveType n : keeps (resolveType n).
Proof. apply keeps_external. Qed.

#[local] Hint Resolve keeps_precomputeExpressionRef keeps_addGlobal
  keeps_addGlobalImport keeps_addGlobalExport keeps_resolveType : keeps.

Lemma keeps_compileGlobal g : keeps (compileGlobal g).
Proof. unfold compileGlobal. keeps_all. Qed.

Lemma keeps_ensureFunctionType s : keeps (ensureFunctionType s).
Proof. unfold ensureFunctionType. keeps_all. Qed.

Lemma keeps_addFunction n t l b : keeps (addFunction n t l b).
Proof. unfold addFunction. keeps_all. Qed.

Lemma keeps_addFunctionImport a b c t : keeps (addFunctionImport a b c t).
Proof. unfold addFunctionImport. keeps_all. Qed.

Lemma keeps_addFunctionExport a b : keeps (addFunctionExport a b).
Proof. unfold addFunctionExport. keeps_all. Qed.

Lemma keeps_at {A} (l : list A) i : keeps (at_ l i).
Proof. unfold at_. keeps_all. Qed.

#[local] Hint Resolve keeps_compileGlobal keeps_ensureFunctionType
  keeps_addFunction keeps_addFunctionImport keeps_addFunctionExport keeps_at : keeps.

Lemma keeps_forwardRequired n i o types : keeps (forwardRequired n i o types).
Proof. revert i o. induction n as [|n IH]; intros i o; simpl; keeps_all. Qed.

Lemma keeps_initializeOptional n i o m types ps b f :
  keeps (initializeOptional n i o m types ps b f).
Proof. revert i o b f. induction n as [|n IH]; intros i o b f; simpl; keeps_all. Qed.

Lemma keeps_omittedOperands n i types : keeps (omittedOperands n i types).
Proof. revert i. induction n as [|n IH]; intros i; simpl; keeps_all. Qed.

#[local] Hint Resolve keeps_forwardRequired keeps_initializeOptional
  keeps_omittedOperands : keeps.

Lemma keeps_ensureTrampoline original : keeps (ensureTrampoline original).
Proof.
  unfold ensureTrampoline. destruct (trampoline original); [keeps_all|].
  cbv zeta. apply keeps_bind; [keeps_all|]. intros _.
  apply keeps_from_get. intros c0. keeps_all.
Qed.

#[local] Hint Resolve keeps_ensureTrampoline : keeps.

Section KeepsKnot.

Variable compileFunctionRec : Function -> M (bool * Function).
Hypothesis keeps_rec : forall instance, keeps (compileFunctionRec instance).

#[local] Hint Resolve keeps_rec : keeps.

Lemma keeps_makeCallDirect instance operands :
  keeps (makeCallDirect compileFunctionRec instance operands).
Proof. unfold makeCallDirect. keeps_all. Qed.

#[local] Hint Resolve keeps_makeCallDirect : keeps.

Lemma keeps_callDirect instance operands :
  keeps (callDirect compileFunctionRec instance operands).
Proof. unfold callDirect. keeps_all. Qed.

Lemma keeps_compileTarget resolved : keeps (compileTarget resolved).
Proof. unfold compileTarget. keeps_all. Qed.

Lemma keeps_resolveExpression e : keeps (resolveExpression e).
Proof. apply keeps_external. Qed.

Lemma keeps_resolvePrototype p : keeps (resolvePrototype p).
Proof. apply keeps_external. Qed.

Lemma keeps_getTempLocal t : keeps (getTempLocal t).
Proof. apply keeps_external. Qed.

Lemma keeps_getAndFreeTempLocal t : keeps (getAndFreeTempLocal t).
Proof. apply keeps_external. Qed.

Lemma keeps_freeTempLocal l : keeps (freeTempLocal l).
Proof. apply keeps_external. Qed.

Lemma keeps_addLocal t n : keeps (addLocal t n).
Proof. apply keeps_external. Qed.

Lemma keeps_unsupported e : keeps (unsupported e).
Proof. unfold unsupported. keeps_all. Qed.

Lemma keeps_cannotAssign e : keeps (cannotAssign e).
Proof. unfold cannotAssign. keeps_all. Qed.

#[local] Hint Resolve keeps_callDirect keeps_compileTarget keeps_resolveExpression
  keeps_resolvePrototype keeps_getTempLocal keeps_getAndFreeTempLocal
  keeps_freeTempLocal keeps_addLocal keeps_unsupported keeps_cannotAssign : keeps.

Lemma keeps_compileAssignmentWithValue e v tee :
  keeps (compileAssignmentWithValue compileFunctionRec e v tee).
Proof. unfold compileAssignmentWithValue. keeps_all. Qed.

Lemma keeps_setScopedLocals (g : Flow) (l : option (list (string * Local))) :
  forall c a c', flow (currentFunction c) = g ->
  setFlow (withScopedLocals g l) c = Ok (a, c') -> stand c' = stand c.
Proof. intros c a c' <- H. injection H as _ <-. reflexivity. Qed.

Lemma keeps_addScopedLocal n t r : keeps (addScopedLocal n t r).
Proof.
  unfold addScopedLocal. apply keeps_bind; [keeps_all|]. intros local.
  intros c a c' H. apply bind_Ok in H as (g & c1 & Hg & H).
  injection Hg as <- <-.
  destruct (existsb _ _).
  - exact (keeps_error _ _ _ _ _ H).
  - eapply keeps_setScopedLocals; [reflexivity | exact H].
Qed.

Lemma keeps_makeIsTrueish e t : keeps (makeIsTrueish e t).
Proof. unfold makeIsTrueish. keeps_all. Qed.

Lemma keeps_compileGlobalDeclaration d : keeps (compileGlobalDeclaration d).
Proof. unfold compileGlobalDeclaration. keeps_all. Qed.

Lemma keeps_virtualLocal n t i : keeps (virtualLocal n t i).
Proof. unfold virtualLocal. keeps_all. Qed.

#[local] Hint Resolve keeps_compileAssignmentWithValue keeps_addScopedLocal
  keeps_makeIsTrueish keeps_compileGlobalDeclaration keeps_virtualLocal : keeps.

Lemma keeps_compileLocalDeclarations ds inits :
  keeps (compileLocalDeclarations compileFunctionRec ds inits).
Proof.
  revert inits. induction ds as [|d rest IH]; intros inits; simpl.
  - keeps_all.
  - apply keeps_bind; [keeps_all|]. intros typed. destruct typed as [[t init]|]; [|apply IH].
    assert (Hdeclare : forall init,
      keeps ((if isLetDeclaration d
              then addScopedLocal (text (variableName d)) t (variableName d)
              else addLocal t (text (variableName d))) ;;;
             if negb (isNoExpression init)
             then assignment <- compileAssignmentWithValue compileFunctionRec
                                  (asExpression (variableName d)) init false ;;
                  compileLocalDeclarations compileFunctionRec rest (inits ++ [assignment])
             else compileLocalDeclarations compileFunctionRec rest inits)).
    { intros init'. keeps_all. }
    cbv zeta.
    destruct (isConstDeclaration d); [|apply Hdeclare].
    destruct (negb (isNoExpression init)) eqn:Hinit.
    + apply keeps_bind; [keeps_all|]. intros init'.
      destruct (isConst init').
      * apply keeps_bind; [keeps_all|]. intros local.
        intros c a c' H. apply bind_Ok in H as (g & c1 & Hg & H).
        injection Hg as <- <-.
        destruct (scopedLocals (flow (currentFunction c))) as [locals|].
        -- destruct (existsb _ locals).
           ++ exact (keeps_bind _ _ (keeps_error _ _) (fun _ => keeps_ret _) _ _ _ H).
           ++ apply bind_Ok in H as ([] & c2 & H1 & H2). injection H2 as _ <-.
              eapply keeps_setScopedLocals; [reflexivity | exact H1].
        -- apply bind_Ok in H as ([] & c2 & H1 & H2). injection H2 as _ <-.
           eapply keeps_setScopedLocals; [reflexivity | exact H1].
      * apply keeps_bind; [keeps_all | intros; apply Hdeclare].
    + apply keeps_bind; [keeps_all|]. intros _.
      pose proof (Hdeclare init) as Hd. rewrite Hinit in Hd. exact Hd.
Qed.

Lemma keeps_compileGlobalDeclarations ds : keeps (compileGlobalDeclarations ds).
Proof. induction ds as [|d rest IH]; simpl; keeps_all. Qed.

#[local] Hint Resolve keeps_compileLocalDeclarations keeps_compileGlobalDeclarations : keeps.

Lemma keeps_compileVariableStatement ds p k :
  keeps (compileVariableStatement compileFunctionRec ds p k).
Proof. unfold compileVariableStatement. keeps_all. Qed.

Lemma keeps_compileCaseLabels cases i ctx tmp d :
  keeps (compileCaseLabels cases i ctx tmp d).
Proof.
  revert i d. induction cases as [|[[label|] stmts] rest IH]; intros i d; simpl; keeps_all.
Qed.

#[local] Hint Resolve keeps_compileVariableStatement keeps_compileCaseLabels : keeps.

Lemma keeps_compileSwitchBreaks cond cases : keeps (compileSwitchBreaks cond cases).
Proof. unfold compileSwitchBreaks. keeps_all. Qed.

#[local] Hint Resolve keeps_compileSwitchBreaks : keeps.

Lemma keeps_compileStatementsWith (compile : Statement -> M ExpressionRef) statements :
  Forall (fun s => keeps (compile s)) statements ->
  keeps (compileStatementsWith compile statements).
Proof. induction 1 as [|s rest Hs _ IH]; simpl; keeps_all. Qed.

Lemma keeps_compileSwitchCases (compile : Statement -> M ExpressionRef) ctx n cases :
  Forall (fun case => Forall (fun s => keeps (compile s)) (snd case)) cases ->
  forall i block always, keeps (compileSwitchCases compile ctx n cases i block always).
Proof.
  induction 1 as [|[label stmts] rest Hs _ IH]; intros i block always; simpl; [keeps_all|].
  assert (Hstmts : preserves (compileStatementsWith compile stmts)).
  { apply preserves_compileStatementsWith.
    eapply Forall_impl; [exact Hs|]. intros s. apply keeps_preserves. }
  apply keeps_enter. intros q.
  apply returnsTo_bind; [pres|]. intros _.
  apply returnsTo_bind; [exact Hstmts|]. intros exprs.
  apply returnsTo_bind; [pres|]. intros returns.
  apply returnsTo_leave. intros _. apply IH.
Qed.

(** A [do] loop sets its labels on the flow it is in, and puts the labels
    it found back once its body is compiled. *)
Lemma keeps_relabelled {B} (l k : option string) (m : M ExpressionRef)
    (rest : Flow -> ExpressionRef -> M B) :
  preserves m -> (forall f body, keeps (rest f body)) ->
  keeps (f <- getFlow ;;
         setBreakLabel l ;;;
         setContinueLabel k ;;;
         body <- m ;;
         setBreakLabel (breakLabel f) ;;;
         setContinueLabel (continueLabel f) ;;;
         rest f body).
Proof.
  intros Hm Hrest c b c' H.
  apply bind_Ok in H as (f & c0 & Hf & H). injection Hf as <- <-.
  apply bind_Ok in H as ([] & c1 & H1 & H).
  apply bind_Ok in H as ([] & c2 & H2 & H).
  apply bind_Ok in H as (body & c3 & H3 & H).
  apply bind_Ok in H as ([] & c4 & H4 & H).
  apply bind_Ok in H as ([] & c5 & H5 & H).
  rewrite (Hrest _ _ _ _ _ H).
  pose proof (preserves_setBreakLabel _ _ _ _ H1) as F1.
  pose proof (preserves_setContinueLabel _ _ _ _ H2) as F2.
  pose proof (Hm _ _ _ H3) as F3.
  pose proof (preserves_setBreakLabel _ _ _ _ H4) as F4.
  pose proof (preserves_setContinueLabel _ _ _ _ H5) as F5.
  unfold stand. f_equal; [congruence|].
  injection H5 as <-. injection H4 as <-. reflexivity.
Qed.

End KeepsKnot.

Section KeepsStatement.

Variable compileFunctionRec : Function -> M (bool * Function).
Hypothesis keeps_rec : forall instance, keeps (compileFunctionRec instance).

Lemma preserves_of_keeps_rec : forall instance, preserves (compileFunctionRec instance).
Proof. intros instance. apply keeps_preserves, keeps_rec. Qed.

#[local] Hint Resolve keeps_rec keeps_makeCallDirect keeps_callDirect
  keeps_compileTarget keeps_resolveExpression
  keeps_resolvePrototype keeps_getTempLocal keeps_getAndFreeTempLocal
  keeps_freeTempLocal keeps_addLocal keeps_unsupported keeps_cannotAssign
  keeps_compileAssignmentWithValue keeps_addScopedLocal
  keeps_makeIsTrueish keeps_compileGlobalDeclaration keeps_virtualLocal
  keeps_compileLocalDeclarations keeps_compileGlobalDeclarations
  keeps_compileVariableStatement keeps_compileCaseLabels
  keeps_compileSwitchBreaks : keeps.

#[local] Hint Resolve preserves_of_keeps_rec preserves_makeCallDirect preserves_callDirect
  preserves_compileTarget preserves_resolveExpression
  preserves_resolvePrototype preserves_getTempLocal preserves_getAndFreeTempLocal
  preserves_freeTempLocal preserves_addLocal preserves_unsupported preserves_cannotAssign
  preserves_compileAssignmentWithValue preserves_addScopedLocal
  preserves_makeIsTrueish preserves_compileGlobalDeclaration preserves_virtualLocal
  preserves_compileLocalDeclarations preserves_compileGlobalDeclarations
  preserves_compileVariableStatement preserves_compileCaseLabels
  preserves_compileSwitchBreaks preserves_compileStatement : pres.

(** Compiling a statement leaves the labels of the flow it is compiled in
    as they were. *)
Lemma keeps_compileStatement (s : Statement) :
  keeps (compileStatement compileFunctionRec s).
Proof.
  assert (Hlist : forall statements,
            preserves (compileStatementsWith (compileStatement compileFunctionRec) statements)).
  { intros statements. apply preserves_compileStatementsWith, Forall_forall.
    intros s' _. apply preserves_compileStatement, preserves_of_keeps_rec. }
  induction s using Statement_induction; simpl;
    try match goal with
        | H : Forall _ ?l |- context [compileStatementsWith _ ?l] =>
            pose proof (keeps_compileStatementsWith _ _ H);
            pose proof (Hlist l)
        end;
    unfold optionalP in *.
  all: try solve [keeps_all].
  - (* do *)
    apply keeps_bind; [|keeps_all].
    apply keeps_bind; [keeps_all|]. intros label. cbv zeta.
    apply keeps_relabelled; [pres | keeps_all].
  - (* switch *)
    keeps_all. apply keeps_compileSwitchCases. assumption.
Qed.

End KeepsStatement.

Section KeepsFunction.

Variable compileFunctionRec : Function -> M (bool * Function).
Hypothesis keeps_rec : forall instance, keeps (compileFunctionRec instance).

#[local] Hint Resolve keeps_compileStatement : keeps.

Lemma keeps_checkModifiers instance : keeps (checkModifiers instance).
Proof. unfold checkModifiers. keeps_all. Qed.

#[local] Hint Resolve keeps_checkModifiers : keeps.

(** The function that was being compiled is current again, with its flow
    as it was, once another function is compiled. *)
Lemma keeps_compileFunctionStep instance :
  keeps (compileFunctionStep compileFunctionRec instance).
Proof.
  unfold compileFunctionStep. destruct (Function_is instance ElementFlags.COMPILED);
    [keeps_all|].
  cbv zeta.
  apply keeps_bind; [keeps_all|]. intros _.
  apply keeps_bind; [keeps_all|]. intros _.
  apply keeps_bind; [keeps_all|]. intros typeRef.
  apply keeps_bind; [|keeps_all].
  destruct (body _); [|keeps_all].
  apply keeps_from_currentFunction. intros previous. keeps_all.
Qed.

End KeepsFunction.

Lemma keeps_compileFunction depth instance : keeps (compileFunction depth instance).
Proof.
  revert instance. induction depth as [|depth IH]; intros instance; simpl;
    [apply keeps_throw | apply keeps_compileFunctionStep; exact IH].
Qed.

(** X19.  Compiling a statement, whatever it is and whatever it
    contains, leaves the break label and the continue label of the flow it
    is compiled in as they were: a loop or a switch inside it has its own
    labels only while its body is compiled.  A [break] or [continue] that
    follows the statement goes where one before it would have gone. *)
Theorem statement_keeps_labels (depth : nat) (statement : Statement) (c c' : Compiler)
    (expr : ExpressionRef) :
  compileStatement (compileFunction depth) statement c = Ok (expr, c') ->
  breakLabel (flow (currentFunction c')) = breakLabel (flow (currentFunction c)) /\
  continueLabel (flow (currentFunction c')) = continueLabel (flow (currentFunction c)).
Proof.
  intros H.
  pose proof (keeps_labels _ _ _ _
                (keeps_compileStatement _ (keeps_compileFunction depth) statement) H)
    as Hlabels.
  unfold labels in Hlabels. injection Hlabels as Hbreak Hcontinue. split; assumption.
Qed.

(** A [break] or [continue] among the statements of a list goes to the
    label of the flow the list is compiled in, whatever comes before it. *)
Lemma break_in_sequence (depth : nat) (r : Range) (after : list Statement) (l : string)
    (before : list Statement) :
  forall (c : Compiler) (exprs : list ExpressionRef) (c' : Compiler),
    breakLabel (flow (currentFunction c)) = Some l ->
    compileStatementsWith (compileStatement (compileFunction depth))
      (before ++ BreakStatement r None :: after) c = Ok (exprs, c') ->
    exists exprs1 exprs2,
      exprs = exprs1 ++ createBreak l noExpression :: exprs2 /\
      length exprs1 = length before.
Proof.
  induction before as [|s before IH]; intros c exprs c' Hlabel H.
  - cbn [app compileStatementsWith] in H.
    apply bind_Ok in H as (stmt & c1 & Hbreak & H).
    apply bind_Ok in H as (stmts & c2 & _ & H). injection H as <- _.
    cbn [compileStatement] in Hbreak.
    apply located_flow in Hbreak as (c3 & Hbreak & _).
    apply bind_Ok in Hbreak as (f & c4 & Hf & Hbreak). injection Hf as <- <-.
    rewrite Hlabel in Hbreak.
    apply bind_Ok in Hbreak as ([] & c5 & _ & Hbreak). injection Hbreak as <- _.
    exists [], stmts. split; reflexivity.
  - cbn [app compileStatementsWith] in H.
    apply bind_Ok in H as (stmt & c1 & Hfirst & H).
    apply bind_Ok in H as (stmts & c2 & Hrest & H). injection H as <- _.
    pose proof (keeps_labels _ _ _ _
                  (keeps_compileStatement _ (keeps_compileFunction depth) s) Hfirst)
      as Hkept.
    unfold labels in Hkept. injection Hkept as Hkept _. rewrite Hlabel in Hkept.
    destruct (IH _ _ _ Hkept Hrest) as (exprs1 & exprs2 & -> & Hlength).
    exists (stmt :: exprs1), exprs2. split; [reflexivity | simpl; congruence].
Qed.

Lemma continue_in_sequence (depth : nat) (r : Range) (after : list Statement) (l : string)
    (before : list Statement) :
  forall (c : Compiler) (exprs : list ExpressionRef) (c' : Compiler),
    continueLabel (flow (currentFunction c)) = Some l ->
    compileStatementsWith (compileStatement (compileFunction depth))
      (before ++ ContinueStatement r None :: after) c = Ok (exprs, c') ->
    exists exprs1 exprs2,
      exprs = exprs1 ++ createBreak l noExpression :: exprs2 /\
      length exprs1 = length before.
Proof.
  induction before as [|s before IH]; intros c exprs c' Hlabel H.
  - cbn [app compileStatementsWith] in H.
    apply bind_Ok in H as (stmt & c1 & Hcontinue & H).
    apply bind_Ok in H as (stmts & c2 & _ & H). injection H as <- _.
    cbn [compileStatement] in Hcontinue.
    apply located_flow in Hcontinue as (c3 & Hcontinue & _).
    apply bind_Ok in Hcontinue as (f & c4 & Hf & Hcontinue). injection Hf as <- <-.
    rewrite Hlabel in Hcontinue.
    apply bind_Ok in Hcontinue as ([] & c5 & _ & Hcontinue). injection Hcontinue as <- _.
    exists [], stmts. split; reflexivity.
  - cbn [app compileStatementsWith] in H.
    apply bind_Ok in H as (stmt & c1 & Hfirst & H).
    apply bind_Ok in H as (stmts & c2 & Hrest & H). injection H as <- _.
    pose proof (keeps_labels _ _ _ _
                  (keeps_compileStatement _ (keeps_compileFunction depth) s) Hfirst)
      as Hkept.
    unfold labels in Hkept. injection Hkept as _ Hkept. rewrite Hlabel in Hkept.
    destruct (IH _ _ _ Hkept Hrest) as (exprs1 & exprs2 & -> & Hlength).
    exists (stmt :: exprs1), exprs2. split; [reflexivity | simpl; congruence].
Qed.

(** The statements of a block are compiled in a scope with the labels of
    the flow the block is in. *)
Lemma block_statements (depth : nat) (r : Range) (statements : list Statement)
    (c : Compiler) (expr : ExpressionRef) (c' : Compiler) :
  compileStatement (compileFunction depth) (BlockStatement r statements) c = Ok (expr, c') ->
  exists c1 exprs c2,
    labels c1 = labels c /\
    compileStatementsWith (compileStatement (compileFunction depth)) statements c1
    = Ok (exprs, c2) /\
    expr = createBlock None exprs NativeType.None.
Proof.
  intros H. cbn [compileStatement] in H.
  apply located_flow in H as (c3 & H & _).
  apply bind_Ok in H as ([] & c1 & Henter & H).
  apply bind_Ok in H as (exprs & c2 & Hstatements & H).
  apply bind_Ok in H as (returns & c4 & _ & H).
  apply bind_Ok in H as ([] & c5 & _ & H).
  apply bind_Ok in H as ([] & c6 & _ & H). injection H as <- _.
  exists c1, exprs, c2. split; [|split; [exact Hstatements | reflexivity]].
  injection Henter as <-. reflexivity.
Qed.

(** X20.  A [break] among the statements of the block that is the body
    of a [while] loop, whatever the statements before it, is a branch to the
    label of the block that [compileWhileStatement] wraps around the loop:
    it leaves this loop, and no other. *)
Theorem break_leaves_the_while_loop (depth : nat) (r r1 r2 : Range) (condition : Expression)
    (before after : list Statement) (c c' : Compiler) (expr : ExpressionRef) :
  compileStatement (compileFunction depth)
    (WhileStatement r condition (BlockStatement r1 (before ++ BreakStatement r2 None :: after)))
    c = Ok (expr, c') ->
  exists context conditionExpr exprs1 exprs2,
    expr =
      createBlock (Some ("break|" +:+ context))
        [ createLoop ("continue|" +:+ context)
            (createIf conditionExpr
               (createBlock None
                  [ createBlock None
                      (exprs1 ++ createBreak ("break|" +:+ context) noExpression :: exprs2)
                      NativeType.None;
                    createBreak ("continue|" +:+ context) noExpression ]
                  NativeType.None)
               noExpression) ]
        NativeType.None /\
    length exprs1 = length before.
Proof.
  intros H. cbn [compileStatement] in H.
  apply located_flow in H as (c0 & H & _).
  apply bind_Ok in H as (conditionExpr & c1 & _ & H).
  apply bind_Ok in H as (c1' & c2 & _ & H).
  apply bind_Ok in H as (trueish & c3 & _ & H).
  apply bind_Ok in H as (context & c4 & _ & H).
  apply bind_Ok in H as ([] & c5 & _ & H). cbv zeta in H.
  apply bind_Ok in H as ([] & c6 & Hbreak & H).
  apply bind_Ok in H as ([] & c7 & Hcontinue & H).
  apply bind_Ok in H as (body & c8 & Hbody & H).
  apply bind_Ok in H as (returns & c9 & _ & H).
  apply bind_Ok in H as ([] & c10 & _ & H).
  apply bind_Ok in H as ([] & c11 & _ & H).
  cbn [andb] in H. injection H as <- _.
  assert (Hlabel : breakLabel (flow (currentFunction c7)) = Some ("break|" +:+ context)).
  { injection Hcontinue as <-. injection Hbreak as <-. reflexivity. }
  apply block_statements in Hbody as (c12 & exprs & c13 & Hlabels & Hstatements & ->).
  unfold labels in Hlabels. injection Hlabels as Hlabels _. rewrite Hlabel in Hlabels.
  destruct (break_in_sequence _ _ _ _ _ _ _ _ Hlabels Hstatements)
    as (exprs1 & exprs2 & -> & Hlength).
  exists context, trueish, exprs1, exprs2. split; [reflexivity | exact Hlength].
Qed.

(** X21.  A [continue] among the statements of the block that is the
    body of a [for] loop, whatever the statements before it, is a branch to
    the label of the loop itself: the loop that holds the condition and,
    guarded by it, the block of the body, the incrementor after the body
    and the branch back.  The label is not one between the body and the
    incrementor. *)
Theorem continue_restarts_the_for_loop (depth : nat) (r r1 r2 : Range)
    (initializer : option Statement) (condition incrementor : option Expression)
    (before after : list Statement) (c c' : Compiler) (expr : ExpressionRef) :
  compileStatement (compileFunction depth)
    (ForStatement r initializer condition incrementor
       (BlockStatement r1 (before ++ ContinueStatement r2 None :: after)))
    c = Ok (expr, c') ->
  exists context initializerExpr conditionExpr incrementorExpr exprs1 exprs2,
    let loop :=
      createBlock (Some ("break|" +:+ context))
        [ initializerExpr;
          createLoop ("continue|" +:+ context)
            (createBlock None
               [ createIf conditionExpr
                   (createBlock None
                      [ createBlock None
                          (exprs1 ++
                           createBreak ("continue|" +:+ context) noExpression :: exprs2)
                          NativeType.None;
                        incrementorExpr;
                        createBreak ("continue|" +:+ context) noExpression ]
                      NativeType.None)
                   noExpression ]
               NativeType.None) ]
        NativeType.None in
    (expr = loop \/ expr = createBlock None [loop; createUnreachable] NativeType.Auto) /\
    length exprs1 = length before.
Proof.
  intros H. cbn [compileStatement] in H.
  apply located_flow in H as (c0 & H & _).
  apply bind_Ok in H as (context & c1 & _ & H).
  apply bind_Ok in H as ([] & c2 & _ & H). cbv zeta in H.
  apply bind_Ok in H as ([] & c3 & Hbreak & H).
  apply bind_Ok in H as ([] & c4 & Hcontinue & H).
  apply bind_Ok in H as (initializerExpr & c5 & Hinitializer & H).
  apply bind_Ok in H as (conditionExpr & c6 & Hcondition & H).
  apply bind_Ok in H as (incrementorExpr & c7 & Hincrementor & H).
  apply bind_Ok in H as (body & c8 & Hbody & H).
  apply bind_Ok in H as (returns & c9 & _ & H).
  apply bind_Ok in H as ([] & c10 & _ & H).
  apply bind_Ok in H as ([] & c11 & _ & H).
  assert (Hlabel4 : continueLabel (flow (currentFunction c4)) = Some ("continue|" +:+ context)).
  { injection Hcontinue as <-. reflexivity. }
  assert (Hlabel5 : labels c5 = labels c4).
  { destruct initializer as [s|]; [|injection Hinitializer as _ <-; reflexivity].
    exact (keeps_labels _ _ _ _
             (keeps_compileStatement _ (keeps_compileFunction depth) s) Hinitializer). }
  assert (Hlabel6 : labels c6 = labels c5).
  { destruct condition as [e|]; [|injection Hcondition as _ <-; reflexivity].
    exact (keeps_labels _ _ _ _ (keeps_compileExpression _ _ _ _) Hcondition). }
  assert (Hlabel7 : labels c7 = labels c6).
  { destruct incrementor as [e|]; [|injection Hincrementor as _ <-; reflexivity].
    exact (keeps_labels _ _ _ _ (keeps_compileExpression _ _ _ _) Hincrementor). }
  apply block_statements in Hbody as (c12 & exprs & c13 & Hlabels & Hstatements & ->).
  rewrite Hlabel7, Hlabel6, Hlabel5 in Hlabels.
  unfold labels in Hlabels. injection Hlabels as _ Hlabels. rewrite Hlabel4 in Hlabels.
  destruct (continue_in_sequence _ _ _ _ _ _ _ _ Hlabels Hstatements)
    as (exprs1 & exprs2 & -> & Hlength).
  exists context, initializerExpr, conditionExpr, incrementorExpr, exprs1, exprs2.
  cbv zeta. split; [|exact Hlength].
  destruct (match condition with Some _ => false | None => returns end).
  - apply bind_Ok in H as ([] & c14 & _ & H). injection H as <- _. right. reflexivity.
  - injection H as <- _. left. reflexivity.
Qed.

(** *** [break] in a [switch] *)

(** The last case of a switch: its statements are compiled with the break
    label of the switch, and its block, which has that label, is the
    result. *)
Lemma compileSwitchCases_last_block (compile : Statement -> M ExpressionRef)
    (context : string) (numCases : Z)
    (cases : list (option Expression * list Statement)) (label : option Expression)
    (statements : list Statement) :
  forall i block always c result always' c',
    i + Z.of_nat (length cases) = numCases - 1 ->
    compileSwitchCases compile context numCases (cases ++ [(label, statements)])
      i block always c = Ok ((result, always'), c') ->
    exists inner c1 exprs c2,
      compileStatementsWith compile statements c1 = Ok (exprs, c2) /\
      breakLabel (flow (currentFunction c1)) = Some ("break|" +:+ context) /\
      result = createBlock (Some ("break|" +:+ context)) (inner :: exprs) NativeType.None.
Proof.
  induction cases as [|[label0 statements0] rest IH];
    intros i block always c result always' c' Hi H; simpl in H.
  - apply bind_Ok in H as ([] & c1 & _ & H).
    apply bind_Ok in H as ([] & c2 & Hlabel & H).
    apply bind_Ok in H as (exprs & c3 & Hstatements & H).
    apply bind_Ok in H as (returns & c4 & _ & H).
    apply bind_Ok in H as ([] & c5 & _ & H).
    simpl in Hi.
    replace (i =? numCases - 1) with true in H by (symmetry; apply Z.eqb_eq; lia).
    injection H as <- _ _.
    exists block, c2, exprs, c3. split; [exact Hstatements|]. split; [|reflexivity].
    injection Hlabel as <-. reflexivity.
  - apply bind_Ok in H as ([] & c1 & _ & H).
    apply bind_Ok in H as ([] & c2 & _ & H).
    apply bind_Ok in H as (exprs & c3 & _ & H).
    apply bind_Ok in H as (returns & c4 & _ & H).
    apply bind_Ok in H as ([] & c5 & _ & H).
    simpl length in Hi.
    eapply IH; [|exact H]. lia.
Qed.

(** X22.  A [break] among the statements of the last case of a [switch],
    whatever the cases and the statements before it, is a branch to the
    label of the outermost block that [compileSwitchStatement] answers: it
    leaves the switch. *)
Theorem break_leaves_the_switch (depth : nat) (r r1 : Range) (condition : Expression)
    (cases : list (option Expression * list Statement)) (label : option Expression)
    (before after : list Statement) (c c' : Compiler) (expr : ExpressionRef) :
  compileStatement (compileFunction depth)
    (SwitchStatement r condition
       (cases ++ [(label, before ++ BreakStatement r1 None :: after)]))
    c = Ok (expr, c') ->
  exists context inner exprs1 exprs2,
    expr =
      createBlock (Some ("break|" +:+ context))
        (inner :: exprs1 ++ createBreak ("break|" +:+ context) noExpression :: exprs2)
        NativeType.None /\
    length exprs1 = length before.
Proof.
  intros H. cbn [compileStatement] in H.
  apply located_flow in H as (c0 & H & _).
  apply bind_Ok in H as ([[context breaks] defaultIndex] & c1 & _ & H).
  apply bind_Ok in H as ([block always] & c2 & Hcases & H).
  apply bind_Ok in H as ([] & c3 & _ & H).
  apply bind_Ok in H as ([] & c4 & _ & H). injection H as <- _.
  apply compileSwitchCases_last_block in Hcases
    as (inner & c5 & exprs & c6 & Hstatements & Hlabel & ->);
    [|rewrite length_app; simpl; lia].
  destruct (break_in_sequence _ _ _ _ _ _ _ _ Hlabel Hstatements)
    as (exprs1 & exprs2 & -> & Hlength).
  exists context, inner, exprs1, exprs2. split; [reflexivity | exact Hlength].
Qed.

(** X23.  A [switch] without cases compiles, whenever it compiles, to a
    single block, labelled [case0|<context>], that evaluates the condition
    into the temporary local and then branches to [break|<context>], a
    label that no block of the result carries: it is the label of the block
    of the last case. *)
Theorem switch_without_cases (depth : nat) (r : Range) (condition : Expression)
    (c c' : Compiler) (expr : ExpressionRef) :
  compileStatement (compileFunction depth) (SwitchStatement r condition []) c
  = Ok (expr, c') ->
  exists context tempLocal conditionExpr,
    expr =
      createBlock (Some ("case0|" +:+ context))
        [ createSetLocal (index tempLocal) conditionExpr;
          createBreak ("break|" +:+ context) noExpression ]
        NativeType.None.
Proof.
  intros H. cbn [compileStatement] in H.
  apply located_flow in H as (c0 & H & _).
  apply bind_Ok in H as ([[context breaks] defaultIndex] & c1 & Hbreaks & H).
  apply bind_Ok in H as ([block always] & c2 & Hcases & H).
  apply bind_Ok in H as ([] & c3 & _ & H).
  apply bind_Ok in H as ([] & c4 & _ & H). injection H as <- _.
  injection Hcases as <- _ _.
  unfold compileSwitchBreaks in Hbreaks. cbv zeta in Hbreaks.
  apply bind_Ok in Hbreaks as (context' & c5 & _ & Hbreaks).
  apply bind_Ok in Hbreaks as (tempLocal & c6 & _ & Hbreaks).
  apply bind_Ok in Hbreaks as (conditionExpr & c7 & _ & Hbreaks).
  apply bind_Ok in Hbreaks as ([caseBreaks d] & c8 & Hlabels & Hbreaks).
  apply bind_Ok in Hbreaks as ([] & c9 & _ & Hbreaks).
  injection Hlabels as <- <- _. injection Hbreaks as <- <- _ _.
  exists context', tempLocal, conditionExpr. reflexivity.
Qed.

(** *** Declared globals *)

(** X24.  A DECLARED global of a resolved type, not compiled yet, never
    becomes a global of the module.  A constant one is imported: one global
    import is appended, from the module named after the namespace of the
    global or else from [env], under the simple name of the global and with
    its native type, and [compileGlobal] answers true.  A mutable one is
    refused: [Operation not supported] is reported at the declaration and
    [compileGlobal] answers false, without importing anything. *)
Theorem declared_global_is_imported_or_refused (global : Global)
    (declared : VariableDeclaration) (c : Compiler) :
  let compiled := Element_set global ElementFlags.COMPILED in
  Element_is global ElementFlags.COMPILED = false ->
  Element_is global ElementFlags.BUILTIN = false ->
  Element_is global ElementFlags.DECLARED = true ->
  declaration global = Some declared ->
  Type_eqb (type global) Ty.void = false ->
  exists c',
    compileGlobal global c
    = Ok ((Element_is global ElementFlags.CONSTANT, compiled), c') /\
    globals (module c') = globals (module c) /\
    globalImports (module c') =
      globalImports (module c) ++
      (if Element_is global ElementFlags.CONSTANT
       then [(internalName global,
              match namespace global with Some n => n | None => "env" end,
              simpleName global, toNativeType (type global))]
       else []) /\
    diagnostics c' =
      diagnostics c ++
      (if Element_is global ElementFlags.CONSTANT then []
       else [mkDiagnostic DiagnosticCode.Operation_not_supported ERROR
               (variableRange declared)]).
Proof.
  intros compiled Hcompiled Hbuiltin Hdeclared Hdeclaration Hresolved.
  assert (Hsame : forall flag, Z.land ElementFlags.COMPILED flag = 0 ->
                               Element_is compiled flag = Element_is global flag).
  { intros flag Hflag. unfold compiled, Element_is, Element_set. simpl.
    apply flags_is_set_disjoint. exact Hflag. }
  assert (Hagain : Element_set compiled ElementFlags.COMPILED = compiled).
  { unfold compiled, Element_set. simpl. f_equal. unfold flags_set.
    rewrite <- Z.lor_assoc, Z.lor_diag. reflexivity. }
  unfold compileGlobal. rewrite Hcompiled, Hbuiltin. cbn [orb]. fold compiled.
  change (declaration compiled) with (declaration global). rewrite Hdeclaration.
  change (type compiled) with (type global). rewrite Hresolved.
  unfold bind at 1, ret at 1. cbv beta iota.
  rewrite (Hsame ElementFlags.DECLARED eq_refl), Hdeclared.
  rewrite (Hsame ElementFlags.CONSTANT eq_refl).
  change (type compiled) with (type global).
  change (internalName compiled) with (internalName global).
  change (simpleName compiled) with (simpleName global).
  change (namespace compiled) with (namespace global).
  destruct (Element_is global ElementFlags.CONSTANT).
  - eexists. split; [unfold bind, addGlobalImport, modify, ret; rewrite Hagain; reflexivity|].
    simpl. rewrite app_nil_r. auto.
  - eexists. split; [reflexivity|]. simpl. rewrite app_nil_r. auto.
Qed.

(** X25.  A [continue] among the statements of the block that is the
    body of a [do] loop, whatever the statements before it, is a branch to
    the label of the loop itself: the loop that holds the body and, after
    it, the conditional branch back.  The label is not one between the body
    and the condition. *)
Theorem continue_restarts_the_do_loop (depth : nat) (r r1 r2 : Range) (condition : Expression)
    (before after : list Statement) (c c' : Compiler) (expr : ExpressionRef) :
  compileStatement (compileFunction depth)
    (DoStatement r (BlockStatement r1 (before ++ ContinueStatement r2 None :: after))
       condition)
    c = Ok (expr, c') ->
  exists context conditionExpr exprs1 exprs2,
    expr =
      createBlock (Some ("break|" +:+ context))
        [ createLoop ("continue|" +:+ context)
            (createBlock None
               [ createBlock None
                   (exprs1 ++ createBreak ("continue|" +:+ context) noExpression :: exprs2)
                   NativeType.None;
                 createBreak ("continue|" +:+ context) conditionExpr ]
               NativeType.None) ]
        NativeType.None /\
    length exprs1 = length before.
Proof.
  intros H. cbn [compileStatement] in H.
  apply located_flow in H as (c0 & H & _).
  apply bind_Ok in H as (context & c1 & _ & H).
  apply bind_Ok in H as (f & c2 & _ & H). cbv zeta in H.
  apply bind_Ok in H as ([] & c3 & Hbreak & H).
  apply bind_Ok in H as ([] & c4 & Hcontinue & H).
  apply bind_Ok in H as (body & c5 & Hbody & H).
  apply bind_Ok in H as ([] & c6 & _ & H).
  apply bind_Ok in H as ([] & c7 & _ & H).
  apply bind_Ok in H as (conditionExpr & c8 & _ & H).
  apply bind_Ok in H as (c8' & c9 & _ & H).
  apply bind_Ok in H as (trueish & c10 & _ & H).
  apply bind_Ok in H as ([] & c11 & _ & H). injection H as <- _.
  assert (Hlabel : continueLabel (flow (currentFunction c4)) = Some ("continue|" +:+ context)).
  { injection Hcontinue as <-. reflexivity. }
  apply block_statements in Hbody as (c12 & exprs & c13 & Hlabels & Hstatements & ->).
  unfold labels in Hlabels. injection Hlabels as _ Hlabels. rewrite Hlabel in Hlabels.
  destruct (continue_in_sequence _ _ _ _ _ _ _ _ Hlabels Hstatements)
    as (exprs1 & exprs2 & -> & Hlength).
  exists context, trueish, exprs1, exprs2. split; [reflexivity | exact Hlength].
Qed.

(** X26.  When the initializer of the first value of an enum compiles to
    the [i32] constant [v], the values after it that are declared without
    an initializer count on from it: [v + 1], [v + 2], ... (all within 32
    bits).  Every value is COMPILED and INLINED with its number and is an
    immutable global of that constant; nothing is added to the start
    function and nothing is reported. *)
Theorem enum_values_count_on_from_a_constant (element : Enum) (first : EnumValue)
    (firstDeclaration : EnumValueDeclaration) (initializer : Expression)
    (values : list (EnumValue * EnumValueDeclaration)) (v : Z) (c c0 c1 : Compiler) :
  let compiling := Enum_set element ElementFlags.COMPILED in
  let all := (first, firstDeclaration) :: values in
  Enum_is element ElementFlags.COMPILED = false ->
  enumMembers element = Some (map (fun value => MEMBER_VALUE (fst value) (snd value)) all) ->
  EnumValue_is first ElementFlags.INLINED = false ->
  enumValueInitializer firstDeclaration = Some initializer ->
  plainValues values ->
  - 2 ^ 31 <= v -> v + 1 + Z.of_nat (length values) <= 2 ^ 31 ->
  withCurrentEnum (Some compiling) c = Ok (tt, c0) ->
  compileExpression initializer Ty.i32 IMPLICIT true c0 = Ok (createI32 v, c1) ->
  exists element' c',
    compileEnum element c = Ok ((true, element'), c') /\
    enumMembers element' =
      Some (imap (fun i value =>
                    MEMBER_VALUE (numbered (fst value) (v + Z.of_nat i)) (snd value)) all) /\
    globals (module c') =
      globals (module c1) ++
      imap (fun i value =>
              (enumValueInternalName (fst value), NativeType.I32, false,
               createI32 (v + Z.of_nat i))) all /\
    startFunctionBody c' = startFunctionBody c1 /\
    diagnostics c' = diagnostics c1.
Proof.
  intros compiling all Hfresh Hmembers Hfirst Hinitializer Hplain Hlow Hroom Hcurrent
    Hcompiled.
  assert (Hinlined : EnumValue_is (EnumValue_set first ElementFlags.COMPILED)
                       ElementFlags.INLINED = false).
  { unfold EnumValue_is, EnumValue_set. simpl.
    rewrite flags_is_set_disjoint by reflexivity. exact Hfirst. }
  assert (Hvalue : i32_wrap v = v) by (apply i32_wrap_small; lia).
  assert (Hone : exists c2,
             compileEnumValue compiling None first firstDeclaration c0
             = Ok (numbered first v, c2) /\
             globals (module c2) =
               globals (module c1) ++
               [(enumValueInternalName first, NativeType.I32, false, createI32 v)] /\
             startFunctionBody c2 = startFunctionBody c1 /\
             diagnostics c2 = diagnostics c1).
  { unfold compileEnumValue. rewrite Hinlined, Hinitializer.
    unfold bind. rewrite Hcompiled. cbn [isConst negb expressionType constantI32].
    cbv beta iota. unfold ret, addGlobal, addGlobalExport, modify.
    cbn [expressionType constantI32]. cbv beta iota. rewrite Hvalue.
    assert (Hnow : EnumValue_is
                     (EnumValue_set
                        (withConstantValue (EnumValue_set first ElementFlags.COMPILED) v)
                        ElementFlags.INLINED) ElementFlags.INLINED = true)
      by apply flags_is_set.
    rewrite Hnow.
    destruct (enumSourceIsEntry (enumDeclaration compiling) &&
              enumIsTopLevelExport (enumDeclaration compiling));
      (eexists; split; [reflexivity|]); simpl; auto. }
  destruct Hone as (c2 & Hone & Hg & Hs & Hd).
  destruct (compileEnumMembers_counting compiling values (Some (numbered first v)) (v + 1) c2
              Hplain)
    as (c3 & Hrest & Hglobals & _ & _ & Hstartbody & Hdiagnostics & _).
  { split; [apply flags_is_set | reflexivity]. }
  { lia. }
  { lia. }
  do 2 eexists. split.
  { unfold compileEnum. rewrite Hfresh. fold compiling.
    change (enumMembers compiling) with (enumMembers element). rewrite Hmembers.
    apply bind_Ok. exists tt, c0. split; [exact Hcurrent|].
    apply bind_Ok. do 2 eexists. split.
    { apply bind_Ok. do 2 eexists. split; [|reflexivity].
      unfold all. cbn [map compileEnumMembers fst snd].
      apply bind_Ok. do 2 eexists. split; [exact Hone|].
      apply bind_Ok. do 2 eexists. split; [exact Hrest | reflexivity]. }
    reflexivity. }
  simpl. rewrite Hglobals, Hstartbody, Hdiagnostics, Hg, Hs, Hd.
  split.
  { f_equal. unfold all. cbn [imap fst snd]. rewrite Z.add_0_r. f_equal.
    apply imap_ext. intros i value _. simpl.
    replace (v + 1 + Z.of_nat i) with (v + Z.of_nat (S i)) by lia. reflexivity. }
  split; [|auto].
  rewrite <- app_assoc. f_equal. unfold all. cbn [imap fst snd app]. rewrite Z.add_0_r.
  f_equal. apply imap_ext. intros i value _. simpl.
  replace (v + 1 + Z.of_nat i) with (v + Z.of_nat (S i)) by lia. reflexivity.
Qed.
End Lowering.

(** ** The properties at work *)

(** A compiler whose program state is trivial, with plain collaborators: an
    expression compiles to the [i32] constant of its id and has the expected
    type, a type node resolves to [i32], nothing else resolves, a temporary
    local is local 7, and a new flow frame inherits the flags of its
    parent, which keeps them when the frame is left. *)
Definition here : Range := mkRange "entry.ts" 0 0.

Definition expressionOf (id : Z) : Expression := mkExpression NodeKind.OTHER here id.

Definition plainExpression : Expression -> Type_ -> ConversionKind -> bool -> M unit ExpressionRef :=
  fun e t _ _ => setCurrentType t ;;; ret (createI32 (expressionId e)).

Definition plainType : TypeNode -> M unit (option Type_) :=
  fun _ => ret (Some Ty.i32).

Definition unresolved : Expression -> M unit (option ResolvedElement) :=
  fun _ => ret None.

Definition noInstance : FunctionPrototype -> M unit (option Function) :=
  fun _ => ret None.

Definition plainTempLocal : Type_ -> M unit Local :=
  fun t => ret (mkVariable "temp" "temp" ElementFlags.NONE t NONE 0 0%float 7 None None).

Definition plainFreeTempLocal : Local -> Compiler unit -> Compiler unit :=
  fun _ c => c.

Definition plainAddLocal : Type_ -> string -> M unit unit :=
  fun _ _ => ret tt.

Definition noGlobal : string -> unit -> option Global := fun _ _ => None.

Abbreviation plainCompileFunction :=
  (compileFunction plainExpression plainType (fun e => e) unresolved noInstance
     plainTempLocal plainTempLocal plainFreeTempLocal plainAddLocal (fun e => e)
     flowFlags (fun _ p => flowFlags p) noGlobal).

Abbreviation plainCompileStatement depth :=
  (compileStatement plainExpression plainType (fun e => e) unresolved noInstance
     plainTempLocal plainTempLocal plainFreeTempLocal plainAddLocal (fun e => e)
     flowFlags (fun _ p => flowFlags p) noGlobal (plainCompileFunction depth)).

Definition plainOptions : Options := mkOptions WASM32 false false false false 0 false.

Definition declarationOf (body : option Statement) (parameters : list ParameterNode)
    : FunctionDeclaration :=
  mkFunctionDeclaration (mkIdentifier "f" (expressionOf 0)) body parameters
    (Some (mkTypeNode here "i32")) here false true.

Definition functionOf (name : string) (s : Signature) (body : option Statement)
    (parameters : list ParameterNode) : Function :=
  Function_new (mkFunctionPrototype (declarationOf body parameters) None) name s None.

Definition startFunction : Function :=
  Function_set (functionOf "start" (mkSignature [] Ty.void None 0 false) None [])
    ElementFlags.START.

Definition blank : Compiler unit := Compiler_new tt plainOptions startFunction.

(** [return 1] *)
Definition returnOne : Statement :=
  BlockStatement here [ReturnStatement here (Some (expressionOf 1))].


(** Three segments of 3, 1 and 2 bytes, aligned to 8, 16 and 4. *)
Definition someRequests : list (list Z * Z) := [([1; 2; 3], 8); ([4], 16); ([5; 6], 4)].

Lemma memory_cursor_witness :
  memoryOffset blank = 4 /\
  exists segments c',
    addMemorySegments someRequests blank = Ok (segments, c') /\
    Forall (fun segment => 4 <= offset segment) segments /\
    StronglySorted Z.le (map offset segments) /\
    Forall2 (fun request segment => offset segment mod snd request = 0) someRequests segments.
Proof.
  assert (Hbase : 0 <= memoryBase plainOptions < 2 ^ 32) by (cbn; lia).
  assert (Hrequests : Forall wellFormedRequest someRequests).
  { repeat constructor; simpl.
    - exists 3. split; [lia | reflexivity].
    - exists 4. split; [lia | reflexivity].
    - exists 2. split; [lia | reflexivity]. }
  assert (Hroom : Z.max (memoryBase plainOptions) (byteSize (usizeType plainOptions))
                  + footprint someRequests <= 2 ^ 64) by (vm_compute; discriminate).
  destruct (memory_cursor tt plainOptions startFunction someRequests Hbase Hrequests Hroom)
    as (Hstart & _ & segments & c' & Hrun & _ & Hlow & Hsorted & Haligned).
  split; [exact Hstart|].
  exists segments, c'. split; [exact Hrun|]. split; [exact Hlow|]. split; assumption.
Defined.

(** [hi], [o] and [hi] again *)
Definition someLiterals : list (list Z) := [[104; 105]; [111]; [104; 105]].

Lemma string_literals_interned_witness :
  exists exprs c',
    compileStaticStrings (fun _ => None) someLiterals blank = Ok (exprs, c') /\
    length (memorySegments c') = base.size (list_to_set someLiterals : gset (list Z)) /\
    forall i j s, someLiterals !! i = Some s -> someLiterals !! j = Some s ->
                  is_Some (exprs !! i) /\ exprs !! i = exprs !! j.
Proof.
  destruct (string_literals_interned (fun _ => None) someLiterals blank)
    as (exprs & c' & Hrun & Hcount & _ & Hsame).
  - reflexivity.
  - reflexivity.
  - vm_compute. discriminate.
  - vm_compute. discriminate.
  - exists exprs, c'. split; [exact Hrun|]. split; [exact Hcount | exact Hsame].
Defined.

(** Runs a method from a state and keeps what it answers as [H]. *)
Ltac run H m c :=
  let r := eval vm_compute in (m c) in
  lazymatch r with
  | Ok (?a, ?c') => assert (H : m c = Ok (a, c')) by (vm_compute; reflexivity)
  end.

(** The state a run ended in. *)
Ltac after H k :=
  lazymatch type of H with _ = Ok (_, ?c) => k c end.

(** [for (;;) { return 1 }]: the loop is wrapped and its flow returns; and
    [function f(): i32 { for (;;) { return 1 } }] compiles without a
    diagnostic. *)
Definition forever : Statement := ForStatement here None None None returnOne.

Lemma for_without_condition_witness :
  (exists loop c',
     plainCompileStatement 0 forever blank
     = Ok (createBlock None [loop; createUnreachable] NativeType.Auto, c') /\
     Flow_is (flow (currentFunction c')) FlowFlags.RETURNS = true) /\
  (exists instance' c',
     plainCompileFunction 1
       (functionOf "f" (mkSignature [] Ty.i32 None 0 false)
          (Some (BlockStatement here [forever])) []) blank
     = Ok ((true, instance'), c') /\
     diagnostics c' = []).
Proof.
  split; [|do 2 eexists; split; [vm_compute; reflexivity | reflexivity]].
  run Hinit (ret (ProgramState := unit) createNop) (loopScope flowFlags blank).
  after Hinit ltac:(fun c1 => run Hincr (ret (ProgramState := unit) createNop) c1).
  after Hincr ltac:(fun c2 => run Hbody (plainCompileStatement 0 returnOne) c2).
  pose proof (for_without_condition plainExpression plainType (fun e => e) unresolved
                noInstance plainTempLocal plainTempLocal plainFreeTempLocal plainAddLocal
                (fun e => e) flowFlags (fun _ p => flowFlags p) noGlobal
                0%nat here None None returnOne blank _ _ _ _ _ _ Hinit Hincr Hbody)
    as H.
  cbv zeta in H. destruct H as (c' & Hrun & Hreturns & _).
  eexists. exists c'. split; [exact Hrun | exact (Hreturns eq_refl)].
Defined.

(** [switch (0) { case 1: return 1; default: return 2 }] *)
Definition someCases : list (option Expression * list Statement) :=
  [ (Some (expressionOf 1), [ReturnStatement here (Some (expressionOf 1))]);
    (None, [ReturnStatement here (Some (expressionOf 2))]) ].

Lemma switch_with_default_returns_witness :
  exists expr c',
    plainCompileStatement 0 (SwitchStatement here (expressionOf 0) someCases) blank
    = Ok (expr, c') /\
    Flow_is (flow (currentFunction c')) FlowFlags.RETURNS = true.
Proof.
  run Hbreaks (compileSwitchBreaks plainExpression plainTempLocal plainFreeTempLocal
                 (expressionOf 0) someCases) blank.
  assert (Hdefault : exists statements, In (None, statements) someCases)
    by (eexists; right; left; reflexivity).
  lazymatch type of Hbreaks with
  | _ = Ok ((?context, _, _), ?c1) =>
      assert (Hcases : fallThroughOrReturn plainExpression plainType (fun e => e) unresolved
                         noInstance plainTempLocal plainTempLocal plainFreeTempLocal
                         plainAddLocal (fun e => e) flowFlags (fun _ p => flowFlags p)
                         noGlobal 0%nat context (Z.of_nat (length someCases)) someCases 0 c1)
  end.
  { eapply caseFallsThroughOrReturns;
      [vm_compute; reflexivity | left; discriminate | vm_compute; reflexivity |].
    eapply caseFallsThroughOrReturns;
      [vm_compute; reflexivity | right; vm_compute; reflexivity | vm_compute; reflexivity |].
    apply noCaseLeft. }
  destruct (switch_with_default_returns plainExpression plainType (fun e => e) unresolved
              noInstance plainTempLocal plainTempLocal plainFreeTempLocal plainAddLocal
              (fun e => e) flowFlags (fun _ p => flowFlags p) noGlobal
              0%nat here (expressionOf 0) someCases blank _ _ _ _ Hdefault Hbreaks Hcases)
    as (expr & c' & Hrun & Hreturns & _).
  exists expr, c'. split; assumption.
Defined.

(** [function f(): i32 { while (5) { return 1 } }] *)
Definition loopingBody : Statement :=
  BlockStatement here [WhileStatement here (expressionOf 5) returnOne].

Definition looping : Function :=
  functionOf "f" (mkSignature [] Ty.i32 None 0 false) (Some loopingBody) [].

Lemma missing_return_reported_witness :
  exists instance' c',
    plainCompileFunction 1 looping blank = Ok ((true, instance'), c') /\
    diagnostics c' =
      [ mkDiagnostic
          DiagnosticCode.A_function_whose_declared_type_is_not_void_must_return_a_value
          ERROR here ] /\
    map entryName (functions (module c')) = ["f"].
Proof.
  run Hmodifiers (checkModifiers (ProgramState := unit)
                    (Function_set looping ElementFlags.COMPILED)) blank.
  after Hmodifiers ltac:(fun c1 =>
    run Htype (ensureFunctionType (ProgramState := unit) (signature looping)) c1).
  after Htype ltac:(fun c2 =>
    run Hbody (plainCompileStatement 0 loopingBody)
      (withCurrentFunction c2 (Function_set looping ElementFlags.COMPILED))).
  assert (Hfresh : Function_is looping ElementFlags.COMPILED = false) by reflexivity.
  assert (Hbuiltin : Function_is looping ElementFlags.BUILTIN = false) by reflexivity.
  assert (Hvoid : Type_eqb (returnType (signature looping)) Ty.void = false) by reflexivity.
  after Hbody ltac:(fun c3 =>
    assert (Hflow : Flow_is (flow (currentFunction c3)) FlowFlags.RETURNS = false)
      by (vm_compute; reflexivity)).
  destruct (missing_return_reported plainExpression plainType (fun e => e) unresolved
              noInstance plainTempLocal plainTempLocal plainFreeTempLocal plainAddLocal
              (fun e => e) flowFlags (fun _ p => flowFlags p) noGlobal
              0%nat looping loopingBody (mkTypeNode here "i32") blank _ _ _ _ _
              Hfresh Hbuiltin eq_refl eq_refl Hvoid Hmodifiers Htype Hbody Hflow)
    as (instance' & c' & Hrun & Hdiagnostics & Hfunctions & _).
  exists instance', c'.
  split; [exact Hrun|]. split; [exact Hdiagnostics|].
  rewrite Hfunctions. reflexivity.
Defined.

(** [function g(a: i32, b: i32 = 5): i32 { return 1 }], called as [g(1)] *)
Definition defaulted : Function :=
  functionOf "g" (mkSignature [Ty.i32; Ty.i32] Ty.i32 None 1 false) (Some returnOne)
    [mkParameterNode "a" None; mkParameterNode "b" (Some (expressionOf 5))].


(** [const K: i32 = 7] at the top level of the entry file, and [K = 1] *)
Definition constantDeclaration (typeName : string) : VariableDeclaration :=
  mkVariableDeclaration (mkIdentifier "K" (expressionOf 0)) (Some (mkTypeNode here typeName))
    (Some (expressionOf 7)) true false here true false true "K" "K".

Definition constantGlobal (typeName : string) (flags : Z) : Global :=
  mkVariable "K" "K" flags Ty.void NONE 0 0%float (-1)
    (Some (constantDeclaration typeName)) None.

Definition resolvesTo (target : Element) : Expression -> M unit (option ResolvedElement) :=
  fun _ => ret (Some (mkResolved target None None false)).

Abbreviation assign resolveTypeImpl target :=
  (compileAssignmentWithValue plainExpression resolveTypeImpl (fun e => e)
     (resolvesTo target) noInstance plainTempLocal plainTempLocal plainFreeTempLocal
     (fun e => e) (plainCompileFunction 0) (expressionOf 9) (createI32 1) false).

(** A local [const k: i32] of the current function *)
Definition constantLocal : Local :=
  mkVariable "k" "k" ElementFlags.CONSTANT Ty.i32 NONE 0 0%float 0 None None.



(** [if (3) { return 1 } else switch (0) { case 1: return 1; default: return 2 }] *)
Definition eitherWay : Statement :=
  IfStatement here (expressionOf 3) returnOne
    (Some (SwitchStatement here (expressionOf 0) someCases)).

Lemma eitherWay_endsInReturn : endsInReturn eitherWay.
Proof.
  apply ifEnds.
  - apply (blockEnds here [] (ReturnStatement here (Some (expressionOf 1)))), returnEnds.
  - apply (switchEnds here (expressionOf 0)
             [(Some (expressionOf 1), [ReturnStatement here (Some (expressionOf 1))])]
             None [] (ReturnStatement here (Some (expressionOf 2)))).
    + eexists. right. left. reflexivity.
    + apply returnEnds.
Defined.

Lemma statement_keeps_frame_witness :
  exists expr c',
    plainCompileStatement 0 eitherWay blank = Ok (expr, c') /\
    parent (flow (currentFunction c')) = parent (flow (currentFunction blank)) /\
    prototype (currentFunction c') = prototype (currentFunction blank) /\
    functionInternalName (currentFunction c') = functionInternalName (currentFunction blank) /\
    signature (currentFunction c') = signature (currentFunction blank) /\
    functionFlags (currentFunction c') = functionFlags (currentFunction blank).
Proof.
  run Hrun (plainCompileStatement 0 eitherWay) blank.
  do 2 eexists. split; [exact Hrun|].
  exact (statement_keeps_frame plainExpression plainType (fun e => e) unresolved noInstance
           plainTempLocal plainTempLocal plainFreeTempLocal plainAddLocal (fun e => e)
           flowFlags (fun _ p => flowFlags p) noGlobal 0%nat _ _ _ _ Hrun).
Defined.

(** [function h(): i32 { if (3) ... else ... }] *)
Definition branching : Function :=
  functionOf "h" (mkSignature [] Ty.i32 None 0 false) (Some eitherWay) [].

Lemma function_compiled_once_witness :
  exists instance' c',
    plainCompileFunction 1 branching blank = Ok ((true, instance'), c') /\
    Function_is instance' ElementFlags.COMPILED = true /\
    (forall depth' c'', plainCompileFunction (S depth') instance' c''
                        = Ok ((true, instance'), c'')) /\
    parent (flow (currentFunction c')) = parent (flow (currentFunction blank)) /\
    functionInternalName (currentFunction c') = functionInternalName (currentFunction blank).
Proof.
  run Hrun (plainCompileFunction 1 branching) blank.
  do 2 eexists. split; [exact Hrun|].
  exact (proj2 (function_compiled_once plainExpression plainType (fun e => e) unresolved
                  noInstance plainTempLocal plainTempLocal plainFreeTempLocal plainAddLocal
                  (fun e => e) flowFlags (fun _ p => flowFlags p) noGlobal
                  1%nat _ _ _ _ _ Hrun)).
Defined.

(** [let K: void = 7]: the type is refused, the global is not compiled,
    and yet it counts as compiled afterwards. *)
Lemma global_compiled_once_witness :
  exists global' c',
    compileGlobal plainExpression (fun _ => ret (Some Ty.void)) (fun e => e)
      (constantGlobal "void" ElementFlags.NONE) blank
    = Ok ((false, global'), c') /\
    forall c'', compileGlobal plainExpression (fun _ => ret (Some Ty.void)) (fun e => e)
                  global' c''
                = Ok ((true, global'), c'').
Proof.
  run Hrun (compileGlobal plainExpression (fun _ => ret (Some Ty.void)) (fun e => e)
              (constantGlobal "void" ElementFlags.NONE)) blank.
  do 2 eexists. split; [exact Hrun|].
  exact (global_compiled_once plainExpression (fun _ => ret (Some Ty.void)) (fun e => e)
           _ _ _ _ _ Hrun).
Defined.

(** [const K: i32 = 7], with its type resolved *)
Definition resolvedConstant : Global :=
  mkVariable "K" "K" ElementFlags.CONSTANT Ty.i32 NONE 0 0%float (-1)
    (Some (constantDeclaration "i32")) None.


(** [hi] and [o] *)
Lemma different_strings_different_offsets_witness :
  exists expr expr' c1 c2,
    compileStaticString (fun _ => None) [104; 105] blank = Ok (expr, c1) /\
    compileStaticString (fun _ => None) [111] c1 = Ok (expr', c2) /\
    expr <> expr' /\
    internedApart c2.
Proof.
  assert (Hroom : memoryOffset blank + 24 + 2 * Z.of_nat (length [104; 105])
                  + 2 * Z.of_nat (length [111]) <= 2 ^ 31) by (vm_compute; discriminate).
  assert (Hdifferent : [104; 105] <> [111]) by discriminate.
  exact (different_strings_different_offsets (fun _ => None) [104; 105] [111] blank
           (fresh_internedApart tt plainOptions startFunction) Hroom Hdifferent).
Defined.

Lemma returning_statement_sets_returns_witness :
  exists expr c',
    plainCompileStatement 0 eitherWay blank = Ok (expr, c') /\
    Flow_is (flow (currentFunction c')) FlowFlags.RETURNS = true.
Proof.
  run Hrun (plainCompileStatement 0 eitherWay) blank.
  do 2 eexists. split; [exact Hrun|].
  exact (returning_statement_sets_returns plainExpression plainType (fun e => e) unresolved
           noInstance plainTempLocal plainTempLocal plainFreeTempLocal plainAddLocal
           (fun e => e) flowFlags (fun _ p => flowFlags p) noGlobal
           0%nat _ _ _ _ eitherWay_endsInReturn Hrun).
Defined.

Lemma returning_function_not_reported_witness :
  exists instance' c' c2 c3 stmt typeRef,
    plainCompileFunction 1 branching blank = Ok ((true, instance'), c') /\
    plainCompileStatement 0 eitherWay
      (withCurrentFunction c2 (Function_set branching ElementFlags.COMPILED))
    = Ok (stmt, c3) /\
    diagnostics c' = diagnostics c3 /\
    functions (module c') =
      functions (module c3) ++
      [mkFunctionEntry "h" typeRef
         (typesToNativeTypes (additionalLocals (currentFunction c3))) stmt].
Proof.
  run Hrun (plainCompileFunction 1 branching) blank.
  destruct (returning_function_not_reported plainExpression plainType (fun e => e)
              unresolved noInstance plainTempLocal plainTempLocal plainFreeTempLocal
              plainAddLocal (fun e => e) flowFlags (fun _ p => flowFlags p) noGlobal
              0%nat branching _ eitherWay _ blank _ eq_refl eq_refl
              eitherWay_endsInReturn Hrun)
    as (c2 & c3 & stmt & typeRef & Hbody & Hdiagnostics & Hfunctions).
  do 2 eexists. exists c2, c3, stmt, typeRef.
  split; [exact Hrun|]. split; [exact Hbody|]. split; assumption.
Defined.

(** A [u8] local read where a [u8] is expected. *)
Lemma conversion_to_same_type_witness :
  convertExpression (fun _ _ => true) (createGetLocal 0 NativeType.I32) Ty.u8 Ty.u8
    IMPLICIT (expressionOf 1) blank
  = Ok (createGetLocal 0 NativeType.I32, withCurrentType blank Ty.u8).
Proof.
  apply (conversion_to_same_type (fun _ _ => true) (createGetLocal 0 NativeType.I32) Ty.u8
           IMPLICIT (expressionOf 1) blank); [discriminate | discriminate | reflexivity].
Defined.

(** [declare function f(x: i32): void], known as [log] *)
Definition logger : Function :=
  Function_set
    (functionOf "log" (mkSignature [Ty.i32] Ty.void None 1 false) None
       [mkParameterNode "x" None])
    ElementFlags.DECLARED.

Lemma bodiless_function_becomes_import_witness :
  exists instance' c',
    plainCompileFunction 1 logger blank = Ok ((true, instance'), c') /\
    Function_is instance' ElementFlags.IMPORTED = true /\
    functions (module c') = [] /\
    functionImports (module c') = [("log", "env", "f", (NativeType.None, [NativeType.I32]))] /\
    diagnostics c' = [].
Proof.
  destruct (bodiless_function_becomes_import plainExpression plainType (fun e => e)
              unresolved noInstance plainTempLocal plainTempLocal plainFreeTempLocal
              plainAddLocal (fun e => e) flowFlags (fun _ p => flowFlags p) noGlobal
              0%nat logger blank eq_refl eq_refl eq_refl)
    as (instance' & c' & Hrun & Himported & Hfunctions & Himports & _ & _ & Hdiagnostics & _).
  exists instance', c'.
  split; [exact Hrun|]. split; [exact Himported|]. split; [exact Hfunctions|].
  split; [exact Himports | exact Hdiagnostics].
Defined.

(** [g(1, 2)] *)
Lemma direct_call_with_all_operands_witness :
  exists callee c1,
    plainCompileFunction 1 defaulted blank = Ok ((true, callee), c1) /\
    makeCallDirect plainExpression (plainCompileFunction 1) defaulted
      (Some [createI32 1; createI32 2]) blank
    = Ok ((createCall "g" [createI32 1; createI32 2] NativeType.I32, callee),
          withCurrentType c1 Ty.i32) /\
    map entryName (functions (module c1)) = ["g"].
Proof.
  run Hcallee (plainCompileFunction 1 defaulted) blank.
  assert (Hmin : (if Function_is defaulted ElementFlags.INSTANCE
                  then requiredParameters (signature defaulted) + 1
                  else requiredParameters (signature defaulted))
                 <= Z.of_nat (length [createI32 1; createI32 2]))
    by (vm_compute; discriminate).
  assert (Hmax : (if Function_is defaulted ElementFlags.INSTANCE
                  then Z.of_nat (length (parameterTypes (signature defaulted))) + 1
                  else Z.of_nat (length (parameterTypes (signature defaulted))))
                 <= Z.of_nat (length [createI32 1; createI32 2]))
    by (vm_compute; discriminate).
  pose proof (direct_call_with_all_operands plainExpression plainType (fun e => e)
                unresolved noInstance plainTempLocal plainTempLocal plainFreeTempLocal
                plainAddLocal (fun e => e) flowFlags (fun _ p => flowFlags p) noGlobal
                0%nat defaulted _ _ [createI32 1; createI32 2] blank _ Hmin Hmax Hcallee)
    as [Hcall _].
  do 2 eexists. split; [exact Hcallee|]. split; [exact Hcall | reflexivity].
Defined.

(** The trampoline of [g] calls [g] with its two parameters. *)
Lemma trampoline_forwards_every_parameter_witness :
  exists tr original' c' others typeRef locals body,
    ensureTrampoline plainExpression defaulted blank = Ok ((tr, original'), c') /\
    functions (module c') =
      others ++
      [mkFunctionEntry "g|trampoline" typeRef locals
         (createBlock None
            [body;
             createCall "g" [createGetLocal 0 NativeType.I32; createGetLocal 1 NativeType.I32]
               NativeType.I32]
            NativeType.I32)].
Proof.
  run Hrun (ensureTrampoline plainExpression defaulted) blank.
  destruct (trampoline_forwards_every_parameter plainExpression defaulted _ _ blank _
              eq_refl Hrun)
    as (_ & others & typeRef & locals & body & Hfunctions).
  do 2 eexists. eexists. exists others, typeRef, locals, body.
  split; [exact Hrun | exact Hfunctions].
Defined.


(** [export enum Color { Red, Green, Blue }] in the entry file *)
Definition colors : list (EnumValue * EnumValueDeclaration) :=
  [ (mkEnumValue "Color.Red" ElementFlags.NONE 0, mkEnumValueDeclaration None here);
    (mkEnumValue "Color.Green" ElementFlags.NONE 0, mkEnumValueDeclaration None here);
    (mkEnumValue "Color.Blue" ElementFlags.NONE 0, mkEnumValueDeclaration None here) ].

Definition enumOf (flags : Z) (values : list (EnumValue * EnumValueDeclaration))
    (exported : bool) : Enum :=
  mkEnum flags (Some (map (fun value => MEMBER_VALUE (fst value) (snd value)) values))
    (mkEnumDeclaration exported true).

Lemma colors_plainValues : plainValues colors.
Proof. repeat constructor. Defined.

Lemma enum_values_count_up_witness :
  exists element' c',
    compileEnum plainExpression (fun e => e) (fun _ p => p)
      DiagnosticCode.Operation_not_supported (enumOf ElementFlags.NONE colors true) blank
    = Ok ((true, element'), c') /\
    globals (module c') =
      [ ("Color.Red", NativeType.I32, false, createI32 0);
        ("Color.Green", NativeType.I32, false, createI32 1);
        ("Color.Blue", NativeType.I32, false, createI32 2) ] /\
    globalExports (module c') =
      [ ("Color.Red", "Color.Red"); ("Color.Green", "Color.Green");
        ("Color.Blue", "Color.Blue") ] /\
    diagnostics c' = [].
Proof.
  assert (Hroom : Z.of_nat (length colors) <= 2 ^ 31) by (vm_compute; discriminate).
  destruct (enum_values_count_up plainExpression (fun e => e) (fun _ p => p)
              DiagnosticCode.Operation_not_supported (enumOf ElementFlags.NONE colors true)
              colors blank eq_refl eq_refl colors_plainValues Hroom)
    as (element' & c' & Hrun & _ & Hglobals & Hexports & _ & Hdiagnostics & _).
  exists element', c'.
  split; [exact Hrun|]. split; [exact Hglobals|]. split; [exact Hexports | exact Hdiagnostics].
Defined.

(** An expression that is no constant: it reads the global [seed]. *)
Definition readsSeed : Expression -> Type_ -> ConversionKind -> bool -> M unit ExpressionRef :=
  fun _ t _ _ => setCurrentType t ;;; ret (createGetGlobal "seed" NativeType.I32).

(** [const enum Level { Low = seed, Mid, High }] *)
Definition levels : list (EnumValue * EnumValueDeclaration) :=
  [ (mkEnumValue "Level.Mid" ElementFlags.NONE 0, mkEnumValueDeclaration None here);
    (mkEnumValue "Level.High" ElementFlags.NONE 0, mkEnumValueDeclaration None here) ].

Definition lowest : EnumValue * EnumValueDeclaration :=
  (mkEnumValue "Level.Low" ElementFlags.NONE 0,
   mkEnumValueDeclaration (Some (expressionOf 4)) here).

Lemma levels_plainValues : plainValues levels.
Proof. repeat constructor. Defined.

Lemma enum_values_after_a_runtime_initializer_witness :
  exists element' c',
    compileEnum readsSeed (fun e => e) (fun _ p => p) DiagnosticCode.Operation_not_supported
      (enumOf ElementFlags.CONSTANT (lowest :: levels) false) blank
    = Ok ((true, element'), c') /\
    globals (module c') =
      [ ("Level.Low", NativeType.I32, true, createI32 0);
        ("Level.Mid", NativeType.I32, true, createI32 0);
        ("Level.High", NativeType.I32, true, createI32 0) ] /\
    startFunctionBody c' =
      [ createSetGlobal "Level.Low" (createGetGlobal "seed" NativeType.I32);
        successor "Level.Low" "Level.Mid"; successor "Level.Mid" "Level.High" ] /\
    globalExports (module c') = [] /\
    length (diagnostics c') = 3%nat.
Proof.
  run Hcurrent (withCurrentEnum (ProgramState := unit) (fun _ p => p)
                  (Some (Enum_set (enumOf ElementFlags.CONSTANT (lowest :: levels) false)
                           ElementFlags.COMPILED))) blank.
  after Hcurrent ltac:(fun c0 =>
    run Hcompiled (compileExpression readsSeed (expressionOf 4) Ty.i32 IMPLICIT true) c0).
  after Hcompiled ltac:(fun c1 =>
    run Hprecomputed (precomputeExpressionRef (ProgramState := unit) (fun e => e)
                        (createGetGlobal "seed" NativeType.I32)) c1).
  destruct (enum_values_after_a_runtime_initializer readsSeed (fun e => e) (fun _ p => p)
              DiagnosticCode.Operation_not_supported
              (enumOf ElementFlags.CONSTANT (lowest :: levels) false)
              (fst lowest) (snd lowest) (expressionOf 4) levels _ _ blank _ _ _
              eq_refl eq_refl eq_refl eq_refl levels_plainValues
              Hcurrent Hcompiled eq_refl Hprecomputed eq_refl)
    as (element' & c' & Hrun & _ & Hglobals & Hstartbody & Hexports & Hdiagnostics).
  exists element', c'.
  split; [exact Hrun|]. split; [exact Hglobals|]. split; [exact Hstartbody|].
  split; [exact Hexports|]. rewrite Hdiagnostics. reflexivity.
Defined.

(** [g(1, 2, 3)]: one argument too many.  (The two diagnostic codes for a
    wrong number of arguments are given as [Type_expected] and
    [Duplicate_identifier_0] here.) *)
Lemma ill_formed_call_rejected_witness :
  compileCallDirect plainExpression DiagnosticCode.Type_expected
    DiagnosticCode.Duplicate_identifier_0 (plainCompileFunction 1) defaulted
    [expressionOf 1; expressionOf 2; expressionOf 3] (expressionOf 9) noExpression blank
  = Ok ((createUnreachable, defaulted),
        withDiagnostics blank [mkDiagnostic DiagnosticCode.Type_expected ERROR here]).
Proof.
  apply (ill_formed_call_rejected plainExpression DiagnosticCode.Type_expected
           DiagnosticCode.Duplicate_identifier_0 (plainCompileFunction 1) defaulted
           [expressionOf 1; expressionOf 2; expressionOf 3] (expressionOf 9) noExpression blank).
  right. right. right. vm_compute. reflexivity.
Defined.

(** [g(1, 2)] *)
Lemma checked_call_reaches_callee_witness :
  compileCallDirect plainExpression DiagnosticCode.Type_expected
    DiagnosticCode.Duplicate_identifier_0 (plainCompileFunction 1) defaulted
    [expressionOf 1; expressionOf 2] (expressionOf 9) noExpression blank
  = (operands <- compileEach plainExpression
                   [(expressionOf 1, Ty.i32); (expressionOf 2, Ty.i32)] ;;
     makeCallDirect plainExpression (plainCompileFunction 1) defaulted (Some operands)) blank /\
  forall operands c1,
    compileEach plainExpression [(expressionOf 1, Ty.i32); (expressionOf 2, Ty.i32)] blank
    = Ok (operands, c1) ->
    1 <= Z.of_nat (length operands) <= 2.
Proof.
  assert (Harity : requiredParameters (signature defaulted)
                   <= Z.of_nat (length [expressionOf 1; expressionOf 2])
                   <= Z.of_nat (length (parameterTypes (signature defaulted))))
    by (vm_compute; split; discriminate).
  exact (checked_call_reaches_callee plainExpression DiagnosticCode.Type_expected
           DiagnosticCode.Duplicate_identifier_0 (plainCompileFunction 1) defaulted
           [expressionOf 1; expressionOf 2] (expressionOf 9) noExpression blank
           eq_refl eq_refl eq_refl Harity).
Defined.

(** The end of [compile] once the string [o] is the only static data: it
    lies at 4 and ends at 10, the heap base is 12, and one page holds it. *)
Lemma heap_after_static_data_witness :
  exists literal c1 setup memory c',
    compileStaticString (fun _ => None) [111] blank = Ok (literal, c1) /\
    finishCompile 65535 [] c1 = Ok (setup, c') /\
    memorySetup setup = Some memory /\
    memoryOffset c' = 12 /\
    globals (module c') = [("HEAP_BASE", NativeType.I32, false, createI32 12)] /\
    initialPages memory = 1 /\
    Forall (fun segment => segmentEnd segment <= 12) (staticSegments memory).
Proof.
  run Hliteral (compileStaticString (ProgramState := unit) (fun _ => None) [111]) blank.
  lazymatch type of Hliteral with
  | _ = Ok (_, ?c1) =>
      assert (Hpacked : wellPacked c1)
        by (split; [vm_compute; discriminate|]; split;
            repeat constructor; vm_compute; discriminate);
      assert (Hroom : memoryOffset c1 + 65536 <= 2 ^ 31) by (vm_compute; discriminate);
      destruct (heap_after_static_data 65535 [] c1 Hpacked eq_refl Hroom)
        as (setup & memory & c' & Hrun & Hsetup & _ & _ & _ & _ & _ & _ & _)
  end.
  do 2 eexists. exists setup, memory, c'.
  split; [exact Hliteral|]. split; [exact Hrun|]. split; [exact Hsetup|].
  vm_compute in Hrun. injection Hrun as <- <-. injection Hsetup as <-.
  split; [reflexivity|]. split; [reflexivity|]. split; [reflexivity|].
  repeat constructor. vm_compute. discriminate.
Defined.

(** [while (5) { ; break }] *)
Definition whileBreaking : Statement :=
  WhileStatement here (expressionOf 5)
    (BlockStatement here ([EmptyStatement here] ++ BreakStatement here None :: [])).

(** [for (;;) { ; continue }] *)
Definition forContinuing : Statement :=
  ForStatement here None None None
    (BlockStatement here ([EmptyStatement here] ++ ContinueStatement here None :: [])).

Lemma statement_keeps_labels_witness :
  exists expr c',
    plainCompileStatement 0 whileBreaking blank = Ok (expr, c') /\
    breakLabel (flow (currentFunction c')) = breakLabel (flow (currentFunction blank)) /\
    continueLabel (flow (currentFunction c')) = continueLabel (flow (currentFunction blank)).
Proof.
  run Hrun (plainCompileStatement 0 whileBreaking) blank.
  do 2 eexists. split; [exact Hrun|].
  exact (statement_keeps_labels plainExpression plainType (fun e => e) unresolved noInstance
           plainTempLocal plainTempLocal plainFreeTempLocal plainAddLocal (fun e => e)
           flowFlags (fun _ p => flowFlags p) noGlobal 0%nat _ _ _ _ Hrun).
Defined.

Lemma break_leaves_the_while_loop_witness :
  exists c' context conditionExpr exprs1 exprs2,
    plainCompileStatement 0 whileBreaking blank
    = Ok (createBlock (Some ("break|" +:+ context))
            [ createLoop ("continue|" +:+ context)
                (createIf conditionExpr
                   (createBlock None
                      [ createBlock None
                          (exprs1 ++ createBreak ("break|" +:+ context) noExpression :: exprs2)
                          NativeType.None;
                        createBreak ("continue|" +:+ context) noExpression ]
                      NativeType.None)
                   noExpression) ]
            NativeType.None, c') /\
    length exprs1 = 1%nat.
Proof.
  run Hrun (plainCompileStatement 0 whileBreaking) blank.
  destruct (break_leaves_the_while_loop plainExpression plainType (fun e => e) unresolved
              noInstance plainTempLocal plainTempLocal plainFreeTempLocal plainAddLocal
              (fun e => e) flowFlags (fun _ p => flowFlags p) noGlobal
              0%nat here here here (expressionOf 5) [EmptyStatement here] [] blank _ _ Hrun)
    as (context & conditionExpr & exprs1 & exprs2 & Hexpr & Hlength).
  eexists. exists context, conditionExpr, exprs1, exprs2.
  split; [rewrite <- Hexpr; exact Hrun | exact Hlength].
Defined.

Lemma continue_restarts_the_for_loop_witness :
  exists expr c' context exprs1 exprs2,
    plainCompileStatement 0 forContinuing blank = Ok (expr, c') /\
    expr =
      createBlock (Some ("break|" +:+ context))
        [ createNop;
          createLoop ("continue|" +:+ context)
            (createBlock None
               [ createIf (createI32 1)
                   (createBlock None
                      [ createBlock None
                          (exprs1 ++
                           createBreak ("continue|" +:+ context) noExpression :: exprs2)
                          NativeType.None;
                        createNop;
                        createBreak ("continue|" +:+ context) noExpression ]
                      NativeType.None)
                   noExpression ]
               NativeType.None) ]
        NativeType.None /\
    length exprs1 = 1%nat.
Proof.
  run Hrun (plainCompileStatement 0 forContinuing) blank.
  destruct (continue_restarts_the_for_loop plainExpression plainType (fun e => e) unresolved
              noInstance plainTempLocal plainTempLocal plainFreeTempLocal plainAddLocal
              (fun e => e) flowFlags (fun _ p => flowFlags p) noGlobal
              0%nat here here here None None None [EmptyStatement here] [] blank _ _ Hrun)
    as (context & initializerExpr & conditionExpr & incrementorExpr & exprs1 & exprs2
        & [Hexpr|Hexpr] & Hlength); [|discriminate Hexpr].
  inversion Hexpr.
  match goal with Hcontext : _ = "" +:+ context |- _ => cbv in Hcontext; subst context end.
  do 2 eexists. exists "0", exprs1, exprs2.
  split; [exact Hrun|]. split; [|exact Hlength].
  match goal with Hbody : _ = exprs1 ++ _ |- _ => rewrite <- Hbody end.
  reflexivity.
Defined.

(** [switch (0) { case 1: return 1; default: ; break }] *)
Definition switchBreaking : Statement :=
  SwitchStatement here (expressionOf 0)
    ([(Some (expressionOf 1), [ReturnStatement here (Some (expressionOf 1))])] ++
     [(None, [EmptyStatement here] ++ BreakStatement here None :: [])]).

Lemma break_leaves_the_switch_witness :
  exists c' context inner exprs1 exprs2,
    plainCompileStatement 0 switchBreaking blank
    = Ok (createBlock (Some ("break|" +:+ context))
            (inner :: exprs1 ++ createBreak ("break|" +:+ context) noExpression :: exprs2)
            NativeType.None, c') /\
    length exprs1 = 1%nat.
Proof.
  run Hrun (plainCompileStatement 0 switchBreaking) blank.
  destruct (break_leaves_the_switch plainExpression plainType (fun e => e) unresolved
              noInstance plainTempLocal plainTempLocal plainFreeTempLocal plainAddLocal
              (fun e => e) flowFlags (fun _ p => flowFlags p) noGlobal
              0%nat here here (expressionOf 0)
              [(Some (expressionOf 1), [ReturnStatement here (Some (expressionOf 1))])]
              None [EmptyStatement here] [] blank _ _ Hrun)
    as (context & inner & exprs1 & exprs2 & Hexpr & Hlength).
  eexists. exists context, inner, exprs1, exprs2.
  split; [rewrite <- Hexpr; exact Hrun | exact Hlength].
Defined.

(** [switch (0) { }] *)
Lemma switch_without_cases_witness :
  exists c' context tempLocal conditionExpr,
    plainCompileStatement 0 (SwitchStatement here (expressionOf 0) []) blank
    = Ok (createBlock (Some ("case0|" +:+ context))
            [ createSetLocal (index tempLocal) conditionExpr;
              createBreak ("break|" +:+ context) noExpression ]
            NativeType.None, c').
Proof.
  run Hrun (plainCompileStatement 0 (SwitchStatement here (expressionOf 0) [])) blank.
  destruct (switch_without_cases plainExpression plainType (fun e => e) unresolved
              noInstance plainTempLocal plainTempLocal plainFreeTempLocal plainAddLocal
              (fun e => e) flowFlags (fun _ p => flowFlags p) noGlobal
              0%nat here (expressionOf 0) blank _ _ Hrun)
    as (context & tempLocal & conditionExpr & Hexpr).
  eexists. exists context, tempLocal, conditionExpr.
  rewrite <- Hexpr. exact Hrun.
Defined.

(** [declare const K: i32] *)
Definition declaredConstant : Global :=
  mkVariable "K" "K" (Z.lor ElementFlags.CONSTANT ElementFlags.DECLARED) Ty.i32 NONE 0
    0%float (-1) (Some (constantDeclaration "i32")) None.

Lemma declared_global_is_imported_or_refused_witness :
  exists c',
    compileGlobal plainExpression plainType (fun e => e) declaredConstant blank
    = Ok ((true, Element_set declaredConstant ElementFlags.COMPILED), c') /\
    globals (module c') = [] /\
    globalImports (module c') = [("K", "env", "K", NativeType.I32)] /\
    diagnostics c' = [].
Proof.
  exact (declared_global_is_imported_or_refused plainExpression plainType (fun e => e)
           declaredConstant (constantDeclaration "i32") blank
           eq_refl eq_refl eq_refl eq_refl eq_refl).
Defined.

(** [do { ; continue } while (5)] *)
Definition doContinuing : Statement :=
  DoStatement here
    (BlockStatement here ([EmptyStatement here] ++ ContinueStatement here None :: []))
    (expressionOf 5).

Lemma continue_restarts_the_do_loop_witness :
  exists c' context conditionExpr exprs1 exprs2,
    plainCompileStatement 0 doContinuing blank
    = Ok (createBlock (Some ("break|" +:+ context))
            [ createLoop ("continue|" +:+ context)
                (createBlock None
                   [ createBlock None
                       (exprs1 ++
                        createBreak ("continue|" +:+ context) noExpression :: exprs2)
                       NativeType.None;
                     createBreak ("continue|" +:+ context) conditionExpr ]
                   NativeType.None) ]
            NativeType.None, c') /\
    length exprs1 = 1%nat.
Proof.
  run Hrun (plainCompileStatement 0 doContinuing) blank.
  destruct (continue_restarts_the_do_loop plainExpression plainType (fun e => e) unresolved
              noInstance plainTempLocal plainTempLocal plainFreeTempLocal plainAddLocal
              (fun e => e) flowFlags (fun _ p => flowFlags p) noGlobal
              0%nat here here here (expressionOf 5) [EmptyStatement here] [] blank _ _ Hrun)
    as (context & conditionExpr & exprs1 & exprs2 & Hexpr & Hlength).
  eexists. exists context, conditionExpr, exprs1, exprs2.
  split; [rewrite <- Hexpr; exact Hrun | exact Hlength].
Defined.

(** [enum Size { Small = 4, Medium, Large }], whose first initializer the
    plain compiler turns into the constant of its id, 4 *)
Definition smallest : EnumValue * EnumValueDeclaration :=
  (mkEnumValue "Size.Small" ElementFlags.NONE 0,
   mkEnumValueDeclaration (Some (expressionOf 4)) here).

Definition sizes : list (EnumValue * EnumValueDeclaration) :=
  [ (mkEnumValue "Size.Medium" ElementFlags.NONE 0, mkEnumValueDeclaration None here);
    (mkEnumValue "Size.Large" ElementFlags.NONE 0, mkEnumValueDeclaration None here) ].

Lemma sizes_plainValues : plainValues sizes.
Proof. repeat constructor. Defined.

Lemma enum_values_count_on_from_a_constant_witness :
  exists element' c',
    compileEnum plainExpression (fun e => e) (fun _ p => p)
      DiagnosticCode.Operation_not_supported
      (enumOf ElementFlags.NONE (smallest :: sizes) false) blank
    = Ok ((true, element'), c') /\
    globals (module c') =
      [ ("Size.Small", NativeType.I32, false, createI32 4);
        ("Size.Medium", NativeType.I32, false, createI32 5);
        ("Size.Large", NativeType.I32, false, createI32 6) ] /\
    startFunctionBody c' = [] /\
    diagnostics c' = [].
Proof.
  run Hcurrent (withCurrentEnum (ProgramState := unit) (fun _ p => p)
                  (Some (Enum_set (enumOf ElementFlags.NONE (smallest :: sizes) false)
                           ElementFlags.COMPILED))) blank.
  after Hcurrent ltac:(fun c0 =>
    run Hcompiled (compileExpression plainExpression (expressionOf 4) Ty.i32 IMPLICIT true) c0).
  assert (Hlow : - 2 ^ 31 <= 4) by (vm_compute; discriminate).
  assert (Hroom : 4 + 1 + Z.of_nat (length sizes) <= 2 ^ 31) by (vm_compute; discriminate).
  destruct (enum_values_count_on_from_a_constant plainExpression (fun e => e) (fun _ p => p)
              DiagnosticCode.Operation_not_supported
              (enumOf ElementFlags.NONE (smallest :: sizes) false)
              (fst smallest) (snd smallest) (expressionOf 4) sizes 4 blank _ _
              eq_refl eq_refl eq_refl eq_refl sizes_plainValues Hlow Hroom
              Hcurrent Hcompiled)
    as (element' & c' & Hrun & _ & Hglobals & Hstartbody & Hdiagnostics).
  exists element', c'.
  split; [exact Hrun|]. split; [exact Hglobals|]. split; [exact Hstartbody | exact Hdiagnostics].
Defined.
